(** * nfc-gate-service: relay, access log, authorization and self-update

    A shallow embedding of the orchestration core of the gate daemon
    (src/config.py, src/relay_controller.py, src/access_logger.py,
    src/turnstile_controller.py, src/updater.py) and the properties its
    specification states about it.

    Conventions.
    - Python [try/except Exception] is modelled by an explicit result type
      [res] and the combinators of the [Py] module; every method that can
      raise returns a [res].
    - Python dictionaries used as records ([access_data], [update_info]) keep
      their insertion order, so they are association lists here; dictionaries
      used as maps ([relay_pins], [relay_states], [_relay_tasks]) are [gmap]s.
    - Collaborators that are not part of the core (the backend client, the
      file system, the archive and hash libraries) appear as explicit
      arguments or as fields of the modelled world. *)

From Stdlib Require Import ZArith String Ascii List Lia Bool Sorted.
From Stdlib Require OrderedTypeEx.
From stdpp Require Import base option list gmap strings pretty.

Local Open Scope string_scope.
Local Open Scope list_scope.
Local Open Scope Z_scope.

(* ===================================================================== *)
(** ** Python exceptions and effects *)
(* ===================================================================== *)

Module Py.

(** The exception classes the modelled code can meet.  All of them derive
    from [Exception] but [CancelledError], which derives from
    [BaseException] and passes through [except Exception]. *)
Inductive exn : Type :=
| KeyError (key : string)
| OSError
| JSONDecodeError
| TransportError
| Exception (msg : string)
| CancelledError.

Definition is_Exception (e : exn) : bool :=
  match e with
  | CancelledError => false
  | _ => true
  end.

(** [str(e)] as far as the code uses it. *)
Definition str (e : exn) : string :=
  match e with
  | KeyError k => k
  | OSError => "OSError"
  | JSONDecodeError => "JSONDecodeError"
  | TransportError => "TransportError"
  | Exception msg => msg
  | CancelledError => ""
  end.

Inductive res (A : Type) : Type :=
| Ok (a : A)
| Raise (e : exn).
Arguments Ok {A} a.
Arguments Raise {A} e.

(** Stateful, fallible computations over a state [S]. *)
Definition M (S A : Type) : Type := S -> res A * S.

Definition ret {S A} (a : A) : M S A := fun s => (Ok a, s).
Definition raise {S A} (e : exn) : M S A := fun s => (Raise e, s).
Definition bind {S A B} (m : M S A) (k : A -> M S B) : M S B :=
  fun s => match m s with
           | (Ok a, s') => k a s'
           | (Raise e, s') => (Raise e, s')
           end.
Definition get {S} : M S S := fun s => (Ok s, s).
Definition put {S} (s : S) : M S unit := fun _ => (Ok tt, s).
Definition modify {S} (f : S -> S) : M S unit := fun s => (Ok tt, f s).
Definition lift {S A} (r : res A) : M S A := fun s => (r, s).

(** [try: body except Exception as e: handler e]. *)
Definition try_except {S A} (body : M S A) (handler : exn -> M S A) : M S A :=
  fun s => match body s with
           | (Ok a, s') => (Ok a, s')
           | (Raise e, s') =>
               if is_Exception e then handler e s' else (Raise e, s')
           end.

(** [try: body finally: fin]; an exception of [fin] replaces the outcome
    of [body]. *)
Definition try_finally {S A} (body : M S A) (fin : M S unit) : M S A :=
  fun s => match body s with
           | (r, s') =>
               match fin s' with
               | (Ok _, s'') => (r, s'')
               | (Raise e, s'') => (Raise e, s'')
               end
           end.

Definition returns {S A} (m : M S A) (s : S) : Prop :=
  exists a, fst (m s) = Ok a.

End Py.

Import Py.

Declare Scope py_scope.
Delimit Scope py_scope with py.
Notation "x <- m ;; k" := (Py.bind m (fun x => k))
  (at level 100, m at next level, right associativity) : py_scope.
Notation "m ;;; k" := (Py.bind m (fun _ => k))
  (at level 100, right associativity) : py_scope.

(* ===================================================================== *)
(** ** src/config.py *)
(* ===================================================================== *)

Module Config.

Inductive device_type := Turnstile | Door.
Inductive environment := Test | Production.

(** The fields of [Config] the core reads.  [RELAY_CHANNEL_2] is [None]
    unless the device is a turnstile (config.py, line 32). *)
Record t : Type := mk {
  DEVICE_ID : string;
  DEVICE_TYPE : device_type;
  ENVIRONMENT : environment;
  RELAY_CHANNEL_1 : Z;
  RELAY_CHANNEL_2 : option Z;
  RELAY_OPEN_DURATION : nat;
  FALLBACK_MODE_ENABLED : bool;
  MAX_OFFLINE_LOGS : Z;
  AUTO_UPDATE_ENABLED : bool
}.

Definition is_test_mode (c : t) : bool :=
  match ENVIRONMENT c with Test => true | Production => false end.

Definition is_turnstile (c : t) : bool :=
  match DEVICE_TYPE c with Turnstile => true | Door => false end.

(** [Config.__init__] for the fields above: [pin2] is what the
    environment variable RELAY_CHANNEL_2 holds (default 19). *)
Definition init (device_id : string) (dt : device_type) (env : environment)
    (pin1 pin2 : Z) (open_duration : nat) (fallback : bool)
    (max_offline : Z) (auto_update : bool) : t :=
  {| DEVICE_ID := device_id;
     DEVICE_TYPE := dt;
     ENVIRONMENT := env;
     RELAY_CHANNEL_1 := pin1;
     RELAY_CHANNEL_2 := match dt with Turnstile => Some pin2 | Door => None end;
     RELAY_OPEN_DURATION := open_duration;
     FALLBACK_MODE_ENABLED := fallback;
     MAX_OFFLINE_LOGS := max_offline;
     AUTO_UPDATE_ENABLED := auto_update |}.

End Config.


(* ===================================================================== *)
(** ** The offline-queue document: json.dumps / json.loads *)
(* ===================================================================== *)

(** The standard-library codec the access logger calls, restricted to the
    documents the logger writes: a list of flat dictionaries whose values are
    strings, booleans or [None].  A character is one [ascii]; characters from
    0x80 on pass through both directions unchanged, as they do with
    [ensure_ascii=False].  Numbers and nested containers are outside the
    model: [loads] answers [None] on them. *)
Module Json.

Inductive value : Type :=
| Null
| Bool (b : bool)
| Str (s : string).

(** A Python [dict] with string keys, in insertion order. *)
Definition dict : Type := list (string * value).

Definition dq : ascii := "034"%char.
Definition backslash : ascii := "092"%char.
Definition nl : ascii := "010"%char.

(** *** Encoder (json.dumps(obj, indent=2, ensure_ascii=False)) *)

(** One digit of the ['\\u{0:04x}'] format. *)
Definition hex_digit (n : N) : ascii :=
  ascii_of_N (if (n <? 10)%N then 48 + n else 87 + n)%N.

(** [ESCAPE_DCT] of json.encoder. *)
Definition escape_char (c : ascii) : string :=
  if Ascii.eqb c dq then String backslash (String dq "")
  else if Ascii.eqb c backslash then String backslash (String backslash "")
  else if Ascii.eqb c "008" then String backslash "b"
  else if Ascii.eqb c "012" then String backslash "f"
  else if Ascii.eqb c "010" then String backslash "n"
  else if Ascii.eqb c "013" then String backslash "r"
  else if Ascii.eqb c "009" then String backslash "t"
  else if (N_of_ascii c <? 32)%N then
    String backslash
      (String "u" (String "0" (String "0"
         (String (hex_digit (N_of_ascii c / 16))
            (String (hex_digit (N_of_ascii c mod 16)) "")))))
  else String c "".

Fixpoint escape (s : string) : string :=
  match s with
  | "" => ""
  | String c s' => escape_char c +:+ escape s'
  end.

Definition encode_basestring (s : string) : string :=
  String dq (escape s +:+ String dq "").

Definition dump_value (v : value) : string :=
  match v with
  | Null => "null"
  | Bool true => "true"
  | Bool false => "false"
  | Str s => encode_basestring s
  end.

Definition dump_pair (kv : string * value) : string :=
  encode_basestring (fst kv) +:+ ": " +:+ dump_value (snd kv).

(** A dictionary printed at nesting level 1 (an element of the list). *)
Definition dump_dict (d : dict) : string :=
  match d with
  | [] => "{}"
  | _ => "{" +:+ String nl "    "
         +:+ String.concat ("," +:+ String nl "    ") (map dump_pair d)
         +:+ String nl "  }"
  end.

Definition dumps (l : list dict) : string :=
  match l with
  | [] => "[]"
  | _ => "[" +:+ String nl "  "
         +:+ String.concat ("," +:+ String nl "  ") (map dump_dict l)
         +:+ String nl "]"
  end.

(** *** Decoder (json.loads) *)

(** [WHITESPACE_STR = ' \t\n\r']. *)
Definition is_ws (c : ascii) : bool :=
  Ascii.eqb c " " || Ascii.eqb c "009" || Ascii.eqb c "010" || Ascii.eqb c "013".

Fixpoint skip_ws (s : string) : string :=
  match s with
  | "" => ""
  | String c s' => if is_ws c then skip_ws s' else s
  end.

Definition hex_value (c : ascii) : option N :=
  let n := N_of_ascii c in
  if ((48 <=? n) && (n <=? 57))%N then Some (n - 48)%N
  else if ((97 <=? n) && (n <=? 102))%N then Some (n - 87)%N
  else if ((65 <=? n) && (n <=? 70))%N then Some (n - 55)%N
  else None.

(** The [BACKSLASH] table of json.decoder. *)
Definition unescape_simple (c : ascii) : option ascii :=
  if Ascii.eqb c dq then Some dq
  else if Ascii.eqb c backslash then Some backslash
  else if Ascii.eqb c "/" then Some "/"%char
  else if Ascii.eqb c "b" then Some "008"%char
  else if Ascii.eqb c "f" then Some "012"%char
  else if Ascii.eqb c "n" then Some "010"%char
  else if Ascii.eqb c "r" then Some "013"%char
  else if Ascii.eqb c "t" then Some "009"%char
  else None.

(** [py_scanstring] in strict mode, from the character after the opening
    quote: the decoded string and the text after the closing quote.  An
    escape [\uXXXX] of a code point from 0x100 on is outside the model. *)
Fixpoint scanstring (s : string) : option (string * string) :=
  match s with
  | "" => None
  | String c s1 =>
      if Ascii.eqb c dq then Some ("", s1)
      else if Ascii.eqb c backslash then
        match s1 with
        | "" => None
        | String e s2 =>
            if Ascii.eqb e "u" then
              match s2 with
              | String h1 (String h2 (String h3 (String h4 s3))) =>
                  match hex_value h1, hex_value h2, hex_value h3, hex_value h4 with
                  | Some 0%N, Some 0%N, Some a, Some b =>
                      match scanstring s3 with
                      | Some (r, rest) => Some (String (ascii_of_N (16 * a + b)) r, rest)
                      | None => None
                      end
                  | _, _, _, _ => None
                  end
              | _ => None
              end
            else
              match unescape_simple e with
              | Some c' =>
                  match scanstring s2 with
                  | Some (r, rest) => Some (String c' r, rest)
                  | None => None
                  end
              | None => None
              end
        end
      else if (N_of_ascii c <? 32)%N then None
      else
        match scanstring s1 with
        | Some (r, rest) => Some (String c r, rest)
        | None => None
        end
  end.

Definition parse_value (s : string) : option (value * string) :=
  match s with
  | String "n" (String "u" (String "l" (String "l" rest))) => Some (Null, rest)
  | String "t" (String "r" (String "u" (String "e" rest))) => Some (Bool true, rest)
  | String "f" (String "a" (String "l" (String "s" (String "e" rest)))) =>
      Some (Bool false, rest)
  | String c s1 =>
      if Ascii.eqb c dq then
        match scanstring s1 with
        | Some (r, rest) => Some (Str r, rest)
        | None => None
        end
      else None
  | "" => None
  end.

(** [d[k] = v] on an insertion-ordered dictionary. *)
Fixpoint dict_set (k : string) (v : value) (d : dict) : dict :=
  match d with
  | [] => [(k, v)]
  | (k', v') :: d' =>
      if String.eqb k' k then (k', v) :: d' else (k', v') :: dict_set k v d'
  end.

(** The loop of [JSONObject], entered at the opening quote of a key. *)
Fixpoint parse_pairs (fuel : nat) (acc : dict) (s : string) : option (dict * string) :=
  match fuel with
  | O => None
  | S fuel' =>
      match s with
      | "" => None
      | String c s1 =>
          if negb (Ascii.eqb c dq) then None
          else
            match scanstring s1 with
            | None => None
            | Some (k, s2) =>
                match skip_ws s2 with
                | "" => None
                | String c3 s3 =>
                    if negb (Ascii.eqb c3 ":") then None
                    else
                      match parse_value (skip_ws s3) with
                      | None => None
                      | Some (v, s4) =>
                          match skip_ws s4 with
                          | "" => None
                          | String c5 s5 =>
                              if Ascii.eqb c5 "}" then Some (dict_set k v acc, s5)
                              else if Ascii.eqb c5 "," then
                                parse_pairs fuel' (dict_set k v acc) (skip_ws s5)
                              else None
                          end
                      end
                end
            end
      end
  end.

(** [JSONObject], from the character after the opening brace. *)
Definition parse_object (fuel : nat) (s : string) : option (dict * string) :=
  match skip_ws s with
  | "" => None
  | String c s1 =>
      if Ascii.eqb c "}" then Some ([], s1)
      else parse_pairs fuel [] (String c s1)
  end.

(** The loop of [JSONArray], entered at the first character of an element;
    the elements of an offline-queue document are objects. *)
Fixpoint parse_elems (fuel : nat) (s : string) : option (list dict * string) :=
  match fuel with
  | O => None
  | S fuel' =>
      match s with
      | "" => None
      | String c s1 =>
          if negb (Ascii.eqb c "{") then None
          else
            match parse_object fuel' s1 with
            | None => None
            | Some (d, s2) =>
                match skip_ws s2 with
                | "" => None
                | String c3 s3 =>
                    if Ascii.eqb c3 "]" then Some ([d], s3)
                    else if Ascii.eqb c3 "," then
                      match parse_elems fuel' (skip_ws s3) with
                      | Some (l, rest) => Some (d :: l, rest)
                      | None => None
                      end
                    else None
                end
            end
      end
  end.

(** [JSONArray], from the character after the opening bracket. *)
Definition parse_array (fuel : nat) (s : string) : option (list dict * string) :=
  match skip_ws s with
  | "" => None
  | String c s1 =>
      if Ascii.eqb c "]" then Some ([], s1)
      else parse_elems fuel (String c s1)
  end.

(** [json.loads] on an offline-queue document, a list of objects whose
    values are [null], booleans and strings.  [None] stands for a raised
    [JSONDecodeError], and also for a well-formed document of another shape
    (one with a number, a nested value, or a value that is not a list),
    which [json.loads] decodes and which is outside the model;
    [well_formed] below tells the two apart.  Every iteration of the two
    loops consumes a character, so the length of the text bounds them. *)
Definition loads_fuel (fuel : nat) (s : string) : option (list dict) :=
  match skip_ws s with
  | "" => None
  | String c s1 =>
      if negb (Ascii.eqb c "[") then None
      else
        match parse_array fuel s1 with
        | None => None
        | Some (l, rest) =>
            match skip_ws rest with
            | "" => Some l
            | String _ _ => None
            end
        end
  end.

Definition loads (s : string) : option (list dict) :=
  loads_fuel (String.length s) s.

(** *** Well-formed documents *)

(** The decoder above builds the documents the logger writes.  What
    follows recognises every document [json.loads] accepts, as the scanner
    of CPython's [_json] module reads it ([scan_once_unicode],
    [_parse_object_unicode], [_parse_array_unicode], [_match_number_unicode],
    [scanstring_unicode] in strict mode): it builds no value and answers
    with the text after the value it has read. *)

Definition is_digit (c : ascii) : bool :=
  ((48 <=? N_of_ascii c) && (N_of_ascii c <=? 57))%N.

Definition is_hex (c : ascii) : bool :=
  match hex_value c with Some _ => true | None => false end.

Fixpoint skip_digits (s : string) : string :=
  match s with
  | "" => ""
  | String c s' => if is_digit c then skip_digits s' else s
  end.

(** A ['.'] followed by a digit opens the fraction. *)
Definition skip_fraction (s : string) : string :=
  match s with
  | String c (String d s') =>
      if Ascii.eqb c "." && is_digit d then skip_digits s' else s
  | _ => s
  end.

(** An exponent is read if a digit follows the ['e'] and its sign;
    otherwise the number ends before the ['e']. *)
Definition skip_exponent (s : string) : string :=
  match s with
  | String c s1 =>
      if Ascii.eqb c "e" || Ascii.eqb c "E" then
        let s2 := match s1 with
                  | String sign s' =>
                      if Ascii.eqb sign "-" || Ascii.eqb sign "+" then s' else s1
                  | "" => s1
                  end in
        match s2 with
        | String d s3 => if is_digit d then skip_digits s3 else s
        | "" => s
        end
      else s
  | "" => s
  end.

(** [_match_number_unicode]: the text after the longest number at the
    start of [s], [None] if there is none. *)
Definition match_number (s : string) : option string :=
  let s1 := match s with
            | String c s' => if Ascii.eqb c "-" then s' else s
            | "" => s
            end in
  match s1 with
  | String c s2 =>
      if Ascii.eqb c "0" then Some (skip_exponent (skip_fraction s2))
      else if is_digit c then Some (skip_exponent (skip_fraction (skip_digits s2)))
      else None
  | "" => None
  end.

(** The text after the prefix [p] of [s]. *)
Fixpoint after_prefix (p s : string) : option string :=
  match p with
  | "" => Some s
  | String a p' =>
      match s with
      | String b s' => if Ascii.eqb a b then after_prefix p' s' else None
      | "" => None
      end
  end.

Definition constants : list string :=
  ["null"; "true"; "false"; "NaN"; "Infinity"; "-Infinity"].

Fixpoint skip_constant (ps : list string) (s : string) : option string :=
  match ps with
  | [] => None
  | p :: ps' =>
      match after_prefix p s with
      | Some rest => Some rest
      | None => skip_constant ps' s
      end
  end.

(** A value that is neither a string, an object nor an array: one of the
    constants, or else a number. *)
Definition skip_scalar (s : string) : option string :=
  match skip_constant constants s with
  | Some rest => Some rest
  | None => match_number s
  end.

(** [scanstring_unicode] in strict mode, from the character after the
    opening quote: any escape [\uXXXX] with four hexadecimal digits is
    taken. *)
Fixpoint skip_string (s : string) : option string :=
  match s with
  | "" => None
  | String c s1 =>
      if Ascii.eqb c dq then Some s1
      else if Ascii.eqb c backslash then
        match s1 with
        | "" => None
        | String e s2 =>
            if Ascii.eqb e "u" then
              match s2 with
              | String h1 (String h2 (String h3 (String h4 s3))) =>
                  if is_hex h1 && is_hex h2 && is_hex h3 && is_hex h4
                  then skip_string s3 else None
              | _ => None
              end
            else
              match unescape_simple e with
              | Some _ => skip_string s2
              | None => None
              end
        end
      else if (N_of_ascii c <? 32)%N then None
      else skip_string s1
  end.

(** [scan_once_unicode] at the first character of a value, with the loops
    of [_parse_object_unicode] (entered at the opening quote of a key) and
    of [_parse_array_unicode] (entered at the first character of an
    element). *)
Fixpoint skip_value (fuel : nat) (s : string) {struct fuel} : option string :=
  match fuel with
  | O => None
  | S fuel' =>
      match s with
      | "" => None
      | String c s1 =>
          if Ascii.eqb c dq then skip_string s1
          else if Ascii.eqb c "{" then
            match skip_ws s1 with
            | "" => None
            | String c2 s2 =>
                if Ascii.eqb c2 "}" then Some s2
                else skip_pairs fuel' (String c2 s2)
            end
          else if Ascii.eqb c "[" then
            match skip_ws s1 with
            | "" => None
            | String c2 s2 =>
                if Ascii.eqb c2 "]" then Some s2
                else skip_elems fuel' (String c2 s2)
            end
          else skip_scalar s
      end
  end
with skip_pairs (fuel : nat) (s : string) {struct fuel} : option string :=
  match fuel with
  | O => None
  | S fuel' =>
      match s with
      | "" => None
      | String c s1 =>
          if negb (Ascii.eqb c dq) then None
          else
            match skip_string s1 with
            | None => None
            | Some s2 =>
                match skip_ws s2 with
                | "" => None
                | String c3 s3 =>
                    if negb (Ascii.eqb c3 ":") then None
                    else
                      match skip_value fuel' (skip_ws s3) with
                      | None => None
                      | Some s4 =>
                          match skip_ws s4 with
                          | "" => None
                          | String c5 s5 =>
                              if Ascii.eqb c5 "}" then Some s5
                              else if Ascii.eqb c5 "," then
                                skip_pairs fuel' (skip_ws s5)
                              else None
                          end
                      end
                end
            end
      end
  end
with skip_elems (fuel : nat) (s : string) {struct fuel} : option string :=
  match fuel with
  | O => None
  | S fuel' =>
      match skip_value fuel' s with
      | None => None
      | Some s2 =>
          match skip_ws s2 with
          | "" => None
          | String c3 s3 =>
              if Ascii.eqb c3 "]" then Some s3
              else if Ascii.eqb c3 "," then skip_elems fuel' (skip_ws s3)
              else None
          end
      end
  end.

(** Whether [json.loads] decodes the text, to whatever value, rather than
    raise [JSONDecodeError].  A value nested in another costs two units of
    fuel for at least one character, so twice the length of the text is
    enough ([Json.skip_value] never runs out: see [skip_value_fuel]).
    Limits of the interpreter (recursion depth, digits of an integer) are
    not modelled: a document CPython refuses for its size alone counts as
    well-formed. *)
Definition well_formed (s : string) : bool :=
  match skip_value (S (2 * String.length s)) (skip_ws s) with
  | Some rest =>
      match skip_ws rest with
      | "" => true
      | String _ _ => false
      end
  | None => false
  end.

(** *** A list of strings: json.dump(obj, f, indent=2) and json.load *)

(** [ESCAPE_ASCII] of json.encoder: with [ensure_ascii] left at its default
    every character outside the printable ASCII range is escaped as well.
    A character is a code point below 256 here. *)
Definition escape_ascii_char (c : ascii) : string :=
  if Ascii.eqb c dq then String backslash (String dq "")
  else if Ascii.eqb c backslash then String backslash (String backslash "")
  else if Ascii.eqb c "008" then String backslash "b"
  else if Ascii.eqb c "012" then String backslash "f"
  else if Ascii.eqb c "010" then String backslash "n"
  else if Ascii.eqb c "013" then String backslash "r"
  else if Ascii.eqb c "009" then String backslash "t"
  else if ((N_of_ascii c <? 32) || (126 <? N_of_ascii c))%N then
    String backslash
      (String "u" (String "0" (String "0"
         (String (hex_digit (N_of_ascii c / 16))
            (String (hex_digit (N_of_ascii c mod 16)) "")))))
  else String c "".

Fixpoint escape_ascii (s : string) : string :=
  match s with
  | "" => ""
  | String c s' => escape_ascii_char c +:+ escape_ascii s'
  end.

Definition encode_basestring_ascii (s : string) : string :=
  String dq (escape_ascii s +:+ String dq "").

(** A list of strings printed at nesting level 0. *)
Definition dumps_strings (l : list string) : string :=
  match l with
  | [] => "[]"
  | _ => "[" +:+ String nl "  "
         +:+ String.concat ("," +:+ String nl "  ") (map encode_basestring_ascii l)
         +:+ String nl "]"
  end.

(** The loop of [JSONArray] on a list of strings, entered at the first
    character of an element. *)
Fixpoint parse_strings (fuel : nat) (s : string) : option (list string * string) :=
  match fuel with
  | O => None
  | S fuel' =>
      match s with
      | "" => None
      | String c s1 =>
          if negb (Ascii.eqb c dq) then None
          else
            match scanstring s1 with
            | None => None
            | Some (x, s2) =>
                match skip_ws s2 with
                | "" => None
                | String c3 s3 =>
                    if Ascii.eqb c3 "]" then Some ([x], s3)
                    else if Ascii.eqb c3 "," then
                      match parse_strings fuel' (skip_ws s3) with
                      | Some (l, rest) => Some (x :: l, rest)
                      | None => None
                      end
                    else None
                end
            end
      end
  end.

(** [json.loads] on a document that is a list of strings; [None] stands
    for a raised [JSONDecodeError], and also for a document of another
    shape, which is outside the model. *)
Definition loads_strings (s : string) : option (list string) :=
  match skip_ws s with
  | "" => None
  | String c s1 =>
      if negb (Ascii.eqb c "[") then None
      else
        match skip_ws s1 with
        | "" => None
        | String c2 s2 =>
            match (if Ascii.eqb c2 "]" then Some ([], s2)
                   else parse_strings (String.length s) (String c2 s2)) with
            | None => None
            | Some (l, rest) =>
                match skip_ws rest with
                | "" => Some l
                | String _ _ => None
                end
            end
        end
  end.

End Json.


(* ===================================================================== *)
(** ** Python built-ins used by the core *)
(* ===================================================================== *)

Module Builtins.

(** [l[i:]]: a negative [i] counts from the end, and both ends clamp. *)
Definition slice_from {A} (i : Z) (l : list A) : list A :=
  let n := Z.of_nat (length l) in
  let start := if i <? 0 then Z.max (n + i) 0 else Z.min i n in
  drop (Z.to_nat start) l.

(** [str.isspace] on the ASCII range. *)
Definition isspace (c : ascii) : bool :=
  let n := N_of_ascii c in
  (((9 <=? n) && (n <=? 13)) || ((28 <=? n) && (n <=? 32)))%N.

(** [s.strip() == ''], the negation of the truth value of [s.strip()]. *)
Fixpoint strip_is_empty (s : string) : bool :=
  match s with
  | "" => true
  | String c s' => isspace c && strip_is_empty s'
  end.

(** [s.strip()]. *)
Fixpoint lstrip (s : string) : string :=
  match s with
  | "" => ""
  | String c s' => if isspace c then lstrip s' else s
  end.

Fixpoint rstrip (s : string) : string :=
  match s with
  | "" => ""
  | String c s' =>
      match rstrip s' with
      | "" => if isspace c then "" else String c ""
      | r => String c r
      end
  end.

Definition strip (s : string) : string := lstrip (rstrip s).

(** [s[:n]] for a string. *)
Fixpoint str_take (n : nat) (s : string) : string :=
  match n, s with
  | S n', String c s' => String c (str_take n' s')
  | _, _ => ""
  end.

(** [d.get(k)] and [k in d] on an insertion-ordered dictionary. *)
Fixpoint dict_get (k : string) (d : Json.dict) : option Json.value :=
  match d with
  | [] => None
  | (k', v) :: d' => if String.eqb k' k then Some v else dict_get k d'
  end.

(** The truth value of a JSON scalar. *)
Definition truthy (v : Json.value) : bool :=
  match v with
  | Json.Null => false
  | Json.Bool b => b
  | Json.Str s => negb (String.eqb s "")
  end.

(** [x in l] for a list of strings. *)
Definition str_in (x : string) (l : list string) : bool :=
  existsb (String.eqb x) l.

(** [a < b] on strings: by code point, a proper prefix first. *)
Definition str_ltb (a b : string) : bool :=
  match String.compare a b with
  | Lt => true
  | _ => false
  end.

(** The truth value of an optional string argument: [None] and [''] are
    false. *)
Definition opt_truthy (x : option string) : bool :=
  match x with
  | Some s => negb (String.eqb s "")
  | None => false
  end.

End Builtins.

(* ===================================================================== *)
(** ** src/access_logger.py *)
(* ===================================================================== *)

Module AccessLogger.

Import Builtins.

(** The offline-log file.  [content = None]: the file does not exist.
    [read_fails] / [write_fails]: the file cannot be opened for reading /
    writing: [open] raises [OSError] (a permission error, a missing
    directory) before anything is read or written, so the file is left as
    it is.  A write that fails after [open(file, 'w')] has truncated the
    file is not modelled: what is stated for [write_fails = true] is
    stated for a failure to open. *)
Record storage : Type := mk_storage {
  content : option string;
  read_fails : bool;
  write_fails : bool
}.

Inductive level := DEBUG | INFO | WARNING | ERROR.

(** What the logger hands to [logging]: the level and the message, with the
    interpolated values kept apart from the fixed text. *)
Inductive message : Type :=
| MsgAccess (card8 : string) (direction authorized : Json.value) (offline : Json.value)
| MsgEvicted (kept : Z)
| MsgLoaded (count : nat)
| MsgLoadError (e : exn)
| MsgSaveError (e : exn)
| MsgPersistError (e : exn)
| MsgLogAccessError (e : exn)
| MsgCleared.

Record t : Type := mk {
  _offline_logs_cache : list Json.dict;
  _cache_loaded : bool;
  offline_logs_file : storage;
  records : list (level * message)
}.

Definition emit (lv : level) (m : message) : M t unit :=
  Py.modify (fun s => mk (_offline_logs_cache s) (_cache_loaded s)
                         (offline_logs_file s) (records s ++ [(lv, m)])).

Definition set_cache (c : list Json.dict) : M t unit :=
  Py.modify (fun s => mk c (_cache_loaded s) (offline_logs_file s) (records s)).

Definition set_loaded (b : bool) : M t unit :=
  Py.modify (fun s => mk (_offline_logs_cache s) b (offline_logs_file s) (records s)).

(** [async with aiofiles.open(file, 'w') as f: await f.write(text)]: either
    the open fails, or the file is truncated and takes the whole text. *)
Definition write_file (text : string) : M t unit :=
  fun s =>
    let f := offline_logs_file s in
    if write_fails f then (Raise OSError, s)
    else (Ok tt, mk (_offline_logs_cache s) (_cache_loaded s)
                    (mk_storage (Some text) (read_fails f) (write_fails f))
                    (records s)).

(** [async with aiofiles.open(file, 'r') as f: content = await f.read()],
    for a file that exists. *)
Definition read_file : M t string :=
  fun s =>
    let f := offline_logs_file s in
    if read_fails f then (Raise OSError, s)
    else match content f with
         | Some text => (Ok text, s)
         | None => (Raise OSError, s)
         end.

Definition exists_file (s : t) : bool :=
  match content (offline_logs_file s) with Some _ => true | None => false end.

(** [__init__]: an empty cache, not yet loaded. *)
Definition init (file : storage) : t := mk [] false file [].

Local Open Scope py_scope.

(** [_persist_offline_logs] (lines 113-120). *)
Definition _persist_offline_logs : M t unit :=
  Py.try_except
    (s <- Py.get ;;
     write_file (Json.dumps (_offline_logs_cache s)))
    (fun e => emit ERROR (MsgPersistError e)).

(** [_save_offline_log] (lines 73-90); the lock serialises callers and has
    no effect on one call. *)
Definition _save_offline_log (max_offline_logs : Z) (access_data : Json.dict)
    : M t unit :=
  Py.try_except
    (s <- Py.get ;;
     set_cache (_offline_logs_cache s ++ [access_data]) ;;;
     s <- Py.get ;;
     (if Z.of_nat (length (_offline_logs_cache s)) >? max_offline_logs then
        set_cache (slice_from (- max_offline_logs) (_offline_logs_cache s)) ;;;
        emit WARNING (MsgEvicted max_offline_logs)
      else Py.ret tt) ;;;
     _persist_offline_logs)
    (fun e => emit ERROR (MsgSaveError e)).

(** [_load_offline_logs] (lines 92-111).  For a text that [Json.loads]
    does not decode the model takes the path of a raised
    [JSONDecodeError]; this is what the code does when the text is not
    well-formed ([Json.well_formed]), and says nothing of the well-formed
    documents that are outside the model of [Json.loads]. *)
Definition _load_offline_logs : M t unit :=
  Py.try_except
    (s <- Py.get ;;
     (if exists_file s then
        text <- read_file ;;
        if negb (strip_is_empty text) then
          match Json.loads text with
          | Some l => set_cache l
          | None => Py.raise JSONDecodeError
          end
        else set_cache []
      else set_cache []) ;;;
     set_loaded true ;;;
     s <- Py.get ;;
     emit INFO (MsgLoaded (length (_offline_logs_cache s))))
    (fun e =>
       emit ERROR (MsgLoadError e) ;;;
       set_cache [] ;;;
       set_loaded true).

(** [initialize] (lines 26-39), after the directory is made. *)
Definition initialize : M t unit :=
  Py.try_except _load_offline_logs (fun e => Py.raise e).

(** [_send_realtime_log] (lines 144-151): a placeholder. *)
Definition _send_realtime_log (access_data : Json.dict) : M t unit :=
  Py.try_except (Py.ret tt) (fun _ => Py.ret tt).

(** [access_data[k]]. *)
Definition subscript (access_data : Json.dict) (k : string) : M t Json.value :=
  match dict_get k access_data with
  | Some v => Py.ret v
  | None => Py.raise (KeyError k)
  end.

(** [access_data['card_id'][:8]]: slicing needs a string. *)
Definition card_prefix (v : Json.value) : M t string :=
  match v with
  | Json.Str s => Py.ret (str_take 8 s)
  | _ => Py.raise (Exception "TypeError")
  end.

(** The dictionary after line 45-46: a missing timestamp is filled in, in
    place, before anything that can raise. *)
Definition with_timestamp (now : string) (access_data : Json.dict) : Json.dict :=
  match dict_get "timestamp" access_data with
  | Some _ => access_data
  | None => access_data ++ [("timestamp", Json.Str now)]
  end.

Definition offline_flag (access_data : Json.dict) : Json.value :=
  match dict_get "offline_mode" access_data with
  | Some v => v
  | None => Json.Bool false
  end.

(** [log_access] (lines 41-71).  [now] is [datetime.now().isoformat()]. *)
Definition log_access (max_offline_logs : Z) (now : string)
    (access_data0 : Json.dict) : M t unit :=
  let access_data := with_timestamp now access_data0 in
  Py.try_except
    (card <- subscript access_data "card_id" ;;
     card8 <- card_prefix card ;;
     dir <- subscript access_data "direction" ;;
     auth <- subscript access_data "authorized" ;;
     emit INFO (MsgAccess card8 dir auth (offline_flag access_data)) ;;;
     (if negb (truthy (offline_flag access_data)) then Py.ret tt
      else _save_offline_log max_offline_logs access_data) ;;;
     _send_realtime_log access_data)
    (fun e =>
       emit ERROR (MsgLogAccessError e) ;;;
       _save_offline_log max_offline_logs access_data).

(** [get_offline_logs] (lines 122-127): a copy of the cache. *)
Definition get_offline_logs : M t (list Json.dict) :=
  s <- Py.get ;;
  (if negb (_cache_loaded s) then _load_offline_logs else Py.ret tt) ;;;
  s <- Py.get ;;
  Py.ret (_offline_logs_cache s).

(** [clear_offline_logs] (lines 129-137). *)
Definition clear_offline_logs : M t unit :=
  Py.try_except
    (set_cache [] ;;;
     _persist_offline_logs ;;;
     emit INFO MsgCleared)
    (fun e => emit ERROR (MsgSaveError e)).

(** [get_offline_logs_count] (lines 139-142): the length of the cache as it
    is; unlike [get_offline_logs] it does not load the cache first. *)
Definition get_offline_logs_count : M t nat :=
  s <- Py.get ;;
  Py.ret (length (_offline_logs_cache s)).

(** *** Reports (lines 153-226) *)

(** The error lines of the two reporting functions.  They are kept beside
    the logger, whose [records] hold the lines of the queue functions. *)
Inductive report_message : Type :=
| MsgExportError (e : exn)
| MsgStatsError (e : exn).

Record reporter : Type := mk_reporter {
  logger : t;
  report_records : list (level * report_message)
}.

Definition on_logger {A} (m : M t A) : M reporter A :=
  fun r => match m (logger r) with
           | (x, l) => (x, mk_reporter l (report_records r))
           end.

Definition emit_report (lv : level) (m : report_message) : M reporter unit :=
  Py.modify (fun r => mk_reporter (logger r) (report_records r ++ [(lv, m)])).

(** [log.get('timestamp', '')]. *)
Definition timestamp_or_empty (log : Json.dict) : Json.value :=
  default (Json.Str "") (dict_get "timestamp" log).

(** [a < b] and [a > b] where [b] is a string: Python compares a string
    with a string only. *)
Definition lt_str (a : Json.value) (b : string) : res bool :=
  match a with
  | Json.Str x => Ok (str_ltb x b)
  | _ => Raise (Exception "TypeError")
  end.

Definition gt_str (a : Json.value) (b : string) : res bool :=
  match a with
  | Json.Str x => Ok (str_ltb b x)
  | _ => Raise (Exception "TypeError")
  end.

(** The loop of [export_logs] (lines 160-171). *)
Fixpoint export_loop (start_date end_date : option string)
    (logs filtered_logs : list Json.dict) : res (list Json.dict) :=
  match logs with
  | [] => Ok filtered_logs
  | log :: logs' =>
      let log_date := timestamp_or_empty log in
      match (if opt_truthy start_date then lt_str log_date (default "" start_date)
             else Ok false) with
      | Raise e => Raise e
      | Ok true => export_loop start_date end_date logs' filtered_logs
      | Ok false =>
          match (if opt_truthy end_date then gt_str log_date (default "" end_date)
                 else Ok false) with
          | Raise e => Raise e
          | Ok true => export_loop start_date end_date logs' filtered_logs
          | Ok false => export_loop start_date end_date logs' (filtered_logs ++ [log])
          end
      end
  end.

(** [export_logs] (lines 153-179). *)
Definition export_logs (start_date end_date : option string)
    : M reporter (list Json.dict) :=
  Py.try_except
    (logs <- on_logger get_offline_logs ;;
     if opt_truthy start_date || opt_truthy end_date then
       Py.lift (export_loop start_date end_date logs [])
     else Py.ret logs)
    (fun e => emit_report ERROR (MsgExportError e) ;;; Py.ret []).

(** What [get_stats] returns.  [unique_cards_count] is [None] when the key
    is absent.  [cards_unique] comes from [list(set)], whose order Python
    does not fix: the cards are listed here in the order they were first
    seen.  [oldest_log] and [newest_log] are [Json.Null] for [None]. *)
Record stats : Type := mk_stats {
  total_logs : nat;
  authorized_count : nat;
  denied_count : nat;
  directions_in : nat;
  directions_out : nat;
  cards_unique : list Json.value;
  unique_cards_count : option nat;
  oldest_log : Json.value;
  newest_log : Json.value
}.

(** [a == b] on JSON scalars. *)
Definition value_eqb (a b : Json.value) : bool :=
  match a, b with
  | Json.Null, Json.Null => true
  | Json.Bool x, Json.Bool y => Bool.eqb x y
  | Json.Str x, Json.Str y => String.eqb x y
  | _, _ => false
  end.

(** [a < b] on two sort keys: strings compare with strings and booleans
    with booleans; anything else is a [TypeError]. *)
Definition key_lt (a b : Json.value) : res bool :=
  match a, b with
  | Json.Str x, Json.Str y => Ok (str_ltb x y)
  | Json.Bool x, Json.Bool y => Ok (negb x && y)
  | _, _ => Raise (Exception "TypeError")
  end.

(** [sorted(logs, key=lambda x: x.get('timestamp', ''))].  [sorted] is
    stable, and so is this insertion sort, so their results agree.  Both
    raise exactly when there are two or more keys that are not all strings
    or all booleans: every key of such a list takes part in a comparison,
    and the keys compared form a connected graph. *)
Fixpoint insert_by_timestamp (x : Json.dict) (acc : list Json.dict)
    : res (list Json.dict) :=
  match acc with
  | [] => Ok [x]
  | y :: acc' =>
      match key_lt (timestamp_or_empty x) (timestamp_or_empty y) with
      | Raise e => Raise e
      | Ok true => Ok (x :: y :: acc')
      | Ok false =>
          match insert_by_timestamp x acc' with
          | Ok r => Ok (y :: r)
          | Raise e => Raise e
          end
      end
  end.

Definition sorted_by_timestamp (logs : list Json.dict) : res (list Json.dict) :=
  fold_left (fun acc x => match acc with
                          | Ok a => insert_by_timestamp x a
                          | Raise e => Raise e
                          end) logs (Ok []).

(** One turn of the counting loop (lines 202-217). *)
Definition count_log (st : stats) (log : Json.dict) : stats :=
  let authorized := truthy (default Json.Null (dict_get "authorized" log)) in
  let direction := default (Json.Str "in") (dict_get "direction" log) in
  let card_id := default Json.Null (dict_get "card_id" log) in
  let fresh := truthy card_id && negb (value_eqb card_id (Json.Str "MANUAL_OPEN"))
               && negb (existsb (value_eqb card_id) (cards_unique st)) in
  mk_stats (total_logs st)
    (if authorized then S (authorized_count st) else authorized_count st)
    (if authorized then denied_count st else S (denied_count st))
    (if value_eqb direction (Json.Str "in") then S (directions_in st) else directions_in st)
    (if value_eqb direction (Json.Str "out") then S (directions_out st)
     else directions_out st)
    (if fresh then cards_unique st ++ [card_id] else cards_unique st)
    (unique_cards_count st) (oldest_log st) (newest_log st).

(** [get_stats] (lines 181-226); [None] is the empty dictionary returned
    after an error. *)
Definition get_stats : M reporter (option stats) :=
  Py.try_except
    (logs <- on_logger get_offline_logs ;;
     let stats0 := mk_stats (length logs) 0 0 0 0 [] None Json.Null Json.Null in
     match logs with
     | [] => Py.ret (Some stats0)
     | _ :: _ =>
         sorted_logs <- Py.lift (sorted_by_timestamp logs) ;;
         match sorted_logs, last sorted_logs with
         | first :: _, Some final =>
             let dated :=
               mk_stats (length logs) 0 0 0 0 [] None
                 (default Json.Null (dict_get "timestamp" first))
                 (default Json.Null (dict_get "timestamp" final)) in
             let counted := fold_left count_log logs dated in
             Py.ret (Some (mk_stats (total_logs counted) (authorized_count counted)
                             (denied_count counted) (directions_in counted)
                             (directions_out counted) (cards_unique counted)
                             (Some (length (cards_unique counted)))
                             (oldest_log counted) (newest_log counted)))
         | _, _ => Py.raise (Exception "IndexError")
         end
     end)
    (fun e => emit_report ERROR (MsgStatsError e) ;;; Py.ret None).

End AccessLogger.


(* ===================================================================== *)
(** ** src/config.py: the whitelist file *)
(* ===================================================================== *)

(** The local whitelist is a file of its own, read and written by [Config]
    (lines 94-110).  The file is modelled like the offline-log file. *)
Module ConfigFiles.

(** [get_whitelist]: the list the file holds, and [[]] when the file does
    not exist, cannot be read or does not decode.  The files of the model
    are those [update_whitelist] writes, lists of strings; [json.load]
    would also return other documents. *)
Definition get_whitelist (f : AccessLogger.storage) : list string :=
  match AccessLogger.content f with
  | Some text =>
      if AccessLogger.read_fails f then []
      else default [] (Json.loads_strings text)
  | None => []
  end.

(** [update_whitelist]: the file takes the printed list; a failure to open
    it is printed and goes no further.  As for the offline-log file, a
    write that fails after the file was opened is not modelled. *)
Definition update_whitelist (whitelist : list string) (f : AccessLogger.storage)
    : AccessLogger.storage :=
  if AccessLogger.write_fails f then f
  else AccessLogger.mk_storage (Some (Json.dumps_strings whitelist))
         (AccessLogger.read_fails f) (AccessLogger.write_fails f).

End ConfigFiles.


(* ===================================================================== *)
(** ** src/relay_controller.py *)
(* ===================================================================== *)

(** The controller together with the part of the asyncio event loop its
    timed tasks live in.  Time is counted in clock ticks of an arbitrary
    resolution (the source's durations are seconds as floats).  A coroutine
    runs without interruption from one suspension point to the next; the
    loop keeps a FIFO queue of callbacks ([ready]) and a set of timers, as
    asyncio does.  CancelledError derives from BaseException (Python 3.8
    and later). *)
Module Relay.

Inductive outcome : Type :=
| Completed
| Cancelled
| Failed (e : exn).

(** Where the coroutine [_timed_relay_activation] of a task stands. *)
Inductive stage : Type :=
| NotStarted                (* created, first step still queued *)
| AtSleep                   (* suspended in [await asyncio.sleep(duration)] *)
| Finished (o : outcome).

Record task : Type := mk_task {
  t_channel : Z;
  t_duration : nat;
  t_stage : stage;
  t_must_cancel : bool      (* a CancelledError is to be thrown at the next step *)
}.

Record t : Type := mk {
  config : Config.t;
  relay_pins : gmap Z Z;
  relay_states : gmap Z bool;
  gpio : gmap Z bool;           (* output level of each pin, True = HIGH *)
  _relay_tasks : gmap Z nat;    (* channel -> the task created last for it *)
  tasks : list task;            (* every task created so far, by identity *)
  ready : list nat;             (* the loop's queue of task steps to run *)
  timers : list (nat * nat);    (* pending sleeps: (deadline, task) *)
  now : nat
}.

Definition set_relay_states (m : gmap Z bool) (s : t) : t :=
  mk (config s) (relay_pins s) m (gpio s) (_relay_tasks s) (tasks s)
     (ready s) (timers s) (now s).
Definition set_gpio (g : gmap Z bool) (s : t) : t :=
  mk (config s) (relay_pins s) (relay_states s) g (_relay_tasks s) (tasks s)
     (ready s) (timers s) (now s).
Definition set_relay_tasks (m : gmap Z nat) (s : t) : t :=
  mk (config s) (relay_pins s) (relay_states s) (gpio s) m (tasks s)
     (ready s) (timers s) (now s).
Definition set_tasks (l : list task) (s : t) : t :=
  mk (config s) (relay_pins s) (relay_states s) (gpio s) (_relay_tasks s) l
     (ready s) (timers s) (now s).
Definition set_ready (r : list nat) (s : t) : t :=
  mk (config s) (relay_pins s) (relay_states s) (gpio s) (_relay_tasks s)
     (tasks s) r (timers s) (now s).
Definition set_timers (l : list (nat * nat)) (s : t) : t :=
  mk (config s) (relay_pins s) (relay_states s) (gpio s) (_relay_tasks s)
     (tasks s) (ready s) l (now s).
Definition set_now (n : nat) (s : t) : t :=
  mk (config s) (relay_pins s) (relay_states s) (gpio s) (_relay_tasks s)
     (tasks s) (ready s) (timers s) n.

(** [__init__] (lines 11-25): channel 2 is kept only on a turnstile, and a
    channel whose pin is [None] is dropped. *)
Definition init_pins (c : Config.t) : gmap Z Z :=
  let raw : gmap Z (option Z) :=
    <[1 := Some (Config.RELAY_CHANNEL_1 c)]>
      (<[2 := if Config.is_turnstile c then Config.RELAY_CHANNEL_2 c else None]> ∅) in
  omap id raw.

Definition init (c : Config.t) : t :=
  mk c (init_pins c) ∅ ∅ ∅ [] [] [] 0%nat.

(** [initialize] (lines 27-49): every configured channel starts at rest. *)
Definition initialize (s : t) : t :=
  let g := if Config.is_test_mode (config s) then gpio s
           else map_fold (fun _ pin g => <[pin := false]> g) (gpio s) (relay_pins s) in
  set_gpio g (set_relay_states ((fun _ => false) <$> relay_pins s) s).

(** [_set_relay_state] (lines 103-117). *)
Definition _set_relay_state (channel : Z) (state : bool) : M t unit :=
  fun s =>
    if Config.is_test_mode (config s) then
      (Ok tt, set_relay_states (<[channel := state]> (relay_states s)) s)
    else
      match relay_pins s !! channel with
      | None => (Raise (KeyError "relay_pins"), s)
      | Some pin =>
          (Ok tt, set_relay_states (<[channel := state]> (relay_states s))
                    (set_gpio (<[pin := state]> (gpio s)) s))
      end.

(** [get_relay_state] (lines 119-121). *)
Definition get_relay_state (channel : Z) (s : t) : bool :=
  default false (relay_states s !! channel).

(** *** Tasks and the loop *)

Definition is_done (tk : task) : bool :=
  match t_stage tk with Finished _ => true | _ => false end.

Definition with_stage (st : stage) (tk : task) : task :=
  mk_task (t_channel tk) (t_duration tk) st (t_must_cancel tk).

Definition with_must_cancel (tk : task) : task :=
  mk_task (t_channel tk) (t_duration tk) (t_stage tk) true.

Definition set_task (tid : nat) (tk : task) (s : t) : t :=
  set_tasks (<[tid := tk]> (tasks s)) s.

Definition has_timer (tid : nat) (s : t) : bool :=
  existsb (fun p => Nat.eqb (snd p) tid) (timers s).

(** [Task.cancel()].  A task waiting on a pending sleep has that sleep
    cancelled, which queues its wake-up; otherwise the request is recorded
    and served at the task's next step. *)
Definition cancel (tid : nat) (s : t) : t :=
  match tasks s !! tid with
  | None => s
  | Some tk =>
      match t_stage tk with
      | Finished _ => s
      | NotStarted => set_task tid (with_must_cancel tk) s
      | AtSleep =>
          if has_timer tid s then
            set_ready (ready s ++ [tid])
              (set_timers (List.filter (fun p => negb (Nat.eqb (snd p) tid)) (timers s))
                 (set_task tid (with_must_cancel tk) s))
          else set_task tid (with_must_cancel tk) s
      end
  end.

(** [asyncio.create_task(self._timed_relay_activation(channel, duration))]:
    the new task's first step is queued. *)
Definition create_task (channel : Z) (duration : nat) (s : t) : nat * t :=
  let tid := length (tasks s) in
  (tid, set_ready (ready s ++ [tid])
          (set_tasks (tasks s ++ [mk_task channel duration NotStarted false]) s)).

(** One step of a task: [_timed_relay_activation] (lines 77-101) from where
    it stands to its next suspension point or its end. *)
Definition step_task (tid : nat) (s : t) : t :=
  match tasks s !! tid with
  | None => s
  | Some tk =>
      match t_stage tk with
      | Finished _ => s
      | NotStarted =>
          if t_must_cancel tk then
            (* the exception is thrown into a coroutine that has not begun:
               its body, handlers included, never runs *)
            set_task tid (with_stage (Finished Cancelled) tk) s
          else
            match _set_relay_state (t_channel tk) true s with
            | (Ok _, s1) =>
                match t_duration tk with
                | O =>
                    (* sleep(0) yields once: the task is queued again *)
                    set_ready (ready s1 ++ [tid])
                      (set_task tid (with_stage AtSleep tk) s1)
                | S _ =>
                    set_timers (timers s1 ++ [((now s1 + t_duration tk)%nat, tid)])
                      (set_task tid (with_stage AtSleep tk) s1)
                end
            | (Raise e, s1) =>
                (* except Exception: switch off, re-raise *)
                let s2 := snd (_set_relay_state (t_channel tk) false s1) in
                set_task tid (with_stage (Finished (Failed e)) tk) s2
            end
      | AtSleep =>
          (* line 89 after the sleep, line 95 on CancelledError *)
          match _set_relay_state (t_channel tk) false s with
          | (Ok _, s1) =>
              set_task tid
                (with_stage (Finished (if t_must_cancel tk then Cancelled else Completed)) tk)
                s1
          | (Raise e, s1) =>
              let s2 := if t_must_cancel tk then s1
                        else snd (_set_relay_state (t_channel tk) false s1) in
              set_task tid (with_stage (Finished (Failed e)) tk) s2
          end
      end
  end.

(** What a queued step weighs: a task that has not started may be queued
    once more (sleep(0)), any other step is the last of its task. *)
Definition step_weight (s : t) (tid : nat) : nat :=
  match tasks s !! tid with
  | Some tk => match t_stage tk with NotStarted => 2 | _ => 1 end
  | None => 1
  end.

Definition weight (s : t) : nat :=
  list_sum (map (step_weight s) (ready s)).

Fixpoint drain (fuel : nat) (s : t) : t :=
  match fuel with
  | O => s
  | S fuel' =>
      match ready s with
      | [] => s
      | tid :: r => drain fuel' (step_task tid (set_ready r s))
      end
  end.

(** The loop runs until no callback is queued. *)
Definition run_ready (s : t) : t := drain (weight s) s.

(** The loop runs the callback at the head of its queue. *)
Definition step (s : t) : t :=
  match ready s with
  | [] => s
  | tid :: r => step_task tid (set_ready r s)
  end.

(** The clock advances by one tick: the sleeps that are due complete and
    the wake-ups of their tasks are queued, in the order the sleeps were
    started. *)
Definition fire_timers (s : t) : t :=
  let n := S (now s) in
  let due := List.filter (fun p => Nat.leb (fst p) n) (timers s) in
  let rest := List.filter (fun p => negb (Nat.leb (fst p) n)) (timers s) in
  set_ready (ready s ++ map snd due) (set_timers rest (set_now n s)).

(** Callbacks take no time: the clock advances once the queue is empty. *)
Definition tick (s : t) : t := fire_timers (run_ready s).

(** *** activate_relay *)

(** What the caller of [activate_relay] has in hand when the loop takes
    over: a returned value, or the task it awaits. *)
Inductive call : Type :=
| Returned (b : bool)
| Awaiting (tid : nat).

(** [activate_relay] (lines 51-75) up to [await self._relay_tasks[channel]]. *)
Definition activate_relay (channel : Z) (duration : option nat) (s : t) : call * t :=
  match relay_pins s !! channel with
  | None => (Returned false, s)
  | Some _ =>
      let d := default (Config.RELAY_OPEN_DURATION (config s)) duration in
      let s1 :=
        match _relay_tasks s !! channel with
        | Some old =>
            match tasks s !! old with
            | Some tk => if is_done tk then s else cancel old s
            | None => s
            end
        | None => s
        end in
      let '(tid, s2) := create_task channel d s1 in
      (Awaiting tid, set_relay_tasks (<[channel := tid]> (_relay_tasks s2)) s2)
  end.

(** [activate_relay] from the await on: the awaited task's outcome decides
    what the caller gets (lines 70-75). *)
Definition activate_relay_result (o : outcome) : res bool :=
  match o with
  | Completed => Ok true
  | Cancelled => Raise CancelledError
  | Failed _ => Ok false
  end.

(** *** Runs *)

(** What happens on the loop, callback by callback: callers of
    [activate_relay] are callbacks like any other, so a call may fall
    between any two steps of the relay tasks. *)
Inductive event : Type :=
| Activate (channel : Z) (duration : option nat)   (* a caller reaches its await *)
| Step                                             (* the next queued callback runs *)
| Tick.                                            (* the queue empties, one tick passes *)

Definition do_event (e : event) (s : t) : t :=
  match e with
  | Activate channel duration => snd (activate_relay channel duration s)
  | Step => step s
  | Tick => tick s
  end.

Definition run (es : list event) (s : t) : t :=
  fold_left (fun s e => do_event e s) es s.

(** The ticks that pass in a run. *)
Definition elapsed (es : list event) : nat :=
  length (List.filter (fun e => match e with Tick => true | _ => false end) es).

Definition activates (c : Z) (e : event) : bool :=
  match e with Activate c' _ => Z.eqb c' c | _ => false end.

(** *** Stopping *)

(** [if not task.done(): task.cancel()]. *)
Definition cancel_pending (tid : nat) (s : t) : t :=
  match tasks s !! tid with
  | Some tk => if is_done tk then s else cancel tid s
  | None => s
  end.

Fixpoint switch_off (channels : list Z) : M t unit :=
  match channels with
  | [] => Py.ret tt
  | channel :: rest => Py.bind (_set_relay_state channel false) (fun _ => switch_off rest)
  end.

(** [emergency_stop_all] (lines 123-134).  The maps of the model keep no
    insertion order, so the two listings the loops go through are given:
    [tids] for [self._relay_tasks.values()] and [channels] for
    [self.relay_pins.keys()]. *)
Definition emergency_stop_all (tids : list nat) (channels : list Z) : M t unit :=
  fun s => switch_off channels (fold_left (fun s tid => cancel_pending tid s) tids s).

Definition all_done (tids : list nat) (s : t) : bool :=
  forallb (fun tid => match tasks s !! tid with
                      | Some tk => is_done tk
                      | None => true
                      end) tids.

(** [GPIO.cleanup(pin)] for the pins of the listed channels: the pins are
    outputs no more. *)
Definition release_pins (channels : list Z) (s : t) : t :=
  set_gpio (fold_left (fun g channel => match relay_pins s !! channel with
                                        | Some pin => delete pin g
                                        | None => g
                                        end) channels (gpio s)) s.

(** [cleanup] (lines 136-154).  The caller waits in [asyncio.gather] while
    the loop runs its queue; [None]: the queue is empty and a task the
    caller waits for has not ended, so the caller stays suspended. *)
Definition cleanup (tids : list nat) (channels : list Z) (s : t) : option (res unit * t) :=
  match emergency_stop_all tids channels s with
  | (Raise e, s1) =>
      if is_Exception e then Some (Ok tt, s1) else Some (Raise e, s1)
  | (Ok _, s1) =>
      let s2 := match tids with [] => s1 | _ :: _ => run_ready s1 end in
      if all_done tids s2 then
        Some (Ok tt, if Config.is_test_mode (config s2) then s2
                     else release_pins channels s2)
      else None
  end.

End Relay.


(* ===================================================================== *)
(** ** src/turnstile_controller.py *)
(* ===================================================================== *)

Module Turnstile.

Import Builtins.
Local Open Scope py_scope.

(** The backend collaborator as the controller's authorization path sees it
    (src/backend_client.py is outside the core): the outcome of
    [check_access(card_id, direction)], a response dictionary or a raised
    exception. *)
Record backend : Type := mk_backend {
  check_access : string -> string -> res Json.dict
}.

Record t : Type := mk {
  config : Config.t;
  connection_online : bool;
  whitelist : list string;          (* what [config.get_whitelist()] returns *)
  clock : string;                   (* [datetime.now().isoformat()] *)
  access_logger : AccessLogger.t;
  relay_controller : Relay.t
}.

Definition set_access_logger (l : AccessLogger.t) (w : t) : t :=
  mk (config w) (connection_online w) (whitelist w) (clock w) l (relay_controller w).

Definition set_relay_controller (r : Relay.t) (w : t) : t :=
  mk (config w) (connection_online w) (whitelist w) (clock w) (access_logger w) r.

(** [__init__] (lines 18-32) and the start-up of the two components the
    pipeline drives. *)
Definition init (c : Config.t) (wl : list string) (now : string)
    (file : AccessLogger.storage) : t :=
  mk c false wl now
     (snd (AccessLogger.initialize (AccessLogger.init file)))
     (Relay.initialize (Relay.init c)).

(** A call into the access logger. *)
Definition on_logger {A} (m : M AccessLogger.t A) : M t A :=
  fun w => match m (access_logger w) with
           | (r, l) => (r, set_access_logger l w)
           end.

(** [await self.relay_controller.activate_relay(channel)], up to the await
    of the relay task: the caller is suspended there, and what it gets
    when the task ends is [Relay.activate_relay_result]. *)
Definition call_activate_relay (channel : Z) : M t Relay.call :=
  fun w => match Relay.activate_relay channel None (relay_controller w) with
           | (c, r) => (Ok c, set_relay_controller r w)
           end.

Definition value_eqb (a b : Json.value) : bool :=
  match a, b with
  | Json.Null, Json.Null => true
  | Json.Bool x, Json.Bool y => Bool.eqb x y
  | Json.Str x, Json.Str y => String.eqb x y
  | _, _ => false
  end.

(** The whitelist fallback shared by the offline branch and the handler
    (lines 150-153 and 157-160). *)
Definition whitelist_fallback (card_id : string) : M t Json.value :=
  w <- Py.get ;;
  if Config.FALLBACK_MODE_ENABLED (config w)
  then Py.ret (Json.Bool (str_in card_id (whitelist w)))
  else Py.ret (Json.Bool false).

(** [_check_authorization] (lines 141-160). *)
Definition _check_authorization (b : backend) (card_id direction : string)
    : M t Json.value :=
  Py.try_except
    (w <- Py.get ;;
     if connection_online w then
       response <- Py.lift (check_access b card_id direction) ;;
       Py.ret (default (Json.Bool false) (dict_get "authorized" response))
     else whitelist_fallback card_id)
    (fun _ => whitelist_fallback card_id).

(** [_open_turnstile] (lines 162-171), up to the await of the relay task.
    Where no relay is activated the result is that of the coroutine.
    Where one is, [Ok tt] is the result of the steps taken before the
    coroutine is suspended: it resumes when the relay task ends, with
    [True] or with the [CancelledError] of a task that was cancelled
    ([Relay.activate_relay_result]), which [except Exception] does not
    catch. *)
Definition _open_turnstile (direction : Json.value) : M t unit :=
  Py.try_except
    (w <- Py.get ;;
     if value_eqb direction (Json.Str "in") then
       call_activate_relay 1 ;;; Py.ret tt
     else if value_eqb direction (Json.Str "out") && Config.is_turnstile (config w) then
       call_activate_relay 2 ;;; Py.ret tt
     else Py.ret tt)
    (fun _ => Py.ret tt).

(** The [access_log] dictionary of lines 123-130 and 239-246. *)
Definition access_log (w : t) (card_id : string) (direction authorized : Json.value)
    : Json.dict :=
  [ ("device_id", Json.Str (Config.DEVICE_ID (config w)));
    ("card_id", Json.Str card_id);
    ("direction", direction);
    ("timestamp", Json.Str (clock w));
    ("authorized", authorized);
    ("offline_mode", Json.Bool (negb (connection_online w))) ].

Definition call_log_access (access_data : Json.dict) : M t unit :=
  w <- Py.get ;;
  on_logger (AccessLogger.log_access (Config.MAX_OFFLINE_LOGS (config w))
               (clock w) access_data).

(** [_handle_card_read] (lines 115-139). *)
Definition _handle_card_read (b : backend) (card_id direction : string) : M t unit :=
  authorized <- _check_authorization b card_id direction ;;
  w <- Py.get ;;
  call_log_access (access_log w card_id (Json.Str direction) authorized) ;;;
  if truthy authorized then _open_turnstile (Json.Str direction)
  else Py.ret tt.

(** [_handle_websocket_command] (lines 231-253). *)
Definition _handle_websocket_command (command : Json.dict) : M t unit :=
  Py.try_except
    (match dict_get "action" command with
     | Some (Json.Str "open_turnstile") =>
         let direction := default (Json.Str "in") (dict_get "direction" command) in
         w <- Py.get ;;
         call_log_access (access_log w "MANUAL_OPEN" direction (Json.Bool true)) ;;;
         _open_turnstile direction
     | _ => Py.ret tt
     end)
    (fun _ => Py.ret tt).

(** *** Synchronisation with the backend (lines 173-216) *)

(** The other calls of the backend collaborator, with their outcomes
    (src/backend_client.py is outside the core): a truth value for the
    connection test and for the synchronisation, a list of card ids for the
    whitelist, or a raised exception. *)
Record services : Type := mk_services {
  test_connection : res bool;
  sync_offline_logs : list Json.dict -> res bool;
  get_whitelist : res (list string)
}.

Inductive request : Type :=
| TestConnection
| SyncOfflineLogs (logs : list Json.dict)
| GetWhitelist.

(** The controller with the whitelist file of its [Config] and the calls
    its backend client has received.  The field [whitelist] of the
    controller is what [config.get_whitelist()] returns, so it follows the
    file. *)
Record node : Type := mk_node {
  controller : t;
  whitelist_file : AccessLogger.storage;
  requests : list request
}.

Definition set_connection_online (b : bool) (w : t) : t :=
  mk (config w) b (whitelist w) (clock w) (access_logger w) (relay_controller w).

Definition set_whitelist (wl : list string) (w : t) : t :=
  mk (config w) (connection_online w) wl (clock w) (access_logger w) (relay_controller w).

Definition on_controller {A} (m : M t A) : M node A :=
  fun n => match m (controller n) with
           | (x, w) => (x, mk_node w (whitelist_file n) (requests n))
           end.

Definition call_backend {A} (r : request) (outcome : res A) : M node A :=
  fun n => (outcome, mk_node (controller n) (whitelist_file n) (requests n ++ [r])).

(** [_sync_offline_data] (lines 194-206). *)
Definition _sync_offline_data (b : services) : M node unit :=
  Py.try_except
    (offline_logs <- on_controller (on_logger AccessLogger.get_offline_logs) ;;
     match offline_logs with
     | [] => Py.ret tt
     | _ :: _ =>
         success <- call_backend (SyncOfflineLogs offline_logs)
                      (sync_offline_logs b offline_logs) ;;
         if success then on_controller (on_logger AccessLogger.clear_offline_logs)
         else Py.ret tt
     end)
    (fun _ => Py.ret tt).

(** [_update_whitelist] (lines 208-216). *)
Definition _update_whitelist (b : services) : M node unit :=
  Py.try_except
    (whitelist <- call_backend GetWhitelist (get_whitelist b) ;;
     match whitelist with
     | [] => Py.ret tt
     | _ :: _ =>
         Py.modify (fun n =>
           let f := ConfigFiles.update_whitelist whitelist (whitelist_file n) in
           mk_node (set_whitelist (ConfigFiles.get_whitelist f) (controller n)) f
             (requests n))
     end)
    (fun _ => Py.ret tt).

(** One turn of [_connection_monitor_loop] (lines 173-192), up to its
    sleep. *)
Definition _connection_monitor_turn (b : services) : M node unit :=
  Py.try_except
    (n <- Py.get ;;
     let was_online := connection_online (controller n) in
     online <- call_backend TestConnection (test_connection b) ;;
     on_controller (Py.modify (set_connection_online online)) ;;;
     if negb was_online && online then
       _sync_offline_data b ;;; _update_whitelist b
     else Py.ret tt)
    (fun _ => Py.ret tt).

End Turnstile.


(* ===================================================================== *)
(** ** src/updater.py *)
(* ===================================================================== *)

Module Updater.

Import Builtins.
Local Open Scope py_scope.

(** A directory tree: relative path and content of each file. *)
Definition tree : Type := list (string * string).

Fixpoint tree_get (path : string) (t : tree) : option string :=
  match t with
  | [] => None
  | (p, c) :: t' => if String.eqb p path then Some c else tree_get path t'
  end.

Fixpoint tree_set (path content : string) (t : tree) : tree :=
  match t with
  | [] => [(path, content)]
  | (p, c) :: t' =>
      if String.eqb p path then (p, content) :: t' else (p, c) :: tree_set path content t'
  end.

(** A file [backup_*.tar.gz] of the backup directory: the application tree
    it archives (under the archive name [app]) and its creation time. *)
Record archive : Type := mk_archive {
  a_name : string;
  a_ctime : nat;
  a_tree : tree
}.

(** The dictionary [update_info]; a field is [None] when the key is absent. *)
Record update_info : Type := mk_info {
  ui_id : option string;
  ui_version : option string;
  ui_hash : option string;
  ui_size : option Z;
  ui_format : option string;
  ui_requires_restart : option bool;
  ui_update_available : option bool
}.

(** [not update_info] for a dictionary: no key at all. *)
Definition info_is_empty (u : update_info) : bool :=
  match ui_id u, ui_version u, ui_hash u, ui_size u, ui_format u,
        ui_requires_restart u, ui_update_available u with
  | None, None, None, None, None, None, None => true
  | _, _, _, _, _, _, _ => false
  end.

(** What unpacking a package leaves in the staging directory: the new
    application tree if the package has an [app] directory, and the exit
    codes of the hook scripts it ships. *)
Record staged : Type := mk_staged {
  st_app : option tree;
  st_pre_update : option Z;
  st_post_update : option Z
}.

(** A request received by the backend collaborator. *)
Inductive request : Type :=
| CheckUpdates
| DownloadUpdate (u : update_info)
| ReportUpdateStatus (id : option string) (status : string) (error : option string).

(** The collaborators and libraries of the updater, with the outcomes they
    give in the run under study: the backend client (outside the core),
    [hashlib.sha256(..).hexdigest()], the archive libraries, [pip], and the
    file-system operations that can fail.

    An operation on a tree that fails does not undo what it did before the
    error.  For each of them the environment therefore also says what the
    failure leaves behind:
    - [backup_leaves]: the archive a failed [_create_backup] leaves under
      the name it chose.  [tarfile.open(.., 'w:gz')] creates the file before
      [tar.add] reads the application directory, so the answer is [None]
      only if the file could not be created; otherwise it is the part of
      the tree that was archived before the error;
    - [copytree_leaves]: the application directory after a failed
      [_copy_update_files], [None] if it does not exist.  [shutil.rmtree]
      and [shutil.copytree] can both stop part-way, and [copytree] raises
      only after it has copied every file it could;
    - [restore_leaves]: the application directory after a failed removal or
      extraction in [_restore_backup]; [tar.extractall] writes the members
      one after the other. *)
Record env : Type := mk_env {
  check_updates : res (option update_info);
  download_update : update_info -> res string;
  report_update_status : option string -> string -> option string -> res unit;
  sha256_hexdigest : string -> string;
  unpack : string -> string -> res staged;      (* format, package bytes *)
  pip_exit_code : Z;
  backup_write_fails : bool;
  backup_leaves : option tree;
  copytree_fails : bool;
  copytree_leaves : option tree;
  version_write_fails : bool;
  restart_touch_fails : bool;
  restore_extract_fails : bool;
  restore_leaves : option tree
}.

Record t : Type := mk {
  config : Config.t;
  updating : bool;
  app_dir : option tree;            (* [None]: the directory does not exist *)
  backup_dir : list archive;        (* in the order [glob] lists them *)
  restart_required : bool;          (* the restart-request marker exists *)
  requests : list request;          (* what the backend was asked, in order *)
  loop_time : nat                   (* [asyncio.get_event_loop().time()] *)
}.

Definition set_updating (b : bool) (w : t) : t :=
  mk (config w) b (app_dir w) (backup_dir w) (restart_required w) (requests w) (loop_time w).
Definition set_app_dir (a : option tree) (w : t) : t :=
  mk (config w) (updating w) a (backup_dir w) (restart_required w) (requests w) (loop_time w).
Definition set_backup_dir (l : list archive) (w : t) : t :=
  mk (config w) (updating w) (app_dir w) l (restart_required w) (requests w) (loop_time w).
Definition set_restart_required (b : bool) (w : t) : t :=
  mk (config w) (updating w) (app_dir w) (backup_dir w) b (requests w) (loop_time w).
Definition add_request (r : request) (w : t) : t :=
  mk (config w) (updating w) (app_dir w) (backup_dir w) (restart_required w)
     (requests w ++ [r]) (loop_time w).

(** Calls to the backend collaborator. *)
Definition call_check_updates (e : env) : M t (option update_info) :=
  fun w => (check_updates e, add_request CheckUpdates w).
Definition call_download_update (e : env) (u : update_info) : M t string :=
  fun w => (download_update e u, add_request (DownloadUpdate u) w).
Definition call_report (e : env) (id : option string) (status : string)
    (error : option string) : M t unit :=
  fun w => (report_update_status e id status error,
            add_request (ReportUpdateStatus id status error) w).

(** [get_current_version] (lines 46-53). *)
Definition get_current_version (w : t) : string :=
  match app_dir w with
  | Some files =>
      match tree_get "VERSION" files with
      | Some text => strip text
      | None => "1.0.0"
      end
  | None => "1.0.0"
  end.

(** [_verify_update] (lines 154-177). *)
Definition _verify_update (e : env) (update_data : string) (u : update_info) : bool :=
  let hash_ok :=
    match ui_hash u with
    | Some expected_hash =>
        if negb (String.eqb expected_hash "") then
          String.eqb (sha256_hexdigest e update_data) expected_hash
        else true
    | None => true
    end in
  let size_ok :=
    match ui_size u with
    | Some expected_size =>
        if negb (expected_size =? 0) then
          Z.of_nat (String.length update_data) =? expected_size
        else true
    | None => true
    end in
  if negb hash_ok then false
  else if negb size_ok then false
  else true.

(** The archive with the greatest creation time, the first of them in
    listing order ([max(backups, key=os.path.getctime)]). *)
Fixpoint latest (l : list archive) : option archive :=
  match l with
  | [] => None
  | a :: l' =>
      match latest l' with
      | Some b => if Nat.ltb (a_ctime a) (a_ctime b) then Some b else Some a
      | None => Some a
      end
  end.

(** Insertion into a list sorted by decreasing creation time, after the
    entries created at the same time (the sort is stable). *)
Fixpoint insert_newest_first (a : archive) (l : list archive) : list archive :=
  match l with
  | [] => [a]
  | b :: l' =>
      if Nat.ltb (a_ctime b) (a_ctime a) then a :: b :: l'
      else b :: insert_newest_first a l'
  end.

Definition sort_newest_first (l : list archive) : list archive :=
  fold_left (fun acc a => insert_newest_first a acc) l [].

Definition name_eqb (a b : archive) : bool := String.eqb (a_name a) (a_name b).

(** [_cleanup_old_backups] (lines 398-410): the files after the first five,
    newest first, are unlinked. *)
Definition _cleanup_old_backups (w : t) : t :=
  let doomed := drop 5 (sort_newest_first (backup_dir w)) in
  set_backup_dir
    (List.filter (fun a => negb (existsb (name_eqb a) doomed)) (backup_dir w)) w.

(** Decimal digits of a natural number, for the archive name. *)
Definition decimal (n : nat) : string := pretty n.

(** The backup directory once the archive [a] is written: a file of the
    same name is replaced. *)
Definition with_archive (a : archive) (w : t) : t :=
  let others := List.filter (fun b => negb (name_eqb a b)) (backup_dir w) in
  set_backup_dir (others ++ [a]) w.

(** What a failed [_create_backup] leaves: the archive file if it was
    created, with what was added to it; old backups are not cleaned up. *)
Definition failed_backup (e : env) (name : string) (w : t) : t :=
  match backup_leaves e with
  | Some part => with_archive (mk_archive name (loop_time w) part) w
  | None => w
  end.

(** [_create_backup] (lines 179-199); [None] when it fails, which it does
    when the application directory is missing ([tar.add] raises). *)
Definition _create_backup (e : env) : M t (option archive) :=
  fun w =>
    let name := "backup_" +:+ get_current_version w +:+ "_"
                +:+ decimal (loop_time w) +:+ ".tar.gz" in
    match app_dir w with
    | Some files =>
        if backup_write_fails e then (Ok None, failed_backup e name w)
        else
          let a := mk_archive name (loop_time w) files in
          (Ok (Some a), _cleanup_old_backups (with_archive a w))
    | None => (Ok None, failed_backup e name w)
    end.

(** [_extract_update] (lines 201-234); [None] when it fails. *)
Definition _extract_update (e : env) (update_data : string) (u : update_info)
    : M t (option staged) :=
  let file_format := default "tar.gz" (ui_format u) in
  if String.eqb file_format "tar.gz" || String.eqb file_format "tgz"
     || String.eqb file_format "zip" then
    match unpack e file_format update_data with
    | Ok st => Py.ret (Some st)
    | Raise _ => Py.ret None
    end
  else Py.ret None.

(** [_run_script] (lines 300-321) on a script with the given exit code. *)
Definition _run_script (exit_code : Z) : M t unit :=
  if negb (exit_code =? 0) then Py.raise (Exception "Script fallito")
  else Py.ret tt.

(** [_copy_update_files] (lines 266-279): remove, then copy.  The error of
    a failed removal or copy is raised again, with the destination as the
    failure left it. *)
Definition _copy_update_files (e : env) (source : tree) : M t unit :=
  if copytree_fails e then
    Py.modify (set_app_dir (copytree_leaves e)) ;;; Py.raise OSError
  else
    Py.modify (set_app_dir None) ;;;
    Py.modify (set_app_dir (Some source)).

(** [_install_requirements] (lines 323-347). *)
Definition _install_requirements (e : env) : M t unit :=
  if negb (pip_exit_code e =? 0) then Py.raise (Exception "pip install fallito")
  else Py.ret tt.

Definition has_file (path : string) (w : t) : bool :=
  match app_dir w with
  | Some files => match tree_get path files with Some _ => true | None => false end
  | None => false
  end.

(** [_apply_update] (lines 236-264). *)
Definition _apply_update (e : env) (st : staged) : M t unit :=
  (match st_pre_update st with
   | Some code => _run_script code
   | None => Py.ret tt
   end) ;;;
  (match st_app st with
   | Some files => _copy_update_files e files
   | None => Py.ret tt
   end) ;;;
  (match st_post_update st with
   | Some code => _run_script code
   | None => Py.ret tt
   end) ;;;
  w <- Py.get ;;
  if has_file "requirements.txt" w then _install_requirements e else Py.ret tt.

(** [_update_version] (lines 349-357). *)
Definition _update_version (e : env) (new_version : option string) : M t unit :=
  w <- Py.get ;;
  match app_dir w with
  | None => Py.raise OSError
  | Some files =>
      if version_write_fails e then Py.raise OSError
      else
        match new_version with
        | None =>
            (* the file is opened for writing, then write(None) raises *)
            Py.modify (set_app_dir (Some (tree_set "VERSION" "" files))) ;;;
            Py.raise (Exception "TypeError")
        | Some v => Py.modify (set_app_dir (Some (tree_set "VERSION" v files)))
        end
  end.

(** [_schedule_restart] (lines 359-371). *)
Definition _schedule_restart (e : env) : M t unit :=
  if restart_touch_fails e then Py.ret tt
  else Py.modify (set_restart_required true).

(** [_restore_backup] (lines 373-396): the error of a failed removal or
    extraction is logged and swallowed, with the application directory as
    the failure left it. *)
Definition _restore_backup (e : env) : M t unit :=
  w <- Py.get ;;
  match latest (backup_dir w) with
  | None => Py.ret tt
  | Some latest_backup =>
      if restore_extract_fails e then Py.modify (set_app_dir (restore_leaves e))
      else
        Py.modify (set_app_dir None) ;;;
        Py.modify (set_app_dir (Some (a_tree latest_backup)))
  end.

(** [_perform_update] (lines 90-152). *)
Definition _perform_update (e : env) (u : update_info) : M t unit :=
  let update_id := ui_id u in
  Py.try_finally
    (Py.try_except
       (Py.modify (set_updating true) ;;;
        call_report e update_id "started" None ;;;
        update_data <- call_download_update e u ;;
        (if String.eqb update_data "" then
           Py.raise (Exception "Download aggiornamento fallito")
         else Py.ret tt) ;;;
        (if negb (_verify_update e update_data u) then
           Py.raise (Exception "Verifica integrita aggiornamento fallita")
         else Py.ret tt) ;;;
        backup_path <- _create_backup e ;;
        (match backup_path with
         | None => Py.raise (Exception "Creazione backup fallita")
         | Some _ => Py.ret tt
         end) ;;;
        extracted_path <- _extract_update e update_data u ;;
        match extracted_path with
        | None => Py.raise (Exception "Estrazione aggiornamento fallita")
        | Some st =>
            _apply_update e st ;;;
            _update_version e (ui_version u) ;;;
            call_report e update_id "completed" None ;;;
            if default true (ui_requires_restart u) then _schedule_restart e
            else Py.ret tt
        end)
       (fun ex =>
          call_report e update_id "failed" (Some (Py.str ex)) ;;;
          _restore_backup e))
    (Py.modify (set_updating false)).

(** [check_and_update] (lines 55-88). *)
Definition check_and_update (e : env) : M t unit :=
  fun w =>
    if updating w then (Ok tt, w)
    else
      Py.try_except
        (if negb (Config.AUTO_UPDATE_ENABLED (config w)) then Py.ret tt
         else
           update_info <- call_check_updates e ;;
           match update_info with
           | None => Py.ret tt
           | Some u =>
               if info_is_empty u then Py.ret tt
               else if negb (default false (ui_update_available u)) then Py.ret tt
               else _perform_update e u
           end)
        (fun _ => Py.ret tt)
        w.

End Updater.


(* ===================================================================== *)
(** * Properties *)
(* ===================================================================== *)

(** String concatenation computes on a literal first argument. *)
#[local] Arguments String.append !s1 s2 : simpl nomatch.

(** ** The effect combinators *)

Lemma try_except_ok {S A} (body : M S A) (handler : exn -> M S A) s a s' :
  body s = (Ok a, s') -> Py.try_except body handler s = (Ok a, s').
Proof. intros H. unfold Py.try_except. now rewrite H. Qed.

Lemma try_except_caught {S A} (body : M S A) (handler : exn -> M S A) s e s' :
  body s = (Raise e, s') -> Py.is_Exception e = true ->
  Py.try_except body handler s = handler e s'.
Proof. intros H He. unfold Py.try_except. now rewrite H, He. Qed.

(** A handler that cannot raise makes the whole statement return, whatever
    an [Exception] the body raises. *)
Lemma try_except_total {S A} (body : M S A) (handler : exn -> M S A) s :
  (forall e, fst (body s) = Raise e -> Py.is_Exception e = true) ->
  (forall e (s' : S), exists a, fst (handler e s') = Ok a) ->
  exists a, fst (Py.try_except body handler s) = Ok a.
Proof.
  intros Hb Hh. unfold Py.try_except.
  destruct (body s) as [[a | e] s'] eqn:E.
  - now exists a.
  - assert (He : Py.is_Exception e = true) by (apply Hb; reflexivity).
    rewrite He. apply Hh.
Qed.

(** ** Authorization (src/turnstile_controller.py) *)

Definition whitelist_decision (w : Turnstile.t) (card_id : string) : Json.value :=
  Json.Bool (if Config.FALLBACK_MODE_ENABLED (Turnstile.config w)
             then Builtins.str_in card_id (Turnstile.whitelist w)
             else false).

Lemma whitelist_fallback_eq (w : Turnstile.t) (card_id : string) :
  Turnstile.whitelist_fallback card_id w = (Ok (whitelist_decision w card_id), w).
Proof.
  unfold Turnstile.whitelist_fallback, whitelist_decision, Py.bind, Py.get.
  now destruct (Config.FALLBACK_MODE_ENABLED _).
Qed.

(** The authorization check reads the world and never changes it. *)
Lemma check_authorization_frame b card_id direction (w : Turnstile.t) :
  snd (Turnstile._check_authorization b card_id direction w) = w.
Proof.
  unfold Turnstile._check_authorization, Py.try_except, Py.bind, Py.get, Py.lift, Py.ret.
  destruct (Turnstile.connection_online w).
  - destruct (Turnstile.check_access b card_id direction) as [r | e]; simpl; [reflexivity |].
    destruct (Py.is_Exception e); [| reflexivity].
    now rewrite whitelist_fallback_eq.
  - now rewrite whitelist_fallback_eq.
Qed.

(** C2.  For every card and direction: online, the pipeline returns the
    [authorized] entry of the backend's response (and [False] when the
    response has none); offline, or when the online check raises an
    exception, it returns whether the card is in the whitelist if fallback
    mode is enabled and [False] if it is disabled.  The world is left as it
    was. *)
Theorem check_authorization_pipeline
    (b : Turnstile.backend) (card_id direction : string) (w : Turnstile.t) :
  (forall response flag,
      Turnstile.connection_online w = true ->
      Turnstile.check_access b card_id direction = Ok response ->
      Builtins.dict_get "authorized" response = Some flag ->
      Turnstile._check_authorization b card_id direction w = (Ok flag, w))
  /\ (forall response,
      Turnstile.connection_online w = true ->
      Turnstile.check_access b card_id direction = Ok response ->
      Builtins.dict_get "authorized" response = None ->
      Turnstile._check_authorization b card_id direction w = (Ok (Json.Bool false), w))
  /\ (Turnstile.connection_online w = false ->
      Turnstile._check_authorization b card_id direction w
      = (Ok (whitelist_decision w card_id), w))
  /\ (forall e,
      Turnstile.connection_online w = true ->
      Turnstile.check_access b card_id direction = Raise e ->
      Py.is_Exception e = true ->
      Turnstile._check_authorization b card_id direction w
      = (Ok (whitelist_decision w card_id), w))
  /\ (Config.FALLBACK_MODE_ENABLED (Turnstile.config w) = true ->
      whitelist_decision w card_id
      = Json.Bool (Builtins.str_in card_id (Turnstile.whitelist w)))
  /\ (Config.FALLBACK_MODE_ENABLED (Turnstile.config w) = false ->
      whitelist_decision w card_id = Json.Bool false).
Proof.
  unfold Turnstile._check_authorization.
  repeat split.
  - intros response flag Hon Hr Hf.
    apply try_except_ok.
    unfold Py.bind, Py.get, Py.lift, Py.ret. now rewrite Hon, Hr, Hf.
  - intros response Hon Hr Hf.
    apply try_except_ok.
    unfold Py.bind, Py.get, Py.lift, Py.ret. now rewrite Hon, Hr, Hf.
  - intros Hoff.
    apply try_except_ok.
    unfold Py.bind, Py.get. rewrite Hoff. apply whitelist_fallback_eq.
  - intros e Hon Hr He.
    rewrite (try_except_caught _ _ w e w).
    + apply whitelist_fallback_eq.
    + unfold Py.bind, Py.get, Py.lift. now rewrite Hon, Hr.
    + exact He.
  - intros H. unfold whitelist_decision. now rewrite H.
  - intros H. unfold whitelist_decision. now rewrite H.
Qed.

(** The scenarios of the specification: online and authorized by the
    backend, whatever the whitelist; offline with the card whitelisted;
    offline with fallback disabled. *)
Example check_authorization_scenarios :
  let cfg fb := Config.init "turnstile_001" Config.Turnstile Config.Test 18 19 3 fb 1000 true in
  let world fb online wl :=
    Turnstile.mk (cfg fb) online wl "2024-01-01T00:00:00"
      (AccessLogger.init (AccessLogger.mk_storage None false false))
      (Relay.initialize (Relay.init (cfg fb))) in
  let yes := Turnstile.mk_backend (fun _ _ => Ok [("authorized", Json.Bool true)]) in
  let down := Turnstile.mk_backend (fun _ _ => Raise TransportError) in
  fst (Turnstile._check_authorization yes "123456789" "in" (world true true []))
  = Ok (Json.Bool true)
  /\ fst (Turnstile._check_authorization down "123456789" "in" (world true false ["123456789"]))
     = Ok (Json.Bool true)
  /\ fst (Turnstile._check_authorization down "123456789" "in" (world true true ["123456789"]))
     = Ok (Json.Bool true)
  /\ fst (Turnstile._check_authorization down "123456789" "in" (world true true ["42"]))
     = Ok (Json.Bool false)
  /\ fst (Turnstile._check_authorization yes "123456789" "in" (world false false ["123456789"]))
     = Ok (Json.Bool false).
Proof. repeat split; reflexivity. Qed.

(** ** The offline queue (src/access_logger.py) *)

Definition with_record (lv : AccessLogger.level) (m : AccessLogger.message)
    (l : AccessLogger.t) : AccessLogger.t :=
  AccessLogger.mk (AccessLogger._offline_logs_cache l) (AccessLogger._cache_loaded l)
    (AccessLogger.offline_logs_file l) (AccessLogger.records l ++ [(lv, m)]).

Definition with_cache (c : list Json.dict) (l : AccessLogger.t) : AccessLogger.t :=
  AccessLogger.mk c (AccessLogger._cache_loaded l)
    (AccessLogger.offline_logs_file l) (AccessLogger.records l).

(** Writing the document: the file takes the serialized cache, or, when the
    write fails, the error is logged and the file stays as it was. *)
Lemma persist_offline_logs_eq (l : AccessLogger.t) :
  AccessLogger._persist_offline_logs l =
  (Ok tt,
   if AccessLogger.write_fails (AccessLogger.offline_logs_file l)
   then with_record AccessLogger.ERROR (AccessLogger.MsgPersistError OSError) l
   else AccessLogger.mk (AccessLogger._offline_logs_cache l) (AccessLogger._cache_loaded l)
          (AccessLogger.mk_storage
             (Some (Json.dumps (AccessLogger._offline_logs_cache l)))
             (AccessLogger.read_fails (AccessLogger.offline_logs_file l))
             false)
          (AccessLogger.records l)).
Proof.
  destruct l as [c ld [co rf wf] recs].
  unfold AccessLogger._persist_offline_logs, Py.try_except, Py.bind, Py.get,
    AccessLogger.write_file, AccessLogger.emit, Py.modify, with_record; simpl.
  now destruct wf.
Qed.

(** The cache after one append (lines 78-84). *)
Definition saved_cache (max_offline_logs : Z) (access_data : Json.dict)
    (cache : list Json.dict) : list Json.dict :=
  let cache' := cache ++ [access_data] in
  if Z.of_nat (length cache') >? max_offline_logs
  then Builtins.slice_from (- max_offline_logs) cache'
  else cache'.

Definition evicts (max_offline_logs : Z) (cache : list Json.dict) : bool :=
  Z.of_nat (length cache + 1) >? max_offline_logs.

(** [_save_offline_log] returns, with the appended and trimmed cache; it
    warns exactly when it trims. *)
Lemma save_offline_log_eq (max_offline_logs : Z) (access_data : Json.dict)
    (l : AccessLogger.t) :
  exists l',
    AccessLogger._save_offline_log max_offline_logs access_data l = (Ok tt, l')
    /\ AccessLogger._offline_logs_cache l'
       = saved_cache max_offline_logs access_data (AccessLogger._offline_logs_cache l)
    /\ AccessLogger._cache_loaded l' = AccessLogger._cache_loaded l
    /\ (exists extra,
         AccessLogger.records l' = AccessLogger.records l ++ extra
         /\ (In (AccessLogger.WARNING, AccessLogger.MsgEvicted max_offline_logs) extra
             <-> evicts max_offline_logs (AccessLogger._offline_logs_cache l) = true)
         /\ forall lv a b c d, ~ In (lv, AccessLogger.MsgAccess a b c d) extra).
Proof.
  destruct l as [c ld [co rf wf] recs].
  unfold AccessLogger._save_offline_log, saved_cache, evicts.
  unfold Py.try_except at 1.
  unfold Py.bind, Py.get, AccessLogger.set_cache, AccessLogger.emit, Py.modify, Py.ret;
    simpl.
  rewrite length_app; simpl.
  destruct (Z.of_nat (length c + 1) >? max_offline_logs) eqn:E; simpl;
    rewrite persist_offline_logs_eq; simpl; destruct wf; simpl;
    eexists; (split; [reflexivity |]); simpl;
    (split; [reflexivity |]); (split; [reflexivity |]).
  - exists [(AccessLogger.WARNING, AccessLogger.MsgEvicted max_offline_logs);
            (AccessLogger.ERROR, AccessLogger.MsgPersistError OSError)].
    unfold with_record; simpl. rewrite <- app_assoc. simpl.
    split; [reflexivity |]. split; [intuition |].
    intros lv a b c0 d [H | [H | []]]; discriminate.
  - exists [(AccessLogger.WARNING, AccessLogger.MsgEvicted max_offline_logs)].
    split; [reflexivity |]. split; [simpl; intuition |].
    intros lv a b c0 d [H | []]; discriminate.
  - exists [(AccessLogger.ERROR, AccessLogger.MsgPersistError OSError)].
    unfold with_record; simpl.
    split; [reflexivity |]. split.
    + split; [intros [H | []]; discriminate | discriminate].
    + intros lv a b c0 d [H | []]; discriminate.
  - exists []. rewrite app_nil_r.
    split; [reflexivity |]. split.
    + split; [intros [] | discriminate].
    + intros lv a b c0 d [].
Qed.

(** ** The document codec: decoding what the encoder wrote *)

Lemma str_app_assoc (a b c : string) : (a +:+ b) +:+ c = a +:+ (b +:+ c).
Proof. induction a as [| x a IH]; simpl; [reflexivity | now rewrite IH]. Qed.

Lemma str_length_app (a b : string) :
  String.length (a +:+ b) = (String.length a + String.length b)%nat.
Proof. induction a as [| x a IH]; simpl; [reflexivity | now rewrite IH]. Qed.

(** The string scanner inverts the escaping of the encoder, for every
    character. *)
Lemma scanstring_escape (s rest : string) :
  Json.scanstring (Json.escape s +:+ String Json.dq rest) = Some (s, rest).
Proof.
  induction s as [| c s IH]; [reflexivity |].
  destruct c as [[] [] [] [] [] [] [] []]; simpl; rewrite IH; reflexivity.
Qed.

Lemma scanstring_encode (s rest : string) :
  Json.encode_basestring s +:+ rest
  = String Json.dq (Json.escape s +:+ String Json.dq rest).
Proof.
  unfold Json.encode_basestring. simpl. now rewrite str_app_assoc.
Qed.

Lemma parse_value_dump (v : Json.value) (rest : string) :
  Json.parse_value (Json.dump_value v +:+ rest) = Some (v, rest).
Proof.
  destruct v as [| [] | s]; try reflexivity.
  simpl Json.dump_value. rewrite scanstring_encode.
  simpl. now rewrite scanstring_escape.
Qed.

(** A printed value starts with a character that is not white space. *)
Lemma skip_ws_dump_value (v : Json.value) (rest : string) :
  Json.skip_ws (Json.dump_value v +:+ rest) = Json.dump_value v +:+ rest.
Proof. destruct v as [| [] | s]; reflexivity. Qed.

Lemma dict_set_fresh (k : string) (v : Json.value) (d : Json.dict) :
  k ∉ map fst d -> Json.dict_set k v d = d ++ [(k, v)].
Proof.
  induction d as [| [k' v'] d IH]; simpl; intros Hk; [reflexivity |].
  rewrite not_elem_of_cons in Hk. destruct Hk as [Hne Hk].
  destruct (String.eqb_spec k' k) as [-> | _]; [congruence |].
  now rewrite IH.
Qed.

(** One turn of the member loop on a printed member. *)
Lemma parse_pairs_step (fuel : nat) (acc : Json.dict) (k : string)
    (v : Json.value) (tail : string) :
  Json.parse_pairs (S fuel) acc (Json.dump_pair (k, v) +:+ tail) =
  match Json.skip_ws tail with
  | "" => None
  | String c5 s5 =>
      if Ascii.eqb c5 "}" then Some (Json.dict_set k v acc, s5)
      else if Ascii.eqb c5 "," then
        Json.parse_pairs fuel (Json.dict_set k v acc) (Json.skip_ws s5)
      else None
  end.
Proof.
  unfold Json.dump_pair. cbn [fst snd].
  rewrite !str_app_assoc, scanstring_encode.
  cbn [Json.parse_pairs]. change (Ascii.eqb Json.dq Json.dq) with true. cbn [negb].
  rewrite scanstring_escape.
  simpl Json.skip_ws at 1.
  change (Ascii.eqb ":" ":") with true. cbn [negb].
  simpl Json.skip_ws at 1.
  rewrite skip_ws_dump_value, parse_value_dump.
  reflexivity.
Qed.

Definition pair_sep : string := "," +:+ String Json.nl "    ".
Definition dict_sep : string := "," +:+ String Json.nl "  ".

Lemma parse_pairs_last (fuel : nat) (acc : Json.dict) (k : string)
    (v : Json.value) (rest : string) :
  Json.parse_pairs (S fuel) acc
    (Json.dump_pair (k, v) +:+ String Json.nl ("  }" +:+ rest))
  = Some (Json.dict_set k v acc, rest).
Proof. rewrite parse_pairs_step. reflexivity. Qed.

Lemma parse_pairs_continue (fuel : nat) (acc : Json.dict) (k : string)
    (v : Json.value) (more : string) :
  Json.parse_pairs (S fuel) acc (Json.dump_pair (k, v) +:+ pair_sep +:+ more)
  = Json.parse_pairs fuel (Json.dict_set k v acc) (Json.skip_ws more).
Proof. rewrite parse_pairs_step. reflexivity. Qed.

Lemma concat_cons2 (sep x y : string) (l : list string) :
  String.concat sep (x :: y :: l) = x +:+ sep +:+ String.concat sep (y :: l).
Proof. reflexivity. Qed.

Lemma skip_ws_dump_pairs (d : Json.dict) (tail : string) :
  d <> [] ->
  Json.skip_ws (String.concat pair_sep (map Json.dump_pair d) +:+ tail)
  = String.concat pair_sep (map Json.dump_pair d) +:+ tail.
Proof.
  destruct d as [| [k v] [| p d]]; [congruence | reflexivity | reflexivity].
Qed.

(** The member loop reads back the members the encoder printed, in their
    order, when no key occurs twice. *)
Lemma parse_pairs_dump (d : Json.dict) :
  forall (fuel : nat) (acc : Json.dict) (rest : string),
    d <> [] ->
    (length d <= fuel)%nat ->
    NoDup (map fst (acc ++ d)) ->
    Json.parse_pairs fuel acc
      (String.concat pair_sep (map Json.dump_pair d)
       +:+ String Json.nl ("  }" +:+ rest))
    = Some (acc ++ d, rest).
Proof.
  induction d as [| [k v] d IH]; intros fuel acc rest Hne Hfuel Hnd; [congruence |].
  destruct fuel as [| fuel]; [simpl in Hfuel; lia |].
  assert (Hk : k ∉ map fst acc).
  { rewrite map_app in Hnd. apply NoDup_app in Hnd as (_ & Hd & _).
    intros Hin. apply (Hd k Hin). simpl. left. }
  destruct d as [| p d].
  - change (String.concat pair_sep (map Json.dump_pair [(k, v)]))
      with (Json.dump_pair (k, v)).
    rewrite parse_pairs_last.
    now rewrite dict_set_fresh.
  - rewrite !map_cons, concat_cons2, !str_app_assoc.
    rewrite parse_pairs_continue.
    rewrite <- !map_cons.
    rewrite skip_ws_dump_pairs by congruence.
    rewrite dict_set_fresh by exact Hk.
    rewrite IH.
    + now rewrite <- app_assoc.
    + congruence.
    + simpl in Hfuel. simpl. lia.
    + now rewrite <- app_assoc.
Qed.

(** A Python dictionary holds a key once. *)
Definition wf_dict (d : Json.dict) : Prop := NoDup (map fst d).

Lemma dump_pairs_starts_with_quote (d : Json.dict) (tail : string) :
  d <> [] ->
  exists more,
    String.concat pair_sep (map Json.dump_pair d) +:+ tail = String Json.dq more.
Proof.
  destruct d as [| [k v] [| p d]]; [congruence | |]; intros _.
  - eexists. change (String.concat pair_sep (map Json.dump_pair [(k, v)]))
      with (Json.dump_pair (k, v)).
    unfold Json.dump_pair. cbn [fst snd]. rewrite !str_app_assoc, scanstring_encode.
    reflexivity.
  - eexists. rewrite !map_cons, concat_cons2.
    unfold Json.dump_pair at 1. cbn [fst snd].
    rewrite !str_app_assoc, scanstring_encode.
    reflexivity.
Qed.

Lemma parse_object_dump (d : Json.dict) (fuel : nat) (rest : string) :
  (length d <= fuel)%nat ->
  wf_dict d ->
  exists body,
    Json.dump_dict d +:+ rest = String "{" body
    /\ Json.parse_object fuel body = Some (d, rest).
Proof.
  intros Hfuel Hwf.
  destruct d as [| p d].
  - exists (String "}" rest). split; reflexivity.
  - exists (String Json.nl
              ("    " +:+ String.concat pair_sep (map Json.dump_pair (p :: d))
               +:+ String Json.nl ("  }" +:+ rest))).
    split.
    + unfold Json.dump_dict. rewrite !str_app_assoc. reflexivity.
    + unfold Json.parse_object.
      change (Json.skip_ws (String Json.nl ("    " +:+ ?x))) with (Json.skip_ws x).
      rewrite skip_ws_dump_pairs by congruence.
      destruct (dump_pairs_starts_with_quote (p :: d)
                  (String Json.nl ("  }" +:+ rest))) as [more Hmore]; [congruence |].
      rewrite Hmore. change (Ascii.eqb Json.dq "}") with false. cbn iota.
      rewrite <- Hmore.
      apply (parse_pairs_dump (p :: d) fuel [] rest); [congruence | exact Hfuel |].
      exact Hwf.
Qed.

(** One turn of the element loop on a printed dictionary. *)
Lemma parse_elems_step (fuel : nat) (d : Json.dict) (tail : string) :
  (length d <= fuel)%nat ->
  wf_dict d ->
  Json.parse_elems (S fuel) (Json.dump_dict d +:+ tail) =
  match Json.skip_ws tail with
  | "" => None
  | String c3 s3 =>
      if Ascii.eqb c3 "]" then Some ([d], s3)
      else if Ascii.eqb c3 "," then
        match Json.parse_elems fuel (Json.skip_ws s3) with
        | Some (l, rest) => Some (d :: l, rest)
        | None => None
        end
      else None
  end.
Proof.
  intros Hfuel Hwf.
  destruct (parse_object_dump d fuel tail Hfuel Hwf) as (body & -> & Hobj).
  cbn [Json.parse_elems]. change (Ascii.eqb "{" "{") with true. cbn [negb].
  now rewrite Hobj.
Qed.

(** The iterations the decoder needs on a printed list. *)
Definition need (l : list Json.dict) : nat :=
  list_sum (map (fun d => S (length d)) l).

Lemma need_cons (d : Json.dict) (l : list Json.dict) :
  need (d :: l) = S (length d + need l).
Proof. reflexivity. Qed.

Lemma skip_ws_dump_dicts (l : list Json.dict) (tail : string) :
  l <> [] ->
  Json.skip_ws (String.concat dict_sep (map Json.dump_dict l) +:+ tail)
  = String.concat dict_sep (map Json.dump_dict l) +:+ tail.
Proof.
  destruct l as [| [| p d] [| d' l]]; try congruence; reflexivity.
Qed.

Lemma parse_elems_dump (l : list Json.dict) :
  forall (fuel : nat) (rest : string),
    l <> [] ->
    (need l <= fuel)%nat ->
    Forall wf_dict l ->
    Json.parse_elems fuel
      (String.concat dict_sep (map Json.dump_dict l) +:+ String Json.nl ("]" +:+ rest))
    = Some (l, rest).
Proof.
  induction l as [| d l IH]; intros fuel rest Hne Hfuel Hwf; [congruence |].
  rewrite need_cons in Hfuel.
  destruct fuel as [| fuel]; [lia |].
  inversion Hwf as [| ? ? Hd Hl]; subst.
  destruct l as [| d' l].
  - change (String.concat dict_sep (map Json.dump_dict [d])) with (Json.dump_dict d).
    rewrite parse_elems_step by (try assumption; lia).
    reflexivity.
  - rewrite !map_cons, concat_cons2, !str_app_assoc.
    rewrite parse_elems_step by (try assumption; lia).
    change (Json.skip_ws (dict_sep +:+ ?x)) with (String "," (String Json.nl ("  " +:+ x))).
    change (Ascii.eqb "," "]") with false. change (Ascii.eqb "," ",") with true.
    cbn iota.
    change (Json.skip_ws (String Json.nl ("  " +:+ ?x))) with (Json.skip_ws x).
    rewrite <- !map_cons.
    rewrite skip_ws_dump_dicts by congruence.
    rewrite IH; [reflexivity | congruence | lia | assumption].
Qed.

Lemma dump_pairs_length (d : Json.dict) :
  (length d <= String.length (String.concat pair_sep (map Json.dump_pair d)))%nat.
Proof.
  induction d as [| [k v] d IH]; [simpl; lia |].
  destruct d as [| p d].
  - change (String.concat pair_sep (map Json.dump_pair [(k, v)]))
      with (Json.dump_pair (k, v)).
    unfold Json.dump_pair, Json.encode_basestring. simpl.
    apply le_n_S, Nat.le_0_l.
  - rewrite !map_cons, concat_cons2, !str_length_app.
    rewrite <- !map_cons. simpl length in *.
    change (String.length pair_sep) with 6%nat. lia.
Qed.

Lemma dump_dict_length (d : Json.dict) :
  (S (length d) <= String.length (Json.dump_dict d))%nat.
Proof.
  destruct d as [| p d]; [simpl; lia |].
  unfold Json.dump_dict. fold pair_sep. rewrite !str_length_app.
  pose proof (dump_pairs_length (p :: d)) as H.
  remember (String.length (String.concat pair_sep (map Json.dump_pair (p :: d)))) as n.
  simpl in *. lia.
Qed.

Lemma dump_dicts_length (l : list Json.dict) :
  (need l <= String.length (String.concat dict_sep (map Json.dump_dict l)))%nat.
Proof.
  induction l as [| d l IH]; [apply Nat.le_0_l |].
  rewrite need_cons.
  pose proof (dump_dict_length d).
  destruct l as [| d' l].
  - change (String.concat dict_sep (map Json.dump_dict [d])) with (Json.dump_dict d).
    change (need []) with 0%nat. lia.
  - rewrite !map_cons, concat_cons2, !str_length_app.
    rewrite <- !map_cons. rewrite need_cons in *. lia.
Qed.

(** Decoding an encoded queue gives the queue back, element for element
    and member for member. *)
Lemma loads_dumps (l : list Json.dict) :
  Forall wf_dict l -> Json.loads (Json.dumps l) = Some l.
Proof.
  intros Hwf. destruct l as [| d l]; [reflexivity |].
  unfold Json.loads, Json.loads_fuel.
  set (fuel := String.length (Json.dumps (d :: l))).
  assert (Hfuel : (need (d :: l) <= fuel)%nat).
  { subst fuel. unfold Json.dumps. fold dict_sep. rewrite !str_length_app.
    pose proof (dump_dicts_length (d :: l)). lia. }
  unfold Json.dumps. fold dict_sep.
  change (Json.skip_ws ("[" +:+ ?x)) with (String "[" x).
  change (Ascii.eqb "[" "[") with true. cbn [negb].
  unfold Json.parse_array.
  change (Json.skip_ws (String Json.nl "  " +:+ ?x)) with (Json.skip_ws x).
  rewrite skip_ws_dump_dicts by congruence.
  assert (Hstart : exists c more,
             String.concat dict_sep (map Json.dump_dict (d :: l)) +:+ String Json.nl "]"
             = String c more /\ Ascii.eqb c "]" = false).
  { destruct d as [| p d], l as [| d' l]; eexists _, _; split;
      try reflexivity; reflexivity. }
  destruct Hstart as (c & more & Hs & Hc).
  rewrite Hs, Hc, <- Hs.
  change (String Json.nl "]") with (String Json.nl ("]" +:+ "")).
  rewrite parse_elems_dump; [reflexivity | congruence | exact Hfuel | exact Hwf].
Qed.

(** ** Well-formed documents *)

Lemma skip_ws_length (s : string) :
  (String.length (Json.skip_ws s) <= String.length s)%nat.
Proof.
  induction s as [| c s IH]; simpl; [lia |].
  destruct (Json.is_ws c); simpl; lia.
Qed.

Lemma skip_digits_length (s : string) :
  (String.length (Json.skip_digits s) <= String.length s)%nat.
Proof.
  induction s as [| c s IH]; simpl; [lia |].
  destruct (Json.is_digit c); simpl; lia.
Qed.

Lemma skip_fraction_length (s : string) :
  (String.length (Json.skip_fraction s) <= String.length s)%nat.
Proof.
  destruct s as [| c [| d s]]; simpl; try lia.
  destruct (Ascii.eqb c "." && Json.is_digit d); simpl; [| lia].
  pose proof (skip_digits_length s). lia.
Qed.

Lemma skip_exponent_length (s : string) :
  (String.length (Json.skip_exponent s) <= String.length s)%nat.
Proof.
  destruct s as [| c s1]; simpl; [lia |].
  destruct (Ascii.eqb c "e" || Ascii.eqb c "E"); simpl; [| lia].
  destruct s1 as [| sign s']; simpl; [lia |].
  destruct (Ascii.eqb sign "-" || Ascii.eqb sign "+").
  - destruct s' as [| d s3]; simpl; [lia |].
    destruct (Json.is_digit d); simpl; [| lia].
    pose proof (skip_digits_length s3). lia.
  - destruct (Json.is_digit sign); simpl; [| lia].
    pose proof (skip_digits_length s'). lia.
Qed.

Lemma match_number_length (s rest : string) :
  Json.match_number s = Some rest -> (String.length rest < String.length s)%nat.
Proof.
  unfold Json.match_number.
  assert (Hdigits : forall c s2 r,
            (if Ascii.eqb c "0" then Some (Json.skip_exponent (Json.skip_fraction s2))
             else if Json.is_digit c
                  then Some (Json.skip_exponent
                               (Json.skip_fraction (Json.skip_digits s2)))
                  else None) = Some r ->
            (String.length r <= String.length s2)%nat).
  { intros c s2 r H.
    pose proof (skip_digits_length s2).
    pose proof (skip_fraction_length s2).
    pose proof (skip_fraction_length (Json.skip_digits s2)).
    pose proof (skip_exponent_length (Json.skip_fraction s2)).
    pose proof (skip_exponent_length (Json.skip_fraction (Json.skip_digits s2))).
    destruct (Ascii.eqb c "0"); [injection H as <-; lia |].
    destruct (Json.is_digit c); [injection H as <-; lia | discriminate]. }
  destruct s as [| c s']; [discriminate |].
  destruct (Ascii.eqb c "-").
  - destruct s' as [| c' s2]; [discriminate |].
    intros H. apply Hdigits in H. simpl. lia.
  - intros H. apply Hdigits in H. simpl. lia.
Qed.

Lemma after_prefix_length (p s rest : string) :
  Json.after_prefix p s = Some rest ->
  String.length s = (String.length p + String.length rest)%nat.
Proof.
  revert s. induction p as [| a p IH]; intros s; simpl.
  - now intros [= ->].
  - destruct s as [| b s]; [discriminate |].
    destruct (Ascii.eqb a b); [| discriminate].
    intros H. apply IH in H. simpl. lia.
Qed.

Lemma skip_scalar_length (s rest : string) :
  Json.skip_scalar s = Some rest -> (String.length rest < String.length s)%nat.
Proof.
  unfold Json.skip_scalar, Json.constants, Json.skip_constant.
  repeat match goal with
         | |- context [Json.after_prefix ?p s] =>
             let E := fresh "E" in
             destruct (Json.after_prefix p s) eqn:E;
             [ intros [= <-]; apply after_prefix_length in E; simpl in E; lia |]
         end.
  apply match_number_length.
Qed.

Lemma skip_string_length_upto (n : nat) :
  forall s rest,
    (String.length s <= n)%nat ->
    Json.skip_string s = Some rest -> (String.length rest < String.length s)%nat.
Proof.
  induction n as [| n IH]; intros s rest Hn.
  - destruct s; [discriminate | simpl in Hn; lia].
  - destruct s as [| c s1]; [discriminate |]. simpl in Hn.
    cbn [Json.skip_string].
    destruct (Ascii.eqb c Json.dq); [intros [= ->]; simpl; lia |].
    destruct (Ascii.eqb c Json.backslash).
    + destruct s1 as [| e s2]; [discriminate |]. simpl in Hn.
      destruct (Ascii.eqb e "u").
      * destruct s2 as [| h1 [| h2 [| h3 [| h4 s3]]]]; try discriminate.
        destruct (Json.is_hex h1 && Json.is_hex h2 && Json.is_hex h3
                  && Json.is_hex h4); [| discriminate].
        intros H. apply IH in H; simpl in *; lia.
      * destruct (Json.unescape_simple e); [| discriminate].
        intros H. apply IH in H; simpl in *; lia.
    + destruct (N_of_ascii c <? 32)%N; [discriminate |].
      intros H. apply IH in H; simpl in *; lia.
Qed.

Lemma skip_string_length (s rest : string) :
  Json.skip_string s = Some rest -> (String.length rest < String.length s)%nat.
Proof. apply (skip_string_length_upto (String.length s)). lia. Qed.

(** What is read is not empty: the text after a value, and after the
    pairs of an object or the elements of an array up to the closing
    bracket, is shorter than the text it was read from. *)
Lemma skip_value_length (fuel : nat) :
  (forall s rest, Json.skip_value fuel s = Some rest ->
                  (String.length rest < String.length s)%nat)
  /\ (forall s rest, Json.skip_pairs fuel s = Some rest ->
                     (String.length rest < String.length s)%nat)
  /\ (forall s rest, Json.skip_elems fuel s = Some rest ->
                     (String.length rest < String.length s)%nat).
Proof.
  induction fuel as [| fuel (IHv & IHp & IHe)]; [repeat split; discriminate |].
  split; [| split]; intros s rest.
  - cbn [Json.skip_value]. destruct s as [| c s1]; [discriminate |].
    destruct (Ascii.eqb c Json.dq).
    { intros H. apply skip_string_length in H. simpl. lia. }
    destruct (Ascii.eqb c "{").
    { pose proof (skip_ws_length s1) as Hws.
      destruct (Json.skip_ws s1) as [| c2 s2]; [discriminate |].
      destruct (Ascii.eqb c2 "}").
      - intros [= <-]. simpl in *. lia.
      - intros H. apply IHp in H. simpl in *. lia. }
    destruct (Ascii.eqb c "[").
    { pose proof (skip_ws_length s1) as Hws.
      destruct (Json.skip_ws s1) as [| c2 s2]; [discriminate |].
      destruct (Ascii.eqb c2 "]").
      - intros [= <-]. simpl in *. lia.
      - intros H. apply IHe in H. simpl in *. lia. }
    apply skip_scalar_length.
  - cbn [Json.skip_pairs]. destruct s as [| c s1]; [discriminate |].
    destruct (negb (Ascii.eqb c Json.dq)); [discriminate |].
    destruct (Json.skip_string s1) as [s2 |] eqn:Hk; [| discriminate].
    apply skip_string_length in Hk.
    pose proof (skip_ws_length s2) as Hws2.
    destruct (Json.skip_ws s2) as [| c3 s3]; [discriminate |].
    destruct (negb (Ascii.eqb c3 ":")); [discriminate |].
    pose proof (skip_ws_length s3) as Hws3.
    destruct (Json.skip_value fuel (Json.skip_ws s3)) as [s4 |] eqn:Hv; [| discriminate].
    apply IHv in Hv.
    pose proof (skip_ws_length s4) as Hws4.
    destruct (Json.skip_ws s4) as [| c5 s5]; [discriminate |].
    destruct (Ascii.eqb c5 "}"); [intros [= <-]; simpl in *; lia |].
    destruct (Ascii.eqb c5 ","); [| discriminate].
    pose proof (skip_ws_length s5) as Hws5.
    intros H. apply IHp in H. simpl in *. lia.
  - cbn [Json.skip_elems].
    destruct (Json.skip_value fuel s) as [s2 |] eqn:Hv; [| discriminate].
    apply IHv in Hv.
    pose proof (skip_ws_length s2) as Hws2.
    destruct (Json.skip_ws s2) as [| c3 s3]; [discriminate |].
    destruct (Ascii.eqb c3 "]"); [intros [= <-]; simpl in *; lia |].
    destruct (Ascii.eqb c3 ","); [| discriminate].
    pose proof (skip_ws_length s3) as Hws3.
    intros H. apply IHe in H. simpl in *. lia.
Qed.

(** The recogniser does not run out of fuel: what it reads with some fuel
    it reads with any fuel above twice the length of the text. *)
Lemma skip_value_enough (fuel : nat) :
  (forall s rest, Json.skip_value fuel s = Some rest ->
     forall fuel', (2 * String.length s < fuel')%nat ->
                   Json.skip_value fuel' s = Some rest)
  /\ (forall s rest, Json.skip_pairs fuel s = Some rest ->
        forall fuel', (2 * String.length s < fuel')%nat ->
                      Json.skip_pairs fuel' s = Some rest)
  /\ (forall s rest, Json.skip_elems fuel s = Some rest ->
        forall fuel', (2 * String.length s + 1 < fuel')%nat ->
                      Json.skip_elems fuel' s = Some rest).
Proof.
  induction fuel as [| fuel (IHv & IHp & IHe)]; [repeat split; discriminate |].
  destruct (skip_value_length fuel) as (Lv & Lp & Le).
  split; [| split]; intros s rest H [| fuel'] Hfuel; try lia.
  - revert H. cbn [Json.skip_value]. destruct s as [| c s1]; [discriminate |].
    destruct (Ascii.eqb c Json.dq); [trivial |].
    destruct (Ascii.eqb c "{").
    { pose proof (skip_ws_length s1) as Hws.
      destruct (Json.skip_ws s1) as [| c2 s2]; [discriminate |].
      destruct (Ascii.eqb c2 "}"); [trivial |].
      intros H. apply (IHp _ _ H). simpl in *. lia. }
    destruct (Ascii.eqb c "[").
    { pose proof (skip_ws_length s1) as Hws.
      destruct (Json.skip_ws s1) as [| c2 s2]; [discriminate |].
      destruct (Ascii.eqb c2 "]"); [trivial |].
      intros H. apply (IHe _ _ H). simpl in *. lia. }
    trivial.
  - revert H. cbn [Json.skip_pairs]. destruct s as [| c s1]; [discriminate |].
    destruct (negb (Ascii.eqb c Json.dq)); [discriminate |].
    destruct (Json.skip_string s1) as [s2 |] eqn:Hk; [| discriminate].
    apply skip_string_length in Hk.
    pose proof (skip_ws_length s2) as Hws2.
    destruct (Json.skip_ws s2) as [| c3 s3]; [discriminate |].
    destruct (negb (Ascii.eqb c3 ":")); [discriminate |].
    pose proof (skip_ws_length s3) as Hws3.
    destruct (Json.skip_value fuel (Json.skip_ws s3)) as [s4 |] eqn:Hv; [| discriminate].
    rewrite (IHv _ _ Hv fuel') by (simpl in *; lia).
    apply Lv in Hv.
    pose proof (skip_ws_length s4) as Hws4.
    destruct (Json.skip_ws s4) as [| c5 s5]; [discriminate |].
    destruct (Ascii.eqb c5 "}"); [trivial |].
    destruct (Ascii.eqb c5 ","); [| discriminate].
    pose proof (skip_ws_length s5) as Hws5.
    intros H. apply (IHp _ _ H). simpl in *. lia.
  - revert H. cbn [Json.skip_elems].
    destruct (Json.skip_value fuel s) as [s2 |] eqn:Hv; [| discriminate].
    rewrite (IHv _ _ Hv fuel') by lia.
    apply Lv in Hv.
    pose proof (skip_ws_length s2) as Hws2.
    destruct (Json.skip_ws s2) as [| c3 s3]; [discriminate |].
    destruct (Ascii.eqb c3 "]"); [trivial |].
    destruct (Ascii.eqb c3 ","); [| discriminate].
    pose proof (skip_ws_length s3) as Hws3.
    intros H. apply (IHe _ _ H). simpl in *. lia.
Qed.

(** The answer of [Json.well_formed] does not depend on the fuel it takes:
    a text it refuses is refused with any fuel. *)
Lemma skip_value_fuel (s : string) (fuel : nat) :
  Json.skip_value (S (2 * String.length s)) (Json.skip_ws s) = None ->
  Json.skip_value fuel (Json.skip_ws s) = None.
Proof.
  intros Hnone. destruct (Json.skip_value fuel (Json.skip_ws s)) as [rest |] eqn:H;
    [| reflexivity].
  destruct (skip_value_enough fuel) as (Hv & _).
  rewrite (Hv _ _ H (S (2 * String.length s))) in Hnone; [discriminate |].
  pose proof (skip_ws_length s). lia.
Qed.

(** What the decoder of the queue reads, the recogniser accepts. *)
Lemma scanstring_skip_string_upto (n : nat) :
  forall s r rest,
    (String.length s <= n)%nat ->
    Json.scanstring s = Some (r, rest) -> Json.skip_string s = Some rest.
Proof.
  induction n as [| n IH]; intros s r rest Hn.
  - destruct s; [discriminate | simpl in Hn; lia].
  - destruct s as [| c s1]; [discriminate |]. simpl in Hn.
    cbn [Json.scanstring Json.skip_string].
    destruct (Ascii.eqb c Json.dq); [now intros [= _ ->] |].
    destruct (Ascii.eqb c Json.backslash).
    + destruct s1 as [| e s2]; [discriminate |]. simpl in Hn.
      destruct (Ascii.eqb e "u").
      * destruct s2 as [| h1 [| h2 [| h3 [| h4 s3]]]]; try discriminate.
        unfold Json.is_hex.
        destruct (Json.hex_value h1) as [[|?] |]; try discriminate.
        destruct (Json.hex_value h2) as [[|?] |]; try discriminate.
        destruct (Json.hex_value h3) as [a |]; try discriminate.
        destruct (Json.hex_value h4) as [b |]; try discriminate.
        cbn [andb].
        destruct (Json.scanstring s3) as [[r' rest'] |] eqn:E; [| discriminate].
        intros [= _ <-]. apply (IH s3 r' rest'); [simpl in *; lia | exact E].
      * destruct (Json.unescape_simple e); [| discriminate].
        destruct (Json.scanstring s2) as [[r' rest'] |] eqn:E; [| discriminate].
        intros [= _ <-]. apply (IH s2 r' rest'); [simpl in *; lia | exact E].
    + destruct (N_of_ascii c <? 32)%N; [discriminate |].
      destruct (Json.scanstring s1) as [[r' rest'] |] eqn:E; [| discriminate].
      intros [= _ <-]. apply (IH s1 r' rest'); [lia | exact E].
Qed.

Lemma scanstring_skip_string (s r rest : string) :
  Json.scanstring s = Some (r, rest) -> Json.skip_string s = Some rest.
Proof. apply (scanstring_skip_string_upto (String.length s)). lia. Qed.

Lemma parse_value_cases (s : string) (v : Json.value) (rest : string) :
  Json.parse_value s = Some (v, rest) ->
  s = "null" +:+ rest \/ s = "true" +:+ rest \/ s = "false" +:+ rest
  \/ exists s1 r, s = String Json.dq s1 /\ Json.scanstring s1 = Some (r, rest).
Proof.
  intros H.
  destruct s as [| c s1]; [discriminate |].
  destruct (Ascii.eqb_spec c Json.dq) as [-> | Hdq].
  { right. right. right. exists s1.
    change (Json.parse_value (String Json.dq s1))
      with (match Json.scanstring s1 with
            | Some (r, rest) => Some (Json.Str r, rest)
            | None => None
            end) in H.
    destruct (Json.scanstring s1) as [[r rest'] |]; [| discriminate].
    injection H as _ <-. now exists r. }
  assert (Hnone : (if Ascii.eqb c Json.dq
                   then match Json.scanstring s1 with
                        | Some (r, rest) => Some (Json.Str r, rest)
                        | None => None
                        end
                   else None) = @None (Json.value * string)).
  { destruct (Ascii.eqb_spec c Json.dq); [contradiction | reflexivity]. }
  revert H Hnone. clear Hdq.
  destruct c as [[] [] [] [] [] [] [] []];
    try (intros H Hnone; cbn in H, Hnone; congruence);
    (destruct s1 as [| [[] [] [] [] [] [] [] []] s2];
     try (intros H Hnone; cbn in H, Hnone; congruence));
    (destruct s2 as [| [[] [] [] [] [] [] [] []] s3];
     try (intros H Hnone; cbn in H, Hnone; congruence));
    (destruct s3 as [| [[] [] [] [] [] [] [] []] s4];
     try (intros H Hnone; cbn in H, Hnone; congruence));
    try (intros [= _ <-] _; left; reflexivity);
    try (intros [= _ <-] _; right; left; reflexivity).
  destruct s4 as [| [[] [] [] [] [] [] [] []] s5];
    try (intros H Hnone; cbn in H, Hnone; congruence).
  intros [= _ <-] _. right. right. left. reflexivity.
Qed.

Lemma parse_value_skip_value (fuel : nat) (s : string) (v : Json.value) (rest : string) :
  Json.parse_value s = Some (v, rest) -> Json.skip_value (S fuel) s = Some rest.
Proof.
  intros H. apply parse_value_cases in H as [-> | [-> | [-> | (s1 & r & -> & H)]]];
    try reflexivity.
  now apply scanstring_skip_string in H.
Qed.

Lemma parse_pairs_skip_pairs (n : nat) :
  forall acc s d rest,
    Json.parse_pairs n acc s = Some (d, rest) -> Json.skip_pairs (S n) s = Some rest.
Proof.
  induction n as [| n IH]; intros acc s d rest; [discriminate |].
  cbn [Json.parse_pairs]. change (Json.skip_pairs (S (S n)) s)
    with (match s with
          | "" => None
          | String c s1 =>
              if negb (Ascii.eqb c Json.dq) then None
              else
                match Json.skip_string s1 with
                | None => None
                | Some s2 =>
                    match Json.skip_ws s2 with
                    | "" => None
                    | String c3 s3 =>
                        if negb (Ascii.eqb c3 ":") then None
                        else
                          match Json.skip_value (S n) (Json.skip_ws s3) with
                          | None => None
                          | Some s4 =>
                              match Json.skip_ws s4 with
                              | "" => None
                              | String c5 s5 =>
                                  if Ascii.eqb c5 "}" then Some s5
                                  else if Ascii.eqb c5 "," then
                                    Json.skip_pairs (S n) (Json.skip_ws s5)
                                  else None
                              end
                          end
                    end
                end
          end).
  destruct s as [| c s1]; [discriminate |].
  destruct (negb (Ascii.eqb c Json.dq)); [discriminate |].
  destruct (Json.scanstring s1) as [[k s2] |] eqn:Hk; [| discriminate].
  rewrite (scanstring_skip_string _ _ _ Hk).
  destruct (Json.skip_ws s2) as [| c3 s3]; [discriminate |].
  destruct (negb (Ascii.eqb c3 ":")); [discriminate |].
  destruct (Json.parse_value (Json.skip_ws s3)) as [[v s4] |] eqn:Hv; [| discriminate].
  rewrite (parse_value_skip_value n _ _ _ Hv).
  destruct (Json.skip_ws s4) as [| c5 s5]; [discriminate |].
  destruct (Ascii.eqb c5 "}"); [now intros [= _ ->] |].
  destruct (Ascii.eqb c5 ","); [| discriminate].
  apply IH.
Qed.

Lemma parse_object_skip_value (n : nat) (s1 : string) (d : Json.dict) (rest : string) :
  Json.parse_object n s1 = Some (d, rest) ->
  Json.skip_value (S (S n)) (String "{" s1) = Some rest.
Proof.
  unfold Json.parse_object.
  change (Json.skip_value (S (S n)) (String "{" s1))
    with (match Json.skip_ws s1 with
          | "" => None
          | String c2 s2 =>
              if Ascii.eqb c2 "}" then Some s2
              else Json.skip_pairs (S n) (String c2 s2)
          end).
  destruct (Json.skip_ws s1) as [| c2 s2]; [discriminate |].
  destruct (Ascii.eqb c2 "}"); [now intros [= _ ->] |].
  apply parse_pairs_skip_pairs.
Qed.

Lemma parse_elems_skip_elems (n : nat) :
  forall s l rest,
    Json.parse_elems n s = Some (l, rest) -> Json.skip_elems (S (S n)) s = Some rest.
Proof.
  induction n as [| n IH]; intros s l rest; [discriminate |].
  cbn [Json.parse_elems].
  change (Json.skip_elems (S (S (S n))) s)
    with (match Json.skip_value (S (S n)) s with
          | None => None
          | Some s2 =>
              match Json.skip_ws s2 with
              | "" => None
              | String c3 s3 =>
                  if Ascii.eqb c3 "]" then Some s3
                  else if Ascii.eqb c3 "," then Json.skip_elems (S (S n)) (Json.skip_ws s3)
                  else None
              end
          end).
  destruct s as [| c s1]; [discriminate |].
  destruct (Ascii.eqb_spec c "{") as [-> | _]; [| discriminate]. cbn [negb].
  destruct (Json.parse_object n s1) as [[d s2] |] eqn:Ho; [| discriminate].
  rewrite (parse_object_skip_value _ _ _ _ Ho).
  destruct (Json.skip_ws s2) as [| c3 s3]; [discriminate |].
  destruct (Ascii.eqb c3 "]"); [now intros [= _ ->] |].
  destruct (Ascii.eqb c3 ","); [| discriminate].
  destruct (Json.parse_elems n (Json.skip_ws s3)) as [[l' rest'] |] eqn:He; [| discriminate].
  intros [= _ <-]. now apply (IH _ l').
Qed.

Lemma parse_array_skip_value (n : nat) (s1 : string) (l : list Json.dict) (rest : string) :
  Json.parse_array n s1 = Some (l, rest) ->
  Json.skip_value (S (S (S n))) (String "[" s1) = Some rest.
Proof.
  unfold Json.parse_array.
  change (Json.skip_value (S (S (S n))) (String "[" s1))
    with (match Json.skip_ws s1 with
          | "" => None
          | String c2 s2 =>
              if Ascii.eqb c2 "]" then Some s2
              else Json.skip_elems (S (S n)) (String c2 s2)
          end).
  destruct (Json.skip_ws s1) as [| c2 s2]; [discriminate |].
  destruct (Ascii.eqb c2 "]"); [now intros [= _ ->] |].
  apply parse_elems_skip_elems.
Qed.

(** A document the decoder of the queue reads is well-formed; so a text
    that is not well-formed does not decode. *)
Lemma loads_well_formed (s : string) (l : list Json.dict) :
  Json.loads s = Some l -> Json.well_formed s = true.
Proof.
  unfold Json.loads, Json.loads_fuel, Json.well_formed.
  pose proof (skip_ws_length s) as Hws.
  destruct (Json.skip_ws s) as [| c s1] eqn:Es; [discriminate |].
  destruct (Ascii.eqb_spec c "[") as [-> | _]; [| discriminate]. cbn [negb].
  destruct (Json.parse_array (String.length s) s1) as [[l' rest] |] eqn:Ha; [| discriminate].
  apply parse_array_skip_value in Ha.
  destruct (skip_value_enough (S (S (S (String.length s))))) as (Hv & _).
  rewrite (Hv _ _ Ha (S (2 * String.length s))) by lia.
  now destruct (Json.skip_ws rest).
Qed.

Lemma not_well_formed_loads (s : string) :
  Json.well_formed s = false -> Json.loads s = None.
Proof.
  intros H. destruct (Json.loads s) as [l |] eqn:E; [| reflexivity].
  apply loads_well_formed in E. congruence.
Qed.

(** ** Loading and storing the queue *)

(** What the cache holds after a load, as a function of the file. *)
Definition loaded_cache (f : AccessLogger.storage) : list Json.dict :=
  match AccessLogger.content f with
  | None => []
  | Some text =>
      if AccessLogger.read_fails f then []
      else if Builtins.strip_is_empty text then []
      else default [] (Json.loads text)
  end.

Lemma load_offline_logs_eq (l : AccessLogger.t) :
  exists l',
    AccessLogger._load_offline_logs l = (Ok tt, l')
    /\ AccessLogger._cache_loaded l' = true
    /\ AccessLogger.offline_logs_file l' = AccessLogger.offline_logs_file l
    /\ AccessLogger._offline_logs_cache l' = loaded_cache (AccessLogger.offline_logs_file l).
Proof.
  destruct l as [c ld [co rf wf] recs].
  unfold AccessLogger._load_offline_logs, loaded_cache, Py.try_except, Py.bind, Py.get,
    AccessLogger.exists_file, AccessLogger.read_file, AccessLogger.set_cache,
    AccessLogger.set_loaded, AccessLogger.emit, Py.modify, Py.raise; simpl.
  destruct co as [text |]; simpl; [| eexists; repeat split].
  destruct rf; simpl; [eexists; repeat split |].
  destruct (Builtins.strip_is_empty text); simpl; [eexists; repeat split |].
  destruct (Json.loads text) as [q |]; simpl; eexists; repeat split.
Qed.

Lemma dumps_not_blank (q : list Json.dict) :
  Builtins.strip_is_empty (Json.dumps q) = false.
Proof. destruct q; reflexivity. Qed.

(** C9.  Loading always completes and marks the cache loaded.  The cache
    is the decoded list when the file exists, can be read and decodes (so
    it is the persisted queue when the file holds what the logger wrote);
    it is empty when the file is absent, when it is empty or blank, when
    it cannot be read, and when its content is malformed, that is, not a
    document [json.loads] accepts; no error is raised in any of these
    cases.  The file is left as it was. *)
Theorem load_offline_logs_outcome (l : AccessLogger.t) :
  let f := AccessLogger.offline_logs_file l in
  let l' := snd (AccessLogger._load_offline_logs l) in
  fst (AccessLogger._load_offline_logs l) = Ok tt
  /\ AccessLogger._cache_loaded l' = true
  /\ AccessLogger.offline_logs_file l' = f
  /\ (forall text q,
        AccessLogger.content f = Some text -> AccessLogger.read_fails f = false ->
        Builtins.strip_is_empty text = false -> Json.loads text = Some q ->
        AccessLogger._offline_logs_cache l' = q)
  /\ (forall q,
        Forall wf_dict q ->
        AccessLogger.content f = Some (Json.dumps q) ->
        AccessLogger.read_fails f = false ->
        AccessLogger._offline_logs_cache l' = q)
  /\ (AccessLogger.content f = None -> AccessLogger._offline_logs_cache l' = [])
  /\ (forall text,
        AccessLogger.content f = Some text -> Builtins.strip_is_empty text = true ->
        AccessLogger._offline_logs_cache l' = [])
  /\ (forall text,
        AccessLogger.content f = Some text -> Json.well_formed text = false ->
        AccessLogger._offline_logs_cache l' = [])
  /\ (AccessLogger.read_fails f = true -> AccessLogger._offline_logs_cache l' = []).
Proof.
  intros f l'.
  destruct (load_offline_logs_eq l) as (l1 & Heq & Hld & Hfile & Hcache).
  subst l'. rewrite Heq. cbn [fst snd]. fold f in Hfile, Hcache.
  rewrite Hcache. unfold loaded_cache.
  repeat split; try assumption.
  - intros text q -> -> -> ->. reflexivity.
  - intros q Hwf -> ->. now rewrite dumps_not_blank, loads_dumps.
  - intros ->. reflexivity.
  - intros text -> ->. now destruct (AccessLogger.read_fails f).
  - intros text -> Hbad. rewrite (not_well_formed_loads text Hbad).
    destruct (AccessLogger.read_fails f); [reflexivity |].
    now destruct (Builtins.strip_is_empty text).
  - intros ->. now destruct (AccessLogger.content f).
Qed.

(** Start-up on a file that was corrupted, and on one the logger wrote. *)
Example load_offline_logs_examples :
  let start text :=
    AccessLogger._load_offline_logs
      (AccessLogger.init (AccessLogger.mk_storage text false false)) in
  let ev := [("card_id", Json.Str "04A1B2C3"); ("authorized", Json.Bool false)] in
  (fst (start (Some "{not json")), AccessLogger._offline_logs_cache (snd (start (Some "{not json"))))
  = (Ok tt, [])
  /\ AccessLogger._offline_logs_cache (snd (start (Some (Json.dumps [ev; ev])))) = [ev; ev]
  /\ AccessLogger._offline_logs_cache (snd (start None)) = [].
Proof. repeat split; reflexivity. Qed.

(** A truncated document is malformed.  A list of numbers is well-formed:
    [json.loads] decodes it, to a value the model of [Json.loads] does not
    have, and the theorem above says nothing of it. *)
Example well_formed_examples :
  map Json.well_formed
    ["{not json"; "[1, 2"; "[01]"; "nul"; "[1, 2]"; "-0.5e3"; "[[], {}, NaN]"]
  = [false; false; false; false; true; true; true]
  /\ Json.loads "[1, 2]" = None.
Proof. split; reflexivity. Qed.

(** Python's equality of dictionaries: the same value under every key. *)
Definition dict_equiv (d d' : Json.dict) : Prop :=
  forall k, Builtins.dict_get k d = Builtins.dict_get k d'.

Lemma dict_get_in (d : Json.dict) (k : string) (v : Json.value) :
  wf_dict d -> (Builtins.dict_get k d = Some v <-> In (k, v) d).
Proof.
  unfold wf_dict. induction d as [| [k' v'] d IH]; simpl; intros Hnd.
  - split; [discriminate | tauto].
  - apply NoDup_cons in Hnd as [Hk' Hnd].
    destruct (String.eqb_spec k' k) as [-> | Hne].
    + split.
      * intros [= ->]. now left.
      * intros [[= ->] | Hin]; [reflexivity |].
        exfalso. apply Hk'. apply list_elem_of_In.
        change k with (fst (k, v)). now apply in_map.
    + rewrite (IH Hnd). split; [tauto |].
      intros [[= -> _] | Hin]; [congruence | exact Hin].
Qed.

Lemma Permutation_wf_dict (d d' : Json.dict) :
  Permutation d d' -> wf_dict d -> wf_dict d'.
Proof.
  unfold wf_dict. intros Hp Hnd.
  pose proof (Permutation_map fst Hp) as Hp'. now rewrite <- Hp'.
Qed.

Lemma Permutation_dict_equiv (d d' : Json.dict) :
  Permutation d d' -> wf_dict d -> dict_equiv d d'.
Proof.
  intros Hp Hwf k.
  pose proof (Permutation_wf_dict _ _ Hp Hwf) as Hwf'.
  destruct (Builtins.dict_get k d) as [v |] eqn:E.
  - symmetry. apply dict_get_in; [assumption |].
    eapply Permutation_in; [exact Hp |]. now apply dict_get_in.
  - destruct (Builtins.dict_get k d') as [v |] eqn:E'; [| reflexivity].
    apply dict_get_in in E'; [| assumption].
    apply Permutation_sym in Hp.
    eapply Permutation_in in E'; [| exact Hp].
    apply dict_get_in in E'; [congruence | assumption].
Qed.

(** C8.  For a queue of events (dictionaries, each holding a key once):
    decoding the encoded queue gives the same list, in order; once the
    document is written, loading the file gives that list to any logger
    bound to it, whatever the logger held in memory before (a logger
    created at the next start holds nothing); and a queue whose events list
    their fields in another order comes back with events equal, as
    dictionaries, to the original ones. *)
Theorem offline_queue_round_trip (l : AccessLogger.t) :
  Forall wf_dict (AccessLogger._offline_logs_cache l) ->
  AccessLogger.write_fails (AccessLogger.offline_logs_file l) = false ->
  AccessLogger.read_fails (AccessLogger.offline_logs_file l) = false ->
  let q := AccessLogger._offline_logs_cache l in
  let stored := snd (AccessLogger._persist_offline_logs l) in
  Json.loads (Json.dumps q) = Some q
  /\ AccessLogger.content (AccessLogger.offline_logs_file stored) = Some (Json.dumps q)
  /\ (forall l0,
        AccessLogger.offline_logs_file l0 = AccessLogger.offline_logs_file stored ->
        AccessLogger._offline_logs_cache (snd (AccessLogger._load_offline_logs l0)) = q)
  /\ (forall q', Forall2 (fun d d' => Permutation d d') q q' ->
        exists r, Json.loads (Json.dumps q') = Some r /\ Forall2 dict_equiv q r).
Proof.
  intros Hwf Hw Hr q stored.
  assert (Hstored : AccessLogger.offline_logs_file stored
                    = AccessLogger.mk_storage (Some (Json.dumps q)) false false).
  { subst stored. rewrite persist_offline_logs_eq, Hw, Hr. reflexivity. }
  split; [now apply loads_dumps |].
  split; [now rewrite Hstored |].
  split.
  - intros l0 Hfile.
    destruct (load_offline_logs_eq l0) as (l2 & Heq & _ & _ & Hcache).
    rewrite Heq. cbn [snd]. rewrite Hcache, Hfile, Hstored. unfold loaded_cache. simpl.
    now rewrite dumps_not_blank, (loads_dumps q Hwf).
  - intros q' Hperm. exists q'. split.
    + apply loads_dumps.
      clear -Hwf Hperm. fold q in Hwf.
      induction Hperm as [| d d' q q' Hd _ IH]; [constructor |].
      inversion Hwf; subst. constructor; [| now apply IH].
      now apply (Permutation_wf_dict d d').
    + clear -Hwf Hperm. fold q in Hwf.
      induction Hperm as [| d d' q q' Hd _ IH]; [constructor |].
      inversion Hwf; subst. constructor; [| now apply IH].
      now apply Permutation_dict_equiv.
Qed.

(** ** The capacity bound *)

(** The [n] most recent entries of a queue, in their order. *)
Definition last_n {A} (n : nat) (l : list A) : list A := drop (length l - n) l.

Lemma length_last_n {A} (n : nat) (l : list A) :
  length (last_n n l) = Nat.min n (length l).
Proof. unfold last_n. rewrite length_drop. lia. Qed.

Lemma slice_from_last_n {A} (m : Z) (l : list A) :
  1 <= m -> Builtins.slice_from (- m) l = last_n (Z.to_nat m) l.
Proof.
  intros Hm. unfold Builtins.slice_from, last_n.
  destruct (- m <? 0) eqn:E; [| apply Z.ltb_ge in E; lia].
  f_equal. lia.
Qed.

Lemma saved_cache_last_n (m : Z) (ev : Json.dict) (c : list Json.dict) :
  1 <= m -> saved_cache m ev c = last_n (Z.to_nat m) (c ++ [ev]).
Proof.
  intros Hm. unfold saved_cache.
  destruct (Z.of_nat (length (c ++ [ev])) >? m) eqn:E.
  - now apply slice_from_last_n.
  - unfold last_n.
    assert (Hle : Z.of_nat (length (c ++ [ev])) <= m) by lia.
    replace (length (c ++ [ev]) - Z.to_nat m)%nat with 0%nat by lia.
    reflexivity.
Qed.

Lemma last_n_snoc {A} (n : nat) (l : list A) (x : A) :
  (1 <= n)%nat -> last_n n (last_n n l ++ [x]) = last_n n (l ++ [x]).
Proof.
  intros Hn. unfold last_n.
  rewrite <- (drop_app_le l [x]) by lia.
  rewrite drop_drop. f_equal.
  rewrite length_drop, !length_app. simpl. lia.
Qed.

(** A run of appends, each through [_save_offline_log]. *)
Definition save_all (max_offline_logs : Z) (evs : list Json.dict)
    (l : AccessLogger.t) : AccessLogger.t :=
  fold_left (fun l ev => snd (AccessLogger._save_offline_log max_offline_logs ev l)) evs l.

Lemma save_offline_log_cache (m : Z) (ev : Json.dict) (l : AccessLogger.t) :
  AccessLogger._offline_logs_cache (snd (AccessLogger._save_offline_log m ev l))
  = saved_cache m ev (AccessLogger._offline_logs_cache l).
Proof.
  destruct (save_offline_log_eq m ev l) as (l' & Heq & Hc & _). now rewrite Heq.
Qed.

(** With a bound of at least one entry the queue behaves as the
    specification says: after any append it holds the most recent entries,
    at most the bound, in their order. *)
Lemma save_all_positive_bound (m : Z) (evs : list Json.dict) (l : AccessLogger.t) :
  1 <= m -> evs <> [] ->
  AccessLogger._offline_logs_cache (save_all m evs l)
  = last_n (Z.to_nat m) (AccessLogger._offline_logs_cache l ++ evs)
  /\ Z.of_nat (length (AccessLogger._offline_logs_cache (save_all m evs l))) <= m.
Proof.
  intros Hm Hne.
  assert (H : AccessLogger._offline_logs_cache (save_all m evs l)
              = last_n (Z.to_nat m) (AccessLogger._offline_logs_cache l ++ evs)).
  { destruct evs as [| ev evs]; [congruence |]. clear Hne.
    unfold save_all. simpl fold_left.
    assert (H1 : AccessLogger._offline_logs_cache
                   (snd (AccessLogger._save_offline_log m ev l))
                 = last_n (Z.to_nat m) (AccessLogger._offline_logs_cache l ++ [ev])).
    { now rewrite save_offline_log_cache, saved_cache_last_n. }
    revert H1.
    generalize (snd (AccessLogger._save_offline_log m ev l)) as l1.
    replace (AccessLogger._offline_logs_cache l ++ ev :: evs)
      with ((AccessLogger._offline_logs_cache l ++ [ev]) ++ evs)
      by now rewrite <- app_assoc.
    generalize (AccessLogger._offline_logs_cache l ++ [ev]) as c.
    induction evs as [| ev' evs IH]; intros c l1 H1; simpl.
    - now rewrite app_nil_r.
    - rewrite (IH (c ++ [ev'])).
      + now rewrite <- app_assoc.
      + rewrite save_offline_log_cache, saved_cache_last_n, H1 by exact Hm.
        apply last_n_snoc. lia. }
  split; [exact H |].
  rewrite H, length_last_n. lia.
Qed.

Lemma slice_from_zero {A} (c : list A) : Builtins.slice_from (- 0) c = c.
Proof.
  unfold Builtins.slice_from. change (- 0) with 0. change (0 <? 0) with false.
  cbv iota. replace (Z.to_nat (Z.min 0 (Z.of_nat (length c)))) with 0%nat by lia.
  reflexivity.
Qed.

(** C7, where the code departs from it.  With [MAX_OFFLINE_LOGS = 0] the
    trimming slice [cache[-0:]] is the whole list: nothing is ever evicted,
    the queue keeps every event appended to it and exceeds the bound from
    the first append on, while each append still logs the eviction
    warning. *)
Theorem offline_queue_zero_bound_keeps_all (evs : list Json.dict) (l : AccessLogger.t) :
  AccessLogger._offline_logs_cache (save_all 0 evs l)
  = AccessLogger._offline_logs_cache l ++ evs
  /\ (forall ev,
        let l' := snd (AccessLogger._save_offline_log 0 ev l) in
        Z.of_nat (length (AccessLogger._offline_logs_cache l')) > 0
        /\ In (AccessLogger.WARNING, AccessLogger.MsgEvicted 0) (AccessLogger.records l')).
Proof.
  split.
  - revert l. unfold save_all.
    induction evs as [| ev evs IH]; intros l; simpl; [now rewrite app_nil_r |].
    rewrite IH, save_offline_log_cache. unfold saved_cache.
    rewrite slice_from_zero. destruct (_ >? 0); now rewrite <- app_assoc.
  - intros ev l'. subst l'.
    destruct (save_offline_log_eq 0 ev l) as (l' & Heq & Hc & _ & extra & Hrec & Hw & _).
    rewrite Heq. cbn [snd]. split.
    + rewrite Hc. unfold saved_cache. rewrite slice_from_zero.
      destruct (_ >? 0); rewrite length_app; simpl; lia.
    + rewrite Hrec. apply in_or_app. right. apply Hw.
      unfold evicts. rewrite Z.gtb_ltb. apply Z.ltb_lt. lia.
Qed.

(** The failing run: one event appended to an empty queue under
    [MAX_OFFLINE_LOGS = 0]. *)
Example offline_queue_zero_bound_example :
  let ev := [("card_id", Json.Str "04A1B2C3"); ("offline_mode", Json.Bool true)] in
  let l := AccessLogger.init (AccessLogger.mk_storage None false false) in
  AccessLogger._offline_logs_cache (snd (AccessLogger._save_offline_log 0 ev l)) = [ev].
Proof. reflexivity. Qed.

(** ** Logging an access *)

#[local] Arguments AccessLogger._save_offline_log : simpl never.
#[local] Arguments Builtins.str_take : simpl never.

(** The values the log line of [log_access] interpolates, when the
    dictionary has them. *)
Definition log_line_fields (access_data : Json.dict)
    : option (string * Json.value * Json.value) :=
  match Builtins.dict_get "card_id" access_data with
  | Some (Json.Str card) =>
      match Builtins.dict_get "direction" access_data,
            Builtins.dict_get "authorized" access_data with
      | Some dir, Some auth => Some (Builtins.str_take 8 card, dir, auth)
      | _, _ => None
      end
  | _ => None
  end.

Definition no_access_line (extra : list (AccessLogger.level * AccessLogger.message)) : Prop :=
  forall lv a b c d, ~ In (lv, AccessLogger.MsgAccess a b c d) extra.

(** What [log_access] does, case by case.  With the fields of the log
    line present, the line is emitted once and the event is appended to the
    offline queue exactly when it carries a true [offline_mode]; without
    them the error is logged and the event is appended by the handler.  In
    both cases the call returns. *)
Lemma log_access_eq (m : Z) (now : string) (access_data0 : Json.dict)
    (l : AccessLogger.t) :
  let access_data := AccessLogger.with_timestamp now access_data0 in
  exists l' extra,
    AccessLogger.log_access m now access_data0 l = (Ok tt, l')
    /\ AccessLogger._cache_loaded l' = AccessLogger._cache_loaded l
    /\ no_access_line extra
    /\ match log_line_fields access_data with
       | Some (card8, dir, auth) =>
           AccessLogger.records l'
           = AccessLogger.records l
             ++ (AccessLogger.INFO,
                 AccessLogger.MsgAccess card8 dir auth
                   (AccessLogger.offline_flag access_data)) :: extra
           /\ AccessLogger._offline_logs_cache l'
              = if Builtins.truthy (AccessLogger.offline_flag access_data)
                then saved_cache m access_data (AccessLogger._offline_logs_cache l)
                else AccessLogger._offline_logs_cache l
       | None =>
           AccessLogger.records l' = AccessLogger.records l ++ extra
           /\ AccessLogger._offline_logs_cache l'
              = saved_cache m access_data (AccessLogger._offline_logs_cache l)
       end.
Proof.
  intros access_data.
  unfold AccessLogger.log_access. fold access_data.
  unfold log_line_fields, Py.try_except, AccessLogger.subscript, AccessLogger.card_prefix.
  assert (Hhandler : forall e,
    exists l' extra,
      (AccessLogger.emit AccessLogger.ERROR (AccessLogger.MsgLogAccessError e) ;;;
       AccessLogger._save_offline_log m access_data)%py l = (Ok tt, l')
      /\ AccessLogger._cache_loaded l' = AccessLogger._cache_loaded l
      /\ no_access_line extra
      /\ AccessLogger.records l' = AccessLogger.records l ++ extra
      /\ AccessLogger._offline_logs_cache l'
         = saved_cache m access_data (AccessLogger._offline_logs_cache l)).
  { intros e. unfold Py.bind at 1. unfold AccessLogger.emit, Py.modify.
    destruct (save_offline_log_eq m access_data
                (AccessLogger.mk (AccessLogger._offline_logs_cache l)
                   (AccessLogger._cache_loaded l) (AccessLogger.offline_logs_file l)
                   (AccessLogger.records l
                    ++ [(AccessLogger.ERROR, AccessLogger.MsgLogAccessError e)])))
      as (l' & Heq & Hc & Hld & extra & Hrec & _ & Hno).
    exists l', ((AccessLogger.ERROR, AccessLogger.MsgLogAccessError e) :: extra).
    rewrite Heq. simpl in *. repeat split; try assumption.
    - intros lv a b c d [H | H]; [discriminate | now apply (Hno lv a b c d)].
    - now rewrite Hrec, <- app_assoc. }
  destruct (Builtins.dict_get "card_id" access_data) as [[| b | card] |];
    try (unfold Py.bind at 1; unfold Py.raise; simpl;
         apply Hhandler).
  destruct (Builtins.dict_get "direction" access_data) as [dir |];
    [| unfold Py.bind at 1; unfold Py.bind at 1; unfold Py.bind at 1;
       unfold Py.ret, Py.raise; simpl;
       apply Hhandler].
  destruct (Builtins.dict_get "authorized" access_data) as [auth |];
    [| unfold Py.bind at 1; unfold Py.bind at 1; unfold Py.bind at 1;
       unfold Py.ret, Py.raise; simpl;
       apply Hhandler].
  clear Hhandler.
  unfold Py.bind, Py.ret, AccessLogger.emit, Py.modify,
    AccessLogger._send_realtime_log, Py.try_except. simpl.
  destruct (Builtins.truthy (AccessLogger.offline_flag access_data)); simpl.
  - destruct (save_offline_log_eq m access_data
                (AccessLogger.mk (AccessLogger._offline_logs_cache l)
                   (AccessLogger._cache_loaded l) (AccessLogger.offline_logs_file l)
                   (AccessLogger.records l
                    ++ [(AccessLogger.INFO,
                         AccessLogger.MsgAccess (Builtins.str_take 8 card) dir auth
                           (AccessLogger.offline_flag access_data))])))
      as (l' & Heq & Hc & Hld & extra & Hrec & _ & Hno).
    exists l', extra. rewrite Heq. simpl in *. repeat split; try assumption.
    now rewrite Hrec, <- app_assoc.
  - eexists _, []. simpl. repeat split. intros lv a b c d [].
Qed.

(** [log_access] does not propagate exceptions to its caller: it returns
    for every dictionary, logger state and storage fault. *)
Lemma log_access_returns (m : Z) (now : string) (access_data : Json.dict)
    (l : AccessLogger.t) :
  fst (AccessLogger.log_access m now access_data l) = Ok tt.
Proof.
  destruct (log_access_eq m now access_data l) as (l' & extra & Heq & _).
  now rewrite Heq.
Qed.

(** ** Handling a badge read *)

#[local] Arguments Relay.activate_relay : simpl never.

(** The relay controller after [_open_turnstile(direction)]. *)
Definition opened (c : Config.t) (direction : Json.value) (r : Relay.t) : Relay.t :=
  if Turnstile.value_eqb direction (Json.Str "in") then
    snd (Relay.activate_relay 1 None r)
  else if Turnstile.value_eqb direction (Json.Str "out") && Config.is_turnstile c then
    snd (Relay.activate_relay 2 None r)
  else r.

Lemma open_turnstile_eq (direction : Json.value) (w : Turnstile.t) :
  Turnstile._open_turnstile direction w
  = (Ok tt, Turnstile.set_relay_controller
              (opened (Turnstile.config w) direction (Turnstile.relay_controller w)) w).
Proof.
  unfold Turnstile._open_turnstile, opened, Py.try_except, Py.bind, Py.get, Py.ret,
    Turnstile.call_activate_relay.
  destruct (Turnstile.value_eqb direction (Json.Str "in")).
  - now destruct (Relay.activate_relay 1 None (Turnstile.relay_controller w)).
  - destruct (Turnstile.value_eqb direction (Json.Str "out")
              && Config.is_turnstile (Turnstile.config w)).
    + now destruct (Relay.activate_relay 2 None (Turnstile.relay_controller w)).
    + now destruct w.
Qed.

Lemma call_log_access_eq (access_data : Json.dict) (w : Turnstile.t) :
  Turnstile.call_log_access access_data w
  = (Ok tt,
     Turnstile.set_access_logger
       (snd (AccessLogger.log_access (Config.MAX_OFFLINE_LOGS (Turnstile.config w))
               (Turnstile.clock w) access_data (Turnstile.access_logger w))) w).
Proof.
  unfold Turnstile.call_log_access, Turnstile.on_logger, Py.bind, Py.get.
  destruct (log_access_eq (Config.MAX_OFFLINE_LOGS (Turnstile.config w))
              (Turnstile.clock w) access_data (Turnstile.access_logger w))
    as (l' & extra & Heq & _).
  now rewrite Heq.
Qed.

Lemma handle_card_read_eq (b : Turnstile.backend) (card_id direction : string)
    (w : Turnstile.t) (authorized : Json.value) :
  fst (Turnstile._check_authorization b card_id direction w) = Ok authorized ->
  Turnstile._handle_card_read b card_id direction w =
  let logged :=
    Turnstile.set_access_logger
      (snd (AccessLogger.log_access (Config.MAX_OFFLINE_LOGS (Turnstile.config w))
              (Turnstile.clock w)
              (Turnstile.access_log w card_id (Json.Str direction) authorized)
              (Turnstile.access_logger w))) w in
  if Builtins.truthy authorized
  then Turnstile._open_turnstile (Json.Str direction) logged
  else (Ok tt, logged).
Proof.
  intros Hauth.
  pose proof (check_authorization_frame b card_id direction w) as Hframe.
  unfold Turnstile._handle_card_read.
  unfold Py.bind at 1.
  destruct (Turnstile._check_authorization b card_id direction w) as [r w1].
  simpl in Hauth, Hframe. subst r w1.
  unfold Py.bind at 1. unfold Py.get at 1.
  unfold Py.bind at 1. rewrite call_log_access_eq.
  cbv zeta. destruct (Builtins.truthy authorized); reflexivity.
Qed.

(** C3.  A badge read whose authorization check returns [authorized]:
    [log_access] returns whatever happens to the event's storage; the read
    is handled by handing one event to the logger and then, if authorized,
    opening, so the relay is untouched when the event is handed over; the
    event is the one built from the outcome and the connectivity, its log
    line is emitted once, and it is queued exactly when offline; and the
    relay controller ends as the opening alone would leave it, whatever the
    logger and its storage did. *)
Theorem handle_card_read_logs_then_actuates
    (b : Turnstile.backend) (card_id direction : string) (w : Turnstile.t)
    (authorized : Json.value) :
  fst (Turnstile._check_authorization b card_id direction w) = Ok authorized ->
  let m := Config.MAX_OFFLINE_LOGS (Turnstile.config w) in
  let ev := Turnstile.access_log w card_id (Json.Str direction) authorized in
  let logger := Turnstile.access_logger w in
  let logger' := snd (AccessLogger.log_access m (Turnstile.clock w) ev logger) in
  let logged := Turnstile.set_access_logger logger' w in
  fst (AccessLogger.log_access m (Turnstile.clock w) ev logger) = Ok tt
  /\ Turnstile._handle_card_read b card_id direction w
     = (if Builtins.truthy authorized
        then Turnstile._open_turnstile (Json.Str direction) logged
        else (Ok tt, logged))
  /\ Turnstile.relay_controller logged = Turnstile.relay_controller w
  /\ (exists extra,
        AccessLogger.records logger'
        = AccessLogger.records logger
          ++ (AccessLogger.INFO,
              AccessLogger.MsgAccess (Builtins.str_take 8 card_id) (Json.Str direction)
                authorized (Json.Bool (negb (Turnstile.connection_online w)))) :: extra
        /\ no_access_line extra)
  /\ AccessLogger._offline_logs_cache logger'
     = (if Turnstile.connection_online w
        then AccessLogger._offline_logs_cache logger
        else saved_cache m ev (AccessLogger._offline_logs_cache logger))
  /\ fst (Turnstile._handle_card_read b card_id direction w) = Ok tt
  /\ Turnstile.relay_controller (snd (Turnstile._handle_card_read b card_id direction w))
     = (if Builtins.truthy authorized
        then opened (Turnstile.config w) (Json.Str direction) (Turnstile.relay_controller w)
        else Turnstile.relay_controller w).
Proof.
  intros Hauth m ev logger logger' logged.
  pose proof (handle_card_read_eq b card_id direction w authorized Hauth) as Heq.
  cbv zeta in Heq. fold m ev logger logger' logged in Heq.
  destruct (log_access_eq m (Turnstile.clock w) ev logger)
    as (l1 & extra & Hlog & _ & Hno & Hfields).
  assert (Hl1 : logger' = l1) by (subst logger'; now rewrite Hlog).
  split; [now rewrite Hlog |].
  split; [exact Heq |].
  split; [reflexivity |].
  assert (Hts : AccessLogger.with_timestamp (Turnstile.clock w) ev = ev) by reflexivity.
  rewrite Hts in Hfields.
  assert (Hf : log_line_fields ev
               = Some (Builtins.str_take 8 card_id, Json.Str direction, authorized))
    by reflexivity.
  rewrite Hf in Hfields. destruct Hfields as [Hrec Hcache].
  assert (Hoff : AccessLogger.offline_flag ev
                 = Json.Bool (negb (Turnstile.connection_online w))) by reflexivity.
  rewrite Hoff in Hrec, Hcache.
  split; [exists extra; rewrite Hl1; split; [exact Hrec | exact Hno] |].
  split.
  { rewrite Hl1, Hcache. simpl. now destruct (Turnstile.connection_online w). }
  rewrite Heq.
  destruct (Builtins.truthy authorized).
  - rewrite open_turnstile_eq. split; reflexivity.
  - split; reflexivity.
Qed.

(** A turnstile in test mode, offline, whose offline-log file cannot be
    written, with one whitelisted card. *)
Definition demo_config : Config.t :=
  Config.init "turnstile_001" Config.Turnstile Config.Test 18 19 3 true 1000 true.

Definition demo_world : Turnstile.t :=
  Turnstile.mk demo_config false ["123456789"] "2024-01-01T00:00:00"
    (AccessLogger.init (AccessLogger.mk_storage None false true))
    (Relay.initialize (Relay.init demo_config)).

Definition demo_backend : Turnstile.backend :=
  Turnstile.mk_backend (fun _ _ => Raise TransportError).

(** The read of the whitelisted card on [demo_world]: the event cannot be
    persisted, the read returns, and channel 1 gets its task. *)
Lemma handle_card_read_logs_then_actuates_witness :
  fst (Turnstile._handle_card_read demo_backend "123456789" "in" demo_world) = Ok tt
  /\ Turnstile.relay_controller
       (snd (Turnstile._handle_card_read demo_backend "123456789" "in" demo_world))
     = snd (Relay.activate_relay 1 None (Turnstile.relay_controller demo_world))
  /\ AccessLogger.content
       (AccessLogger.offline_logs_file
          (Turnstile.access_logger
             (snd (Turnstile._handle_card_read demo_backend "123456789" "in" demo_world))))
     = None.
Proof.
  destruct (handle_card_read_logs_then_actuates demo_backend "123456789" "in" demo_world
              (Json.Bool true) eq_refl)
    as (_ & _ & _ & _ & _ & Hok & Hrelay).
  split; [exact Hok |]. split; [exact Hrelay |]. reflexivity.
Defined.

(** A queue of two events, the second with its fields in another order. *)
Definition demo_queue : list Json.dict :=
  [ [("device_id", Json.Str "turnstile_001"); ("card_id", Json.Str "123456789");
     ("direction", Json.Str "in"); ("timestamp", Json.Str "2024-01-01T00:00:00");
     ("authorized", Json.Bool true); ("offline_mode", Json.Bool true)];
    [("offline_mode", Json.Bool true); ("authorized", Json.Bool false);
     ("card_id", Json.Str "MANUAL_OPEN"); ("direction", Json.Str "out");
     ("device_id", Json.Str "turnstile_001"); ("timestamp", Json.Null)] ].

Lemma demo_queue_wf : Forall wf_dict demo_queue.
Proof.
  unfold demo_queue.
  constructor; [| constructor; [| constructor]];
    unfold wf_dict; simpl; apply (bool_decide_unpack _); vm_compute; exact I.
Defined.

Lemma offline_queue_round_trip_witness :
  let l := AccessLogger.mk demo_queue true (AccessLogger.mk_storage None false false) [] in
  let file := AccessLogger.offline_logs_file (snd (AccessLogger._persist_offline_logs l)) in
  Json.loads (Json.dumps demo_queue) = Some demo_queue
  /\ AccessLogger._offline_logs_cache
       (snd (AccessLogger._load_offline_logs (AccessLogger.init file)))
     = demo_queue.
Proof.
  intros l file.
  destruct (offline_queue_round_trip l demo_queue_wf eq_refl eq_refl)
    as (Hcodec & _ & Hload & _).
  split; [exact Hcodec | exact (Hload (AccessLogger.init file) eq_refl)].
Defined.

(** ** A door has no exit relay *)

Lemma init_pins_door (c : Config.t) :
  Config.is_turnstile c = false -> Relay.init_pins c !! 2 = None.
Proof.
  intros Hdoor. unfold Relay.init_pins. rewrite Hdoor.
  rewrite lookup_omap, lookup_insert_ne by lia.
  now rewrite lookup_insert_eq.
Qed.

Lemma init_pins_channel_1 (c : Config.t) :
  Relay.init_pins c !! 1 = Some (Config.RELAY_CHANNEL_1 c).
Proof.
  unfold Relay.init_pins. rewrite lookup_omap. now rewrite lookup_insert_eq.
Qed.

Lemma activate_relay_unknown (channel : Z) (duration : option nat) (r : Relay.t) :
  Relay.relay_pins r !! channel = None ->
  Relay.activate_relay channel duration r = (Relay.Returned false, r).
Proof. intros H. unfold Relay.activate_relay. now rewrite H. Qed.

(** C10.  On a door, whose channel map is the one [__init__] builds:
    channel 2 is not in the map; [activate_relay(2)] returns [False] and
    leaves the controller as it was; [_open_turnstile('out')] changes
    nothing at all; and neither a badge read nor a manual-open command for
    direction [out] changes the relay controller. *)
Theorem door_out_request_is_no_op (w : Turnstile.t) :
  Config.is_turnstile (Turnstile.config w) = false ->
  Relay.relay_pins (Turnstile.relay_controller w) = Relay.init_pins (Turnstile.config w) ->
  Relay.relay_pins (Turnstile.relay_controller w) !! 2 = None
  /\ (forall duration,
        Relay.activate_relay 2 duration (Turnstile.relay_controller w)
        = (Relay.Returned false, Turnstile.relay_controller w))
  /\ Turnstile._open_turnstile (Json.Str "out") w = (Ok tt, w)
  /\ (forall b card_id,
        Turnstile.relay_controller (snd (Turnstile._handle_card_read b card_id "out" w))
        = Turnstile.relay_controller w)
  /\ (forall command,
        Builtins.dict_get "direction" command = Some (Json.Str "out") ->
        Turnstile.relay_controller (snd (Turnstile._handle_websocket_command command w))
        = Turnstile.relay_controller w).
Proof.
  intros Hdoor Hpins.
  assert (H2 : Relay.relay_pins (Turnstile.relay_controller w) !! 2 = None)
    by (rewrite Hpins; now apply init_pins_door).
  assert (Hopen : forall w' : Turnstile.t,
             Turnstile.config w' = Turnstile.config w ->
             Turnstile._open_turnstile (Json.Str "out") w' = (Ok tt, w')).
  { intros w' Hc. rewrite open_turnstile_eq. unfold opened. rewrite Hc, Hdoor.
    simpl. now destruct w'. }
  split; [exact H2 |].
  split; [intros d; now apply activate_relay_unknown |].
  split; [now apply Hopen |].
  split.
  - intros b card_id.
    pose proof (check_authorization_frame b card_id "out" w) as Hframe.
    destruct (Turnstile._check_authorization b card_id "out" w) as [[auth | e] w1] eqn:E;
      simpl in Hframe; subst w1.
    + rewrite (handle_card_read_eq b card_id "out" w auth) by now rewrite E.
      cbv zeta. destruct (Builtins.truthy auth); [| reflexivity].
      now rewrite Hopen.
    + unfold Turnstile._handle_card_read, Py.bind. now rewrite E.
  - intros command Hdir.
    unfold Turnstile._handle_websocket_command, Py.try_except.
    destruct (Builtins.dict_get "action" command) as [[| | action] |]; try reflexivity.
    destruct (String.eqb_spec action "open_turnstile") as [-> | Hne].
    + rewrite Hdir. simpl default.
      unfold Py.bind at 1. unfold Py.get at 1.
      unfold Py.bind at 1. rewrite call_log_access_eq.
      now rewrite Hopen.
    + assert (Hskip : forall (k : M Turnstile.t unit),
                 match action with
                 | "open_turnstile" => k
                 | _ => Py.ret tt
                 end = Py.ret tt).
      { intros k. clear -Hne.
        repeat (destruct action as [| [[] [] [] [] [] [] [] []] action];
                try reflexivity).
        congruence. }
      rewrite Hskip. reflexivity.
Qed.

(** ** The update session (src/updater.py) *)

(** A computation that leaves the [updating] flag as it finds it. *)
Definition keeps_flag {A} (m : M Updater.t A) : Prop :=
  forall w, Updater.updating (snd (m w)) = Updater.updating w.

Lemma keeps_ret {A} (a : A) : keeps_flag (Py.ret a).
Proof. intros w. reflexivity. Qed.

Lemma keeps_raise {A} (e : exn) : keeps_flag (@Py.raise Updater.t A e).
Proof. intros w. reflexivity. Qed.

Lemma keeps_get : keeps_flag (@Py.get Updater.t).
Proof. intros w. reflexivity. Qed.

Lemma keeps_bind {A B} (m : M Updater.t A) (k : A -> M Updater.t B) :
  keeps_flag m -> (forall a, keeps_flag (k a)) -> keeps_flag (Py.bind m k).
Proof.
  intros Hm Hk w. unfold Py.bind. specialize (Hm w).
  destruct (m w) as [[a | e] w1]; simpl in *; [| exact Hm].
  now rewrite Hk.
Qed.

Lemma keeps_try_except {A} (m : M Updater.t A) (h : exn -> M Updater.t A) :
  keeps_flag m -> (forall e, keeps_flag (h e)) -> keeps_flag (Py.try_except m h).
Proof.
  intros Hm Hh w. unfold Py.try_except. specialize (Hm w).
  destruct (m w) as [[a | e] w1]; simpl in *; [exact Hm |].
  destruct (Py.is_Exception e); [now rewrite Hh | exact Hm].
Qed.

Lemma keeps_modify (f : Updater.t -> Updater.t) :
  (forall w, Updater.updating (f w) = Updater.updating w) -> keeps_flag (Py.modify f).
Proof. intros Hf w. apply Hf. Qed.

Lemma keeps_report e id status error : keeps_flag (Updater.call_report e id status error).
Proof. intros w. reflexivity. Qed.

Lemma keeps_download e u : keeps_flag (Updater.call_download_update e u).
Proof. intros w. reflexivity. Qed.

Lemma keeps_create_backup e : keeps_flag (Updater._create_backup e).
Proof.
  intros w. unfold Updater._create_backup.
  unfold Updater.failed_backup.
  destruct (Updater.app_dir w), (Updater.backup_write_fails e),
    (Updater.backup_leaves e); reflexivity.
Qed.

Lemma keeps_extract e data u : keeps_flag (Updater._extract_update e data u).
Proof.
  intros w. unfold Updater._extract_update.
  destruct (_ || _); [| reflexivity].
  destruct (Updater.unpack e _ data); reflexivity.
Qed.

Create HintDb keeps.
#[local] Hint Resolve keeps_ret keeps_raise keeps_get keeps_report keeps_download
  keeps_create_backup keeps_extract : keeps.

(** Breaks a computation of the updater into its statements. *)
Ltac keeps :=
  repeat first
    [ progress auto with keeps
    | apply keeps_bind; [| intros ?]
    | apply keeps_try_except; [| intros ?]
    | apply keeps_modify; intros ?; reflexivity
    | match goal with
      | |- keeps_flag (match ?x with _ => _ end) => destruct x
      | |- keeps_flag (if ?b then _ else _) => destruct b
      end ].

Lemma keeps_apply e st : keeps_flag (Updater._apply_update e st).
Proof.
  unfold Updater._apply_update, Updater._run_script, Updater._copy_update_files,
    Updater._install_requirements.
  keeps.
Qed.

Lemma keeps_update_version e v : keeps_flag (Updater._update_version e v).
Proof. unfold Updater._update_version. keeps. Qed.

Lemma keeps_schedule_restart e : keeps_flag (Updater._schedule_restart e).
Proof. unfold Updater._schedule_restart. keeps. Qed.

Lemma keeps_restore e : keeps_flag (Updater._restore_backup e).
Proof. unfold Updater._restore_backup. keeps. Qed.

#[local] Hint Resolve keeps_apply keeps_update_version keeps_schedule_restart
  keeps_restore : keeps.

(** The session: what [_perform_update] runs between setting the flag and
    its [finally] clause. *)
Definition session (e : Updater.env) (u : Updater.update_info) : M Updater.t unit :=
  Py.try_except
    (Py.modify (Updater.set_updating true) ;;;
     Updater.call_report e (Updater.ui_id u) "started" None ;;;
     update_data <- Updater.call_download_update e u ;;
     (if String.eqb update_data "" then
        Py.raise (Exception "Download aggiornamento fallito")
      else Py.ret tt) ;;;
     (if negb (Updater._verify_update e update_data u) then
        Py.raise (Exception "Verifica integrita aggiornamento fallita")
      else Py.ret tt) ;;;
     backup_path <- Updater._create_backup e ;;
     (match backup_path with
      | None => Py.raise (Exception "Creazione backup fallita")
      | Some _ => Py.ret tt
      end) ;;;
     extracted_path <- Updater._extract_update e update_data u ;;
     match extracted_path with
     | None => Py.raise (Exception "Estrazione aggiornamento fallita")
     | Some st =>
         Updater._apply_update e st ;;;
         Updater._update_version e (Updater.ui_version u) ;;;
         Updater.call_report e (Updater.ui_id u) "completed" None ;;;
         if default true (Updater.ui_requires_restart u) then Updater._schedule_restart e
         else Py.ret tt
     end)%py
    (fun ex =>
       Updater.call_report e (Updater.ui_id u) "failed" (Some (Py.str ex)) ;;;
       Updater._restore_backup e)%py.

Lemma perform_update_session (e : Updater.env) (u : Updater.update_info) :
  Updater._perform_update e u
  = Py.try_finally (session e u) (Py.modify (Updater.set_updating false)).
Proof. reflexivity. Qed.

(** The flag is set from the first statement of the session to its last. *)
Lemma session_holds_flag (e : Updater.env) (u : Updater.update_info) (w : Updater.t) :
  Updater.updating (snd (session e u w)) = true.
Proof.
  unfold session, Py.try_except.
  unfold Py.bind at 1. unfold Py.modify at 1.
  set (w1 := Updater.set_updating true w).
  match goal with
  | |- context [Py.bind ?m ?k w1] =>
      assert (Hk : keeps_flag (Py.bind m k)) by keeps;
      specialize (Hk w1); destruct (Py.bind m k w1) as [[a | ex] w2]
  end; simpl in *; [exact Hk |].
  destruct (Py.is_Exception ex); [| exact Hk].
  match goal with
  | |- context [Py.bind ?m ?k w2] =>
      assert (Hh : keeps_flag (Py.bind m k)) by keeps;
      specialize (Hh w2); now rewrite Hh
  end.
Qed.

(** C6.  A trigger that finds the flag set returns at once and leaves the
    world as it is: no request reaches the backend, no archive is added,
    nothing is queued.  A session holds the flag from its first statement
    to its last, and [_perform_update] clears it however the session ends,
    be it by completion, by an exception its handler serves, or by one
    that escapes the handler.  So after any trigger the flag is clear
    again. *)
Theorem update_session_exclusive (e : Updater.env) :
  (forall w, Updater.updating w = true -> Updater.check_and_update e w = (Ok tt, w))
  /\ (forall u w, Updater.updating (snd (session e u w)) = true)
  /\ (forall u w, Updater.updating (snd (Updater._perform_update e u w)) = false)
  /\ (forall w, Updater.updating (snd (Updater.check_and_update e w)) = Updater.updating w).
Proof.
  assert (Hclear : forall u w,
             Updater.updating (snd (Updater._perform_update e u w)) = false).
  { intros u w. rewrite perform_update_session. unfold Py.try_finally, Py.modify.
    now destruct (session e u w). }
  split; [| split; [| split]].
  - intros w Hup. unfold Updater.check_and_update. now rewrite Hup.
  - intros u w. apply session_holds_flag.
  - exact Hclear.
  - intros w. unfold Updater.check_and_update.
    destruct (Updater.updating w) eqn:Hup; [exact Hup |].
    unfold Py.try_except.
    destruct (Config.AUTO_UPDATE_ENABLED (Updater.config w)); simpl; [| exact Hup].
    unfold Py.bind, Updater.call_check_updates.
    destruct (Updater.check_updates e) as [[u |] | ex]; simpl;
      try exact Hup; try (destruct (Py.is_Exception ex); exact Hup).
    destruct (Updater.info_is_empty u); simpl; [exact Hup |].
    destruct (default false (Updater.ui_update_available u)); simpl; [| exact Hup].
    specialize (Hclear u (Updater.add_request Updater.CheckUpdates w)).
    destruct (Updater._perform_update e u (Updater.add_request Updater.CheckUpdates w))
      as [[a | ex] w1]; simpl in *; [exact Hclear |].
    destruct (Py.is_Exception ex); exact Hclear.
Qed.

(** A trigger during a session, on a turnstile whose backend would offer
    an update: nothing happens. *)
Example check_and_update_while_updating :
  let u := Updater.mk_info (Some "u1") (Some "1.1.0") None None None None (Some true) in
  let e := Updater.mk_env (Ok (Some u)) (fun _ => Ok "PACKAGE") (fun _ _ _ => Ok tt)
             (fun _ => "") (fun _ _ => Raise OSError) 0 false None false None false false false None in
  let w := Updater.mk demo_config true (Some [("VERSION", "1.0.0")]) [] false [] 7%nat in
  Updater.check_and_update e w = (Ok tt, w).
Proof. reflexivity. Qed.

(** ** Requests to the backend only accumulate *)

Definition extends_requests {A} (m : M Updater.t A) : Prop :=
  forall w, exists more,
    Updater.requests (snd (m w)) = Updater.requests w ++ more.

Lemma extends_unchanged {A} (m : M Updater.t A) :
  (forall w, Updater.requests (snd (m w)) = Updater.requests w) -> extends_requests m.
Proof. intros H w. exists []. now rewrite app_nil_r. Qed.

Lemma extends_bind {A B} (m : M Updater.t A) (k : A -> M Updater.t B) :
  extends_requests m -> (forall a, extends_requests (k a)) ->
  extends_requests (Py.bind m k).
Proof.
  intros Hm Hk w. unfold Py.bind. destruct (Hm w) as [more Hmore].
  destruct (m w) as [[a | e] w1]; simpl in *; [| now exists more].
  destruct (Hk a w1) as [more' Hmore'].
  exists (more ++ more'). now rewrite Hmore', Hmore, app_assoc.
Qed.

Lemma extends_try_except {A} (m : M Updater.t A) (h : exn -> M Updater.t A) :
  extends_requests m -> (forall e, extends_requests (h e)) ->
  extends_requests (Py.try_except m h).
Proof.
  intros Hm Hh w. unfold Py.try_except. destruct (Hm w) as [more Hmore].
  destruct (m w) as [[a | e] w1]; simpl in *; [now exists more |].
  destruct (Py.is_Exception e); [| now exists more].
  destruct (Hh e w1) as [more' Hmore'].
  exists (more ++ more'). now rewrite Hmore', Hmore, app_assoc.
Qed.

Lemma extends_try_finally {A} (m : M Updater.t A) (f : M Updater.t unit) :
  extends_requests m -> extends_requests f -> extends_requests (Py.try_finally m f).
Proof.
  intros Hm Hf w. unfold Py.try_finally. destruct (Hm w) as [more Hmore].
  destruct (m w) as [r w1]; simpl in *.
  destruct (Hf w1) as [more' Hmore'].
  exists (more ++ more').
  destruct (f w1) as [[[] | e] w2]; simpl in *; now rewrite Hmore', Hmore, app_assoc.
Qed.

Lemma extends_report e id status error :
  extends_requests (Updater.call_report e id status error).
Proof. intros w. eexists. reflexivity. Qed.

Lemma extends_download e u : extends_requests (Updater.call_download_update e u).
Proof. intros w. eexists. reflexivity. Qed.

Lemma extends_check_updates e : extends_requests (Updater.call_check_updates e).
Proof. intros w. eexists. reflexivity. Qed.

Lemma extends_create_backup e : extends_requests (Updater._create_backup e).
Proof.
  apply extends_unchanged. intros w. unfold Updater._create_backup.
  unfold Updater.failed_backup.
  destruct (Updater.app_dir w), (Updater.backup_write_fails e),
    (Updater.backup_leaves e); reflexivity.
Qed.

Lemma extends_extract e data u : extends_requests (Updater._extract_update e data u).
Proof.
  apply extends_unchanged. intros w. unfold Updater._extract_update.
  destruct (_ || _); [| reflexivity].
  destruct (Updater.unpack e _ data); reflexivity.
Qed.

Create HintDb extends.
#[local] Hint Resolve extends_report extends_download extends_check_updates
  extends_create_backup extends_extract : extends.

Ltac extends :=
  repeat first
    [ progress auto with extends
    | apply extends_bind; [| intros ?]
    | apply extends_try_except; [| intros ?]
    | apply extends_try_finally
    | apply extends_unchanged; intros ?; reflexivity
    | match goal with
      | |- extends_requests (match ?x with _ => _ end) => destruct x
      | |- extends_requests (if ?b then _ else _) => destruct b
      end ].

Lemma extends_apply e st : extends_requests (Updater._apply_update e st).
Proof.
  unfold Updater._apply_update, Updater._run_script, Updater._copy_update_files,
    Updater._install_requirements.
  extends.
Qed.

Lemma extends_update_version e v : extends_requests (Updater._update_version e v).
Proof. unfold Updater._update_version. extends. Qed.

Lemma extends_schedule_restart e : extends_requests (Updater._schedule_restart e).
Proof. unfold Updater._schedule_restart. extends. Qed.

Lemma extends_restore e : extends_requests (Updater._restore_backup e).
Proof. unfold Updater._restore_backup. extends. Qed.

#[local] Hint Resolve extends_apply extends_update_version extends_schedule_restart
  extends_restore : extends.

(** A session starts by telling the backend so: the first request of
    [_perform_update] is the report of status [started]. *)
Lemma perform_update_reports_start (e : Updater.env) (u : Updater.update_info)
    (w : Updater.t) :
  exists more,
    Updater.requests (snd (Updater._perform_update e u w))
    = Updater.requests w
      ++ Updater.ReportUpdateStatus (Updater.ui_id u) "started" None :: more.
Proof.
  rewrite perform_update_session.
  assert (Hs : exists more,
             Updater.requests (snd (session e u w))
             = Updater.requests w
               ++ Updater.ReportUpdateStatus (Updater.ui_id u) "started" None :: more).
  { unfold session, Py.try_except.
    unfold Py.bind at 1. unfold Py.modify at 1.
    unfold Py.bind at 1. unfold Updater.call_report at 1.
    remember (Updater.add_request
                (Updater.ReportUpdateStatus (Updater.ui_id u) "started" None)
                (Updater.set_updating true w)) as w1 eqn:Hw1.
    assert (H1 : Updater.requests w1
                 = Updater.requests w
                   ++ [Updater.ReportUpdateStatus (Updater.ui_id u) "started" None])
      by (subst w1; reflexivity).
    clear Hw1.
    destruct (Updater.report_update_status e (Updater.ui_id u) "started" None)
      as [[] | ex0].
    - match goal with
      | |- context [Py.bind ?m ?k w1] =>
          assert (Hk : extends_requests (Py.bind m k)) by extends;
          destruct (Hk w1) as [more Hmore];
          destruct (Py.bind m k w1) as [[a | ex] w2]
      end; simpl in *.
      + exists more. now rewrite Hmore, H1, <- app_assoc.
      + destruct (Py.is_Exception ex).
        * match goal with
          | |- context [Py.bind ?m ?k w2] =>
              assert (Hh : extends_requests (Py.bind m k)) by extends;
              destruct (Hh w2) as [more' Hmore']
          end.
          exists (more ++ more'). rewrite Hmore', Hmore, H1, <- !app_assoc. reflexivity.
        * exists more. cbn [snd]. now rewrite Hmore, H1, <- app_assoc.
    - simpl. destruct (Py.is_Exception ex0).
      + match goal with
        | |- context [Py.bind ?m ?k w1] =>
            assert (Hh : extends_requests (Py.bind m k)) by extends;
            destruct (Hh w1) as [more' Hmore']
        end.
        exists more'. rewrite Hmore', H1, <- app_assoc. reflexivity.
      + exists []. simpl. exact H1. }
  destruct Hs as [more Hmore]. exists more.
  unfold Py.try_finally, Py.modify. destruct (session e u w) as [r w1]; simpl in *.
  exact Hmore.
Qed.

(** Once the backend has taken the report [started], the session asks it
    for the package. *)
Lemma perform_update_then_downloads (e : Updater.env) (u : Updater.update_info)
    (w : Updater.t) :
  Updater.report_update_status e (Updater.ui_id u) "started" None = Ok tt ->
  exists more,
    Updater.requests (snd (Updater._perform_update e u w))
    = Updater.requests w
      ++ Updater.ReportUpdateStatus (Updater.ui_id u) "started" None
         :: Updater.DownloadUpdate u :: more.
Proof.
  intros Hstart. rewrite perform_update_session.
  assert (Hs : exists more,
             Updater.requests (snd (session e u w))
             = Updater.requests w
               ++ Updater.ReportUpdateStatus (Updater.ui_id u) "started" None
                  :: Updater.DownloadUpdate u :: more).
  { unfold session, Py.try_except.
    unfold Py.bind at 1. unfold Py.modify at 1.
    unfold Py.bind at 1. unfold Updater.call_report at 1. rewrite Hstart.
    unfold Py.bind at 1. unfold Updater.call_download_update at 1.
    remember (Updater.add_request (Updater.DownloadUpdate u)
                (Updater.add_request
                   (Updater.ReportUpdateStatus (Updater.ui_id u) "started" None)
                   (Updater.set_updating true w))) as w1 eqn:Hw1.
    assert (H1 : Updater.requests w1
                 = Updater.requests w
                   ++ [Updater.ReportUpdateStatus (Updater.ui_id u) "started" None;
                       Updater.DownloadUpdate u]).
    { subst w1. simpl. now rewrite <- app_assoc. }
    clear Hw1.
    assert (Hh : forall ex, extends_requests
                   (Py.bind (Updater.call_report e (Updater.ui_id u) "failed"
                               (Some (Py.str ex)))
                      (fun _ => Updater._restore_backup e))) by (intros ex; extends).
    destruct (Updater.download_update e u) as [data | ex0].
    - match goal with
      | |- context [Py.bind ?m ?k w1] =>
          assert (Hk : extends_requests (Py.bind m k)) by extends;
          destruct (Hk w1) as [more Hmore];
          destruct (Py.bind m k w1) as [[a | ex] w2]
      end; cbn [fst snd] in *.
      + exists more. rewrite Hmore, H1, <- app_assoc. reflexivity.
      + destruct (Py.is_Exception ex).
        * destruct (Hh ex w2) as [more' Hmore'].
          exists (more ++ more'). rewrite Hmore', Hmore, H1, <- !app_assoc. reflexivity.
        * exists more. cbn [snd]. rewrite Hmore, H1, <- app_assoc. reflexivity.
    - cbn [fst snd]. destruct (Py.is_Exception ex0).
      + destruct (Hh ex0 w1) as [more' Hmore'].
        exists more'. rewrite Hmore', H1, <- app_assoc. reflexivity.
      + exists []. cbn [snd]. exact H1. }
  destruct Hs as [more Hmore]. exists more.
  unfold Py.try_finally, Py.modify. destruct (session e u w) as [r w1]; simpl in *.
  exact Hmore.
Qed.

(** When the report [started] raises, nothing is downloaded: the session
    goes to its handler, which reports the failure. *)
Lemma perform_update_refused_start (e : Updater.env) (u : Updater.update_info)
    (w : Updater.t) (ex : exn) :
  Updater.report_update_status e (Updater.ui_id u) "started" None = Raise ex ->
  Py.is_Exception ex = true ->
  Updater.requests (snd (Updater._perform_update e u w))
  = Updater.requests w
    ++ [ Updater.ReportUpdateStatus (Updater.ui_id u) "started" None;
         Updater.ReportUpdateStatus (Updater.ui_id u) "failed" (Some (Py.str ex)) ].
Proof.
  intros Hstart Hex. rewrite perform_update_session.
  assert (Hs : Updater.requests (snd (session e u w))
               = Updater.requests w
                 ++ [ Updater.ReportUpdateStatus (Updater.ui_id u) "started" None;
                      Updater.ReportUpdateStatus (Updater.ui_id u) "failed"
                        (Some (Py.str ex)) ]).
  { unfold session, Py.try_except.
    unfold Py.bind at 1. unfold Py.modify at 1.
    unfold Py.bind at 1. unfold Updater.call_report at 1. rewrite Hstart.
    cbn [fst snd]. rewrite Hex.
    unfold Py.bind, Updater.call_report.
    destruct (Updater.report_update_status e (Updater.ui_id u) "failed" _).
    - unfold Updater._restore_backup, Py.bind, Py.get, Py.modify, Py.ret.
      cbn [Updater.backup_dir Updater.add_request Updater.set_updating].
      destruct (Updater.latest (Updater.backup_dir w));
        [destruct (Updater.restore_extract_fails e) |]; cbn; now rewrite <- app_assoc.
    - cbn. now rewrite <- app_assoc. }
  unfold Py.try_finally, Py.modify. destruct (session e u w) as [r w1]; simpl in *.
  exact Hs.
Qed.

(** ** When a session is opened *)

(** A device at version 2.0.0 and a backend that offers version 1.0.0 with
    [update_available] set. *)
Definition older_offer : Updater.update_info :=
  Updater.mk_info (Some "u1") (Some "1.0.0") None None None None (Some true).

Definition older_offer_env : Updater.env :=
  Updater.mk_env (Ok (Some older_offer)) (fun _ => Ok "PACKAGE") (fun _ _ _ => Ok tt)
    (fun _ => "") (fun _ _ => Ok (Updater.mk_staged (Some [("main.py", "v1")]) None None))
    0 false None false None false false false None.

Definition newer_device : Updater.t :=
  Updater.mk demo_config false (Some [("VERSION", "2.0.0"); ("main.py", "v2")])
    [] false [] 7%nat.

(** C5, counterexample.  The device runs 2.0.0, the backend offers the
    older 1.0.0: [check_and_update] opens a session all the same, reports
    it started, downloads the package and applies it; the version marker
    then reads 1.0.0. *)
Lemma check_and_update_takes_older_version :
  Updater.get_current_version newer_device = "2.0.0"
  /\ Updater.ui_version older_offer = Some "1.0.0"
  /\ Updater.requests (snd (Updater.check_and_update older_offer_env newer_device))
     = [ Updater.CheckUpdates;
         Updater.ReportUpdateStatus (Some "u1") "started" None;
         Updater.DownloadUpdate older_offer;
         Updater.ReportUpdateStatus (Some "u1") "completed" None ]
  /\ Updater.get_current_version
       (snd (Updater.check_and_update older_offer_env newer_device)) = "1.0.0".
Proof. repeat split; reflexivity. Qed.

(** C5, amended.  With no session active and auto-update enabled,
    [check_and_update] asks the backend once.  It returns without starting
    an update when the backend reports no metadata, an empty dictionary, or
    metadata whose [update_available] entry is absent or false.  When the
    entry is true it runs [_perform_update] on the metadata, whose first
    act is to report the session started; when the backend takes that
    report the next request is the download of the package, and when the
    report raises an exception nothing is downloaded: the only further
    request is the report of the failure.  The offered version and the
    version marker take no part in the decision. *)
Theorem check_and_update_follows_backend_flag (e : Updater.env) (w : Updater.t) :
  let asked := Updater.add_request Updater.CheckUpdates w in
  (Updater.updating w = false ->
   Config.AUTO_UPDATE_ENABLED (Updater.config w) = true ->
   Updater.check_updates e = Ok None ->
   Updater.check_and_update e w = (Ok tt, asked))
  /\ (forall u,
      Updater.updating w = false ->
      Config.AUTO_UPDATE_ENABLED (Updater.config w) = true ->
      Updater.check_updates e = Ok (Some u) ->
      default false (Updater.ui_update_available u) = false ->
      Updater.check_and_update e w = (Ok tt, asked))
  /\ (forall u,
      Updater.updating w = false ->
      Config.AUTO_UPDATE_ENABLED (Updater.config w) = true ->
      Updater.check_updates e = Ok (Some u) ->
      Updater.ui_update_available u = Some true ->
      let started := Updater.ReportUpdateStatus (Updater.ui_id u) "started" None in
      let w' := snd (Updater.check_and_update e w) in
      w' = snd (Updater._perform_update e u asked)
      /\ (exists more,
            Updater.requests w'
            = Updater.requests w ++ Updater.CheckUpdates :: started :: more)
      /\ (Updater.report_update_status e (Updater.ui_id u) "started" None = Ok tt ->
          exists more,
            Updater.requests w'
            = Updater.requests w
              ++ Updater.CheckUpdates :: started :: Updater.DownloadUpdate u :: more)
      /\ (forall ex,
            Updater.report_update_status e (Updater.ui_id u) "started" None = Raise ex ->
            Py.is_Exception ex = true ->
            Updater.requests w'
            = Updater.requests w
              ++ [ Updater.CheckUpdates; started;
                   Updater.ReportUpdateStatus (Updater.ui_id u) "failed"
                     (Some (Py.str ex)) ])).
Proof.
  intros asked. split; [| split].
  - intros Hup Hauto Hcheck. unfold Updater.check_and_update, Py.try_except.
    rewrite Hup, Hauto. simpl negb. cbv iota.
    unfold Py.bind, Updater.call_check_updates. now rewrite Hcheck.
  - intros u Hup Hauto Hcheck Hflag. unfold Updater.check_and_update, Py.try_except.
    rewrite Hup, Hauto. simpl negb. cbv iota.
    unfold Py.bind, Updater.call_check_updates. rewrite Hcheck.
    destruct (Updater.info_is_empty u); [reflexivity |].
    now rewrite Hflag.
  - intros u Hup Hauto Hcheck Hflag started w'.
    assert (Hw' : w' = snd (Updater._perform_update e u asked)).
    { subst w'. unfold Updater.check_and_update, Py.try_except.
      rewrite Hup, Hauto. simpl negb. cbv iota.
      unfold Py.bind, Updater.call_check_updates. rewrite Hcheck.
      assert (Hne : Updater.info_is_empty u = false).
      { unfold Updater.info_is_empty. rewrite Hflag.
        now destruct (Updater.ui_id u), (Updater.ui_version u), (Updater.ui_hash u),
          (Updater.ui_size u), (Updater.ui_format u), (Updater.ui_requires_restart u). }
      rewrite Hne, Hflag.
      change (negb (default false (Some true))) with false.
      change (negb true) with false. cbv beta iota. fold asked.
      destruct (Updater._perform_update e u asked) as [[a | ex] w1]; [reflexivity |].
      now destruct (Py.is_Exception ex). }
    clearbody w'. subst w' started.
    assert (Hasked : Updater.requests asked
                     = Updater.requests w ++ [Updater.CheckUpdates]) by reflexivity.
    split; [reflexivity |]. split; [| split].
    + destruct (perform_update_reports_start e u asked) as [more Hmore].
      exists more. rewrite Hmore, Hasked, <- app_assoc. reflexivity.
    + intros Hstart.
      destruct (perform_update_then_downloads e u asked Hstart) as [more Hmore].
      exists more. rewrite Hmore, Hasked, <- app_assoc. reflexivity.
    + intros ex Hstart Hex.
      rewrite (perform_update_refused_start e u asked ex Hstart Hex), Hasked,
        <- app_assoc.
      reflexivity.
Qed.

(** ** A rejected package *)

Lemma verify_update_hash_mismatch (e : Updater.env) (data expected : string)
    (u : Updater.update_info) :
  Updater.ui_hash u = Some expected -> expected <> "" ->
  Updater.sha256_hexdigest e data <> expected ->
  Updater._verify_update e data u = false.
Proof.
  intros Hh Hne Hdiff. unfold Updater._verify_update. rewrite Hh.
  destruct (String.eqb_spec expected "") as [-> | _]; [congruence |].
  destruct (String.eqb_spec (Updater.sha256_hexdigest e data) expected); [congruence |].
  reflexivity.
Qed.

Lemma verify_update_size_mismatch (e : Updater.env) (data : string) (expected : Z)
    (u : Updater.update_info) :
  Updater.ui_size u = Some expected -> expected <> 0 ->
  Z.of_nat (String.length data) <> expected ->
  Updater._verify_update e data u = false.
Proof.
  intros Hs Hne Hdiff. unfold Updater._verify_update. rewrite Hs.
  destruct (expected =? 0) eqn:E0; [lia |].
  destruct (Z.of_nat (String.length data) =? expected) eqn:E1; [lia |].
  simpl. now destruct (negb _).
Qed.

(** What an attempt whose package fails verification leaves behind, when
    the backend takes the status reports: no archive is added to the backup
    directory, and the handler restores the most recent archive that is
    there, whatever update it was made for. *)
Lemma rejected_package_outcome (e : Updater.env) (u : Updater.update_info)
    (w : Updater.t) (data : string) :
  (forall id status error, Updater.report_update_status e id status error = Ok tt) ->
  Updater.download_update e u = Ok data ->
  data <> "" ->
  Updater._verify_update e data u = false ->
  let w' := snd (Updater._perform_update e u w) in
  Updater.backup_dir w' = Updater.backup_dir w
  /\ Updater.updating w' = false
  /\ Updater.app_dir w'
     = match Updater.latest (Updater.backup_dir w) with
       | None => Updater.app_dir w
       | Some b =>
           if Updater.restore_extract_fails e then Updater.restore_leaves e
           else Some (Updater.a_tree b)
       end.
Proof.
  intros Hrep Hdl Hdata Hver w'. subst w'.
  unfold Updater._perform_update, Py.try_finally, Py.try_except, Py.bind,
    Py.modify, Updater.call_report, Updater.call_download_update, Py.raise, Py.ret.
  rewrite !Hrep, Hdl.
  destruct (String.eqb_spec data "") as [-> | _]; [congruence |].
  rewrite Hver. simpl. rewrite ?Hrep. simpl.
  unfold Updater._restore_backup, Py.bind, Py.get, Py.modify, Py.ret. simpl.
  destruct (Updater.latest (Updater.backup_dir w)) as [b |]; simpl.
  - destruct (Updater.restore_extract_fails e); simpl; rewrite ?Hrep; repeat split.
  - rewrite ?Hrep. repeat split.
Qed.

(** A device that was updated from 1.0.0 to 1.1.0, with the archive of
    1.0.0 that update made, is offered 1.2.0 with a declared hash the
    package does not have. *)
Definition tampered_offer : Updater.update_info :=
  Updater.mk_info (Some "u7") (Some "1.2.0") (Some "aa") None None None (Some true).

Definition tampered_env : Updater.env :=
  Updater.mk_env (Ok (Some tampered_offer)) (fun _ => Ok "PACKAGE")
    (fun _ _ _ => Ok tt) (fun _ => "bb")
    (fun _ _ => Ok (Updater.mk_staged (Some [("main.py", "v3")]) None None))
    0 false None false None false false false None.

Definition updated_device : Updater.t :=
  Updater.mk demo_config false
    (Some [("VERSION", "1.1.0"); ("main.py", "v2")])
    [Updater.mk_archive "backup_1.0.0_100.tar.gz" 100
       [("VERSION", "1.0.0"); ("main.py", "v1")]]
    false [] 200%nat.

(** C4, where the code departs from it.  On [updated_device] the package
    fails the hash check and no archive is created: the backup directory
    is as before.  But the handler of [_perform_update] calls
    [_restore_backup], which replaces the live tree by the archive of the
    earlier update: the device is back at 1.0.0. *)
Theorem rejected_package_rolls_back_live_tree :
  let w' := snd (Updater._perform_update tampered_env tampered_offer updated_device) in
  Updater._verify_update tampered_env "PACKAGE" tampered_offer = false
  /\ Updater.backup_dir w' = Updater.backup_dir updated_device
  /\ Updater.app_dir updated_device = Some [("VERSION", "1.1.0"); ("main.py", "v2")]
  /\ Updater.app_dir w' = Some [("VERSION", "1.0.0"); ("main.py", "v1")]
  /\ Updater.get_current_version w' = "1.0.0".
Proof.
  intros w'.
  assert (Hver : Updater._verify_update tampered_env "PACKAGE" tampered_offer = false).
  { apply (verify_update_hash_mismatch _ _ "aa"); [reflexivity | discriminate |].
    discriminate. }
  destruct (rejected_package_outcome tampered_env tampered_offer updated_device "PACKAGE")
    as (Hb & _ & Ha); [reflexivity | reflexivity | discriminate | exact Hver |].
  fold w' in Hb, Ha.
  split; [exact Hver |]. split; [exact Hb |]. split; [reflexivity |].
  split; [exact Ha |].
  unfold Updater.get_current_version. rewrite Ha. reflexivity.
Qed.

(** Without an archive in the backup directory the rejected package leaves
    the live tree alone. *)
Lemma rejected_package_no_backup (e : Updater.env) (u : Updater.update_info)
    (w : Updater.t) (data : string) :
  (forall id status error, Updater.report_update_status e id status error = Ok tt) ->
  Updater.download_update e u = Ok data ->
  data <> "" ->
  Updater._verify_update e data u = false ->
  Updater.backup_dir w = [] ->
  Updater.app_dir (snd (Updater._perform_update e u w)) = Updater.app_dir w
  /\ Updater.backup_dir (snd (Updater._perform_update e u w)) = [].
Proof.
  intros Hrep Hdl Hdata Hver Hempty.
  destruct (rejected_package_outcome e u w data Hrep Hdl Hdata Hver) as (Hb & _ & Ha).
  rewrite Ha, Hb, Hempty. split; reflexivity.
Qed.

(** A door in production mode. *)
Definition door_config : Config.t :=
  Config.init "door_001" Config.Door Config.Production 18 19 3 true 1000 true.

Definition door_world : Turnstile.t :=
  Turnstile.init door_config [] "2024-01-01T00:00:00"
    (AccessLogger.mk_storage None false false).

Lemma door_out_request_is_no_op_witness :
  Relay.activate_relay 2 None (Turnstile.relay_controller door_world)
  = (Relay.Returned false, Turnstile.relay_controller door_world)
  /\ Turnstile._open_turnstile (Json.Str "out") door_world = (Ok tt, door_world)
  /\ Turnstile.relay_controller
       (snd (Turnstile._handle_websocket_command
               [("action", Json.Str "open_turnstile"); ("direction", Json.Str "out")]
               door_world))
     = Turnstile.relay_controller door_world.
Proof.
  destruct (door_out_request_is_no_op door_world eq_refl eq_refl)
    as (_ & Hact & Hopen & _ & Hcmd).
  split; [apply Hact |]. split; [exact Hopen |].
  apply Hcmd. reflexivity.
Defined.

(* ===================================================================== *)
(** ** Timed activation (src/relay_controller.py) *)
(* ===================================================================== *)

#[local] Arguments Relay.activate_relay : simpl nomatch.

(** [_set_relay_state(channel, _)] goes through when the channel has a pin
    or no pin is touched (test mode). *)
Definition can_set (s : Relay.t) (channel : Z) : bool :=
  match Relay.relay_pins s !! channel with
  | Some _ => true
  | None => Config.is_test_mode (Relay.config s)
  end.

Lemma set_relay_state_ok (channel : Z) (state : bool) (s : Relay.t) :
  can_set s channel = true ->
  exists g,
    Relay._set_relay_state channel state s
    = (Ok tt, Relay.set_relay_states (<[channel := state]> (Relay.relay_states s))
                (Relay.set_gpio g s)).
Proof.
  unfold can_set, Relay._set_relay_state. intros H.
  destruct (Config.is_test_mode (Relay.config s)).
  - exists (Relay.gpio s). now destruct s.
  - destruct (Relay.relay_pins s !! channel) as [pin |]; [| discriminate].
    eexists. reflexivity.
Qed.

Lemma set_relay_state_fails (channel : Z) (state : bool) (s : Relay.t) :
  can_set s channel = false ->
  Relay._set_relay_state channel state s = (Raise (KeyError "relay_pins"), s).
Proof.
  unfold can_set, Relay._set_relay_state.
  destruct (Relay.relay_pins s !! channel); [discriminate |].
  now intros ->.
Qed.

(** The parts of the state a step of the loop never touches. *)
Definition same_setup (s s' : Relay.t) : Prop :=
  Relay.config s' = Relay.config s
  /\ Relay.relay_pins s' = Relay.relay_pins s
  /\ Relay._relay_tasks s' = Relay._relay_tasks s
  /\ Relay.now s' = Relay.now s.

(** A task whose coroutine has ended. *)
Definition ended (tk : Relay.task) : Prop :=
  exists o, Relay.t_stage tk = Relay.Finished o.

(** What one step of task [tid] does, by the point where the task stands:
    - it has ended, is unknown, or is cancelled before it began: nothing
      but the task's stage changes;
    - it begins: the channel is switched on and the task goes to sleep, on
      a timer or, for a zero duration, back in the queue;
    - it begins but the channel cannot be driven: it fails;
    - it wakes, on time or cancelled: the channel is switched off and the
      task ends. *)
Inductive step_effect (tid : nat) (s s' : Relay.t) : Prop :=
| StepIdle :
    (forall tk, Relay.tasks s !! tid = Some tk ->
       ended tk \/ (Relay.t_stage tk = Relay.NotStarted /\ Relay.t_must_cancel tk = true)) ->
    (forall tk, Relay.tasks s' !! tid = Some tk -> ended tk) ->
    length (Relay.tasks s') = length (Relay.tasks s) ->
    Relay.ready s' = Relay.ready s ->
    Relay.timers s' = Relay.timers s ->
    Relay.relay_states s' = Relay.relay_states s ->
    step_effect tid s s'
| StepBegin (ch : Z) (d : nat) :
    Relay.tasks s !! tid = Some (Relay.mk_task ch d Relay.NotStarted false) ->
    can_set s ch = true ->
    Relay.tasks s' !! tid = Some (Relay.mk_task ch d Relay.AtSleep false) ->
    Relay.relay_states s' = <[ch := true]> (Relay.relay_states s) ->
    (d = 0%nat /\ Relay.ready s' = Relay.ready s ++ [tid]
               /\ Relay.timers s' = Relay.timers s
     \/ d <> 0%nat /\ Relay.ready s' = Relay.ready s
                   /\ Relay.timers s' = Relay.timers s ++ [((Relay.now s + d)%nat, tid)]) ->
    step_effect tid s s'
| StepBeginFails (ch : Z) (d : nat) :
    Relay.tasks s !! tid = Some (Relay.mk_task ch d Relay.NotStarted false) ->
    can_set s ch = false ->
    (forall tk, Relay.tasks s' !! tid = Some tk -> ended tk) ->
    Relay.ready s' = Relay.ready s ->
    Relay.timers s' = Relay.timers s ->
    Relay.relay_states s' = Relay.relay_states s ->
    step_effect tid s s'
| StepWake (tk : Relay.task) :
    Relay.tasks s !! tid = Some tk ->
    Relay.t_stage tk = Relay.AtSleep ->
    (forall tk', Relay.tasks s' !! tid = Some tk' -> ended tk') ->
    Relay.ready s' = Relay.ready s ->
    Relay.timers s' = Relay.timers s ->
    Relay.relay_states s'
    = (if can_set s (Relay.t_channel tk)
       then <[Relay.t_channel tk := false]> (Relay.relay_states s)
       else Relay.relay_states s) ->
    step_effect tid s s'.

(** What a step changes in the table of tasks: the stepped task only, and
    of it the stage only. *)
Definition same_tasks_but (tid : nat) (s s' : Relay.t) : Prop :=
  length (Relay.tasks s') = length (Relay.tasks s)
  /\ (forall j, j <> tid -> Relay.tasks s' !! j = Relay.tasks s !! j)
  /\ (forall tk, Relay.tasks s !! tid = Some tk ->
        exists tk', Relay.tasks s' !! tid = Some tk'
                    /\ Relay.t_channel tk' = Relay.t_channel tk
                    /\ Relay.t_duration tk' = Relay.t_duration tk
                    /\ (Relay.t_must_cancel tk = true -> Relay.t_must_cancel tk' = true)
                    /\ (Relay.t_stage tk <> Relay.NotStarted ->
                        Relay.t_stage tk' <> Relay.NotStarted)).

Lemma same_tasks_but_refl (tid : nat) (s : Relay.t) : same_tasks_but tid s s.
Proof. repeat split; eauto 10. Qed.

Lemma set_task_same_tasks_but (tid : nat) (tk tk' : Relay.task) (s : Relay.t) :
  Relay.tasks s !! tid = Some tk ->
  Relay.t_channel tk' = Relay.t_channel tk ->
  Relay.t_duration tk' = Relay.t_duration tk ->
  (Relay.t_must_cancel tk = true -> Relay.t_must_cancel tk' = true) ->
  (Relay.t_stage tk <> Relay.NotStarted -> Relay.t_stage tk' <> Relay.NotStarted) ->
  same_tasks_but tid s (Relay.set_task tid tk' s)
  /\ Relay.tasks (Relay.set_task tid tk' s) !! tid = Some tk'.
Proof.
  intros Htk Hc Hd Hm Hs.
  assert (Hlt : (tid < length (Relay.tasks s))%nat) by (eapply lookup_lt_Some; eauto).
  assert (Hnew : Relay.tasks (Relay.set_task tid tk' s) !! tid = Some tk')
    by (simpl; now apply list_lookup_insert_eq).
  split; [| exact Hnew].
  split; [simpl; apply length_insert |].
  split.
  - intros j Hj. simpl. now apply list_lookup_insert_ne.
  - intros tk0 Htk0. rewrite Htk in Htk0. injection Htk0 as <-.
    exists tk'. repeat split; assumption.
Qed.

Lemma step_task_effect (tid : nat) (s : Relay.t) :
  same_setup s (Relay.step_task tid s)
  /\ same_tasks_but tid s (Relay.step_task tid s)
  /\ step_effect tid s (Relay.step_task tid s).
Proof.
  unfold Relay.step_task.
  destruct (Relay.tasks s !! tid) as [tk |] eqn:Htk.
  2: { split; [repeat split |]. split; [apply same_tasks_but_refl |].
       apply StepIdle; try reflexivity; intros tk; rewrite Htk; discriminate. }
  destruct tk as [ch d st mc]. cbn [Relay.t_stage Relay.t_must_cancel Relay.t_channel
                                      Relay.t_duration].
  destruct st as [| | o].
  - (* not started *)
    destruct mc.
    + destruct (set_task_same_tasks_but tid _
                  (Relay.with_stage (Relay.Finished Relay.Cancelled)
                     (Relay.mk_task ch d Relay.NotStarted true)) s Htk)
        as [Hsame Hnew]; try reflexivity; try (simpl; congruence).
      split; [repeat split |]. split; [exact Hsame |].
      apply StepIdle; try reflexivity.
      * intros tk. rewrite Htk. intros [= <-]. right. split; reflexivity.
      * intros tk. rewrite Hnew. intros [= <-]. eexists. reflexivity.
      * apply Hsame.
    + destruct (can_set s ch) eqn:Hcan.
      * destruct (set_relay_state_ok ch true s Hcan) as [g ->].
        set (s1 := Relay.set_relay_states _ (Relay.set_gpio g s)).
        assert (Htk1 : Relay.tasks s1 !! tid
                       = Some (Relay.mk_task ch d Relay.NotStarted false)) by exact Htk.
        destruct (set_task_same_tasks_but tid _
                    (Relay.with_stage Relay.AtSleep
                       (Relay.mk_task ch d Relay.NotStarted false)) s1 Htk1)
          as [Hsame Hnew]; try reflexivity; try (simpl; congruence).
        destruct d as [| d'].
        -- split; [repeat split |]. split; [exact Hsame |].
           eapply StepBegin; [exact Htk | exact Hcan | exact Hnew | reflexivity |].
           left. repeat split.
        -- split; [repeat split |]. split; [exact Hsame |].
           eapply StepBegin; [exact Htk | exact Hcan | exact Hnew | reflexivity |].
           right. repeat split. discriminate.
      * rewrite (set_relay_state_fails ch true s Hcan). cbn [snd].
        rewrite (set_relay_state_fails ch false s Hcan). cbn [snd].
        destruct (set_task_same_tasks_but tid _
                    (Relay.with_stage (Relay.Finished (Relay.Failed (KeyError "relay_pins")))
                       (Relay.mk_task ch d Relay.NotStarted false)) s Htk)
          as [Hsame Hnew]; try reflexivity; try (simpl; congruence).
        split; [repeat split |]. split; [exact Hsame |].
        eapply StepBeginFails; [exact Htk | exact Hcan | | reflexivity ..].
        intros tk. rewrite Hnew. intros [= <-]. eexists. reflexivity.
  - (* asleep *)
    destruct (can_set s ch) eqn:Hcan.
    + destruct (set_relay_state_ok ch false s Hcan) as [g ->].
      set (s1 := Relay.set_relay_states _ (Relay.set_gpio g s)).
      assert (Htk1 : Relay.tasks s1 !! tid = Some (Relay.mk_task ch d Relay.AtSleep mc))
        by exact Htk.
      destruct (set_task_same_tasks_but tid _
                  (Relay.with_stage
                     (Relay.Finished (if mc then Relay.Cancelled else Relay.Completed))
                     (Relay.mk_task ch d Relay.AtSleep mc)) s1 Htk1)
        as [Hsame Hnew]; try reflexivity; try (simpl; congruence).
      split; [repeat split |]. split; [exact Hsame |].
      eapply StepWake; [exact Htk | reflexivity | | reflexivity ..|].
      * intros tk. rewrite Hnew. intros [= <-]. eexists. reflexivity.
      * cbn [Relay.t_channel]. now rewrite Hcan.
    + rewrite (set_relay_state_fails ch false s Hcan).
      assert (Hs2 : (if mc then s
                     else snd (Relay._set_relay_state ch false s)) = s).
      { destruct mc; [reflexivity |].
        now rewrite (set_relay_state_fails ch false s Hcan). }
      rewrite Hs2.
      destruct (set_task_same_tasks_but tid _
                  (Relay.with_stage (Relay.Finished (Relay.Failed (KeyError "relay_pins")))
                     (Relay.mk_task ch d Relay.AtSleep mc)) s Htk)
        as [Hsame Hnew]; try reflexivity; try (simpl; congruence).
      split; [repeat split |]. split; [exact Hsame |].
      eapply StepWake; [exact Htk | reflexivity | | reflexivity ..|].
      * intros tk. rewrite Hnew. intros [= <-]. eexists. reflexivity.
      * cbn [Relay.t_channel]. now rewrite Hcan.
  - (* ended *)
    split; [repeat split |]. split; [apply same_tasks_but_refl |].
    apply StepIdle; try reflexivity;
      intros tk; rewrite Htk; intros [= <-]; [left |]; eexists; reflexivity.
Qed.

(** *** What the loop holds for one channel *)

Definition on_channel (s : Relay.t) (c : Z) (tid : nat) : Prop :=
  exists tk, Relay.tasks s !! tid = Some tk /\ Relay.t_channel tk = c.

(** A queued step that will not switch channel [c] on. *)
Definition harmless (s : Relay.t) (c : Z) (tid : nat) : Prop :=
  forall tk, Relay.tasks s !! tid = Some tk -> Relay.t_channel tk = c ->
             Relay.t_stage tk <> Relay.NotStarted \/ Relay.t_must_cancel tk = true.

Definition asleep (s : Relay.t) (c : Z) (tid : nat) : Prop :=
  exists tk, Relay.tasks s !! tid = Some tk /\ Relay.t_channel tk = c
             /\ Relay.t_stage tk = Relay.AtSleep.

Definition no_timer (s : Relay.t) (c : Z) : Prop :=
  forall dl tid, (dl, tid) ∈ Relay.timers s -> ~ on_channel s c tid.

(** Channel [c] is closed or closing: nothing queued will switch it on, no
    timer is set for it, and if it is still on, the step that switches it
    off is queued. *)
Record closing (s : Relay.t) (c : Z) : Prop := {
  closing_timers : no_timer s c;
  closing_ready : forall tid, tid ∈ Relay.ready s -> harmless s c tid;
  closing_on :
    Relay.relay_states s !! c = Some true ->
    exists tid, tid ∈ Relay.ready s /\ asleep s c tid
}.

(** An activation of [c] for [d] ticks is queued as task [T]: whatever is
    queued before it is harmless. *)
Record pending (s : Relay.t) (c : Z) (T d : nat) : Prop := {
  pending_cur : Relay._relay_tasks s !! c = Some T;
  pending_task : Relay.tasks s !! T = Some (Relay.mk_task c d Relay.NotStarted false);
  pending_ready :
    exists r1 r2, Relay.ready s = r1 ++ T :: r2
                  /\ Forall (harmless s c) r1
                  /\ Forall (fun j => ~ on_channel s c j) r2;
  pending_timers : no_timer s c
}.

(** Channel [c] is open on behalf of task [T], with [k] ticks to go. *)
Record open (s : Relay.t) (c : Z) (T k : nat) : Prop := {
  open_cur : Relay._relay_tasks s !! c = Some T;
  open_task :
    exists d, Relay.tasks s !! T = Some (Relay.mk_task c d Relay.AtSleep false)
              /\ (k <= d)%nat;
  open_on : Relay.relay_states s !! c = Some true;
  open_timer : ((Relay.now s + k)%nat, T) ∈ Relay.timers s;
  open_timers :
    forall dl j, (dl, j) ∈ Relay.timers s -> on_channel s c j ->
                 j = T /\ dl = (Relay.now s + k)%nat;
  open_ready : forall j, j ∈ Relay.ready s -> ~ on_channel s c j
}.

Lemma on_channel_same (tid : nat) (s s' : Relay.t) (c : Z) (j : nat) :
  same_tasks_but tid s s' -> (on_channel s' c j <-> on_channel s c j).
Proof.
  intros (Hlen & Hother & Hself). unfold on_channel.
  destruct (decide (j = tid)) as [-> | Hne]; [| now rewrite Hother].
  split.
  - intros (tk' & Htk' & Hc).
    destruct (Relay.tasks s !! tid) as [tk |] eqn:Htk.
    + destruct (Hself tk eq_refl) as (tk'' & Htk'' & Hc'' & _).
      exists tk. split; [reflexivity |]. congruence.
    + apply lookup_lt_Some in Htk'. apply lookup_ge_None in Htk. lia.
  - intros (tk & Htk & Hc).
    destruct (Hself tk Htk) as (tk' & Htk' & Hc' & _).
    exists tk'. split; [exact Htk' | congruence].
Qed.

Lemma harmless_same (tid : nat) (s s' : Relay.t) (c : Z) (j : nat) :
  same_tasks_but tid s s' -> harmless s c j -> harmless s' c j.
Proof.
  intros (Hlen & Hother & Hself) Hh tk' Htk' Hc.
  destruct (decide (j = tid)) as [-> | Hne].
  - destruct (Relay.tasks s !! tid) as [tk |] eqn:Htk.
    + destruct (Hself tk eq_refl) as (tk'' & Htk'' & Hc'' & _ & Hm & Hs).
      assert (tk'' = tk') by congruence. subst tk''.
      assert (Hck : Relay.t_channel tk = c) by congruence.
      destruct (Hh tk Htk Hck) as [H | H]; [left; auto | right; auto].
    + apply lookup_lt_Some in Htk'. apply lookup_ge_None in Htk. lia.
  - rewrite Hother in Htk' by exact Hne. now apply (Hh tk').
Qed.

Lemma not_on_channel_harmless (s : Relay.t) (c : Z) (j : nat) :
  ~ on_channel s c j -> harmless s c j.
Proof. intros Hn tk Htk Hc. exfalso. apply Hn. now exists tk. Qed.

Lemma can_set_same (s s' : Relay.t) (c : Z) :
  same_setup s s' -> can_set s' c = can_set s c.
Proof. intros (Hcfg & Hpins & _). unfold can_set. now rewrite Hcfg, Hpins. Qed.

(** The state in which the head of the queue is stepped. *)
Definition popped (r : list nat) (s : Relay.t) : Relay.t := Relay.set_ready r s.

(** Reads the fields of [popped r s] off [s]. *)
Ltac unpop :=
  repeat match goal with
  | H : context [Relay.tasks (popped ?r ?s)] |- _ =>
      change (Relay.tasks (popped r s)) with (Relay.tasks s) in H
  | H : context [Relay.ready (popped ?r ?s)] |- _ =>
      change (Relay.ready (popped r s)) with r in H
  | H : context [Relay.timers (popped ?r ?s)] |- _ =>
      change (Relay.timers (popped r s)) with (Relay.timers s) in H
  | H : context [Relay.relay_states (popped ?r ?s)] |- _ =>
      change (Relay.relay_states (popped r s)) with (Relay.relay_states s) in H
  | H : context [Relay.now (popped ?r ?s)] |- _ =>
      change (Relay.now (popped r s)) with (Relay.now s) in H
  | H : context [Relay._relay_tasks (popped ?r ?s)] |- _ =>
      change (Relay._relay_tasks (popped r s)) with (Relay._relay_tasks s) in H
  | H : context [can_set (popped ?r ?s)] |- _ =>
      change (can_set (popped r s)) with (can_set s) in H
  end.

Lemma closing_step (s : Relay.t) (c : Z) (tid : nat) (r : list nat) :
  closing s c -> can_set s c = true -> Relay.ready s = tid :: r ->
  closing (Relay.step_task tid (popped r s)) c.
Proof.
  intros [Ht Hr Hon] Hcan Hready.
  destruct (step_task_effect tid (popped r s)) as (Hsetup & Hsame & Heff).
  set (s' := Relay.step_task tid (popped r s)) in *.
  assert (Hhead : harmless s c tid) by (apply Hr; rewrite Hready; left).
  assert (Htail : forall j, j ∈ r -> harmless s' c j).
  { intros j Hj. apply (harmless_same tid (popped r s)); [exact Hsame |].
    apply Hr. rewrite Hready. now right. }
  assert (Hnt : forall dl j, (dl, j) ∈ Relay.timers s -> ~ on_channel s' c j).
  { intros dl j Hin Hc. apply (on_channel_same tid (popped r s)) in Hc; [| exact Hsame].
    now apply (Ht dl j). }
  (* a task that still is on [c] and asleep in the old state, and is not
     the stepped one, is so in the new state *)
  assert (Hkeep : forall j, j <> tid -> asleep s c j -> asleep s' c j).
  { intros j Hne (tk & Htk & Hc & Hs). exists tk.
    destruct Hsame as (_ & Hother & _). rewrite Hother by exact Hne. auto. }
  assert (Hwit : Relay.relay_states s !! c = Some true ->
                 ~ asleep s c tid ->
                 exists j, j ∈ r /\ asleep s' c j).
  { intros Htrue Hna. destruct (Hon Htrue) as (j & Hj & Hj').
    rewrite Hready in Hj. apply elem_of_cons in Hj as [-> | Hj]; [contradiction |].
    exists j. split; [exact Hj |]. apply Hkeep; [| exact Hj'].
    intros ->. contradiction. }
  inversion Heff as [Hidle Hend Hlen Hrd Htm Hrs
                    | ch d Htk Hcs Htk' Hrs Hcase
                    | ch d Htk Hcs Hend Hrd Htm Hrs
                    | tk Htk Hst Hend Hrd Htm Hrs]; unpop.
  - split.
    + intros dl j Hin. rewrite Htm in Hin. now apply (Hnt dl j).
    + intros j Hj. rewrite Hrd in Hj. now apply Htail.
    + intros Htrue. rewrite Hrs in Htrue.
      destruct (Hwit Htrue) as (j & Hj & Hj').
      * intros (tk & Htk & _ & Hs).
        destruct (Hidle tk Htk) as [[o Ho] | [Hn _]]; congruence.
      * exists j. split; [now rewrite Hrd | exact Hj'].
  - assert (Hch : ch <> c).
    { intros ->. destruct (Hhead _ Htk eq_refl) as [H | H]; simpl in H; congruence. }
    assert (Hnew : ~ on_channel s' c tid).
    { intros (tk & Htk0 & Hc). rewrite Htk' in Htk0. injection Htk0 as <-.
      simpl in Hc. congruence. }
    split.
    + intros dl j Hin.
      destruct Hcase as [(_ & _ & Htm) | (_ & _ & Htm)]; rewrite Htm in Hin.
      * now apply (Hnt dl j).
      * apply elem_of_app in Hin as [Hin | Hin]; [now apply (Hnt dl j) |].
        apply list_elem_of_singleton in Hin. injection Hin as -> ->. exact Hnew.
    + intros j Hj.
      destruct Hcase as [(_ & Hrd & _) | (_ & Hrd & _)]; rewrite Hrd in Hj.
      * apply elem_of_app in Hj as [Hj | Hj]; [now apply Htail |].
        apply list_elem_of_singleton in Hj. subst j.
        now apply not_on_channel_harmless.
      * now apply Htail.
    + intros Htrue. rewrite Hrs, lookup_insert_ne in Htrue by exact Hch.
      destruct (Hwit Htrue) as (j & Hj & Hj').
      * intros (tk & Htk0 & Hc & _). rewrite Htk in Htk0. injection Htk0 as <-.
        simpl in Hc. congruence.
      * exists j. split; [| exact Hj'].
        destruct Hcase as [(_ & Hrd & _) | (_ & Hrd & _)]; rewrite Hrd;
          [apply elem_of_app; now left | exact Hj].
  - split.
    + intros dl j Hin. rewrite Htm in Hin. now apply (Hnt dl j).
    + intros j Hj. rewrite Hrd in Hj. now apply Htail.
    + intros Htrue. rewrite Hrs in Htrue.
      destruct (Hwit Htrue) as (j & Hj & Hj').
      * intros (tk & Htk0 & _ & Hs). rewrite Htk in Htk0. injection Htk0 as <-.
        discriminate.
      * exists j. split; [now rewrite Hrd | exact Hj'].
  - split.
    + intros dl j Hin. rewrite Htm in Hin. now apply (Hnt dl j).
    + intros j Hj. rewrite Hrd in Hj. now apply Htail.
    + intros Htrue. rewrite Hrs in Htrue.
      destruct (decide (Relay.t_channel tk = c)) as [Hc | Hc].
      * rewrite Hc, Hcan, lookup_insert_eq in Htrue. discriminate.
      * assert (Htrue' : Relay.relay_states s !! c = Some true).
        { destruct (can_set s (Relay.t_channel tk));
            [now rewrite lookup_insert_ne in Htrue | exact Htrue]. }
        destruct (Hwit Htrue') as (j & Hj & Hj').
        -- intros (tk0 & Htk0 & Hc0 & _). rewrite Htk in Htk0. injection Htk0 as <-.
           contradiction.
        -- exists j. split; [now rewrite Hrd | exact Hj'].
Qed.

Lemma open_step (s : Relay.t) (c : Z) (T k tid : nat) (r : list nat) :
  open s c T k -> Relay.ready s = tid :: r ->
  open (Relay.step_task tid (popped r s)) c T k.
Proof.
  intros [Hcur (d & HT & Hk) Hon Htimer Htimers Hr] Hready.
  destruct (step_task_effect tid (popped r s)) as ((_ & _ & Hrt & Hnow) & Hsame & Heff).
  set (s' := Relay.step_task tid (popped r s)) in *.
  assert (Hhead : ~ on_channel s c tid) by (apply Hr; rewrite Hready; left).
  assert (HneT : T <> tid).
  { intros <-. apply Hhead. eexists. split; [exact HT | reflexivity]. }
  assert (HT' : Relay.tasks s' !! T = Some (Relay.mk_task c d Relay.AtSleep false)).
  { destruct Hsame as (_ & Hother & _). now rewrite Hother. }
  assert (Hoc : forall j, on_channel s' c j <-> on_channel s c j)
    by (intros j; now apply (on_channel_same tid (popped r s))).
  assert (Htail : forall j, j ∈ r -> ~ on_channel s' c j).
  { intros j Hj. rewrite Hoc. apply Hr. rewrite Hready. now right. }
  assert (Hhead' : ~ on_channel s' c tid) by now rewrite Hoc.
  assert (Htm0 : forall dl j, (dl, j) ∈ Relay.timers s -> on_channel s' c j ->
                              j = T /\ dl = (Relay.now s' + k)%nat).
  { intros dl j Hin Hc. rewrite Hnow. apply Htimers; [exact Hin | now apply Hoc]. }
  assert (Hstate : forall ch, (exists tk, Relay.tasks s !! tid = Some tk
                                          /\ Relay.t_channel tk = ch) -> ch <> c).
  { intros ch (tk & Htk & Hch) ->. apply Hhead. now exists tk. }
  assert (Hcur' : Relay._relay_tasks s' !! c = Some T) by now rewrite Hrt.
  assert (Htask' : exists d, Relay.tasks s' !! T
                             = Some (Relay.mk_task c d Relay.AtSleep false)
                             /\ (k <= d)%nat) by now exists d.
  inversion Heff as [Hidle Hend Hlen Hrd Htm Hrs
                    | ch d0 Htk Hcs Htk' Hrs Hcase
                    | ch d0 Htk Hcs Hend Hrd Htm Hrs
                    | tk Htk Hst Hend Hrd Htm Hrs]; unpop.
  - split; [exact Hcur' | exact Htask' | | | |].
    + now rewrite Hrs.
    + rewrite Htm, Hnow. exact Htimer.
    + now rewrite Htm.
    + now rewrite Hrd.
  - assert (Hch : ch <> c) by (apply Hstate; eexists; split; [exact Htk | reflexivity]).
    split; [exact Hcur' | exact Htask' | | | |].
    + now rewrite Hrs, lookup_insert_ne.
    + rewrite Hnow.
      destruct Hcase as [(_ & _ & Htm) | (_ & _ & Htm)]; rewrite Htm;
        [exact Htimer | apply elem_of_app; now left].
    + intros dl j Hin Hc.
      destruct Hcase as [(_ & _ & Htm) | (_ & _ & Htm)]; rewrite Htm in Hin.
      * now apply Htm0.
      * apply elem_of_app in Hin as [Hin | Hin]; [now apply Htm0 |].
        apply list_elem_of_singleton in Hin. injection Hin as -> ->. contradiction.
    + intros j Hj.
      destruct Hcase as [(_ & Hrd & _) | (_ & Hrd & _)]; rewrite Hrd in Hj.
      * apply elem_of_app in Hj as [Hj | Hj]; [now apply Htail |].
        apply list_elem_of_singleton in Hj. now subst j.
      * now apply Htail.
  - split; [exact Hcur' | exact Htask' | | | |].
    + now rewrite Hrs.
    + rewrite Htm, Hnow. exact Htimer.
    + now rewrite Htm.
    + now rewrite Hrd.
  - assert (Hch : Relay.t_channel tk <> c)
      by (apply Hstate; eexists; split; [exact Htk | reflexivity]).
    split; [exact Hcur' | exact Htask' | | | |].
    + rewrite Hrs. destruct (can_set s (Relay.t_channel tk));
        [now rewrite lookup_insert_ne | exact Hon].
    + rewrite Htm, Hnow. exact Htimer.
    + now rewrite Htm.
    + now rewrite Hrd.
Qed.

(** From a queued activation the loop goes on to an open channel, or, for
    a zero duration, to a channel that closes within the same run. *)
Definition pending_onward (s : Relay.t) (c : Z) (T d : nat) : Prop :=
  pending s c T d
  \/ (d <> 0%nat /\ open s c T d)
  \/ (d = 0%nat /\ closing s c /\ Relay._relay_tasks s !! c = Some T).

Lemma pending_step (s : Relay.t) (c : Z) (T d tid : nat) (r : list nat) :
  pending s c T d -> can_set s c = true -> Relay.ready s = tid :: r ->
  pending_onward (Relay.step_task tid (popped r s)) c T d.
Proof.
  intros [Hcur HT (r1 & r2 & Hrd0 & Hr1 & Hr2) Hnt] Hcan Hready.
  destruct (step_task_effect tid (popped r s)) as ((_ & _ & Hrt & Hnow) & Hsame & Heff).
  set (s' := Relay.step_task tid (popped r s)) in *.
  assert (Hoc : forall j, on_channel s' c j <-> on_channel s c j)
    by (intros j; now apply (on_channel_same tid (popped r s))).
  assert (Hnt' : forall dl j, (dl, j) ∈ Relay.timers s -> ~ on_channel s' c j).
  { intros dl j Hin. rewrite Hoc. now apply (Hnt dl j). }
  assert (Hr2' : Forall (fun j => ~ on_channel s' c j) r2).
  { eapply Forall_impl; [exact Hr2 |]. intros j Hj. now rewrite Hoc. }
  rewrite Hrd0 in Hready.
  destruct r1 as [| h r1]; simpl in Hready;
    [injection Hready as <- <- | injection Hready as -> <-].
  - (* the activation itself is stepped *)
    inversion Heff as [Hidle Hend Hlen Hrd Htm Hrs
                      | ch d0 Htk Hcs Htk' Hrs Hcase
                      | ch d0 Htk Hcs Hend Hrd Htm Hrs
                      | tk Htk Hst Hend Hrd Htm Hrs]; unpop.
    + destruct (Hidle _ HT) as [[o Ho] | [_ Hm]]; discriminate.
    + rewrite HT in Htk. injection Htk as <- <-.
      destruct Hcase as [(-> & Hrd & Htm) | (Hd & Hrd & Htm)].
      * right. right. split; [reflexivity |]. split; [| now rewrite Hrt].
        split.
        -- intros dl j Hin. rewrite Htm in Hin. now apply (Hnt' dl j).
        -- intros j Hj. rewrite Hrd in Hj.
           apply elem_of_app in Hj as [Hj | Hj].
           ++ apply not_on_channel_harmless.
              rewrite Forall_forall in Hr2'. now apply Hr2'.
           ++ apply list_elem_of_singleton in Hj. subst j.
              intros tk. rewrite Htk'. intros [= <-] _. left. discriminate.
        -- intros _. exists T. split.
           ++ rewrite Hrd. apply elem_of_app. right. now left.
           ++ eexists. split; [exact Htk' |]. split; reflexivity.
      * right. left. split; [exact Hd |].
        split.
        -- now rewrite Hrt.
        -- exists d. split; [exact Htk' | lia].
        -- now rewrite Hrs, lookup_insert_eq.
        -- rewrite Htm, Hnow. apply elem_of_app. right. now left.
        -- intros dl j Hin Hc. rewrite Htm in Hin.
           apply elem_of_app in Hin as [Hin | Hin].
           ++ exfalso. now apply (Hnt' dl j).
           ++ apply list_elem_of_singleton in Hin. injection Hin as -> ->.
              now rewrite Hnow.
        -- intros j Hj. rewrite Hrd in Hj.
           rewrite Forall_forall in Hr2'. now apply Hr2'.
    + rewrite HT in Htk. injection Htk as <- <-. congruence.
    + rewrite HT in Htk. injection Htk as <-. discriminate.
  - (* a step queued before it *)
    apply Forall_cons in Hr1 as [Hh Hr1].
    assert (HneT : T <> tid).
    { intros <-. destruct (Hh _ HT eq_refl) as [H | H]; simpl in H; congruence. }
    assert (HT' : Relay.tasks s' !! T = Some (Relay.mk_task c d Relay.NotStarted false)).
    { destruct Hsame as (_ & Hother & _). now rewrite Hother. }
    assert (Hr1' : Forall (harmless s' c) r1).
    { eapply Forall_impl; [exact Hr1 |]. intros j Hj.
      now apply (harmless_same tid (popped (r1 ++ T :: r2) s)). }
    left.
    inversion Heff as [Hidle Hend Hlen Hrd Htm Hrs
                      | ch d0 Htk Hcs Htk' Hrs Hcase
                      | ch d0 Htk Hcs Hend Hrd Htm Hrs
                      | tk Htk Hst Hend Hrd Htm Hrs]; unpop.
    + split; [now rewrite Hrt | exact HT' | | ].
      * exists r1, r2. now rewrite Hrd.
      * intros dl j Hin. rewrite Htm in Hin. now apply (Hnt' dl j).
    + assert (Hch : ch <> c).
      { intros ->. destruct (Hh _ Htk eq_refl) as [H | H]; simpl in H; congruence. }
      assert (Hnew : ~ on_channel s' c tid).
      { intros (tk & Htk0 & Hc). rewrite Htk' in Htk0. injection Htk0 as <-.
        simpl in Hc. congruence. }
      split; [now rewrite Hrt | exact HT' | | ].
      * destruct Hcase as [(_ & Hrd & _) | (_ & Hrd & _)]; rewrite Hrd.
        -- exists r1, (r2 ++ [tid]). split; [now rewrite <- app_assoc |].
           split; [exact Hr1' |]. apply Forall_app. split; [exact Hr2' |].
           now apply Forall_singleton.
        -- now exists r1, r2.
      * intros dl j Hin.
        destruct Hcase as [(_ & _ & Htm) | (_ & _ & Htm)]; rewrite Htm in Hin.
        -- now apply (Hnt' dl j).
        -- apply elem_of_app in Hin as [Hin | Hin]; [now apply (Hnt' dl j) |].
           apply list_elem_of_singleton in Hin. injection Hin as -> ->. exact Hnew.
    + split; [now rewrite Hrt | exact HT' | | ].
      * exists r1, r2. now rewrite Hrd.
      * intros dl j Hin. rewrite Htm in Hin. now apply (Hnt' dl j).
    + split; [now rewrite Hrt | exact HT' | | ].
      * exists r1, r2. now rewrite Hrd.
      * intros dl j Hin. rewrite Htm in Hin. now apply (Hnt' dl j).
Qed.

(** *** Running the queue *)

Lemma drain_cons (n : nat) (s : Relay.t) (tid : nat) (r : list nat) :
  Relay.ready s = tid :: r ->
  Relay.drain (S n) s = Relay.drain n (Relay.step_task tid (popped r s)).
Proof. intros H. simpl. now rewrite H. Qed.

Lemma drain_nil (n : nat) (s : Relay.t) :
  Relay.ready s = [] -> Relay.drain n s = s.
Proof. intros H. destruct n; simpl; [reflexivity | now rewrite H]. Qed.

Lemma same_setup_trans (s1 s2 s3 : Relay.t) :
  same_setup s1 s2 -> same_setup s2 s3 -> same_setup s1 s3.
Proof. unfold same_setup. intuition congruence. Qed.

Lemma drain_same_setup (n : nat) (s : Relay.t) : same_setup s (Relay.drain n s).
Proof.
  revert s. induction n as [| n IH]; intros s; [repeat split |].
  destruct (Relay.ready s) as [| tid r] eqn:Hr.
  - rewrite drain_nil by exact Hr. repeat split.
  - rewrite (drain_cons n s tid r Hr).
    eapply same_setup_trans; [| apply IH].
    destruct (step_task_effect tid (popped r s)) as (Hs & _). exact Hs.
Qed.

Lemma closing_drain (n : nat) (s : Relay.t) (c : Z) :
  closing s c -> can_set s c = true -> closing (Relay.drain n s) c.
Proof.
  revert s. induction n as [| n IH]; intros s Hc Hcan; [exact Hc |].
  destruct (Relay.ready s) as [| tid r] eqn:Hr.
  - now rewrite drain_nil.
  - rewrite (drain_cons n s tid r Hr). apply IH.
    + now apply closing_step.
    + destruct (step_task_effect tid (popped r s)) as (Hs & _).
      now rewrite (can_set_same _ _ c Hs).
Qed.

Lemma open_drain (n : nat) (s : Relay.t) (c : Z) (T k : nat) :
  open s c T k -> open (Relay.drain n s) c T k.
Proof.
  revert s. induction n as [| n IH]; intros s Ho; [exact Ho |].
  destruct (Relay.ready s) as [| tid r] eqn:Hr.
  - now rewrite drain_nil.
  - rewrite (drain_cons n s tid r Hr). apply IH. now apply open_step.
Qed.

Lemma pending_drain (n : nat) (s : Relay.t) (c : Z) (T d : nat) :
  pending_onward s c T d -> can_set s c = true ->
  pending_onward (Relay.drain n s) c T d.
Proof.
  revert s. induction n as [| n IH]; intros s Hp Hcan; [exact Hp |].
  destruct (Relay.ready s) as [| tid r] eqn:Hr.
  - now rewrite drain_nil.
  - rewrite (drain_cons n s tid r Hr).
    destruct (step_task_effect tid (popped r s)) as (Hs & _).
    assert (Hcan' : can_set (Relay.step_task tid (popped r s)) c = true)
      by now rewrite (can_set_same _ _ c Hs).
    apply IH; [| exact Hcan'].
    destruct Hp as [Hp | [(Hd & Ho) | (Hd & Hc & Hcur)]].
    + now apply pending_step.
    + right. left. split; [exact Hd |]. now apply open_step.
    + right. right. split; [exact Hd |]. split; [now apply closing_step |].
      destruct Hs as (_ & _ & Hrt & _). now rewrite Hrt.
Qed.

(** The weight of the queue bounds the steps the loop runs: a queued step
    weighs at least one, and what a step queues weighs less than the step
    did. *)
Lemma step_weight_same (tid : nat) (s s' : Relay.t) (j : nat) :
  same_tasks_but tid s s' -> (Relay.step_weight s' j <= Relay.step_weight s j)%nat.
Proof.
  intros (Hlen & Hother & Hself). unfold Relay.step_weight.
  destruct (decide (j = tid)) as [-> | Hne]; [| now rewrite Hother].
  destruct (Relay.tasks s !! tid) as [tk |] eqn:Htk.
  - destruct (Hself tk eq_refl) as (tk' & -> & _ & _ & _ & Hs).
    destruct (Relay.t_stage tk) eqn:E; destruct (Relay.t_stage tk') eqn:E';
      try lia; exfalso; now apply Hs.
  - apply lookup_ge_None in Htk.
    rewrite (proj2 (lookup_ge_None (Relay.tasks s') tid)) by lia. lia.
Qed.

Lemma step_weight_pos (s : Relay.t) (j : nat) : (1 <= Relay.step_weight s j)%nat.
Proof.
  unfold Relay.step_weight.
  destruct (Relay.tasks s !! j) as [tk |]; [destruct (Relay.t_stage tk) |]; lia.
Qed.

Lemma weight_sum_same (tid : nat) (s s' : Relay.t) (l : list nat) :
  same_tasks_but tid s s' ->
  (list_sum (map (Relay.step_weight s') l) <= list_sum (map (Relay.step_weight s) l))%nat.
Proof.
  intros Hsame. induction l as [| j l IH]; simpl; [lia |].
  pose proof (step_weight_same tid s s' j Hsame). lia.
Qed.

Lemma weight_cons (s : Relay.t) (tid : nat) (r : list nat) :
  Relay.ready s = tid :: r ->
  Relay.weight s
  = (Relay.step_weight s tid + list_sum (map (Relay.step_weight s) r))%nat.
Proof. intros H. unfold Relay.weight. now rewrite H. Qed.

Lemma weight_step (s : Relay.t) (tid : nat) (r : list nat) :
  Relay.ready s = tid :: r ->
  (Relay.weight (Relay.step_task tid (popped r s)) < Relay.weight s)%nat.
Proof.
  intros Hready.
  destruct (step_task_effect tid (popped r s)) as (_ & Hsame & Heff).
  set (s' := Relay.step_task tid (popped r s)) in *.
  rewrite (weight_cons s tid r Hready). unfold Relay.weight.
  pose proof (weight_sum_same tid (popped r s) s' r Hsame) as Hle.
  change (Relay.step_weight (popped r s)) with (Relay.step_weight s) in Hle.
  pose proof (step_weight_pos s tid) as Hpos.
  inversion Heff as [Hidle Hend Hlen Hrd Htm Hrs
                    | ch d0 Htk Hcs Htk' Hrs Hcase
                    | ch d0 Htk Hcs Hend Hrd Htm Hrs
                    | tk Htk Hst Hend Hrd Htm Hrs]; unpop.
  - rewrite Hrd. lia.
  - destruct Hcase as [(_ & Hrd & _) | (_ & Hrd & _)]; rewrite Hrd; [| lia].
    rewrite map_app, list_sum_app.
    change (list_sum (map (Relay.step_weight s') [tid]))
      with (Relay.step_weight s' tid + 0)%nat.
    assert (H2 : Relay.step_weight s tid = 2%nat)
      by (unfold Relay.step_weight; now rewrite Htk).
    assert (H1 : Relay.step_weight s' tid = 1%nat)
      by (unfold Relay.step_weight; now rewrite Htk').
    lia.
  - rewrite Hrd. lia.
  - rewrite Hrd. lia.
Qed.

Lemma drain_empties (n : nat) (s : Relay.t) :
  (Relay.weight s <= n)%nat -> Relay.ready (Relay.drain n s) = [].
Proof.
  revert s. induction n as [| n IH]; intros s Hw.
  - simpl. destruct (Relay.ready s) as [| tid r] eqn:Hr; [reflexivity |].
    rewrite (weight_cons s tid r Hr) in Hw.
    pose proof (step_weight_pos s tid). lia.
  - destruct (Relay.ready s) as [| tid r] eqn:Hr.
    + now rewrite drain_nil.
    + rewrite (drain_cons n s tid r Hr). apply IH.
      pose proof (weight_step s tid r Hr). lia.
Qed.

(** The loop runs until its queue is empty: the bound of [run_ready] is
    enough in every state. *)
Lemma run_ready_empties (s : Relay.t) : Relay.ready (Relay.run_ready s) = [].
Proof. unfold Relay.run_ready. now apply drain_empties. Qed.



(** After the queue has run, a queued activation has opened its channel,
    or has opened and closed it if its duration is zero. *)
Lemma pending_run_ready (s : Relay.t) (c : Z) (T d : nat) :
  pending s c T d -> can_set s c = true ->
  (d <> 0%nat /\ open (Relay.run_ready s) c T d)
  \/ (d = 0%nat /\ closing (Relay.run_ready s) c).
Proof.
  intros Hp Hcan.
  pose proof (run_ready_empties s) as Hempty.
  destruct (pending_drain (Relay.weight s) s c T d (or_introl Hp) Hcan)
    as [Hp' | [Ho | (Hd & Hc & _)]]; fold (Relay.run_ready s) in *.
  - destruct Hp' as [_ _ (r1 & r2 & Hrd & _) _]. rewrite Hempty in Hrd.
    now destruct r1.
  - now left.
  - now right.
Qed.

(** *** The clock *)

Lemma elem_of_List_filter {A} (f : A -> bool) (l : list A) (x : A) :
  x ∈ List.filter f l <-> x ∈ l /\ f x = true.
Proof. rewrite !list_elem_of_In. apply filter_In. Qed.

Lemma closing_fired (s : Relay.t) (c : Z) : closing s c -> closing (Relay.fire_timers s) c.
Proof.
  intros [Ht Hr Hon]. split.
  - intros dl j Hin. simpl in Hin. apply elem_of_List_filter in Hin as [Hin _].
    now apply (Ht dl j).
  - intros j Hj. simpl in Hj. apply elem_of_app in Hj as [Hj | Hj]; [now apply Hr |].
    apply list_elem_of_fmap in Hj as ([dl j'] & -> & Hin).
    apply elem_of_List_filter in Hin as [Hin _].
    apply not_on_channel_harmless. now apply (Ht dl j').
  - intros Htrue. destruct (Hon Htrue) as (j & Hj & Hj').
    exists j. split; [| exact Hj']. simpl. apply elem_of_app. now left.
Qed.

(** A tick on an open channel: the window shrinks, and at its last tick
    the sleep completes: the step that closes the channel is queued. *)
Lemma open_fired (s : Relay.t) (c : Z) (T k : nat) :
  open s c T k ->
  match k with
  | O => True
  | 1%nat => closing (Relay.fire_timers s) c
  | S k' => open (Relay.fire_timers s) c T k'
  end.
Proof.
  intros [Hcur (d & HT & Hk) Hon Htimer Htimers Hr].
  destruct k as [| [| k']]; [exact I | |].
  - (* the last tick *)
    assert (HTc : on_channel s c T) by (eexists; split; [exact HT | reflexivity]).
    split.
    + intros dl j Hin Hc. simpl in Hin.
      apply elem_of_List_filter in Hin as [Hin Hlate].
      destruct (Htimers dl j Hin Hc) as [-> ->].
      simpl in Hlate. apply negb_true_iff, Nat.leb_gt in Hlate. lia.
    + intros j Hj. simpl in Hj. apply elem_of_app in Hj as [Hj | Hj].
      * apply not_on_channel_harmless. now apply Hr.
      * apply list_elem_of_fmap in Hj as ([dl j'] & -> & Hin).
        apply elem_of_List_filter in Hin as [Hin _]. simpl.
        intros tk Htk Hc.
        destruct (Htimers dl j' Hin) as [-> _]; [now exists tk |].
        change (Relay.tasks (Relay.fire_timers s)) with (Relay.tasks s) in Htk.
        rewrite HT in Htk. injection Htk as <-. left. discriminate.
    + intros _. exists T. split.
      * simpl. apply elem_of_app. right.
        apply list_elem_of_fmap. exists ((Relay.now s + 1)%nat, T). split; [reflexivity |].
        apply elem_of_List_filter. split; [exact Htimer |].
        simpl. apply Nat.leb_le. lia.
      * eexists. split; [exact HT |]. split; reflexivity.
  - (* a tick inside the window *)
    split.
    + exact Hcur.
    + exists d. split; [exact HT | lia].
    + exact Hon.
    + assert (Hdl : (Relay.now (Relay.fire_timers s) + S k')%nat
                    = (Relay.now s + S (S k'))%nat) by (simpl; lia).
      rewrite Hdl. simpl. apply elem_of_List_filter. split; [exact Htimer |].
      simpl. apply negb_true_iff, Nat.leb_gt. lia.
    + intros dl j Hin Hc. simpl in Hin. apply elem_of_List_filter in Hin as [Hin _].
      destruct (Htimers dl j Hin Hc) as [-> ->]. split; [reflexivity |]. simpl. lia.
    + intros j Hj Hc. simpl in Hj. apply elem_of_app in Hj as [Hj | Hj].
      * now apply (Hr j).
      * apply list_elem_of_fmap in Hj as ([dl j'] & -> & Hin).
        apply elem_of_List_filter in Hin as [Hin Hdue].
        destruct (Htimers dl j' Hin Hc) as [-> ->].
        simpl in Hdue. apply Nat.leb_le in Hdue. lia.
Qed.

(** *** Cancelling and creating tasks *)

Lemma cancel_effect (tid : nat) (s : Relay.t) :
  let s' := Relay.cancel tid s in
  same_setup s s'
  /\ same_tasks_but tid s s'
  /\ Relay.relay_states s' = Relay.relay_states s
  /\ (forall tk', Relay.tasks s' !! tid = Some tk' ->
        ended tk' \/ Relay.t_must_cancel tk' = true)
  /\ (Relay.ready s' = Relay.ready s
      \/ Relay.ready s' = Relay.ready s ++ [tid] /\ is_Some (Relay.tasks s !! tid))
  /\ (forall p, p ∈ Relay.timers s' -> p ∈ Relay.timers s)
  /\ (forall dl j, (dl, j) ∈ Relay.timers s -> j <> tid -> (dl, j) ∈ Relay.timers s')
  /\ (forall tk, Relay.tasks s !! tid = Some tk -> Relay.t_stage tk = Relay.AtSleep ->
        forall dl, (dl, tid) ∉ Relay.timers s').
Proof.
  unfold Relay.cancel.
  destruct (Relay.tasks s !! tid) as [tk |] eqn:Htk.
  2: { cbv zeta. split; [repeat split |]. split; [apply same_tasks_but_refl |].
       split; [reflexivity |]. split; [intros tk'; rewrite Htk; discriminate |].
       split; [now left |]. split; [auto |]. split; [auto |]. discriminate. }
  destruct (set_task_same_tasks_but tid tk (Relay.with_must_cancel tk) s Htk)
    as [Hsame Hnew]; try reflexivity; try (simpl; auto).
  destruct (Relay.t_stage tk) as [| | o] eqn:Hst; cbv zeta.
  - split; [repeat split |]. split; [exact Hsame |]. split; [reflexivity |].
    split; [intros tk'; rewrite Hnew; intros [= <-]; now right |].
    split; [now left |]. split; [auto |]. split; [auto |].
    intros tk0 [= <-]. congruence.
  - destruct (Relay.has_timer tid s) eqn:Hhas.
    + split; [repeat split |]. split; [exact Hsame |]. split; [reflexivity |].
      split; [intros tk'; simpl; simpl in Hnew; rewrite Hnew; intros [= <-]; now right |].
      split; [right; split; [reflexivity | now exists tk] |].
      split; [intros p Hp; simpl in Hp; now apply elem_of_List_filter in Hp as [Hp _] |].
      split.
      * intros dl j Hin Hne. simpl. apply elem_of_List_filter. split; [exact Hin |].
        simpl. apply negb_true_iff, Nat.eqb_neq. exact Hne.
      * intros _ _ _ dl Hin. simpl in Hin. apply elem_of_List_filter in Hin as [_ Hf].
        simpl in Hf. apply negb_true_iff, Nat.eqb_neq in Hf. congruence.
    + split; [repeat split |]. split; [exact Hsame |]. split; [reflexivity |].
      split; [intros tk'; rewrite Hnew; intros [= <-]; now right |].
      split; [now left |]. split; [auto |]. split; [auto |].
      intros _ _ _ dl Hin. simpl in Hin.
      unfold Relay.has_timer in Hhas.
      assert (Hex : existsb (fun p => Nat.eqb (snd p) tid) (Relay.timers s) = true).
      { apply existsb_exists. exists (dl, tid). split; [now apply list_elem_of_In |].
        simpl. apply Nat.eqb_refl. }
      congruence.
  - split; [repeat split |]. split; [apply same_tasks_but_refl |].
    split; [reflexivity |].
    split; [intros tk'; rewrite Htk; intros [= <-]; left; now exists o |].
    split; [now left |]. split; [auto |]. split; [auto |].
    intros tk0 [= <-]. congruence.
Qed.

(** [activate_relay] cancels the task it finds for the channel: a task
    that is done is left alone by [cancel] itself. *)
Definition cancelled (channel : Z) (s : Relay.t) : Relay.t :=
  match Relay._relay_tasks s !! channel with
  | Some old => Relay.cancel old s
  | None => s
  end.

Lemma activate_relay_eq (channel : Z) (duration : option nat) (s : Relay.t) (pin : Z) :
  Relay.relay_pins s !! channel = Some pin ->
  let d := default (Config.RELAY_OPEN_DURATION (Relay.config s)) duration in
  let s1 := cancelled channel s in
  let T := length (Relay.tasks s1) in
  Relay.activate_relay channel duration s
  = (Relay.Awaiting T,
     Relay.set_relay_tasks (<[channel := T]> (Relay._relay_tasks s1))
       (Relay.set_ready (Relay.ready s1 ++ [T])
          (Relay.set_tasks
             (Relay.tasks s1 ++ [Relay.mk_task channel d Relay.NotStarted false]) s1))).
Proof.
  intros Hpin d s1 T. unfold Relay.activate_relay. rewrite Hpin.
  fold d.
  assert (Hs1 : match Relay._relay_tasks s !! channel with
                | Some old =>
                    match Relay.tasks s !! old with
                    | Some tk => if Relay.is_done tk then s else Relay.cancel old s
                    | None => s
                    end
                | None => s
                end = s1).
  { subst s1. unfold cancelled.
    destruct (Relay._relay_tasks s !! channel) as [old |]; [| reflexivity].
    unfold Relay.cancel, Relay.is_done.
    destruct (Relay.tasks s !! old) as [tk |]; [| reflexivity].
    now destruct (Relay.t_stage tk). }
  rewrite Hs1. reflexivity.
Qed.

(** A change of the loop that does not concern channel [c]. *)
Record quiet_for (c : Z) (s s' : Relay.t) : Prop := {
  quiet_on : forall j, on_channel s' c j <-> on_channel s c j;
  quiet_tasks : forall j, on_channel s c j -> Relay.tasks s' !! j = Relay.tasks s !! j;
  quiet_state : Relay.relay_states s' !! c = Relay.relay_states s !! c;
  quiet_ready :
    exists l, Relay.ready s' = Relay.ready s ++ l
              /\ Forall (fun j => ~ on_channel s' c j) l;
  quiet_timers : forall p, p ∈ Relay.timers s' -> p ∈ Relay.timers s;
  quiet_timers_kept :
    forall dl j, (dl, j) ∈ Relay.timers s -> on_channel s c j ->
                 (dl, j) ∈ Relay.timers s';
  quiet_cur : Relay._relay_tasks s' !! c = Relay._relay_tasks s !! c;
  quiet_now : Relay.now s' = Relay.now s
}.

Lemma harmless_quiet (c : Z) (s s' : Relay.t) (j : nat) :
  quiet_for c s s' -> harmless s c j -> harmless s' c j.
Proof.
  intros Hq Hh tk Htk Hc.
  assert (Hon : on_channel s c j) by (apply (quiet_on _ _ _ Hq); now exists tk).
  rewrite (quiet_tasks _ _ _ Hq j Hon) in Htk. now apply (Hh tk).
Qed.

Lemma closing_quiet_for (c : Z) (s s' : Relay.t) :
  quiet_for c s s' -> closing s c -> closing s' c.
Proof.
  intros Hq [Ht Hr Hon]. destruct (quiet_ready _ _ _ Hq) as (l & Hrd & Hl).
  split.
  - intros dl j Hin Hc. apply (Ht dl j); [now apply (quiet_timers _ _ _ Hq) |].
    now apply (quiet_on _ _ _ Hq).
  - intros j Hj. rewrite Hrd in Hj. apply elem_of_app in Hj as [Hj | Hj].
    + apply (harmless_quiet c s); [exact Hq | now apply Hr].
    + apply not_on_channel_harmless. rewrite Forall_forall in Hl. now apply Hl.
  - intros Htrue. rewrite (quiet_state _ _ _ Hq) in Htrue.
    destruct (Hon Htrue) as (j & Hj & tk & Htk & Hc & Hs).
    exists j. split; [rewrite Hrd; apply elem_of_app; now left |].
    exists tk. split; [| now split].
    rewrite (quiet_tasks _ _ _ Hq); [exact Htk | now exists tk].
Qed.

Lemma open_quiet_for (c : Z) (s s' : Relay.t) (T k : nat) :
  quiet_for c s s' -> open s c T k -> open s' c T k.
Proof.
  intros Hq [Hcur (d & HT & Hk) Hon Htimer Htimers Hr].
  destruct (quiet_ready _ _ _ Hq) as (l & Hrd & Hl).
  assert (HTc : on_channel s c T) by (eexists; split; [exact HT | reflexivity]).
  split.
  - now rewrite (quiet_cur _ _ _ Hq).
  - exists d. split; [| exact Hk]. now rewrite (quiet_tasks _ _ _ Hq).
  - now rewrite (quiet_state _ _ _ Hq).
  - rewrite (quiet_now _ _ _ Hq). now apply (quiet_timers_kept _ _ _ Hq).
  - intros dl j Hin Hc. rewrite (quiet_now _ _ _ Hq).
    apply Htimers; [now apply (quiet_timers _ _ _ Hq) | now apply (quiet_on _ _ _ Hq)].
  - intros j Hj. rewrite Hrd in Hj. apply elem_of_app in Hj as [Hj | Hj].
    + rewrite (quiet_on _ _ _ Hq). now apply Hr.
    + rewrite Forall_forall in Hl. now apply Hl.
Qed.

Lemma pending_quiet_for (c : Z) (s s' : Relay.t) (T d : nat) :
  quiet_for c s s' -> pending s c T d -> pending s' c T d.
Proof.
  intros Hq [Hcur HT (r1 & r2 & Hrd0 & Hr1 & Hr2) Hnt].
  destruct (quiet_ready _ _ _ Hq) as (l & Hrd & Hl).
  assert (HTc : on_channel s c T) by (eexists; split; [exact HT | reflexivity]).
  split.
  - now rewrite (quiet_cur _ _ _ Hq).
  - now rewrite (quiet_tasks _ _ _ Hq).
  - exists r1, (r2 ++ l). split; [rewrite Hrd, Hrd0; now rewrite <- app_assoc |].
    split.
    + eapply Forall_impl; [exact Hr1 |]. intros j. now apply harmless_quiet.
    + apply Forall_app. split; [| exact Hl].
      eapply Forall_impl; [exact Hr2 |]. intros j Hj. now rewrite (quiet_on _ _ _ Hq).
  - intros dl j Hin Hc. apply (Hnt dl j); [now apply (quiet_timers _ _ _ Hq) |].
    now apply (quiet_on _ _ _ Hq).
Qed.

Lemma cancelled_effect (ch : Z) (s : Relay.t) :
  let s1 := cancelled ch s in
  same_setup s s1
  /\ Relay.relay_states s1 = Relay.relay_states s
  /\ length (Relay.tasks s1) = length (Relay.tasks s)
  /\ (forall j, Relay._relay_tasks s !! ch <> Some j ->
        Relay.tasks s1 !! j = Relay.tasks s !! j)
  /\ (forall c j, on_channel s1 c j <-> on_channel s c j)
  /\ (forall c j, harmless s c j -> harmless s1 c j)
  /\ (exists l, Relay.ready s1 = Relay.ready s ++ l
                /\ forall j, j ∈ l -> Relay._relay_tasks s !! ch = Some j
                                      /\ is_Some (Relay.tasks s !! j))
  /\ (forall p, p ∈ Relay.timers s1 -> p ∈ Relay.timers s)
  /\ (forall dl j, (dl, j) ∈ Relay.timers s -> Relay._relay_tasks s !! ch <> Some j ->
        (dl, j) ∈ Relay.timers s1)
  /\ (forall old, Relay._relay_tasks s !! ch = Some old ->
        (forall tk', Relay.tasks s1 !! old = Some tk' ->
           ended tk' \/ Relay.t_must_cancel tk' = true)
        /\ (forall tk, Relay.tasks s !! old = Some tk ->
              Relay.t_stage tk = Relay.AtSleep ->
              forall dl, (dl, old) ∉ Relay.timers s1)).
Proof.
  unfold cancelled.
  destruct (Relay._relay_tasks s !! ch) as [old |] eqn:Hcur; cbv zeta.
  - destruct (cancel_effect old s)
      as (Hsetup & Hsame & Hrs & Hafter & Hready & Hsub & Hkept & Hgone).
    split; [exact Hsetup |]. split; [exact Hrs |].
    split; [apply Hsame |].
    split.
    { intros j Hj. destruct Hsame as (_ & Hother & _). apply Hother. congruence. }
    split; [intros c j; now apply (on_channel_same old) |].
    split; [intros c j; now apply (harmless_same old) |].
    split.
    { destruct Hready as [Hr | [Hr Hsome]].
      - exists []. rewrite app_nil_r. split; [exact Hr |]. intros j Hj.
        now apply elem_of_nil in Hj.
      - exists [old]. split; [exact Hr |]. intros j Hj.
        apply list_elem_of_singleton in Hj. now subst j. }
    split; [exact Hsub |].
    split.
    { intros dl j Hin Hj. apply Hkept; [exact Hin | congruence]. }
    intros old' [= <-]. split; [exact Hafter | exact Hgone].
  - split; [repeat split |]. split; [reflexivity |]. split; [reflexivity |].
    split; [reflexivity |]. split; [reflexivity |]. split; [auto |].
    split.
    { exists []. rewrite app_nil_r. split; [reflexivity |]. intros j Hj.
      now apply elem_of_nil in Hj. }
    split; [auto |]. split; [auto |]. discriminate.
Qed.

(** The state [activate_relay] leaves for a known channel. *)
Definition activated (ch : Z) (d : nat) (s1 : Relay.t) : Relay.t :=
  let T := length (Relay.tasks s1) in
  Relay.set_relay_tasks (<[ch := T]> (Relay._relay_tasks s1))
    (Relay.set_ready (Relay.ready s1 ++ [T])
       (Relay.set_tasks (Relay.tasks s1 ++ [Relay.mk_task ch d Relay.NotStarted false]) s1)).

Lemma activated_lookup_old (ch : Z) (d : nat) (s1 : Relay.t) (j : nat) (tk : Relay.task) :
  Relay.tasks s1 !! j = Some tk -> Relay.tasks (activated ch d s1) !! j = Some tk.
Proof. intros H. simpl. now apply lookup_app_l_Some. Qed.

Lemma activated_lookup_new (ch : Z) (d : nat) (s1 : Relay.t) :
  Relay.tasks (activated ch d s1) !! length (Relay.tasks s1)
  = Some (Relay.mk_task ch d Relay.NotStarted false).
Proof. simpl. rewrite lookup_app_r by lia. now rewrite Nat.sub_diag. Qed.

Lemma activated_lookup_inv (ch : Z) (d : nat) (s1 : Relay.t) (j : nat) (tk : Relay.task) :
  Relay.tasks (activated ch d s1) !! j = Some tk ->
  Relay.tasks s1 !! j = Some tk
  \/ (j = length (Relay.tasks s1) /\ tk = Relay.mk_task ch d Relay.NotStarted false).
Proof.
  simpl. intros H. apply lookup_app_Some in H as [H | [Hge H]]; [now left |].
  right. destruct (j - length (Relay.tasks s1))%nat as [| n] eqn:E; simpl in H.
  - injection H as <-. split; [lia | reflexivity].
  - discriminate.
Qed.

Lemma on_channel_activated (ch c : Z) (d : nat) (s1 : Relay.t) (j : nat) :
  on_channel (activated ch d s1) c j
  <-> on_channel s1 c j \/ (j = length (Relay.tasks s1) /\ ch = c).
Proof.
  split.
  - intros (tk & Htk & Hc). apply activated_lookup_inv in Htk as [Htk | [-> ->]].
    + left. now exists tk.
    + right. split; [reflexivity | exact Hc].
  - intros [(tk & Htk & Hc) | [-> <-]].
    + exists tk. split; [now apply activated_lookup_old | exact Hc].
    + eexists. split; [apply activated_lookup_new | reflexivity].
Qed.

Lemma harmless_activated (ch c : Z) (d : nat) (s1 : Relay.t) (j : nat) :
  harmless s1 c j -> j <> length (Relay.tasks s1) -> harmless (activated ch d s1) c j.
Proof.
  intros Hh Hj tk Htk Hc. apply activated_lookup_inv in Htk as [Htk | [-> _]].
  - now apply (Hh tk).
  - congruence.
Qed.

(** An activation of another channel does not concern channel [c], when
    the task on record for that channel is a task of that channel. *)
Lemma activate_other_quiet (c ch : Z) (duration : option nat) (s : Relay.t) :
  ch <> c ->
  (forall old, Relay._relay_tasks s !! ch = Some old -> on_channel s ch old) ->
  quiet_for c s (snd (Relay.activate_relay ch duration s)).
Proof.
  intros Hne Hcur.
  destruct (Relay.relay_pins s !! ch) as [pin |] eqn:Hpin.
  2: { rewrite activate_relay_unknown by exact Hpin. simpl.
       split; try reflexivity; auto.
       exists []. rewrite app_nil_r. split; [reflexivity | constructor]. }
  rewrite (activate_relay_eq ch duration s pin Hpin). cbv zeta. cbn [snd].
  set (d := default _ duration).
  fold (activated ch d (cancelled ch s)).
  destruct (cancelled_effect ch s)
    as ((_ & _ & Hrt & Hnow) & Hrs & Hlen & Hother & Hon & _ & (l & Hrd & Hl)
        & Hsub & Hkept & _).
  set (s1 := cancelled ch s) in *.
  assert (Hold : forall j, on_channel s c j -> Relay._relay_tasks s !! ch <> Some j).
  { intros j (tk & Htk & Hc) Hj. destruct (Hcur j Hj) as (tk' & Htk' & Hc').
    congruence. }
  assert (Hqon : forall j, on_channel (activated ch d s1) c j <-> on_channel s c j).
  { intros j. rewrite on_channel_activated, Hon. split; [| now left].
    intros [H | [_ H]]; [exact H | congruence]. }
  split.
  - exact Hqon.
  - intros j Hj. pose proof Hj as (tk & Htk & _).
    rewrite <- (Hother j (Hold j Hj)) in Htk |- *.
    rewrite Htk. now apply activated_lookup_old.
  - simpl. now rewrite Hrs.
  - exists (l ++ [length (Relay.tasks s1)]). split.
    + simpl. now rewrite Hrd, <- app_assoc.
    + apply Forall_app. split.
      * apply Forall_forall. intros j Hj. rewrite Hqon. intros Hc.
        destruct (Hl j Hj) as [Hj' _]. now apply (Hold j Hc).
      * apply Forall_singleton. rewrite on_channel_activated, Hon.
        intros [(tk & Htk & _) | [_ H]]; [| congruence].
        apply lookup_lt_Some in Htk. lia.
  - intros p Hp. now apply Hsub.
  - intros dl j Hin Hc. simpl. apply Hkept; [exact Hin | now apply Hold].
  - simpl. rewrite lookup_insert_ne by exact Hne. now rewrite Hrt.
  - exact Hnow.
Qed.

(** *** The invariant of the loop *)

(** Queued steps and timers refer to tasks that exist. *)
Definition valid (s : Relay.t) : Prop :=
  (forall j, j ∈ Relay.ready s -> (j < length (Relay.tasks s))%nat)
  /\ (forall dl j, (dl, j) ∈ Relay.timers s -> (j < length (Relay.tasks s))%nat).

(** The task on record for a channel is a task of that channel. *)
Definition recorded (s : Relay.t) : Prop :=
  forall ch old, Relay._relay_tasks s !! ch = Some old -> on_channel s ch old.

(** Where a channel stands. *)
Definition phase (s : Relay.t) (c : Z) : Prop :=
  (exists T d, pending s c T d)
  \/ (exists T k, (1 <= k)%nat /\ open s c T k)
  \/ closing s c.

Lemma settled_after_cancel (s : Relay.t) (c : Z) :
  phase s c ->
  no_timer (cancelled c s) c
  /\ forall j, j ∈ Relay.ready (cancelled c s) -> harmless (cancelled c s) c j.
Proof.
  intros Hph.
  destruct (cancelled_effect c s)
    as (_ & _ & _ & _ & Hon & Hharm & (l & Hrd & Hl) & Hsub & _ & Hold).
  set (s1 := cancelled c s) in *.
  assert (Hl' : forall j, j ∈ l -> harmless s1 c j).
  { intros j Hj tk Htk _. destruct (Hl j Hj) as [Hcur _].
    destruct (Hold j Hcur) as [Hafter _].
    destruct (Hafter tk Htk) as [[o Ho] | Hm]; [left; congruence | now right]. }
  destruct Hph as [(T & d & Hp) | [(T & k & Hk & Ho) | Hc]].
  - destruct Hp as [Hcur HT (r1 & r2 & Hrd0 & Hr1 & Hr2) Hnt].
    split.
    + intros dl j Hin Hc. apply (Hnt dl j); [now apply Hsub | now apply Hon].
    + intros j Hj. rewrite Hrd, Hrd0 in Hj.
      apply elem_of_app in Hj as [Hj | Hj]; [| now apply Hl'].
      apply elem_of_app in Hj as [Hj | Hj].
      * apply Hharm. rewrite Forall_forall in Hr1. now apply Hr1.
      * apply elem_of_cons in Hj as [-> | Hj].
        -- intros tk Htk _. destruct (Hold T Hcur) as [Hafter _].
           destruct (Hafter tk Htk) as [[o Ho] | Hm]; [left; congruence | now right].
        -- apply not_on_channel_harmless. rewrite Hon.
           rewrite Forall_forall in Hr2. now apply Hr2.
  - destruct Ho as [Hcur (d & HT & _) _ _ Htimers Hr].
    split.
    + intros dl j Hin Hc. pose proof (Hsub _ Hin) as Hin0.
      destruct (Htimers dl j Hin0) as [-> _]; [now apply Hon |].
      destruct (Hold T Hcur) as [_ Hgone].
      now apply (Hgone _ HT eq_refl dl).
    + intros j Hj. rewrite Hrd in Hj.
      apply elem_of_app in Hj as [Hj | Hj]; [| now apply Hl'].
      apply not_on_channel_harmless. rewrite Hon. now apply Hr.
  - destruct Hc as [Hnt Hr _].
    split.
    + intros dl j Hin Hc. apply (Hnt dl j); [now apply Hsub | now apply Hon].
    + intros j Hj. rewrite Hrd in Hj.
      apply elem_of_app in Hj as [Hj | Hj]; [| now apply Hl'].
      apply Hharm. now apply Hr.
Qed.

(** An activation of channel [c] leaves its own task queued behind steps
    that are all harmless: whatever was pending or open on the channel has
    been cancelled. *)
Lemma activate_same_pending (s : Relay.t) (c : Z) (duration : option nat) (pin : Z) :
  Relay.relay_pins s !! c = Some pin ->
  valid s -> phase s c ->
  pending (snd (Relay.activate_relay c duration s)) c (length (Relay.tasks s))
    (default (Config.RELAY_OPEN_DURATION (Relay.config s)) duration).
Proof.
  intros Hpin [Hvr Hvt] Hph.
  rewrite (activate_relay_eq c duration s pin Hpin). cbv zeta. cbn [snd].
  set (d := default _ duration).
  fold (activated c d (cancelled c s)).
  destruct (settled_after_cancel s c Hph) as [Hnt Hr].
  destruct (cancelled_effect c s)
    as (_ & _ & Hlen & _ & _ & _ & (l & Hrd & Hl) & Hsub & _).
  set (s1 := cancelled c s) in *.
  rewrite <- Hlen.
  assert (Hvr1 : forall j, j ∈ Relay.ready s1 -> (j < length (Relay.tasks s1))%nat).
  { intros j Hj. rewrite Hrd in Hj. rewrite Hlen.
    apply elem_of_app in Hj as [Hj | Hj]; [now apply Hvr |].
    destruct (Hl j Hj) as [_ [tk Htk]]. now apply lookup_lt_Some in Htk. }
  split.
  - simpl. now rewrite lookup_insert_eq.
  - apply activated_lookup_new.
  - exists (Relay.ready s1), []. split; [reflexivity |]. split; [| constructor].
    apply Forall_forall. intros j Hj. apply harmless_activated; [now apply Hr |].
    specialize (Hvr1 j Hj). lia.
  - intros dl j Hin Hc. change (Relay.timers (activated c d s1)) with (Relay.timers s1) in Hin.
    apply on_channel_activated in Hc as [Hc | [-> _]].
    + now apply (Hnt dl j).
    + apply Hsub, Hvt in Hin. lia.
Qed.

Lemma valid_step (s : Relay.t) (tid : nat) (r : list nat) :
  valid s -> Relay.ready s = tid :: r -> valid (Relay.step_task tid (popped r s)).
Proof.
  intros [Hvr Hvt] Hready.
  destruct (step_task_effect tid (popped r s)) as (_ & (Hlen & _) & Heff).
  set (s' := Relay.step_task tid (popped r s)) in *.
  change (Relay.tasks (popped r s)) with (Relay.tasks s) in Hlen.
  assert (Htid : (tid < length (Relay.tasks s))%nat) by (apply Hvr; rewrite Hready; left).
  assert (Hr : forall j, j ∈ r -> (j < length (Relay.tasks s'))%nat).
  { intros j Hj. rewrite Hlen. apply Hvr. rewrite Hready. now right. }
  assert (Ht : forall dl j, (dl, j) ∈ Relay.timers s -> (j < length (Relay.tasks s'))%nat).
  { intros dl j Hj. rewrite Hlen. now apply (Hvt dl j). }
  inversion Heff as [Hidle Hend Hlen' Hrd Htm Hrs
                    | ch d0 Htk Hcs Htk' Hrs Hcase
                    | ch d0 Htk Hcs Hend Hrd Htm Hrs
                    | tk Htk Hst Hend Hrd Htm Hrs]; unpop.
  - split; [intros j; rewrite Hrd; apply Hr | intros dl j; rewrite Htm; apply Ht].
  - destruct Hcase as [(_ & Hrd & Htm) | (_ & Hrd & Htm)]; split.
    + intros j Hj. rewrite Hrd in Hj. apply elem_of_app in Hj as [Hj | Hj]; [now apply Hr |].
      apply list_elem_of_singleton in Hj. subst j. now rewrite Hlen.
    + intros dl j. rewrite Htm. apply Ht.
    + intros j. rewrite Hrd. apply Hr.
    + intros dl j Hj. rewrite Htm in Hj.
      apply elem_of_app in Hj as [Hj | Hj]; [now apply (Ht dl j) |].
      apply list_elem_of_singleton in Hj. injection Hj as -> ->. now rewrite Hlen.
  - split; [intros j; rewrite Hrd; apply Hr | intros dl j; rewrite Htm; apply Ht].
  - split; [intros j; rewrite Hrd; apply Hr | intros dl j; rewrite Htm; apply Ht].
Qed.

Lemma recorded_step (s : Relay.t) (tid : nat) (r : list nat) :
  recorded s -> recorded (Relay.step_task tid (popped r s)).
Proof.
  intros Hrec ch old Hcur.
  destruct (step_task_effect tid (popped r s)) as ((_ & _ & Hrt & _) & Hsame & _).
  rewrite Hrt in Hcur.
  apply (on_channel_same tid (popped r s)); [exact Hsame |].
  now apply Hrec.
Qed.

Lemma valid_recorded_drain (n : nat) (s : Relay.t) :
  valid s -> recorded s -> valid (Relay.drain n s) /\ recorded (Relay.drain n s).
Proof.
  revert s. induction n as [| n IH]; intros s Hv Hrec; [now split |].
  destruct (Relay.ready s) as [| tid r] eqn:Hr.
  - rewrite drain_nil by exact Hr. now split.
  - rewrite (drain_cons n s tid r Hr).
    apply IH; [now apply valid_step | now apply recorded_step].
Qed.

Lemma valid_recorded_fired (s : Relay.t) :
  valid s -> recorded s ->
  valid (Relay.fire_timers s) /\ recorded (Relay.fire_timers s).
Proof.
  intros [Hvr Hvt] Hrec. split; [split |].
  - intros j Hj. simpl in Hj. apply elem_of_app in Hj as [Hj | Hj]; [now apply Hvr |].
    apply list_elem_of_fmap in Hj as ([dl j'] & -> & Hin).
    apply elem_of_List_filter in Hin as [Hin _]. now apply (Hvt dl j').
  - intros dl j Hin. simpl in Hin. apply elem_of_List_filter in Hin as [Hin _].
    now apply (Hvt dl j).
  - exact Hrec.
Qed.

Lemma valid_recorded_activate (ch : Z) (duration : option nat) (s : Relay.t) :
  valid s -> recorded s ->
  valid (snd (Relay.activate_relay ch duration s))
  /\ recorded (snd (Relay.activate_relay ch duration s)).
Proof.
  intros [Hvr Hvt] Hrec.
  destruct (Relay.relay_pins s !! ch) as [pin |] eqn:Hpin.
  2: { rewrite activate_relay_unknown by exact Hpin. now split. }
  rewrite (activate_relay_eq ch duration s pin Hpin). cbv zeta. cbn [snd].
  set (d := default _ duration).
  fold (activated ch d (cancelled ch s)).
  destruct (cancelled_effect ch s)
    as ((_ & _ & Hrt & _) & _ & Hlen & _ & Hon & _ & (l & Hrd & Hl) & Hsub & _).
  set (s1 := cancelled ch s) in *.
  assert (Hlen3 : length (Relay.tasks (activated ch d s1)) = S (length (Relay.tasks s))).
  { simpl. rewrite length_app, Hlen. simpl. lia. }
  split; [split |].
  - intros j Hj. rewrite Hlen3. simpl in Hj. rewrite Hrd in Hj.
    apply elem_of_app in Hj as [Hj | Hj].
    + apply elem_of_app in Hj as [Hj | Hj].
      * specialize (Hvr j Hj). lia.
      * destruct (Hl j Hj) as [_ [tk Htk]]. apply lookup_lt_Some in Htk. lia.
    + apply list_elem_of_singleton in Hj. subst j. lia.
  - intros dl j Hin. rewrite Hlen3.
    change (Relay.timers (activated ch d s1)) with (Relay.timers s1) in Hin.
    apply Hsub, Hvt in Hin. lia.
  - intros ch' old Hcur. simpl in Hcur. apply on_channel_activated.
    destruct (decide (ch = ch')) as [<- | Hne].
    + rewrite lookup_insert_eq in Hcur. injection Hcur as <-. now right.
    + rewrite lookup_insert_ne in Hcur by exact Hne. left.
      rewrite Hon. apply Hrec. now rewrite <- Hrt.
Qed.

(** *** Runs of the loop *)

Lemma known_can_set (s : Relay.t) (c : Z) :
  is_Some (Relay.relay_pins s !! c) -> can_set s c = true.
Proof. intros [pin H]. unfold can_set. now rewrite H. Qed.

(** Channel [c] is off, or will be within [n] ticks. *)
Definition due_in (s : Relay.t) (c : Z) (n : nat) : Prop :=
  (exists T d, (d <= n)%nat /\ pending s c T d)
  \/ (exists T k, (1 <= k <= n)%nat /\ open s c T k)
  \/ closing s c.


Lemma due_in_phase (s : Relay.t) (c : Z) (n : nat) : due_in s c n -> phase s c.
Proof.
  intros [(T & d & _ & H) | [(T & k & Hk & H) | H]].
  - left. eauto.
  - right. left. exists T, k. split; [lia | exact H].
  - right. now right.
Qed.

Lemma phase_due_in (s : Relay.t) (c : Z) : phase s c -> exists n, due_in s c n.
Proof.
  intros [(T & d & H) | [(T & k & Hk & H) | H]].
  - exists d. left. exists T, d. split; [lia | exact H].
  - exists k. right. left. exists T, k. split; [lia | exact H].
  - exists 0%nat. right. now right.
Qed.

Lemma due_in_drain (m : nat) (s : Relay.t) (c : Z) (n : nat) :
  can_set s c = true -> due_in s c n -> due_in (Relay.drain m s) c n.
Proof.
  intros Hcan [(T & d & Hd & H) | [(T & k & Hk & H) | H]].
  - destruct (pending_drain m s c T d (or_introl H) Hcan)
      as [Hp | [[Hne Ho] | (He & Hc & _)]].
    + left. eauto.
    + right. left. exists T, d. split; [lia | exact Ho].
    + right. now right.
  - right. left. exists T, k. split; [exact Hk | now apply open_drain].
  - right. right. now apply closing_drain.
Qed.

Lemma due_in_settled (s : Relay.t) (c : Z) (n : nat) :
  can_set s c = true -> due_in s c n ->
  (exists T k, (1 <= k <= n)%nat /\ open (Relay.run_ready s) c T k)
  \/ closing (Relay.run_ready s) c.
Proof.
  intros Hcan [(T & d & Hd & H) | [(T & k & Hk & H) | H]].
  - destruct (pending_run_ready s c T d H Hcan) as [[Hne Ho] | [_ Hc]].
    + left. exists T, d. split; [lia | exact Ho].
    + now right.
  - left. exists T, k. split; [exact Hk | now apply open_drain].
  - right. now apply closing_drain.
Qed.

Lemma due_in_tick (s : Relay.t) (c : Z) (n : nat) :
  can_set s c = true -> due_in s c n -> due_in (Relay.tick s) c (n - 1).
Proof.
  intros Hcan H. unfold Relay.tick.
  destruct (due_in_settled s c n Hcan H) as [(T & k & Hk & Ho) | Hc].
  - pose proof (open_fired _ c T k Ho) as Hf.
    destruct k as [| [| k']]; [lia | |].
    + right. now right.
    + right. left. exists T, (S k'). split; [lia | exact Hf].
  - right. right. now apply closing_fired.
Qed.

Lemma due_in_other (s : Relay.t) (c ch : Z) (duration : option nat) (n : nat) :
  ch <> c -> recorded s -> due_in s c n ->
  due_in (snd (Relay.activate_relay ch duration s)) c n.
Proof.
  intros Hne Hrec H.
  assert (Hq : quiet_for c s (snd (Relay.activate_relay ch duration s))).
  { apply activate_other_quiet; [exact Hne |]. intros old. apply Hrec. }
  destruct H as [(T & d & Hd & H) | [(T & k & Hk & H) | H]].
  - left. exists T, d. split; [exact Hd | now apply (pending_quiet_for c s)].
  - right. left. exists T, k. split; [exact Hk | now apply (open_quiet_for c s)].
  - right. right. now apply (closing_quiet_for c s).
Qed.







Lemma step_drain (s : Relay.t) : Relay.step s = Relay.drain 1 s.
Proof. unfold Relay.step. simpl. now destruct (Relay.ready s). Qed.

(** What no event changes: the configuration and the channel map. *)
Lemma do_event_setup (e : Relay.event) (s : Relay.t) :
  Relay.config (Relay.do_event e s) = Relay.config s
  /\ Relay.relay_pins (Relay.do_event e s) = Relay.relay_pins s.
Proof.
  destruct e as [ch d | |]; simpl.
  - destruct (Relay.relay_pins s !! ch) as [pin |] eqn:Hpin.
    + rewrite (activate_relay_eq ch d s pin Hpin). cbv zeta. cbn [snd].
      destruct (cancelled_effect ch s) as ((Hcfg & Hpins & _) & _).
      split; [exact Hcfg | exact Hpins].
    + rewrite activate_relay_unknown by exact Hpin. now split.
  - rewrite step_drain. destruct (drain_same_setup 1 s) as (Hcfg & Hpins & _).
    now split.
  - unfold Relay.tick, Relay.run_ready.
    destruct (drain_same_setup (Relay.weight s) s) as (Hcfg & Hpins & _).
    now split.
Qed.

Lemma run_setup (es : list Relay.event) (s : Relay.t) :
  Relay.config (Relay.run es s) = Relay.config s
  /\ Relay.relay_pins (Relay.run es s) = Relay.relay_pins s.
Proof.
  revert s. induction es as [| e es IH]; intros s; [now split |].
  simpl. destruct (IH (Relay.do_event e s)) as [-> ->]. apply do_event_setup.
Qed.


Definition sound (s : Relay.t) : Prop := valid s /\ recorded s.

Lemma sound_event (e : Relay.event) (s : Relay.t) : sound s -> sound (Relay.do_event e s).
Proof.
  intros [Hv Hr]. destruct e as [ch d | |]; simpl.
  - now apply valid_recorded_activate.
  - rewrite step_drain. now apply valid_recorded_drain.
  - unfold Relay.tick, Relay.run_ready.
    destruct (valid_recorded_drain (Relay.weight s) s Hv Hr).
    now apply valid_recorded_fired.
Qed.

Lemma elapsed_cons (e : Relay.event) (es : list Relay.event) :
  Relay.elapsed (e :: es)
  = ((match e with Relay.Tick => 1 | _ => 0 end) + Relay.elapsed es)%nat.
Proof. unfold Relay.elapsed. simpl. now destruct e. Qed.



(** The invariant of the loop: the bookkeeping is sound and every known
    channel is in one of the three phases. *)
Definition inv (s : Relay.t) : Prop :=
  sound s /\ forall c, is_Some (Relay.relay_pins s !! c) -> phase s c.

Lemma inv_start (cfg : Config.t) : inv (Relay.initialize (Relay.init cfg)).
Proof.
  split; [split; [split |] |].
  - intros j Hj. simpl in Hj. now apply elem_of_nil in Hj.
  - intros dl j Hj. simpl in Hj. now apply elem_of_nil in Hj.
  - intros ch old H. simpl in H. now rewrite lookup_empty in H.
  - intros c _. right. right. split.
    + intros dl j Hj. simpl in Hj. now apply elem_of_nil in Hj.
    + intros j Hj. simpl in Hj. now apply elem_of_nil in Hj.
    + intros H. simpl in H. rewrite lookup_fmap in H.
      destruct (Relay.init_pins cfg !! c); discriminate.
Qed.

Lemma inv_event (e : Relay.event) (s : Relay.t) : inv s -> inv (Relay.do_event e s).
Proof.
  intros [Hs Hph]. split; [now apply sound_event |].
  intros c Hk. destruct (do_event_setup e s) as [_ Hpins]. rewrite Hpins in Hk.
  pose proof (known_can_set s c Hk) as Hcan.
  destruct (phase_due_in s c (Hph c Hk)) as [n Hd].
  destruct e as [ch d | |]; simpl.
  - destruct (decide (ch = c)) as [-> | Hne].
    + destruct Hk as [pin Hpin]. left. eexists _, _.
      apply (activate_same_pending s c d pin Hpin); [apply Hs | now apply Hph].
    + apply (due_in_phase _ c n). apply due_in_other; [exact Hne | apply Hs | exact Hd].
  - rewrite step_drain. apply (due_in_phase _ c n). now apply due_in_drain.
  - apply (due_in_phase _ c (n - 1)). now apply due_in_tick.
Qed.

Lemma inv_run (es : list Relay.event) (s : Relay.t) : inv s -> inv (Relay.run es s).
Proof.
  revert s. induction es as [| e es IH]; intros s H; [exact H |].
  simpl. apply IH. now apply inv_event.
Qed.

(** *** The pins *)














(** A turnstile on real pins, and a run on it: channel 1 is opened for five
    ticks, opened again two ticks later for the configured three, channel 2
    is opened meanwhile. *)
Definition gate_config : Config.t :=
  Config.init "turnstile_001" Config.Turnstile Config.Production 18 19 3 true 1000 true.

Definition first_call : list Relay.event :=
  [Relay.Activate 1 (Some 5%nat); Relay.Tick; Relay.Tick].



(** The same run, evaluated: the second call finds the channel on with
    three ticks of the first window left, and the channel is on for three
    ticks from the second call, not for six and not for one. *)
Example second_call_restarts_window :
  let start := Relay.initialize (Relay.init gate_config) in
  let at_ (es : list Relay.event) :=
    Relay.get_relay_state 1 (Relay.run_ready (Relay.run es start)) in
  at_ [] = false
  /\ at_ first_call = true
  /\ at_ (first_call ++ [Relay.Activate 1 None]) = true
  /\ at_ (first_call ++ [Relay.Activate 1 None; Relay.Tick; Relay.Tick]) = true
  /\ at_ (first_call ++ [Relay.Activate 1 None; Relay.Tick; Relay.Tick; Relay.Tick]) = false
  /\ Relay.gpio (Relay.run_ready
                   (Relay.run (first_call ++ [Relay.Activate 1 None; Relay.Tick; Relay.Tick;
                                              Relay.Tick]) start)) !! 18 = Some false.
Proof. vm_compute. repeat split. Qed.


(* ===================================================================== *)
(** * Further properties of the code *)
(* ===================================================================== *)


(** ** The offline queue, beyond the bound (src/access_logger.py) *)

Lemma save_offline_log_file (m : Z) (ev : Json.dict) (l : AccessLogger.t) :
  let l' := snd (AccessLogger._save_offline_log m ev l) in
  AccessLogger.offline_logs_file l'
  = if AccessLogger.write_fails (AccessLogger.offline_logs_file l)
    then AccessLogger.offline_logs_file l
    else AccessLogger.mk_storage
           (Some (Json.dumps (saved_cache m ev (AccessLogger._offline_logs_cache l))))
           (AccessLogger.read_fails (AccessLogger.offline_logs_file l)) false.
Proof.
  destruct l as [c ld [co rf wf] recs].
  unfold AccessLogger._save_offline_log, saved_cache, Py.try_except, Py.bind, Py.get,
    AccessLogger.set_cache, AccessLogger.emit, Py.modify, Py.ret; simpl.
  rewrite length_app; simpl.
  destruct (Z.of_nat (length c + 1) >? m) eqn:E; simpl;
    rewrite persist_offline_logs_eq; simpl; destruct wf; reflexivity.
Qed.

(** X1.  For a bound of one or more, an append to the offline queue leaves
    exactly the most recent events, as many as the bound allows, in their
    order; the eviction warning is logged by the append exactly when it
    dropped an event; and after any run of appends the queue is the tail
    of all the events it was given. *)
Theorem offline_queue_keeps_most_recent (m : Z) (l : AccessLogger.t) :
  1 <= m ->
  (forall ev,
     let l' := snd (AccessLogger._save_offline_log m ev l) in
     fst (AccessLogger._save_offline_log m ev l) = Ok tt
     /\ AccessLogger._offline_logs_cache l'
        = last_n (Z.to_nat m) (AccessLogger._offline_logs_cache l ++ [ev])
     /\ Z.of_nat (length (AccessLogger._offline_logs_cache l')) <= m
     /\ exists extra,
          AccessLogger.records l' = AccessLogger.records l ++ extra
          /\ (In (AccessLogger.WARNING, AccessLogger.MsgEvicted m) extra
              <-> m < Z.of_nat (length (AccessLogger._offline_logs_cache l)) + 1))
  /\ (forall evs, evs <> [] ->
        AccessLogger._offline_logs_cache (save_all m evs l)
        = last_n (Z.to_nat m) (AccessLogger._offline_logs_cache l ++ evs)).
Proof.
  intros Hm. split.
  - intros ev l'. subst l'.
    destruct (save_offline_log_eq m ev l) as (l' & Heq & Hcache & _ & extra & Hrec & Hwarn & _).
    rewrite Heq. cbn [fst snd]. split; [reflexivity |].
    rewrite Hcache, saved_cache_last_n by exact Hm.
    split; [reflexivity |]. split.
    + rewrite length_last_n. lia.
    + exists extra. split; [exact Hrec |]. rewrite Hwarn. unfold evicts.
      rewrite Z.gtb_ltb, Z.ltb_lt. lia.
  - intros evs Hne. now apply save_all_positive_bound.
Qed.

Lemma offline_queue_keeps_most_recent_witness :
  let ev n := [("card_id", Json.Str n)] in
  let l := AccessLogger.init (AccessLogger.mk_storage None false false) in
  AccessLogger._offline_logs_cache (save_all 2 [ev "1"; ev "2"; ev "3"] l)
  = [ev "2"; ev "3"].
Proof.
  intros ev l.
  destruct (offline_queue_keeps_most_recent 2 l ltac:(lia)) as [_ H].
  rewrite (H [ev "1"; ev "2"; ev "3"]) by discriminate. reflexivity.
Defined.

(** X2.  [clear_offline_logs] returns and leaves the queue empty in memory
    on every path.  When the file can be written it holds the empty
    document, and a logger started on it finds the queue empty.  When the
    write fails the failure is logged as an error, and the line that says
    the log was cleared is written all the same. *)
Theorem clear_offline_logs_outcome (l : AccessLogger.t) :
  let l' := snd (AccessLogger.clear_offline_logs l) in
  let f := AccessLogger.offline_logs_file l in
  fst (AccessLogger.clear_offline_logs l) = Ok tt
  /\ AccessLogger._offline_logs_cache l' = []
  /\ (AccessLogger.write_fails f = false ->
      AccessLogger.content (AccessLogger.offline_logs_file l') = Some "[]"
      /\ AccessLogger.records l'
         = AccessLogger.records l ++ [(AccessLogger.INFO, AccessLogger.MsgCleared)]
      /\ forall l0,
           AccessLogger.offline_logs_file l0 = AccessLogger.offline_logs_file l' ->
           AccessLogger._offline_logs_cache (snd (AccessLogger._load_offline_logs l0))
           = [])
  /\ (AccessLogger.write_fails f = true ->
      AccessLogger.records l'
      = AccessLogger.records l
        ++ [ (AccessLogger.ERROR, AccessLogger.MsgPersistError OSError);
             (AccessLogger.INFO, AccessLogger.MsgCleared) ]).
Proof.
  intros l' f. subst l' f.
  destruct l as [c ld [co rf wf] recs].
  unfold AccessLogger.clear_offline_logs, Py.try_except, Py.bind, AccessLogger.set_cache,
    AccessLogger.emit, Py.modify. cbn [fst snd].
  rewrite persist_offline_logs_eq. cbn.
  destruct wf; cbn.
  - split; [reflexivity |]. split; [reflexivity |]. split; [discriminate |].
    intros _. now rewrite <- app_assoc.
  - split; [reflexivity |]. split; [reflexivity |]. split; [| discriminate].
    intros _. split; [reflexivity |]. split; [reflexivity |].
    intros l0 Hfile.
    destruct (load_offline_logs_eq l0) as (l1 & E1 & _ & _ & C1).
    rewrite E1. cbn [snd]. rewrite C1, Hfile.
    unfold loaded_cache. cbn. now destruct rf.
Qed.

Lemma save_all_file (m : Z) (evs : list Json.dict) :
  forall l : AccessLogger.t,
    evs <> [] ->
    AccessLogger.write_fails (AccessLogger.offline_logs_file l) = false ->
    AccessLogger.offline_logs_file (save_all m evs l)
    = AccessLogger.mk_storage
        (Some (Json.dumps (AccessLogger._offline_logs_cache (save_all m evs l))))
        (AccessLogger.read_fails (AccessLogger.offline_logs_file l)) false.
Proof.
  induction evs as [| ev evs IH]; intros l Hne Hw; [congruence |].
  unfold save_all. simpl. fold (save_all m evs (snd (AccessLogger._save_offline_log m ev l))).
  pose proof (save_offline_log_file m ev l) as Hf. cbv zeta in Hf. rewrite Hw in Hf.
  destruct evs as [| ev' evs].
  - simpl. rewrite Hf, save_offline_log_cache. reflexivity.
  - rewrite IH; [| discriminate | now rewrite Hf]. now rewrite Hf.
Qed.

Lemma get_offline_logs_loaded (l : AccessLogger.t) :
  AccessLogger._cache_loaded l = true ->
  AccessLogger.get_offline_logs l = (Ok (AccessLogger._offline_logs_cache l), l).
Proof.
  intros H. unfold AccessLogger.get_offline_logs, Py.bind, Py.get, Py.ret.
  now rewrite H.
Qed.

(** X3.  Events queued offline survive a restart.  With a bound of one or
    more and a file that can be written and read, after a run of appends
    (events with no repeated key) a logger started afresh on the same file
    initializes without error and [get_offline_logs] returns the most
    recent events, as many as the bound allows, in the order they were
    appended. *)
Theorem offline_events_survive_restart (m : Z) (evs : list Json.dict)
    (l : AccessLogger.t) :
  1 <= m -> evs <> [] ->
  Forall wf_dict (AccessLogger._offline_logs_cache l ++ evs) ->
  AccessLogger.write_fails (AccessLogger.offline_logs_file l) = false ->
  AccessLogger.read_fails (AccessLogger.offline_logs_file l) = false ->
  let stopped := save_all m evs l in
  let restarted :=
    snd (AccessLogger.initialize
           (AccessLogger.init (AccessLogger.offline_logs_file stopped))) in
  fst (AccessLogger.initialize
         (AccessLogger.init (AccessLogger.offline_logs_file stopped))) = Ok tt
  /\ AccessLogger.get_offline_logs restarted
     = (Ok (last_n (Z.to_nat m) (AccessLogger._offline_logs_cache l ++ evs)), restarted).
Proof.
  intros Hm Hne Hwf Hw Hr stopped restarted. subst restarted.
  destruct (save_all_positive_bound m evs l Hm Hne) as [Hcache _].
  fold stopped in Hcache.
  pose proof (save_all_file m evs l Hne Hw) as Hfile. fold stopped in Hfile.
  rewrite Hcache, Hr in Hfile.
  set (q := last_n (Z.to_nat m) (AccessLogger._offline_logs_cache l ++ evs)) in *.
  assert (Hq : Forall wf_dict q) by (unfold q, last_n; now apply Forall_drop).
  unfold AccessLogger.initialize, Py.try_except.
  destruct (load_offline_logs_eq
              (AccessLogger.init (AccessLogger.offline_logs_file stopped)))
    as (l1 & Heq & Hloaded & _ & Hc).
  rewrite Heq. cbn [fst snd]. split; [reflexivity |].
  rewrite get_offline_logs_loaded by exact Hloaded.
  rewrite Hc. cbn [AccessLogger.offline_logs_file AccessLogger.init].
  rewrite Hfile. unfold loaded_cache. cbn.
  now rewrite dumps_not_blank, loads_dumps.
Qed.

Lemma offline_events_survive_restart_witness :
  let ev n := [("card_id", Json.Str n); ("offline_mode", Json.Bool true)] in
  let l := AccessLogger.init (AccessLogger.mk_storage None false false) in
  fst (AccessLogger.get_offline_logs
         (snd (AccessLogger.initialize
                 (AccessLogger.init
                    (AccessLogger.offline_logs_file (save_all 2 [ev "1"; ev "2"; ev "3"] l))))))
  = Ok [ev "2"; ev "3"].
Proof.
  intros ev l.
  assert (Hwf : Forall wf_dict (AccessLogger._offline_logs_cache l
                                ++ [ev "1"; ev "2"; ev "3"])).
  { repeat constructor; apply (bool_decide_unpack _); vm_compute; exact I. }
  destruct (offline_events_survive_restart 2 [ev "1"; ev "2"; ev "3"] l
              ltac:(lia) ltac:(discriminate) Hwf eq_refl eq_refl) as [_ H].
  cbv zeta in H. rewrite H. reflexivity.
Defined.

(** X4.  What [log_access] puts in the offline queue, for any event.  A
    missing timestamp is filled in first and an existing one kept.  The
    event is then queued, once, when it is marked offline, and also when
    its log line cannot be formed because [card_id] is missing or not a
    string or because [direction] or [authorized] is missing; an event
    with these fields that is not marked offline leaves the queue as it
    was. *)
Theorem log_access_queues_once (m : Z) (now : string) (ev : Json.dict)
    (l : AccessLogger.t) :
  let ev' := AccessLogger.with_timestamp now ev in
  let l' := snd (AccessLogger.log_access m now ev l) in
  let complete :=
    exists card dir auth,
      Builtins.dict_get "card_id" ev' = Some (Json.Str card)
      /\ Builtins.dict_get "direction" ev' = Some dir
      /\ Builtins.dict_get "authorized" ev' = Some auth in
  (Builtins.dict_get "timestamp" ev = None ->
   ev' = ev ++ [("timestamp", Json.Str now)])
  /\ (forall t, Builtins.dict_get "timestamp" ev = Some t -> ev' = ev)
  /\ (complete ->
      Builtins.truthy (AccessLogger.offline_flag ev') = true ->
      AccessLogger._offline_logs_cache l'
      = saved_cache m ev' (AccessLogger._offline_logs_cache l))
  /\ (complete ->
      Builtins.truthy (AccessLogger.offline_flag ev') = false ->
      AccessLogger._offline_logs_cache l' = AccessLogger._offline_logs_cache l)
  /\ (~ complete ->
      AccessLogger._offline_logs_cache l'
      = saved_cache m ev' (AccessLogger._offline_logs_cache l)).
Proof.
  intros ev' l' complete. subst l'.
  destruct (log_access_eq m now ev l) as (l1 & extra & Heq & _ & _ & Hcase).
  cbv zeta in Hcase. fold ev' in Hcase. rewrite Heq. cbn [snd].
  assert (Hfields : complete <-> log_line_fields ev' <> None).
  { unfold complete, log_line_fields. split.
    - intros (card & dir & auth & -> & -> & ->). discriminate.
    - destruct (Builtins.dict_get "card_id" ev') as [[| b | card] |]; try congruence.
      destruct (Builtins.dict_get "direction" ev') as [dir |]; [| congruence].
      destruct (Builtins.dict_get "authorized" ev') as [auth |]; [| congruence].
      intros _. now exists card, dir, auth. }
  split; [| split; [| split; [| split]]].
  - intros H. unfold ev', AccessLogger.with_timestamp. now rewrite H.
  - intros t H. unfold ev', AccessLogger.with_timestamp. now rewrite H.
  - intros Hc Hoff. apply Hfields in Hc.
    destruct (log_line_fields ev') as [[[card8 dir] auth] |]; [| congruence].
    destruct Hcase as [_ ->]. now rewrite Hoff.
  - intros Hc Hoff. apply Hfields in Hc.
    destruct (log_line_fields ev') as [[[card8 dir] auth] |]; [| congruence].
    destruct Hcase as [_ ->]. now rewrite Hoff.
  - intros Hc.
    destruct (log_line_fields ev') as [[[card8 dir] auth] |] eqn:E.
    + exfalso. apply Hc, Hfields. discriminate.
    + now destruct Hcase as [_ ->].
Qed.

(** ** Reports (src/access_logger.py) *)

Lemma get_offline_logs_eq (l : AccessLogger.t) :
  exists l',
    AccessLogger.get_offline_logs l = (Ok (AccessLogger._offline_logs_cache l'), l')
    /\ AccessLogger._cache_loaded l' = true.
Proof.
  unfold AccessLogger.get_offline_logs, Py.bind, Py.get, Py.ret.
  destruct (AccessLogger._cache_loaded l) eqn:E; simpl.
  - now exists l.
  - destruct (load_offline_logs_eq l) as (l' & -> & Hl & _). now exists l'.
Qed.

(** Whether an event with timestamp [ts] falls between the two dates. *)
Definition in_range (start_date end_date : option string) (log : Json.dict) : bool :=
  match AccessLogger.timestamp_or_empty log with
  | Json.Str ts =>
      negb (Builtins.opt_truthy start_date
            && Builtins.str_ltb ts (default "" start_date))
      && negb (Builtins.opt_truthy end_date
               && Builtins.str_ltb (default "" end_date) ts)
  | _ => false
  end.

Definition dated (log : Json.dict) : Prop :=
  exists ts, AccessLogger.timestamp_or_empty log = Json.Str ts.

Lemma export_loop_dated (start_date end_date : option string) (logs : list Json.dict) :
  forall acc,
    Forall dated logs ->
    AccessLogger.export_loop start_date end_date logs acc
    = Ok (acc ++ List.filter (in_range start_date end_date) logs).
Proof.
  induction logs as [| log logs IH]; intros acc Hd.
  - simpl. now rewrite app_nil_r.
  - apply Forall_cons in Hd as [[ts Hts] Hd].
    cbn [AccessLogger.export_loop List.filter].
    unfold in_range at 1. rewrite Hts.
    unfold AccessLogger.lt_str, AccessLogger.gt_str.
    destruct (Builtins.opt_truthy start_date); cbn [andb negb orb].
    + destruct (Builtins.str_ltb ts (default "" start_date)); cbn [andb negb orb];
        [now apply IH |].
      destruct (Builtins.opt_truthy end_date); cbn [andb negb orb].
      * destruct (Builtins.str_ltb (default "" end_date) ts); cbn [andb negb orb];
          [now apply IH |].
        rewrite IH by exact Hd. now rewrite <- app_assoc.
      * rewrite IH by exact Hd. now rewrite <- app_assoc.
    + destruct (Builtins.opt_truthy end_date); cbn [andb negb orb].
      * destruct (Builtins.str_ltb (default "" end_date) ts); cbn [andb negb orb];
          [now apply IH |].
        rewrite IH by exact Hd. now rewrite <- app_assoc.
      * rewrite IH by exact Hd. now rewrite <- app_assoc.
Qed.

Lemma export_loop_raises (start_date end_date : option string) (logs : list Json.dict) :
  forall acc ex,
    AccessLogger.export_loop start_date end_date logs acc = Raise ex ->
    ex = Exception "TypeError".
Proof.
  induction logs as [| log logs IH]; intros acc ex; simpl; [discriminate |].
  unfold AccessLogger.lt_str, AccessLogger.gt_str.
  destruct (AccessLogger.timestamp_or_empty log) as [| b | ts];
    destruct (Builtins.opt_truthy start_date); simpl;
    try (intros [= <-]; reflexivity);
    destruct (Builtins.opt_truthy end_date); simpl;
    try (intros [= <-]; reflexivity);
    repeat match goal with
    | |- context [if ?b then _ else _] => destruct b; simpl
    end;
    try (intros [= <-]; reflexivity); apply IH.
Qed.

Lemma export_loop_undated (start_date end_date : option string) (logs : list Json.dict) :
  forall acc,
    Builtins.opt_truthy start_date || Builtins.opt_truthy end_date = true ->
    Exists (fun log => ~ dated log) logs ->
    AccessLogger.export_loop start_date end_date logs acc = Raise (Exception "TypeError").
Proof.
  induction logs as [| log logs IH]; intros acc Hgiven Hex; [now apply Exists_nil in Hex |].
  destruct (AccessLogger.export_loop start_date end_date (log :: logs) acc) as [r | ex] eqn:E.
  2: { apply export_loop_raises in E. now subst ex. }
  exfalso. simpl in E. unfold AccessLogger.lt_str, AccessLogger.gt_str in E.
  apply Exists_cons in Hex as [Hlog | Hrest].
  - destruct (AccessLogger.timestamp_or_empty log) as [| b | ts] eqn:Hts.
    + destruct (Builtins.opt_truthy start_date); [discriminate |].
      destruct (Builtins.opt_truthy end_date); [discriminate | discriminate].
    + destruct (Builtins.opt_truthy start_date); [discriminate |].
      destruct (Builtins.opt_truthy end_date); [discriminate | discriminate].
    + apply Hlog. now exists ts.
  - assert (Hr : forall acc', AccessLogger.export_loop start_date end_date logs acc'
                              = Raise (Exception "TypeError")) by (intros; now apply IH).
    destruct (AccessLogger.timestamp_or_empty log) as [| b | ts];
      destruct (Builtins.opt_truthy start_date); simpl in E; try discriminate;
      destruct (Builtins.opt_truthy end_date); simpl in E; try discriminate;
      repeat match type of E with
      | context [if ?b then _ else _] => destruct b; simpl in E
      end;
      rewrite Hr in E; discriminate.
Qed.

(** X5.  [export_logs] never raises.  Without dates it returns the whole
    queue.  When every event of the queue has a string for a timestamp, or
    none (which counts as the empty string), it returns the events whose
    timestamp is neither before the start date nor after the end date, in
    their order; an absent or empty date bounds nothing.  When a date is
    given and some event has a timestamp that is not a string, the
    comparison raises and the export is empty, with the error logged. *)
Theorem export_logs_selects_range (start_date end_date : option string)
    (r : AccessLogger.reporter) :
  let logs :=
    AccessLogger._offline_logs_cache
      (snd (AccessLogger.get_offline_logs (AccessLogger.logger r))) in
  let out := AccessLogger.export_logs start_date end_date r in
  (exists l, fst out = Ok l)
  /\ (Builtins.opt_truthy start_date = false -> Builtins.opt_truthy end_date = false ->
      fst out = Ok logs)
  /\ (Forall dated logs ->
      fst out = Ok (List.filter (in_range start_date end_date) logs)
      /\ AccessLogger.report_records (snd out) = AccessLogger.report_records r)
  /\ (Builtins.opt_truthy start_date || Builtins.opt_truthy end_date = true ->
      Exists (fun log => ~ dated log) logs ->
      fst out = Ok []
      /\ AccessLogger.report_records (snd out)
         = AccessLogger.report_records r
           ++ [(AccessLogger.ERROR, AccessLogger.MsgExportError (Exception "TypeError"))]).
Proof.
  intros logs out. subst logs out.
  unfold AccessLogger.export_logs, Py.try_except, Py.bind, AccessLogger.on_logger.
  destruct (get_offline_logs_eq (AccessLogger.logger r)) as (l' & -> & _). cbn [snd].
  set (logs := AccessLogger._offline_logs_cache l').
  unfold Py.lift, Py.ret.
  destruct (Builtins.opt_truthy start_date || Builtins.opt_truthy end_date) eqn:Hgiven.
  - destruct (AccessLogger.export_loop start_date end_date logs []) as [out | ex] eqn:E.
    + cbn. split; [now exists out |]. split.
      { intros Hs He. rewrite Hs, He in Hgiven. discriminate. }
      split.
      { intros Hd. rewrite export_loop_dated in E by exact Hd. simpl in E.
        injection E as <-. now split. }
      intros _ Hex. rewrite export_loop_undated in E by assumption. discriminate.
    + pose proof (export_loop_raises _ _ _ _ _ E) as ->. cbn.
      split; [now exists [] |]. split.
      { intros Hs He. rewrite Hs, He in Hgiven. discriminate. }
      split.
      { intros Hd. rewrite export_loop_dated in E by exact Hd. discriminate. }
      intros _ _. now split.
  - apply orb_false_iff in Hgiven as [Hs He]. cbn.
    split; [now exists logs |]. split; [reflexivity |]. split.
    + intros Hd. split; [| reflexivity]. f_equal. symmetry. apply forallb_filter_id, forallb_forall.
      intros log Hlog. rewrite Forall_forall in Hd. apply list_elem_of_In in Hlog.
      destruct (Hd log Hlog) as [ts Hts].
      unfold in_range. now rewrite Hts, Hs, He.
    + discriminate.
Qed.


(** *** The order of strings *)

Lemma str_ltb_lt (a b : string) :
  Builtins.str_ltb a b = true <-> OrderedTypeEx.String_as_OT.lt a b.
Proof.
  unfold Builtins.str_ltb. rewrite <- OrderedTypeEx.String_as_OT.cmp_lt.
  unfold OrderedTypeEx.String_as_OT.cmp. destruct (String.compare a b); split; congruence.
Qed.

Lemma str_ltb_trans (a b c : string) :
  Builtins.str_ltb a b = true -> Builtins.str_ltb b c = true -> Builtins.str_ltb a c = true.
Proof.
  rewrite !str_ltb_lt. apply OrderedTypeEx.String_as_OT.lt_trans.
Qed.

Lemma str_ltb_irrefl (a : string) : Builtins.str_ltb a a = false.
Proof.
  unfold Builtins.str_ltb.
  destruct (String.compare a a) eqn:E; try reflexivity.
  pose proof (String.compare_antisym a a) as H. rewrite E in H. discriminate.
Qed.

Lemma str_ltb_asym (a b : string) :
  Builtins.str_ltb a b = true -> Builtins.str_ltb b a = false.
Proof.
  unfold Builtins.str_ltb. rewrite (String.compare_antisym a b).
  destruct (String.compare b a); simpl; congruence.
Qed.

Lemma str_ltb_total (a b : string) :
  Builtins.str_ltb a b = false -> Builtins.str_ltb b a = false -> a = b.
Proof.
  unfold Builtins.str_ltb. rewrite (String.compare_antisym a b).
  destruct (String.compare b a) eqn:E; simpl; try congruence.
  intros _ _. symmetry. now apply String.compare_eq_iff.
Qed.

(** [a <= b] on strings. *)
Definition str_le (a b : string) : Prop := Builtins.str_ltb b a = false.

Lemma str_le_trans (a b c : string) : str_le a b -> str_le b c -> str_le a c.
Proof.
  unfold str_le. intros Hab Hbc.
  destruct (Builtins.str_ltb c a) eqn:Hca; [| reflexivity].
  destruct (Builtins.str_ltb a b) eqn:Hab'.
  - rewrite (str_ltb_trans c a b Hca Hab') in Hbc. discriminate.
  - assert (a = b) by now apply str_ltb_total. subst b. congruence.
Qed.

(** *** Sorting by timestamp *)

Definition is_str (v : Json.value) : bool :=
  match v with Json.Str _ => true | _ => false end.

Definition is_bool (v : Json.value) : bool :=
  match v with Json.Bool _ => true | _ => false end.

(** The sort keys of [logs] are all strings, or all booleans. *)
Definition one_kind (logs : list Json.dict) : Prop :=
  Forall (fun log => is_str (AccessLogger.timestamp_or_empty log) = true) logs
  \/ Forall (fun log => is_bool (AccessLogger.timestamp_or_empty log) = true) logs.

Definition comparable (a b : Json.value) : bool :=
  (is_str a && is_str b) || (is_bool a && is_bool b).

Lemma key_lt_comparable (a b : Json.value) :
  comparable a b = true -> exists r, AccessLogger.key_lt a b = Ok r.
Proof. destruct a, b; simpl; try discriminate; eauto. Qed.

Lemma key_lt_incomparable (a b : Json.value) :
  comparable a b = false -> AccessLogger.key_lt a b = Raise (Exception "TypeError").
Proof. destruct a, b; simpl; try discriminate; eauto. Qed.

Lemma insert_by_timestamp_ok (x : Json.dict) (acc : list Json.dict) :
  Forall (fun y => comparable (AccessLogger.timestamp_or_empty x)
                              (AccessLogger.timestamp_or_empty y) = true) acc ->
  exists r, AccessLogger.insert_by_timestamp x acc = Ok r /\ r ≡ₚ x :: acc.
Proof.
  induction acc as [| y acc IH]; intros H; simpl.
  - now exists [x].
  - apply Forall_cons in H as [Hy H].
    destruct (key_lt_comparable _ _ Hy) as [[|] ->].
    + now exists (x :: y :: acc).
    + destruct (IH H) as (r & -> & Hr). exists (y :: r). split; [reflexivity |].
      rewrite Hr. apply Permutation_swap.
Qed.

Lemma insert_by_timestamp_raises (x : Json.dict) (acc : list Json.dict) (e : exn) :
  AccessLogger.insert_by_timestamp x acc = Raise e -> e = Exception "TypeError".
Proof.
  induction acc as [| y acc IH]; simpl; [discriminate |].
  destruct (comparable (AccessLogger.timestamp_or_empty x)
              (AccessLogger.timestamp_or_empty y)) eqn:Hc.
  - destruct (key_lt_comparable _ _ Hc) as [[|] ->]; [discriminate |].
    destruct (AccessLogger.insert_by_timestamp x acc); [discriminate |].
    intros [= <-]. now apply IH.
  - rewrite (key_lt_incomparable _ _ Hc). now intros [= <-].
Qed.

Definition sort_step (acc : res (list Json.dict)) (x : Json.dict)
    : res (list Json.dict) :=
  match acc with
  | Ok a => AccessLogger.insert_by_timestamp x a
  | Raise e => Raise e
  end.

Lemma sort_raise (logs : list Json.dict) (e : exn) :
  fold_left sort_step logs (Raise e) = Raise e.
Proof. induction logs; simpl; auto. Qed.

Lemma one_kind_perm (l l' : list Json.dict) : l ≡ₚ l' -> one_kind l -> one_kind l'.
Proof. intros Hp [H | H]; [left | right]; now rewrite <- Hp. Qed.

Lemma one_kind_app_l (l l' : list Json.dict) : one_kind (l ++ l') -> one_kind l.
Proof. intros [H | H]; [left | right]; now apply Forall_app in H as [H _]. Qed.

Lemma one_kind_comparable (x : Json.dict) (acc : list Json.dict) :
  one_kind (x :: acc) ->
  Forall (fun y => comparable (AccessLogger.timestamp_or_empty x)
                              (AccessLogger.timestamp_or_empty y) = true) acc.
Proof.
  unfold comparable.
  intros [H | H]; apply Forall_cons in H as [Hx H];
    eapply Forall_impl; try exact H; simpl; intros y Hy; rewrite Hx, Hy;
    [reflexivity | apply orb_true_r].
Qed.

Lemma sort_one_kind (logs : list Json.dict) :
  forall acc,
    one_kind (acc ++ logs) ->
    exists r, fold_left sort_step logs (Ok acc) = Ok r /\ r ≡ₚ acc ++ logs.
Proof.
  induction logs as [| x logs IH]; intros acc H; simpl.
  - exists acc. now rewrite app_nil_r.
  - destruct (insert_by_timestamp_ok x acc) as (r & -> & Hr).
    { apply one_kind_comparable. apply (one_kind_app_l (x :: acc) logs).
      eapply one_kind_perm; [| exact H]. now rewrite <- Permutation_middle. }
    destruct (IH r) as (r' & -> & Hr').
    { eapply one_kind_perm; [| exact H]. rewrite Hr. now rewrite <- Permutation_middle. }
    exists r'. split; [reflexivity |]. rewrite Hr', Hr. now rewrite <- Permutation_middle.
Qed.

Lemma sort_mixed (logs : list Json.dict) :
  forall acc,
    acc <> [] -> one_kind acc -> ~ one_kind (acc ++ logs) ->
    fold_left sort_step logs (Ok acc) = Raise (Exception "TypeError").
Proof.
  induction logs as [| x logs IH]; intros acc Hne Hacc Hmix; simpl.
  - rewrite app_nil_r in Hmix. contradiction.
  - destruct (AccessLogger.insert_by_timestamp x acc) as [r | e] eqn:E.
    + destruct acc as [| y acc]; [contradiction |].
      assert (Hxy : comparable (AccessLogger.timestamp_or_empty x)
                      (AccessLogger.timestamp_or_empty y) = true).
      { simpl in E.
        destruct (comparable (AccessLogger.timestamp_or_empty x)
                    (AccessLogger.timestamp_or_empty y)) eqn:Hc; [reflexivity |].
        rewrite (key_lt_incomparable _ _ Hc) in E. discriminate. }
      assert (Hone : one_kind (x :: y :: acc)).
      { unfold comparable in Hxy.
        destruct Hacc as [H | H]; pose proof H as H'; apply Forall_cons in H' as [Hy _];
          rewrite Hy in Hxy.
        - left. constructor; [| exact H].
          destruct (is_str (AccessLogger.timestamp_or_empty x)); [reflexivity |].
          simpl in Hxy. destruct (AccessLogger.timestamp_or_empty y); simpl in *;
            try discriminate. now rewrite andb_false_r in Hxy.
        - right. constructor; [| exact H].
          destruct (is_bool (AccessLogger.timestamp_or_empty x)); [reflexivity |].
          simpl in Hxy. destruct (AccessLogger.timestamp_or_empty y); simpl in *;
            try discriminate. now rewrite andb_false_r in Hxy. }
      destruct (insert_by_timestamp_ok x (y :: acc) (one_kind_comparable _ _ Hone))
        as (r' & E' & Hr).
      rewrite E in E'. injection E' as <-.
      apply IH.
      * intros ->. apply Permutation_nil_l in Hr. discriminate.
      * eapply one_kind_perm; [symmetry; exact Hr | exact Hone].
      * intros H. apply Hmix. eapply one_kind_perm; [| exact H].
        rewrite Hr. simpl. change (x :: y :: acc ++ logs) with (x :: (y :: acc) ++ logs). apply Permutation_middle.
    + rewrite (insert_by_timestamp_raises _ _ _ E). apply sort_raise.
Qed.

Lemma sorted_by_timestamp_ok (logs : list Json.dict) :
  (length logs <= 1)%nat \/ one_kind logs ->
  exists r, AccessLogger.sorted_by_timestamp logs = Ok r /\ r ≡ₚ logs.
Proof.
  intros [Hlen | Hone].
  - destruct logs as [| x [| y logs]]; simpl in Hlen; try lia.
    + now exists [].
    + now exists [x].
  - apply (sort_one_kind logs []). exact Hone.
Qed.

Lemma sorted_by_timestamp_mixed (logs : list Json.dict) :
  (2 <= length logs)%nat -> ~ one_kind logs ->
  AccessLogger.sorted_by_timestamp logs = Raise (Exception "TypeError").
Proof.
  intros Hlen Hmix. destruct logs as [| x [| y logs]]; simpl in Hlen; try lia.
  change (fold_left sort_step (y :: logs) (Ok [x]) = Raise (Exception "TypeError")).
  destruct (AccessLogger.timestamp_or_empty x) as [| b | s] eqn:Hx.
  - simpl. rewrite Hx.
    rewrite key_lt_incomparable
      by (unfold comparable; simpl; now rewrite !andb_false_r).
    apply sort_raise.
  - apply sort_mixed; [discriminate | | exact Hmix].
    right. constructor; [now rewrite Hx | constructor].
  - apply sort_mixed; [discriminate | | exact Hmix].
    left. constructor; [now rewrite Hx | constructor].
Qed.

(** The timestamp an event is sorted by, when it is a string. *)
Definition ts (log : Json.dict) : string :=
  match AccessLogger.timestamp_or_empty log with
  | Json.Str s => s
  | _ => ""
  end.

Definition not_after (a b : Json.dict) : Prop := str_le (ts a) (ts b).

Definition str_keys (logs : list Json.dict) : Prop :=
  Forall (fun log => is_str (AccessLogger.timestamp_or_empty log) = true) logs.

Lemma key_lt_str (x y : Json.dict) :
  is_str (AccessLogger.timestamp_or_empty x) = true ->
  is_str (AccessLogger.timestamp_or_empty y) = true ->
  AccessLogger.key_lt (AccessLogger.timestamp_or_empty x) (AccessLogger.timestamp_or_empty y)
  = Ok (Builtins.str_ltb (ts x) (ts y)).
Proof.
  unfold ts.
  destruct (AccessLogger.timestamp_or_empty x), (AccessLogger.timestamp_or_empty y);
    simpl; try discriminate; reflexivity.
Qed.

Lemma insert_by_timestamp_sorted (x : Json.dict) (acc : list Json.dict) :
  is_str (AccessLogger.timestamp_or_empty x) = true ->
  str_keys acc -> StronglySorted not_after acc ->
  exists r, AccessLogger.insert_by_timestamp x acc = Ok r
            /\ r ≡ₚ x :: acc /\ StronglySorted not_after r.
Proof.
  intros Hx. induction acc as [| y acc IH]; intros Hk Hs; simpl.
  - exists [x]. repeat split; [reflexivity |]. constructor; constructor.
  - apply Forall_cons in Hk as [Hy Hk]. apply StronglySorted_inv in Hs as [Hs Hall].
    rewrite (key_lt_str x y Hx Hy).
    destruct (Builtins.str_ltb (ts x) (ts y)) eqn:Hlt.
    + exists (x :: y :: acc). repeat split; [reflexivity |].
      assert (Hxy : not_after x y) by (apply str_ltb_asym; exact Hlt).
      constructor; [constructor; assumption |].
      constructor; [exact Hxy |].
      eapply Forall_impl; [exact Hall |]. intros z Hz. simpl in Hz.
      eapply str_le_trans; [exact Hxy | exact Hz].
    + destruct (IH Hk Hs) as (r & -> & Hr & Hsr).
      exists (y :: r). repeat split.
      * rewrite Hr. apply Permutation_swap.
      * constructor; [exact Hsr |]. rewrite Hr. constructor; [exact Hlt | exact Hall].
Qed.

Lemma sort_sorted (logs : list Json.dict) :
  forall acc,
    str_keys acc -> str_keys logs -> StronglySorted not_after acc ->
    exists r, fold_left sort_step logs (Ok acc) = Ok r
              /\ r ≡ₚ acc ++ logs /\ StronglySorted not_after r.
Proof.
  induction logs as [| x logs IH]; intros acc Ha Hl Hs; simpl.
  - exists acc. now rewrite app_nil_r.
  - apply Forall_cons in Hl as [Hx Hl].
    destruct (insert_by_timestamp_sorted x acc Hx Ha Hs) as (r & -> & Hr & Hsr).
    destruct (IH r) as (r' & -> & Hr' & Hsr'); try assumption.
    { unfold str_keys. rewrite Hr. now constructor. }
    exists r'. repeat split; [| exact Hsr'].
    rewrite Hr', Hr. now rewrite <- Permutation_middle.
Qed.

Lemma sorted_last (l : list Json.dict) (z : Json.dict) :
  StronglySorted not_after l -> last l = Some z -> Forall (fun y => not_after y z) l.
Proof.
  induction 1 as [| a l Hs IH Hall]; intros Hlast; [constructor |].
  destruct l as [| b l].
  - injection Hlast as <-. constructor; [| constructor].
    apply str_ltb_irrefl.
  - rewrite last_cons_cons in Hlast. constructor; [| now apply IH].
    apply last_Some_elem_of in Hlast. rewrite Forall_forall in Hall. now apply Hall.
Qed.

(** *** Counting *)

Definition is_authorized (log : Json.dict) : bool :=
  Builtins.truthy (default Json.Null (Builtins.dict_get "authorized" log)).

Definition direction_is (d : string) (log : Json.dict) : bool :=
  AccessLogger.value_eqb (default (Json.Str "in") (Builtins.dict_get "direction" log))
    (Json.Str d).

Definition card_of (log : Json.dict) : Json.value :=
  default Json.Null (Builtins.dict_get "card_id" log).

(** A card that counts: not empty, and not the marker of a manual opening. *)
Definition counts_as_card (c : Json.value) : bool :=
  Builtins.truthy c && negb (AccessLogger.value_eqb c (Json.Str "MANUAL_OPEN")).

Lemma value_eqb_eq (a b : Json.value) : AccessLogger.value_eqb a b = true <-> a = b.
Proof.
  destruct a as [| x | x], b as [| y | y]; simpl; split; try congruence.
  - intros H. apply Bool.eqb_prop in H. now subst.
  - intros [= ->]. apply Bool.eqb_reflx.
  - intros H. apply String.eqb_eq in H. now subst.
  - intros [= ->]. apply String.eqb_refl.
Qed.

Lemma existsb_value_eqb (c : Json.value) (l : list Json.value) :
  existsb (AccessLogger.value_eqb c) l = true <-> c ∈ l.
Proof.
  rewrite existsb_exists. split.
  - intros (x & Hin & Heq). apply value_eqb_eq in Heq. subst x.
    now apply list_elem_of_In.
  - intros Hin. exists c. split; [now apply list_elem_of_In | now apply value_eqb_eq].
Qed.

Lemma count_logs (logs : list Json.dict) :
  forall st,
    let c := fold_left AccessLogger.count_log logs st in
    AccessLogger.total_logs c = AccessLogger.total_logs st
    /\ AccessLogger.authorized_count c
       = (AccessLogger.authorized_count st + length (List.filter is_authorized logs))%nat
    /\ AccessLogger.denied_count c
       = (AccessLogger.denied_count st
          + length (List.filter (fun log => negb (is_authorized log)) logs))%nat
    /\ AccessLogger.directions_in c
       = (AccessLogger.directions_in st + length (List.filter (direction_is "in") logs))%nat
    /\ AccessLogger.directions_out c
       = (AccessLogger.directions_out st
          + length (List.filter (direction_is "out") logs))%nat
    /\ AccessLogger.oldest_log c = AccessLogger.oldest_log st
    /\ AccessLogger.newest_log c = AccessLogger.newest_log st
    /\ (NoDup (AccessLogger.cards_unique st) -> NoDup (AccessLogger.cards_unique c))
    /\ (forall card, card ∈ AccessLogger.cards_unique c <->
          card ∈ AccessLogger.cards_unique st
          \/ (counts_as_card card = true /\ exists log, log ∈ logs /\ card_of log = card)).
Proof.
  induction logs as [| log logs IH]; intros st; cbn zeta.
  - simpl. repeat split; try lia; auto.
    intros [H | (_ & log & Hin & _)]; [exact H | now apply elem_of_nil in Hin].
  - cbn [fold_left List.filter].
    specialize (IH (AccessLogger.count_log st log)). cbn zeta in IH.
    destruct IH as (Ht & Ha & Hd & Hi & Ho & Hold & Hnew & Hnd & Hcards).
    set (c := fold_left AccessLogger.count_log logs (AccessLogger.count_log st log)) in *.
    unfold AccessLogger.count_log in Ht, Ha, Hd, Hi, Ho, Hold, Hnew, Hnd, Hcards;
      cbn [AccessLogger.total_logs AccessLogger.authorized_count AccessLogger.denied_count
           AccessLogger.directions_in AccessLogger.directions_out
           AccessLogger.oldest_log AccessLogger.newest_log AccessLogger.cards_unique]
        in Ht, Ha, Hd, Hi, Ho, Hold, Hnew, Hnd, Hcards.
    fold (is_authorized log) in Ha, Hd. fold (direction_is "in" log) in Hi.
    fold (direction_is "out" log) in Ho. fold (card_of log) in Hnd, Hcards.
    fold (counts_as_card (card_of log)) in Hnd, Hcards.
    split; [exact Ht |].
    split; [rewrite Ha; destruct (is_authorized log); simpl; lia |].
    split; [rewrite Hd; destruct (is_authorized log); simpl; lia |].
    split; [rewrite Hi; destruct (direction_is "in" log); simpl; lia |].
    split; [rewrite Ho; destruct (direction_is "out" log); simpl; lia |].
    split; [exact Hold |]. split; [exact Hnew |].
    destruct (existsb (AccessLogger.value_eqb (card_of log)) (AccessLogger.cards_unique st))
      eqn:Hseen.
    + rewrite andb_false_r in Hnd, Hcards. split; [exact Hnd |].
      intros card. rewrite Hcards. apply existsb_value_eqb in Hseen.
      split.
      * intros [H | (Hc & l' & Hin & Hl')]; [now left |].
        right. split; [exact Hc |]. exists l'. split; [now right | exact Hl'].
      * intros [H | (Hc & l' & Hin & Hl')]; [now left |].
        apply elem_of_cons in Hin as [-> | Hin].
        -- left. now rewrite <- Hl'.
        -- right. split; [exact Hc |]. now exists l'.
    + rewrite andb_true_r in Hnd, Hcards.
      assert (Hnew' : card_of log ∉ AccessLogger.cards_unique st).
      { intros H. apply existsb_value_eqb in H. congruence. }
      destruct (counts_as_card (card_of log)) eqn:Hcount.
      * split.
        { intros H. apply Hnd. apply NoDup_app. repeat split; [exact H | | apply NoDup_singleton].
          intros x Hx Hx'. apply list_elem_of_singleton in Hx'. now subst x. }
        intros card. rewrite Hcards, elem_of_app, list_elem_of_singleton. split.
        -- intros [[H | ->] | (Hc & l' & Hin & Hl')].
           ++ now left.
           ++ right. split; [exact Hcount |]. exists log. split; [now left | reflexivity].
           ++ right. split; [exact Hc |]. exists l'. split; [now right | exact Hl'].
        -- intros [H | (Hc & l' & Hin & Hl')]; [now left; left |].
           apply elem_of_cons in Hin as [-> | Hin].
           ++ left. right. now rewrite Hl'.
           ++ right. split; [exact Hc |]. now exists l'.
      * split; [exact Hnd |].
        intros card. rewrite Hcards. split.
        -- intros [H | (Hc & l' & Hin & Hl')]; [now left |].
           right. split; [exact Hc |]. exists l'. split; [now right | exact Hl'].
        -- intros [H | (Hc & l' & Hin & Hl')]; [now left |].
           apply elem_of_cons in Hin as [-> | Hin].
           ++ rewrite <- Hl' in Hc. congruence.
           ++ right. split; [exact Hc |]. now exists l'.
Qed.

Lemma filter_split_length {A} (f : A -> bool) (l : list A) :
  (length (List.filter f l) + length (List.filter (fun x => negb (f x)) l))%nat = length l.
Proof. induction l as [| x l IH]; simpl; [reflexivity |]. destruct (f x); simpl; lia. Qed.

Lemma filter_disjoint_length {A} (f g : A -> bool) (l : list A) :
  (forall x, f x = true -> g x = false) ->
  (length (List.filter f l) + length (List.filter g l) <= length l)%nat.
Proof.
  intros H. induction l as [| x l IH]; simpl; [lia |].
  destruct (f x) eqn:Hf; [rewrite (H x Hf) |]; [simpl; lia |].
  destruct (g x); simpl; lia.
Qed.

Lemma direction_in_not_out (log : Json.dict) :
  direction_is "in" log = true -> direction_is "out" log = false.
Proof.
  unfold direction_is. intros H. apply value_eqb_eq in H. now rewrite H.
Qed.

(** The statistics of a queue that could be sorted into [sorted_logs]. *)
Lemma get_stats_eq (r : AccessLogger.reporter) :
  let logs :=
    AccessLogger._offline_logs_cache
      (snd (AccessLogger.get_offline_logs (AccessLogger.logger r))) in
  let r' := AccessLogger.mk_reporter
              (snd (AccessLogger.get_offline_logs (AccessLogger.logger r)))
              (AccessLogger.report_records r) in
  (logs = [] ->
   AccessLogger.get_stats r
   = (Ok (Some (AccessLogger.mk_stats 0 0 0 0 0 [] None Json.Null Json.Null)), r'))
  /\ (logs <> [] ->
      AccessLogger.sorted_by_timestamp logs = Raise (Exception "TypeError") ->
      AccessLogger.get_stats r
      = (Ok None,
         AccessLogger.mk_reporter (AccessLogger.logger r')
           (AccessLogger.report_records r
            ++ [(AccessLogger.ERROR, AccessLogger.MsgStatsError (Exception "TypeError"))])))
  /\ (forall first rest final,
      logs <> [] -> AccessLogger.sorted_by_timestamp logs = Ok (first :: rest) ->
      last (first :: rest) = Some final ->
      let counted :=
        fold_left AccessLogger.count_log logs
          (AccessLogger.mk_stats (length logs) 0 0 0 0 [] None
             (default Json.Null (Builtins.dict_get "timestamp" first))
             (default Json.Null (Builtins.dict_get "timestamp" final))) in
      AccessLogger.get_stats r
      = (Ok (Some (AccessLogger.mk_stats
                     (AccessLogger.total_logs counted) (AccessLogger.authorized_count counted)
                     (AccessLogger.denied_count counted) (AccessLogger.directions_in counted)
                     (AccessLogger.directions_out counted) (AccessLogger.cards_unique counted)
                     (Some (length (AccessLogger.cards_unique counted)))
                     (AccessLogger.oldest_log counted) (AccessLogger.newest_log counted))),
         r')).
Proof.
  intros logs r'. subst logs r'.
  unfold AccessLogger.get_stats, Py.try_except, Py.bind, AccessLogger.on_logger.
  destruct (get_offline_logs_eq (AccessLogger.logger r)) as (l' & -> & _). cbn [snd fst].
  generalize (AccessLogger._offline_logs_cache l'). intros logs.
  split; [| split].
  - intros ->. reflexivity.
  - intros Hne Hs. destruct logs as [| x logs']; [contradiction |].
    unfold Py.lift. rewrite Hs. reflexivity.
  - intros first rest final Hne Hs Hlast. destruct logs as [| x logs']; [contradiction |].
    unfold Py.lift. rewrite Hs. cbn [fst snd]. rewrite Hlast. reflexivity.
Qed.

(** X6.  [get_stats] never raises.  It gives up, returning the empty
    dictionary and logging the error, exactly when the queue holds two or
    more events whose timestamps are neither all strings (a missing one
    counts as a string) nor all booleans, since sorting them fails.
    Otherwise the statistics count the queue: [total_logs] is its length;
    every event is either authorized or denied; an event counts for the
    direction 'in' when its direction is 'in' or missing and for 'out' when
    it is 'out', so that the two together never exceed the total;
    [cards_unique] lists without repetition exactly the card ids of the
    queue that are not empty and not 'MANUAL_OPEN'; and [unique_cards_count],
    their number, is present only when the queue is not empty. *)
Theorem get_stats_counts_queue (r : AccessLogger.reporter) :
  let logs :=
    AccessLogger._offline_logs_cache
      (snd (AccessLogger.get_offline_logs (AccessLogger.logger r))) in
  let out := AccessLogger.get_stats r in
  (exists o, fst out = Ok o)
  /\ (fst out = Ok None <-> (2 <= length logs)%nat /\ ~ one_kind logs)
  /\ (fst out = Ok None ->
      AccessLogger.report_records (snd out)
      = (AccessLogger.report_records r
         ++ [(AccessLogger.ERROR, AccessLogger.MsgStatsError (Exception "TypeError"))])%list)
  /\ (forall st, fst out = Ok (Some st) ->
      AccessLogger.report_records (snd out) = AccessLogger.report_records r
      /\ AccessLogger.total_logs st = length logs
      /\ AccessLogger.authorized_count st = length (List.filter is_authorized logs)
      /\ (AccessLogger.authorized_count st + AccessLogger.denied_count st)%nat = length logs
      /\ AccessLogger.directions_in st = length (List.filter (direction_is "in") logs)
      /\ AccessLogger.directions_out st = length (List.filter (direction_is "out") logs)
      /\ (AccessLogger.directions_in st + AccessLogger.directions_out st <= length logs)%nat
      /\ NoDup (AccessLogger.cards_unique st)
      /\ (forall card, card ∈ AccessLogger.cards_unique st <->
            counts_as_card card = true /\ exists log, log ∈ logs /\ card_of log = card)
      /\ AccessLogger.unique_cards_count st
         = match logs with
           | [] => None
           | _ :: _ => Some (length (AccessLogger.cards_unique st))
           end).
Proof.
  intros logs out.
  destruct (get_stats_eq r) as (Hempty & Hmixed & Hsorted).
  fold logs in Hempty, Hmixed, Hsorted. cbv zeta in Hempty, Hmixed, Hsorted.
  assert (Hcases : logs = []
                   \/ (logs <> [] /\ (2 <= length logs)%nat /\ ~ one_kind logs)
                   \/ (logs <> [] /\ ((length logs <= 1)%nat \/ one_kind logs))).
  { destruct logs as [| x [| y l]] eqn:El; [now left | right; right | right].
    - split; [discriminate |]. left. simpl. lia.
    - assert (Hdec : one_kind (x :: y :: l) \/ ~ one_kind (x :: y :: l)).
      { assert (Hd : Decision (one_kind (x :: y :: l))) by (unfold one_kind; apply _).
        destruct Hd; [now left | now right]. }
      destruct Hdec as [H | H].
      + right. split; [discriminate | now right].
      + left. split; [discriminate |]. split; [simpl; lia | exact H]. }
  destruct Hcases as [Hnil | [(Hne & Hlen & Hmix) | (Hne & Hok)]].
  - subst out. rewrite (Hempty Hnil). cbn [fst snd]. rewrite Hnil.
    split; [eauto |]. split; [split; [discriminate | simpl; lia] |].
    split; [discriminate |].
    intros st [= <-]. cbn.
    do 7 (split; [reflexivity || lia |]). split; [constructor |]. split; [| reflexivity].
    intros card. split.
    + intros Hin. now apply elem_of_nil in Hin.
    + intros (_ & log & Hin & _). now apply elem_of_nil in Hin.
  - subst out. rewrite (Hmixed Hne (sorted_by_timestamp_mixed logs Hlen Hmix)).
    cbn [fst snd AccessLogger.report_records].
    split; [eauto |]. split; [tauto |]. split; [reflexivity | discriminate].
  - destruct (sorted_by_timestamp_ok logs Hok) as (sorted & Hs & Hperm).
    destruct sorted as [| first rest].
    { apply Permutation_nil_l in Hperm. congruence. }
    destruct (last (first :: rest)) as [final |] eqn:Hlast.
    2: { apply last_None in Hlast. discriminate. }
    subst out. rewrite (Hsorted first rest final Hne Hs Hlast).
    cbn [fst snd AccessLogger.report_records].
    split; [eauto |]. split.
    { split; [discriminate |]. intros [Hlen Hmix].
      destruct Hok as [Hle | Hone]; [lia | contradiction]. }
    split; [discriminate |].
    intros st [= <-].
    match goal with
    | |- context [fold_left AccessLogger.count_log logs ?st0] =>
        pose proof (count_logs logs st0) as Hc; cbv zeta in Hc;
        set (counted := fold_left AccessLogger.count_log logs st0) in *
    end.
    cbn [AccessLogger.total_logs AccessLogger.authorized_count AccessLogger.denied_count
         AccessLogger.directions_in AccessLogger.directions_out AccessLogger.cards_unique
         AccessLogger.unique_cards_count] in Hc |- *.
    destruct Hc as (Ht & Ha & Hd & Hi & Ho & _ & _ & Hnd & Hcards).
    rewrite Ht, Ha, Hd, Hi, Ho. simpl.
    split; [reflexivity |]. split; [reflexivity |]. split; [reflexivity |].
    split; [apply filter_split_length |].
    split; [reflexivity |]. split; [reflexivity |].
    split; [apply filter_disjoint_length; apply direction_in_not_out |].
    split; [apply Hnd; constructor |].
    split.
    + intros card. rewrite Hcards. split.
      * intros [H | H]; [now apply elem_of_nil in H | exact H].
      * intros H. now right.
    + destruct logs; [contradiction | reflexivity].
Qed.

(** The queue that [get_stats] and [export_logs] read. *)
Definition queue_of (r : AccessLogger.reporter) : list Json.dict :=
  AccessLogger._offline_logs_cache
    (snd (AccessLogger.get_offline_logs (AccessLogger.logger r))).

(** X7.  For a queue that is not empty and whose timestamps are strings,
    [get_stats] returns statistics in which [oldest_log] is the timestamp of
    an event no other event of the queue is earlier than, and [newest_log]
    the timestamp of an event no other is later than, whatever the order of
    the queue.  The timestamps compare as strings. *)
Theorem get_stats_oldest_newest (r : AccessLogger.reporter) :
  queue_of r <> [] ->
  str_keys (queue_of r) ->
  exists st first final,
    fst (AccessLogger.get_stats r) = Ok (Some st)
    /\ first ∈ queue_of r /\ final ∈ queue_of r
    /\ AccessLogger.oldest_log st = default Json.Null (Builtins.dict_get "timestamp" first)
    /\ AccessLogger.newest_log st = default Json.Null (Builtins.dict_get "timestamp" final)
    /\ Forall (fun log => not_after first log /\ not_after log final) (queue_of r).
Proof.
  intros Hne Hstr.
  destruct (get_stats_eq r) as (_ & _ & Hsorted).
  fold (queue_of r) in Hsorted. cbv zeta in Hsorted.
  destruct (sort_sorted (queue_of r) []) as (sorted & Hs & Hperm & Hss);
    [constructor | exact Hstr | constructor |].
  simpl in Hperm.
  destruct sorted as [| first rest].
  { apply Permutation_nil_l in Hperm. congruence. }
  destruct (last (first :: rest)) as [final |] eqn:Hlast.
  2: { apply last_None in Hlast. discriminate. }
  rewrite (Hsorted first rest final Hne Hs Hlast). cbn [fst].
  match goal with
  | |- context [fold_left AccessLogger.count_log (queue_of r) ?st0] =>
      pose proof (count_logs (queue_of r) st0) as Hc; cbv zeta in Hc;
      set (counted := fold_left AccessLogger.count_log (queue_of r) st0) in *
  end.
  destruct Hc as (_ & _ & _ & _ & _ & Hold & Hnew & _).
  eexists _, first, final. split; [reflexivity |].
  cbn [AccessLogger.oldest_log AccessLogger.newest_log] in Hold, Hnew |- *.
  split; [rewrite <- Hperm; now left |].
  split; [rewrite <- Hperm; now apply last_Some_elem_of |].
  split; [exact Hold |]. split; [exact Hnew |].
  rewrite <- Hperm. apply Forall_and. split.
  - apply StronglySorted_inv in Hss as [_ Hall].
    constructor; [apply str_ltb_irrefl | exact Hall].
  - now apply sorted_last.
Qed.

Lemma get_stats_oldest_newest_witness :
  let ev t := [("timestamp", Json.Str t); ("card_id", Json.Str "7")] in
  let r := AccessLogger.mk_reporter
             (AccessLogger.mk [ev "2024-03-02T08:00:00"; ev "2024-03-01T09:30:00";
                               ev "2024-03-01T18:00:00"]
                true (AccessLogger.mk_storage None false false) []) [] in
  exists st first final,
    fst (AccessLogger.get_stats r) = Ok (Some st)
    /\ first ∈ queue_of r /\ final ∈ queue_of r
    /\ AccessLogger.oldest_log st = default Json.Null (Builtins.dict_get "timestamp" first)
    /\ AccessLogger.newest_log st = default Json.Null (Builtins.dict_get "timestamp" final)
    /\ Forall (fun log => not_after first log /\ not_after log final) (queue_of r).
Proof.
  intros ev r. apply (get_stats_oldest_newest r).
  - discriminate.
  - repeat constructor.
Defined.

(** The same queue evaluated: the day before comes out as the oldest. *)
Example get_stats_oldest_newest_example :
  let ev t := [("timestamp", Json.Str t); ("card_id", Json.Str "7")] in
  let r := AccessLogger.mk_reporter
             (AccessLogger.mk [ev "2024-03-02T08:00:00"; ev "2024-03-01T09:30:00";
                               ev "2024-03-01T18:00:00"]
                true (AccessLogger.mk_storage None false false) []) [] in
  fst (AccessLogger.get_stats r)
  = Ok (Some (AccessLogger.mk_stats 3 0 3 3 0 [Json.Str "7"] (Some 1%nat)
                (Json.Str "2024-03-01T09:30:00") (Json.Str "2024-03-02T08:00:00"))).
Proof. reflexivity. Qed.


(** ** The whitelist file (src/config.py) *)

(** The string scanner inverts the escaping of [ensure_ascii], for every
    character. *)
Lemma scanstring_escape_ascii_char (c : ascii) (tail : string) :
  Json.scanstring (Json.escape_ascii_char c +:+ tail)
  = match Json.scanstring tail with
    | Some (r, rest) => Some (String c r, rest)
    | None => None
    end.
Proof. destruct c as [[] [] [] [] [] [] [] []]; reflexivity. Qed.

Lemma scanstring_escape_ascii (s rest : string) :
  Json.scanstring (Json.escape_ascii s +:+ String Json.dq rest) = Some (s, rest).
Proof.
  induction s as [| c s IH]; [reflexivity |].
  cbn [Json.escape_ascii]. rewrite str_app_assoc, scanstring_escape_ascii_char.
  now rewrite IH.
Qed.

Lemma encode_ascii_app (s rest : string) :
  Json.encode_basestring_ascii s +:+ rest
  = String Json.dq (Json.escape_ascii s +:+ String Json.dq rest).
Proof.
  unfold Json.encode_basestring_ascii. simpl. now rewrite str_app_assoc.
Qed.

Lemma parse_strings_dump (l : list string) :
  forall (fuel : nat) (rest : string),
    l <> [] ->
    (length l <= fuel)%nat ->
    Json.parse_strings fuel
      (String.concat dict_sep (map Json.encode_basestring_ascii l)
       +:+ String Json.nl ("]" +:+ rest))
    = Some (l, rest).
Proof.
  induction l as [| x l IH]; intros fuel rest Hne Hfuel; [congruence |].
  destruct fuel as [| fuel]; [simpl in Hfuel; lia |].
  destruct l as [| y l].
  - change (String.concat dict_sep (map Json.encode_basestring_ascii [x]))
      with (Json.encode_basestring_ascii x).
    rewrite encode_ascii_app. cbn [Json.parse_strings].
    change (Ascii.eqb Json.dq Json.dq) with true. cbn [negb].
    rewrite scanstring_escape_ascii. reflexivity.
  - rewrite !map_cons, concat_cons2, !str_app_assoc, encode_ascii_app.
    cbn [Json.parse_strings].
    change (Ascii.eqb Json.dq Json.dq) with true. cbn [negb].
    rewrite scanstring_escape_ascii.
    change (Json.skip_ws (dict_sep +:+ ?x)) with (String "," (String Json.nl ("  " +:+ x))).
    change (Ascii.eqb "," "]") with false. change (Ascii.eqb "," ",") with true.
    cbn iota.
    change (Json.skip_ws (String Json.nl ("  " +:+ ?x))) with (Json.skip_ws x).
    rewrite <- !map_cons.
    assert (Hskip : forall tail,
               Json.skip_ws (String.concat dict_sep
                               (map Json.encode_basestring_ascii (y :: l)) +:+ tail)
               = String.concat dict_sep (map Json.encode_basestring_ascii (y :: l)) +:+ tail).
    { intros tail. destruct l; reflexivity. }
    rewrite Hskip.
    rewrite IH; [reflexivity | congruence | simpl in *; lia].
Qed.

Lemma dump_strings_length (l : list string) :
  (length l <= String.length (String.concat dict_sep (map Json.encode_basestring_ascii l)))%nat.
Proof.
  induction l as [| x l IH]; [simpl; lia |].
  destruct l as [| y l].
  - change (String.concat dict_sep (map Json.encode_basestring_ascii [x]))
      with (Json.encode_basestring_ascii x).
    unfold Json.encode_basestring_ascii. simpl. lia.
  - rewrite !map_cons, concat_cons2, !str_length_app.
    rewrite <- !map_cons. simpl length in *.
    change (String.length dict_sep) with 4%nat. lia.
Qed.

(** Reading back a list of strings that was written. *)
Lemma loads_dumps_strings (l : list string) :
  Json.loads_strings (Json.dumps_strings l) = Some l.
Proof.
  destruct l as [| x l]; [reflexivity |].
  unfold Json.loads_strings.
  set (fuel := String.length (Json.dumps_strings (x :: l))).
  assert (Hfuel : (length (x :: l) <= fuel)%nat).
  { subst fuel. unfold Json.dumps_strings. fold dict_sep. rewrite !str_length_app.
    pose proof (dump_strings_length (x :: l)). lia. }
  unfold Json.dumps_strings. fold dict_sep.
  change (Json.skip_ws ("[" +:+ ?x)) with (String "[" x).
  change (Ascii.eqb "[" "[") with true. cbn [negb].
  change (Json.skip_ws (String Json.nl "  " +:+ ?x)) with (Json.skip_ws x).
  assert (Hstart : exists more,
             String.concat dict_sep (map Json.encode_basestring_ascii (x :: l))
             +:+ String Json.nl "]"
             = String Json.dq more).
  { destruct l as [| y l]; eexists; reflexivity. }
  destruct Hstart as (more & Hs).
  rewrite Hs. change (Json.skip_ws (String Json.dq more)) with (String Json.dq more).
  change (Ascii.eqb Json.dq "]") with false. cbn iota.
  rewrite <- Hs.
  change (String Json.nl "]") with (String Json.nl ("]" +:+ "")).
  rewrite parse_strings_dump; [reflexivity | congruence | exact Hfuel].
Qed.

Lemma get_update_whitelist (whitelist : list string) (f : AccessLogger.storage) :
  AccessLogger.write_fails f = false -> AccessLogger.read_fails f = false ->
  ConfigFiles.get_whitelist (ConfigFiles.update_whitelist whitelist f) = whitelist.
Proof.
  unfold ConfigFiles.get_whitelist, ConfigFiles.update_whitelist.
  intros -> Hr. cbn [AccessLogger.content AccessLogger.read_fails].
  rewrite Hr. now rewrite loads_dumps_strings.
Qed.

(** X8.  A whitelist written with [update_whitelist] is read back by
    [get_whitelist] as it was, when the file can be written and read, for
    card ids over the characters of the model, the code points below
    U+0100: the encoder escapes every character outside the printable
    ASCII range and the decoder undoes it. *)
Theorem whitelist_round_trip (whitelist : list string) (f : AccessLogger.storage) :
  AccessLogger.write_fails f = false -> AccessLogger.read_fails f = false ->
  ConfigFiles.get_whitelist (ConfigFiles.update_whitelist whitelist f) = whitelist.
Proof. apply get_update_whitelist. Qed.

(** Card ids with a quote, a backslash, a line feed and the code point
    U+00E9. *)
Definition demo_card_ids : list string :=
  [ "04A1B2C3"; String Json.dq "a\b"; String Json.nl ""; String (ascii_of_nat 233) "" ].

Lemma whitelist_round_trip_witness :
  ConfigFiles.get_whitelist
    (ConfigFiles.update_whitelist demo_card_ids (AccessLogger.mk_storage None false false))
  = demo_card_ids.
Proof.
  apply (whitelist_round_trip demo_card_ids (AccessLogger.mk_storage None false false));
    reflexivity.
Defined.


(** ** The controller's synchronisation (src/turnstile_controller.py) *)

Lemma get_offline_logs_file (l : AccessLogger.t) :
  exists l',
    AccessLogger.get_offline_logs l = (Ok (AccessLogger._offline_logs_cache l'), l')
    /\ AccessLogger._cache_loaded l' = true
    /\ AccessLogger.offline_logs_file l' = AccessLogger.offline_logs_file l.
Proof.
  unfold AccessLogger.get_offline_logs, Py.bind, Py.get, Py.ret.
  destruct (AccessLogger._cache_loaded l) eqn:E; simpl.
  - now exists l.
  - destruct (load_offline_logs_eq l) as (l' & -> & Hl & Hf & _). now exists l'.
Qed.

(** The file after the queue was cleared. *)
Definition cleared_file (f : AccessLogger.storage) : AccessLogger.storage :=
  if AccessLogger.write_fails f then f
  else AccessLogger.mk_storage (Some "[]") (AccessLogger.read_fails f)
         (AccessLogger.write_fails f).

Lemma clear_offline_logs_eq (l : AccessLogger.t) :
  exists l',
    AccessLogger.clear_offline_logs l = (Ok tt, l')
    /\ AccessLogger._offline_logs_cache l' = []
    /\ AccessLogger._cache_loaded l' = AccessLogger._cache_loaded l
    /\ AccessLogger.offline_logs_file l' = cleared_file (AccessLogger.offline_logs_file l).
Proof.
  destruct l as [c ld [co rf wf] recs].
  unfold AccessLogger.clear_offline_logs, Py.try_except, Py.bind, AccessLogger.set_cache,
    AccessLogger.emit, Py.modify, cleared_file. cbn [fst snd].
  rewrite persist_offline_logs_eq. cbn.
  destruct wf; cbn; eexists; repeat split.
Qed.

(** The offline queue of a node, loaded if it was not. *)
Definition queue (n : Turnstile.node) : list Json.dict :=
  AccessLogger._offline_logs_cache
    (snd (AccessLogger.get_offline_logs (Turnstile.access_logger (Turnstile.controller n)))).

Definition queue_file (n : Turnstile.node) : AccessLogger.storage :=
  AccessLogger.offline_logs_file (Turnstile.access_logger (Turnstile.controller n)).

(** What a call leaves alone: everything of the controller but its access
    logger, and the whitelist file. *)
Definition same_but_logger (n n' : Turnstile.node) : Prop :=
  Turnstile.config (Turnstile.controller n') = Turnstile.config (Turnstile.controller n)
  /\ Turnstile.connection_online (Turnstile.controller n')
     = Turnstile.connection_online (Turnstile.controller n)
  /\ Turnstile.whitelist (Turnstile.controller n')
     = Turnstile.whitelist (Turnstile.controller n)
  /\ Turnstile.clock (Turnstile.controller n') = Turnstile.clock (Turnstile.controller n)
  /\ Turnstile.relay_controller (Turnstile.controller n')
     = Turnstile.relay_controller (Turnstile.controller n)
  /\ Turnstile.whitelist_file n' = Turnstile.whitelist_file n.

Lemma sync_offline_data_eq (b : Turnstile.services) (n : Turnstile.node) :
  exists n',
    Turnstile._sync_offline_data b n
    = (match queue n with
       | [] => Ok tt
       | _ :: _ =>
           match Turnstile.sync_offline_logs b (queue n) with
           | Ok _ => Ok tt
           | Raise e => if is_Exception e then Ok tt else Raise e
           end
       end, n')
    /\ same_but_logger n n'
    /\ Turnstile.requests n'
       = Turnstile.requests n
         ++ match queue n with
            | [] => []
            | _ :: _ => [Turnstile.SyncOfflineLogs (queue n)]
            end
    /\ AccessLogger._cache_loaded (Turnstile.access_logger (Turnstile.controller n')) = true
    /\ AccessLogger._offline_logs_cache (Turnstile.access_logger (Turnstile.controller n'))
       = match queue n, Turnstile.sync_offline_logs b (queue n) with
         | _ :: _, Ok true => []
         | q, _ => q
         end
    /\ queue_file n'
       = match queue n, Turnstile.sync_offline_logs b (queue n) with
         | _ :: _, Ok true => cleared_file (queue_file n)
         | _, _ => queue_file n
         end.
Proof.
  unfold queue, queue_file.
  destruct n as [w wf reqs]. cbn [Turnstile.controller Turnstile.requests].
  unfold Turnstile._sync_offline_data, Py.try_except, Py.bind,
    Turnstile.on_controller, Turnstile.on_logger.
  cbn [Turnstile.controller Turnstile.whitelist_file Turnstile.requests].
  destruct (get_offline_logs_file (Turnstile.access_logger w)) as (l1 & -> & Hld & Hf).
  cbn [snd fst].
  destruct (AccessLogger._offline_logs_cache l1) as [| x q] eqn:Hq.
  - cbn. eexists. split; [reflexivity |]. rewrite app_nil_r.
    unfold same_but_logger. cbn. now repeat split.
  - unfold Turnstile.call_backend.
    cbn [Turnstile.controller Turnstile.whitelist_file Turnstile.requests].
    destruct (Turnstile.sync_offline_logs b (x :: q)) as [[|] | e].
    + cbn [Turnstile.controller Turnstile.access_logger Turnstile.set_access_logger]. 
      destruct (clear_offline_logs_eq l1) as (l2 & -> & Hc & Hl2 & Hf2).
      cbn. eexists. split; [reflexivity |].
      unfold same_but_logger. cbn. rewrite Hc, Hf2, Hf, Hl2, Hld. now repeat split.
    + cbn. eexists. split; [reflexivity |].
      unfold same_but_logger. cbn. now repeat split.
    + destruct (is_Exception e); cbn; (eexists; split; [reflexivity |]);
        unfold same_but_logger; cbn; now repeat split.
Qed.

(** X9.  [_sync_offline_data] sends the whole offline queue to the backend
    in one request, and only when the queue is not empty.  The queue is
    emptied exactly when the backend answered with success; on a refusal or
    an error it is kept as it was, in memory and in the file, for the next
    attempt.  No [Exception] leaves the function, and it touches nothing of
    the controller but the queue. *)
Theorem sync_offline_data_clears_on_success (b : Turnstile.services) (n : Turnstile.node) :
  let out := Turnstile._sync_offline_data b n in
  let n' := snd out in
  let after := AccessLogger._offline_logs_cache
                 (Turnstile.access_logger (Turnstile.controller n')) in
  (queue n = [] -> fst out = Ok tt /\ Turnstile.requests n' = Turnstile.requests n)
  /\ (queue n <> [] ->
      Turnstile.requests n' = Turnstile.requests n ++ [Turnstile.SyncOfflineLogs (queue n)]
      /\ (after = [] <-> Turnstile.sync_offline_logs b (queue n) = Ok true))
  /\ (after = [] \/ after = queue n)
  /\ (Turnstile.sync_offline_logs b (queue n) <> Ok true -> queue_file n' = queue_file n)
  /\ (queue n <> [] -> Turnstile.sync_offline_logs b (queue n) = Ok true ->
      AccessLogger.write_fails (queue_file n) = false ->
      AccessLogger.content (queue_file n') = Some "[]")
  /\ (forall e, fst out = Raise e -> e = CancelledError)
  /\ same_but_logger n n'.
Proof.
  intros out n' after. subst out n' after.
  destruct (sync_offline_data_eq b n) as (n' & -> & Hsame & Hreq & _ & Hq & Hf).
  cbn [fst snd]. rewrite Hreq, Hq, Hf.
  destruct (queue n) as [| x q] eqn:Eq.
  - split; [intros _; split; [reflexivity | apply app_nil_r] |].
    split; [congruence |]. split; [now left |]. split; [reflexivity |].
    split; [congruence |]. split; [discriminate | exact Hsame].
  - split; [discriminate |].
    destruct (Turnstile.sync_offline_logs b (x :: q)) as [[|] | e] eqn:Es.
    + split; [intros _; split; [reflexivity | tauto] |].
      split; [now left |]. split; [congruence |].
      split; [| split; [discriminate | exact Hsame]].
      intros _ _ Hw. unfold cleared_file. now rewrite Hw.
    + split; [intros _; split; [reflexivity | split; discriminate] |].
      split; [now right |]. split; [reflexivity |].
      split; [discriminate |]. split; [discriminate | exact Hsame].
    + split; [intros _; split; [reflexivity | split; discriminate] |].
      split; [now right |]. split; [reflexivity |].
      split; [discriminate |]. split; [| exact Hsame].
      intros e0. destruct e; cbn; try discriminate. now intros [= <-].
Qed.

(** *** The whitelist refresh *)

Definition same_but_whitelist (n n' : Turnstile.node) : Prop :=
  Turnstile.config (Turnstile.controller n') = Turnstile.config (Turnstile.controller n)
  /\ Turnstile.connection_online (Turnstile.controller n')
     = Turnstile.connection_online (Turnstile.controller n)
  /\ Turnstile.clock (Turnstile.controller n') = Turnstile.clock (Turnstile.controller n)
  /\ Turnstile.access_logger (Turnstile.controller n')
     = Turnstile.access_logger (Turnstile.controller n)
  /\ Turnstile.relay_controller (Turnstile.controller n')
     = Turnstile.relay_controller (Turnstile.controller n).

Lemma update_whitelist_eq (b : Turnstile.services) (n : Turnstile.node) :
  exists n',
    Turnstile._update_whitelist b n
    = (match Turnstile.get_whitelist b with
       | Ok _ => Ok tt
       | Raise e => if is_Exception e then Ok tt else Raise e
       end, n')
    /\ same_but_whitelist n n'
    /\ Turnstile.requests n' = Turnstile.requests n ++ [Turnstile.GetWhitelist]
    /\ Turnstile.whitelist_file n'
       = match Turnstile.get_whitelist b with
         | Ok (x :: l) => ConfigFiles.update_whitelist (x :: l) (Turnstile.whitelist_file n)
         | _ => Turnstile.whitelist_file n
         end
    /\ Turnstile.whitelist (Turnstile.controller n')
       = match Turnstile.get_whitelist b with
         | Ok (x :: l) =>
             ConfigFiles.get_whitelist
               (ConfigFiles.update_whitelist (x :: l) (Turnstile.whitelist_file n))
         | _ => Turnstile.whitelist (Turnstile.controller n)
         end.
Proof.
  destruct n as [w wf reqs].
  unfold Turnstile._update_whitelist, Py.try_except, Py.bind, Turnstile.call_backend,
    Py.modify.
  cbn [Turnstile.controller Turnstile.whitelist_file Turnstile.requests].
  destruct (Turnstile.get_whitelist b) as [[| x l] | e]; cbn.
  - eexists. split; [reflexivity |]. unfold same_but_whitelist. cbn. now repeat split.
  - eexists. split; [reflexivity |]. unfold same_but_whitelist. cbn. now repeat split.
  - destruct (is_Exception e); cbn; (eexists; split; [reflexivity |]);
      unfold same_but_whitelist; cbn; now repeat split.
Qed.

Lemma str_in_elem_of (x : string) (l : list string) :
  Builtins.str_in x l = true <-> x ∈ l.
Proof.
  unfold Builtins.str_in. rewrite existsb_exists. split.
  - intros (y & Hin & Heq). apply String.eqb_eq in Heq. subst y.
    now apply list_elem_of_In.
  - intros Hin. exists x. split; [now apply list_elem_of_In | apply String.eqb_refl].
Qed.

(** X10.  [_update_whitelist] asks the backend once.  A fetch that fails or
    returns an empty list changes neither the whitelist file nor the
    controller, so the cards known before stay valid.  A list that is not
    empty replaces the whitelist when the file can be written and read, and
    from then on the fallback of [_check_authorization], used while offline
    or when the backend check fails, admits exactly the cards of that list
    (and none when the fallback mode is disabled).  No [Exception] leaves the
    function. *)
Theorem update_whitelist_refreshes_fallback (b : Turnstile.services) (n : Turnstile.node) :
  let out := Turnstile._update_whitelist b n in
  let n' := snd out in
  Turnstile.requests n' = Turnstile.requests n ++ [Turnstile.GetWhitelist]
  /\ (forall e, fst out = Raise e -> e = CancelledError)
  /\ (Turnstile.get_whitelist b = Ok [] \/ (exists e, Turnstile.get_whitelist b = Raise e) ->
      Turnstile.controller n' = Turnstile.controller n
      /\ Turnstile.whitelist_file n' = Turnstile.whitelist_file n)
  /\ (AccessLogger.write_fails (Turnstile.whitelist_file n) = true ->
      Turnstile.whitelist_file n' = Turnstile.whitelist_file n)
  /\ (forall x l,
      Turnstile.get_whitelist b = Ok (x :: l) ->
      AccessLogger.write_fails (Turnstile.whitelist_file n) = false ->
      AccessLogger.read_fails (Turnstile.whitelist_file n) = false ->
      fst out = Ok tt
      /\ Turnstile.whitelist (Turnstile.controller n') = x :: l
      /\ forall (bk : Turnstile.backend) (card_id direction : string) (w : Turnstile.t),
           Turnstile.config w = Turnstile.config (Turnstile.controller n') ->
           Turnstile.whitelist w = Turnstile.whitelist (Turnstile.controller n') ->
           (Turnstile.connection_online w = false
            \/ exists e, Turnstile.check_access bk card_id direction = Raise e
                         /\ is_Exception e = true) ->
           exists authorized,
             fst (Turnstile._check_authorization bk card_id direction w)
             = Ok (Json.Bool authorized)
             /\ (authorized = true <->
                 Config.FALLBACK_MODE_ENABLED (Turnstile.config w) = true
                 /\ card_id ∈ x :: l)).
Proof.
  intros out n'. subst out n'.
  destruct (update_whitelist_eq b n) as (n' & -> & Hsame & Hreq & Hfile & Hwl).
  cbn [fst snd]. split; [exact Hreq |].
  split.
  { intros e. destruct (Turnstile.get_whitelist b) as [? | e0]; [discriminate |].
    destruct e0; cbn; try discriminate. now intros [= <-]. }
  split.
  { intros Hfail.
    assert (Hw : Turnstile.whitelist (Turnstile.controller n')
                 = Turnstile.whitelist (Turnstile.controller n)
                 /\ Turnstile.whitelist_file n' = Turnstile.whitelist_file n).
    { rewrite Hwl, Hfile. destruct Hfail as [-> | [e ->]]; now split. }
    destruct Hw as [Hw Hf]. split; [| exact Hf].
    destruct Hsame as (Hc & Ho & Hk & Hl & Hr).
    destruct (Turnstile.controller n'), (Turnstile.controller n). cbn in *. congruence. }
  split.
  { intros Hw. rewrite Hfile. unfold ConfigFiles.update_whitelist. rewrite Hw.
    now destruct (Turnstile.get_whitelist b) as [[| x l] | e]. }
  intros x l Hget Hw Hr. rewrite Hget in Hwl |- *.
  assert (Hlist : Turnstile.whitelist (Turnstile.controller n') = x :: l).
  { rewrite Hwl. now apply get_update_whitelist. }
  split; [reflexivity |]. split; [exact Hlist |].
  intros bk card_id direction w Hcfg Hwh Hoff.
  exists (if Config.FALLBACK_MODE_ENABLED (Turnstile.config w)
          then Builtins.str_in card_id (Turnstile.whitelist w) else false).
  split.
  - unfold Turnstile._check_authorization, Py.try_except, Py.bind, Py.get, Py.lift.
    destruct (Turnstile.connection_online w) eqn:Hon.
    + destruct Hoff as [Hoff | (e & -> & He)]; [discriminate |].
      rewrite He, whitelist_fallback_eq. reflexivity.
    + rewrite whitelist_fallback_eq. reflexivity.
  - rewrite Hwh, Hlist.
    destruct (Config.FALLBACK_MODE_ENABLED (Turnstile.config w)).
    + rewrite str_in_elem_of. tauto.
    + split; [discriminate | intros [? _]; discriminate].
Qed.

(** *** The connection monitor *)

(** X11.  One turn of the connection monitor tests the connection once and
    records the answer as the connection state.  Only when the device was
    offline and the test succeeds does it go on to send the offline queue,
    if there is one, and then to fetch the whitelist, in this order, and the
    whitelist is fetched even when sending the queue failed.  In every other
    case the backend receives nothing but the test, and the queue and the
    whitelist stay as they were; when the test itself fails the connection
    state is left unchanged too.  No [Exception] leaves the turn. *)
Theorem connection_monitor_syncs_on_reconnect (b : Turnstile.services)
    (n : Turnstile.node) :
  let out := Turnstile._connection_monitor_turn b n in
  let n' := snd out in
  let was_online := Turnstile.connection_online (Turnstile.controller n) in
  (forall e, fst out = Raise e -> e = CancelledError)
  /\ (forall online, Turnstile.test_connection b = Ok online ->
      Turnstile.connection_online (Turnstile.controller n') = online)
  /\ ((exists e, Turnstile.test_connection b = Raise e) ->
      Turnstile.controller n' = Turnstile.controller n)
  /\ (was_online = false -> Turnstile.test_connection b = Ok true ->
      Turnstile.sync_offline_logs b (queue n) <> Raise CancelledError ->
      Turnstile.requests n'
      = Turnstile.requests n
        ++ [Turnstile.TestConnection]
        ++ match queue n with
           | [] => []
           | _ :: _ => [Turnstile.SyncOfflineLogs (queue n)]
           end
        ++ [Turnstile.GetWhitelist])
  /\ (was_online = true \/ Turnstile.test_connection b <> Ok true ->
      Turnstile.requests n' = Turnstile.requests n ++ [Turnstile.TestConnection]
      /\ Turnstile.access_logger (Turnstile.controller n')
         = Turnstile.access_logger (Turnstile.controller n)
      /\ Turnstile.whitelist (Turnstile.controller n')
         = Turnstile.whitelist (Turnstile.controller n)
      /\ Turnstile.whitelist_file n' = Turnstile.whitelist_file n).
Proof.
  intros out n' was_online. subst out n' was_online.
  destruct n as [w wf reqs].
  unfold Turnstile._connection_monitor_turn, Py.try_except, Py.bind, Py.get,
    Turnstile.call_backend, Turnstile.on_controller, Py.modify.
  cbn [Turnstile.controller Turnstile.whitelist_file Turnstile.requests].
  destruct (Turnstile.test_connection b) as [online | e] eqn:Et.
  - destruct (negb (Turnstile.connection_online w) && online) eqn:Hgo.
    + apply andb_true_iff in Hgo as [Hwas ->]. apply negb_true_iff in Hwas.
      match goal with
      | |- context [Turnstile._sync_offline_data b ?x] =>
          set (n1 := x);
          destruct (sync_offline_data_eq b n1) as (n2 & -> & Hsame2 & Hreq2 & _ & _ & _)
      end.
      assert (Hq1 : queue n1 = queue (Turnstile.mk_node w wf reqs)) by reflexivity.
      rewrite Hq1 in Hreq2 |- *.
      set (q := queue (Turnstile.mk_node w wf reqs)) in *.
      destruct Hsame2 as (Hc2 & Ho2 & Hw2 & Hk2 & Hr2 & Hf2).
      assert (Hsync : forall r,
                 r = match q with
                     | [] => Ok tt
                     | _ :: _ =>
                         match Turnstile.sync_offline_logs b q with
                         | Ok _ => Ok tt
                         | Raise e => if is_Exception e then Ok tt else Raise e
                         end
                     end ->
                 r = Ok tt
                 \/ (r = Raise CancelledError
                     /\ Turnstile.sync_offline_logs b q = Raise CancelledError)).
      { intros r ->. destruct q; [now left |].
        destruct (Turnstile.sync_offline_logs b (d :: q)) as [? | e]; [now left |].
        destruct e; cbn; auto. }
      destruct (Hsync _ eq_refl) as [-> | [-> Hcancel]].
      * destruct (update_whitelist_eq b n2) as (n3 & -> & Hsame3 & Hreq3 & _ & _).
        destruct Hsame3 as (Hc3 & Ho3 & Hk3 & Hl3 & Hr3).
        match goal with
        | |- context [fst ?X] =>
            assert (Hres : exists r, X = (r, n3)
                                     /\ forall e, r = Raise e -> e = CancelledError)
        end.
        { destruct (Turnstile.get_whitelist b) as [? | e0]; [| destruct e0]; cbn;
            eexists; (split; [reflexivity |]); try discriminate.
          now intros e [= <-]. }
        destruct Hres as (r & -> & Hr). cbn [fst snd].
        split; [exact Hr |].
        split; [intros online [= <-]; exact (eq_trans Ho3 Ho2) |].
        split; [intros [e He]; discriminate |].
        split.
        { intros _ _ _. rewrite Hreq3, Hreq2. subst n1. cbn [Turnstile.requests].
          now rewrite <- !app_assoc. }
        intros [Hon | Hne]; [cbn in Hon; congruence | congruence].
      * cbn [is_Exception fst snd].
        split; [now intros e [= <-] |].
        split; [intros online [= <-]; exact Ho2 |].
        split; [intros [e He]; discriminate |].
        split; [intros _ _ Hno; contradiction |].
        intros [Hon | Hne]; [cbn in Hon; congruence | congruence].
    + cbn [fst snd Py.ret Turnstile.controller Turnstile.whitelist_file Turnstile.requests].
      split; [discriminate |].
      split; [now intros o [= <-] |].
      split; [intros [e He]; discriminate |].
      split.
      { intros Hwas [= ->]. cbn in Hwas. rewrite Hwas in Hgo. discriminate. }
      intros _. now repeat split.
  - assert (Hst : snd (if is_Exception e
                       then Py.ret tt (Turnstile.mk_node w wf (reqs ++ [Turnstile.TestConnection]))
                       else (Raise e, Turnstile.mk_node w wf (reqs ++ [Turnstile.TestConnection])))
                  = Turnstile.mk_node w wf (reqs ++ [Turnstile.TestConnection]))
      by now destruct (is_Exception e).
    rewrite !Hst. cbn [Turnstile.controller Turnstile.whitelist_file Turnstile.requests].
    split.
    { intros e0. destruct e; cbn; try discriminate. now intros [= <-]. }
    split; [discriminate |]. split; [reflexivity |].
    split; [discriminate |]. intros _. now repeat split.
Qed.


(** ** Backups (src/updater.py) *)

(** Newest first: no archive is followed by a newer one. *)
Definition newest_first (l : list Updater.archive) : Prop :=
  StronglySorted (fun a b => (Updater.a_ctime b <= Updater.a_ctime a)%nat) l.

Lemma insert_newest_first_perm (a : Updater.archive) (l : list Updater.archive) :
  Permutation (Updater.insert_newest_first a l) (a :: l).
Proof.
  induction l as [| b l IH]; simpl; [reflexivity |].
  destruct (Nat.ltb _ _); [reflexivity |].
  rewrite IH. apply perm_swap.
Qed.

Lemma insert_newest_first_sorted (a : Updater.archive) (l : list Updater.archive) :
  newest_first l -> newest_first (Updater.insert_newest_first a l).
Proof.
  unfold newest_first. induction l as [| b l IH]; intros Hs; simpl.
  - repeat constructor.
  - apply StronglySorted_inv in Hs as [Hs Hb].
    destruct (Nat.ltb_spec (Updater.a_ctime b) (Updater.a_ctime a)) as [Hlt | Hge].
    + constructor; [constructor; assumption |].
      constructor; [lia |].
      eapply Forall_impl; [exact Hb |]. simpl. intros x Hx. lia.
    + constructor; [now apply IH |].
      rewrite insert_newest_first_perm. constructor; assumption.
Qed.

Lemma sort_newest_first_acc (l acc : list Updater.archive) :
  newest_first acc ->
  Permutation (fold_left (fun acc a => Updater.insert_newest_first a acc) l acc) (acc ++ l)
  /\ newest_first (fold_left (fun acc a => Updater.insert_newest_first a acc) l acc).
Proof.
  revert acc. induction l as [| a l IH]; intros acc Hacc; simpl.
  - rewrite app_nil_r. now split.
  - destruct (IH _ (insert_newest_first_sorted a acc Hacc)) as [Hp Hs].
    split; [| exact Hs].
    rewrite Hp, insert_newest_first_perm.
    change (a :: acc) with ([a] ++ acc). rewrite (Permutation_app_comm [a] acc).
    now rewrite <- app_assoc.
Qed.

Lemma sort_newest_first_perm (l : list Updater.archive) :
  Permutation (Updater.sort_newest_first l) l.
Proof. apply (sort_newest_first_acc l []). constructor. Qed.

Lemma sort_newest_first_sorted (l : list Updater.archive) :
  newest_first (Updater.sort_newest_first l).
Proof. apply (sort_newest_first_acc l []). constructor. Qed.

Lemma newest_first_take_drop (n : nat) (l : list Updater.archive) (a b : Updater.archive) :
  newest_first l -> a ∈ take n l -> b ∈ drop n l ->
  (Updater.a_ctime b <= Updater.a_ctime a)%nat.
Proof.
  unfold newest_first. revert n. induction l as [| x l IH]; intros n Hs Ha Hb.
  - rewrite take_nil in Ha. now apply elem_of_nil in Ha.
  - destruct n as [| n]; simpl in *; [now apply elem_of_nil in Ha |].
    apply StronglySorted_inv in Hs as [Hs Hx].
    apply elem_of_cons in Ha as [-> | Ha].
    + rewrite Forall_forall in Hx. apply Hx.
      apply (subseteq_drop n l). exact Hb.
    + now apply (IH n).
Qed.

Lemma filter_length_perm {A} (f : A -> bool) (l l' : list A) :
  Permutation l l' -> length (List.filter f l) = length (List.filter f l').
Proof.
  induction 1 as [| x l l' _ IH | x y l | l l' l'' _ IH1 _ IH2]; simpl.
  - reflexivity.
  - destruct (f x); simpl; now rewrite IH.
  - destruct (f x), (f y); reflexivity.
  - now rewrite IH1.
Qed.

Lemma filter_all {A} (f : A -> bool) (l : list A) :
  (forall x, x ∈ l -> f x = true) -> List.filter f l = l.
Proof.
  induction l as [| x l IH]; intros H; simpl; [reflexivity |].
  rewrite H by left. f_equal. apply IH. intros y Hy. apply H. now right.
Qed.

Lemma filter_none {A} (f : A -> bool) (l : list A) :
  (forall x, x ∈ l -> f x = false) -> List.filter f l = [].
Proof.
  induction l as [| x l IH]; intros H; simpl; [reflexivity |].
  rewrite H by left. apply IH. intros y Hy. apply H. now right.
Qed.

Lemma filter_sublist {A} (f : A -> bool) (l : list A) : sublist (List.filter f l) l.
Proof.
  induction l as [| x l IH]; simpl; [constructor |].
  destruct (f x); now constructor.
Qed.

(** In a directory, where names are unique, an archive is among [doomed]
    exactly when its name is. *)
Lemma named_among (l doomed : list Updater.archive) (a : Updater.archive) :
  NoDup (map Updater.a_name l) -> a ∈ l -> doomed ⊆ l ->
  existsb (Updater.name_eqb a) doomed = true <-> a ∈ doomed.
Proof.
  intros Hnd Ha Hsub. split.
  - intros H. apply existsb_exists in H as (b & Hb & Heq).
    apply list_elem_of_In in Hb. unfold Updater.name_eqb in Heq.
    apply String.eqb_eq in Heq.
    assert (a = b); [| now subst].
    pose proof (Hsub b Hb) as Hbl.
    apply list_elem_of_lookup in Ha as [i Hi]. apply list_elem_of_lookup in Hbl as [j Hj].
    assert (i = j).
    { apply (NoDup_lookup _ i j (Updater.a_name a) Hnd).
      - rewrite list_lookup_fmap, Hi. reflexivity.
      - rewrite list_lookup_fmap, Hj. simpl. now rewrite Heq. }
    subst j. congruence.
  - intros H. apply existsb_exists. exists a. split; [now apply list_elem_of_In |].
    unfold Updater.name_eqb. apply String.eqb_refl.
Qed.

Lemma NoDup_take_drop {A} (n : nat) (l : list A) (x : A) :
  NoDup l -> x ∈ take n l -> x ∉ drop n l.
Proof.
  intros Hnd Ht Hd. rewrite <- (take_drop n l) in Hnd.
  apply NoDup_app in Hnd as (_ & Hdis & _). now apply (Hdis x).
Qed.

(** X12.  [_cleanup_old_backups] on a backup directory (file names are
    unique): at most five archives stay, and all of them when there are no
    more than five; nothing is added or reordered; every archive removed is
    at most as recent as every archive kept, so an archive newer than all
    others is never removed. *)
Theorem cleanup_old_backups_keeps_newest (w : Updater.t) :
  NoDup (map Updater.a_name (Updater.backup_dir w)) ->
  let kept := Updater.backup_dir (Updater._cleanup_old_backups w) in
  length kept = Nat.min 5 (length (Updater.backup_dir w))
  /\ sublist kept (Updater.backup_dir w)
  /\ ((length (Updater.backup_dir w) <= 5)%nat -> kept = Updater.backup_dir w)
  /\ (forall a b, a ∈ kept -> b ∈ Updater.backup_dir w -> b ∉ kept ->
        (Updater.a_ctime b <= Updater.a_ctime a)%nat)
  /\ (forall a, a ∈ Updater.backup_dir w ->
        (forall b, b ∈ Updater.backup_dir w -> b <> a ->
           (Updater.a_ctime b < Updater.a_ctime a)%nat) ->
        a ∈ kept).
Proof.
  intros Hnames kept. subst kept. unfold Updater._cleanup_old_backups. simpl.
  set (l := Updater.backup_dir w) in *.
  set (sorted := Updater.sort_newest_first l).
  set (doomed := drop 5 sorted).
  set (f := fun a => negb (existsb (Updater.name_eqb a) doomed)).
  pose proof (sort_newest_first_perm l) as Hperm. fold sorted in Hperm.
  pose proof (sort_newest_first_sorted l) as Hsorted. fold sorted in Hsorted.
  assert (Hnd : NoDup l) by (apply (NoDup_fmap_1 Updater.a_name); exact Hnames).
  assert (Hnds : NoDup sorted) by (now rewrite Hperm).
  assert (Hsub : doomed ⊆ l).
  { intros x Hx. rewrite <- Hperm. now apply (subseteq_drop 5 sorted). }
  assert (Hf : forall a, a ∈ l -> (f a = true <-> a ∉ doomed)).
  { intros a Ha. unfold f. rewrite negb_true_iff.
    rewrite <- (named_among l doomed a Hnames Ha Hsub).
    now destruct (existsb _ _). }
  assert (Hin : forall a, a ∈ List.filter f l <-> a ∈ l /\ a ∉ doomed).
  { intros a. rewrite elem_of_List_filter. split.
    - intros [Ha Hfa]. split; [exact Ha | now apply Hf].
    - intros [Ha Hd]. split; [exact Ha | now apply Hf]. }
  assert (Htake : forall a, a ∈ l -> a ∉ doomed -> a ∈ take 5 sorted).
  { intros a Ha Hd. rewrite <- Hperm, <- (take_drop 5 sorted) in Ha.
    apply elem_of_app in Ha as [Ha | Ha]; [exact Ha | contradiction]. }
  assert (Hlen : length (List.filter f l) = Nat.min 5 (length l)).
  { rewrite (filter_length_perm f l sorted) by (symmetry; exact Hperm).
    rewrite <- (take_drop 5 sorted) at 1. rewrite List.filter_app.
    fold doomed.
    rewrite (filter_all f (take 5 sorted)), (filter_none f doomed).
    - rewrite app_nil_r, length_take. now rewrite Hperm.
    - intros x Hx. destruct (f x) eqn:E; [| reflexivity].
      apply Hf in E; [contradiction | now apply Hsub].
    - intros x Hx. apply Hf.
      + rewrite <- Hperm. now apply (subseteq_take 5 sorted).
      + now apply NoDup_take_drop. }
  split; [exact Hlen |].
  split; [apply filter_sublist |].
  split.
  { intros Hle. apply filter_all. intros x Hx. apply Hf; [exact Hx |].
    unfold doomed. rewrite drop_ge; [apply not_elem_of_nil |].
    rewrite Hperm. exact Hle. }
  assert (Hold : forall a b, a ∈ List.filter f l -> b ∈ l -> b ∉ List.filter f l ->
                   (Updater.a_ctime b <= Updater.a_ctime a)%nat).
  { intros a b Ha Hb Hnb. apply Hin in Ha as [Ha Had].
    apply (newest_first_take_drop 5 sorted); [exact Hsorted | now apply Htake |].
    destruct (f b) eqn:Efb.
    - exfalso. apply Hnb. apply elem_of_List_filter. now split.
    - apply (named_among l doomed b Hnames Hb Hsub).
      unfold f in Efb. now apply negb_false_iff in Efb. }
  split; [exact Hold |].
  intros a Ha Hnew.
  destruct (f a) eqn:Efa; [apply elem_of_List_filter; now split | exfalso].
  assert (Hk : a ∉ List.filter f l).
  { intros Hk. apply elem_of_List_filter in Hk as [_ Hk]. congruence. }
  destruct (List.filter f l) as [| x kept'] eqn:Ekept.
  - simpl in Hlen. destruct l; [now apply elem_of_nil in Ha | simpl in Hlen; lia].
  - assert (Hx : x ∈ x :: kept') by left.
    pose proof (Hold x a Hx Ha Hk) as Hle.
    assert (Hxl : x ∈ l) by (apply Hin in Hx; tauto).
    assert (Hne : x <> a) by (intros ->; contradiction).
    specialize (Hnew x Hxl Hne). lia.
Qed.

Definition five_backups : list Updater.archive :=
  map (fun n => Updater.mk_archive ("backup_1.0." +:+ pretty n +:+ ".tar.gz") n [])
    [3; 1; 6; 2; 5; 4]%nat.

Lemma cleanup_old_backups_keeps_newest_witness :
  let w := Updater.mk demo_config false None five_backups false [] 7%nat in
  length (Updater.backup_dir (Updater._cleanup_old_backups w)) = 5%nat.
Proof.
  intros w.
  destruct (cleanup_old_backups_keeps_newest w) as [H _].
  - apply (bool_decide_unpack _). vm_compute. exact I.
  - exact H.
Defined.

Lemma latest_spec (l : list Updater.archive) :
  match Updater.latest l with
  | None => l = []
  | Some b => b ∈ l /\ forall a, a ∈ l -> (Updater.a_ctime a <= Updater.a_ctime b)%nat
  end.
Proof.
  induction l as [| a l IH]; simpl; [reflexivity |].
  destruct (Updater.latest l) as [b |].
  - destruct IH as [Hb Hmax].
    destruct (Nat.ltb_spec (Updater.a_ctime a) (Updater.a_ctime b)) as [Hlt | Hge].
    + split; [now right |]. intros x Hx. apply elem_of_cons in Hx as [-> | Hx]; [lia |].
      now apply Hmax.
    + split; [left |]. intros x Hx. apply elem_of_cons in Hx as [-> | Hx]; [lia |].
      specialize (Hmax x Hx). lia.
  - subst l. split; [left |]. intros x Hx. apply elem_of_cons in Hx as [-> | Hx]; [lia |].
    now apply elem_of_nil in Hx.
Qed.

(** X13.  [_restore_backup] never raises, whether the removal and the
    extraction succeed or not, and never touches the backup directory.
    With no archive it changes nothing.  With archives, when the removal
    and the extraction succeed, the application directory is the tree of an
    archive that no other archive is newer than.  When they fail the error
    is swallowed and the directory holds what the failure left
    ([Updater.restore_leaves]): nothing is said about it. *)
Theorem restore_backup_outcome (e : Updater.env) (w : Updater.t) :
  let w' := snd (Updater._restore_backup e w) in
  fst (Updater._restore_backup e w) = Ok tt
  /\ Updater.backup_dir w' = Updater.backup_dir w
  /\ (Updater.backup_dir w = [] -> w' = w)
  /\ (Updater.backup_dir w <> [] -> Updater.restore_extract_fails e = false ->
      exists b,
        b ∈ Updater.backup_dir w
        /\ (forall a, a ∈ Updater.backup_dir w ->
              (Updater.a_ctime a <= Updater.a_ctime b)%nat)
        /\ Updater.app_dir w' = Some (Updater.a_tree b)).
Proof.
  intros w'. subst w'.
  unfold Updater._restore_backup, Py.bind, Py.get, Py.modify, Py.ret.
  pose proof (latest_spec (Updater.backup_dir w)) as Hl.
  destruct (Updater.latest (Updater.backup_dir w)) as [b |].
  - destruct Hl as [Hb Hmax].
    assert (Hne : Updater.backup_dir w <> []).
    { intros E. rewrite E in Hb. now apply elem_of_nil in Hb. }
    destruct (Updater.restore_extract_fails e); simpl;
      (split; [reflexivity |]); (split; [reflexivity |]);
      (split; [intros E; contradiction |]).
    + intros _ [=].
    + intros _ _. exists b. repeat split; assumption.
  - simpl. repeat split; try reflexivity; intros; contradiction.
Qed.

(** ** How a session ends (src/updater.py) *)

(** A computation that leaves a part of the world as it finds it. *)
Definition frames {A B} (proj : Updater.t -> B) (m : M Updater.t A) : Prop :=
  forall w, proj (snd (m w)) = proj w.

Lemma frames_ret {A B} (proj : Updater.t -> B) (a : A) : frames proj (Py.ret a).
Proof. intros w. reflexivity. Qed.

Lemma frames_raise {A B} (proj : Updater.t -> B) (e : exn) :
  frames proj (@Py.raise Updater.t A e).
Proof. intros w. reflexivity. Qed.

Lemma frames_get {B} (proj : Updater.t -> B) : frames proj (@Py.get Updater.t).
Proof. intros w. reflexivity. Qed.

Lemma frames_bind {A A' B} (proj : Updater.t -> B) (m : M Updater.t A)
    (k : A -> M Updater.t A') :
  frames proj m -> (forall a, frames proj (k a)) -> frames proj (Py.bind m k).
Proof.
  intros Hm Hk w. unfold Py.bind. specialize (Hm w).
  destruct (m w) as [[a | e] w1]; simpl in *; [| exact Hm].
  now rewrite Hk.
Qed.

Lemma frames_try_except {A B} (proj : Updater.t -> B) (m : M Updater.t A)
    (h : exn -> M Updater.t A) :
  frames proj m -> (forall e, frames proj (h e)) -> frames proj (Py.try_except m h).
Proof.
  intros Hm Hh w. unfold Py.try_except. specialize (Hm w).
  destruct (m w) as [[a | e] w1]; simpl in *; [exact Hm |].
  destruct (Py.is_Exception e); [now rewrite Hh | exact Hm].
Qed.

Lemma frames_modify {B} (proj : Updater.t -> B) (f : Updater.t -> Updater.t) :
  (forall w, proj (f w) = proj w) -> frames proj (Py.modify f).
Proof. intros Hf w. apply Hf. Qed.

Lemma frames_call {A B} (proj : Updater.t -> B) (m : M Updater.t A) :
  (forall w, proj (snd (m w)) = proj w) -> frames proj m.
Proof. auto. Qed.

Ltac frames :=
  repeat first
    [ apply frames_ret | apply frames_raise | apply frames_get
    | apply frames_bind; [| intros ?]
    | apply frames_try_except; [| intros ?]
    | apply frames_modify; intros ?; reflexivity
    | match goal with
      | |- frames _ (match ?x with _ => _ end) => destruct x
      | |- frames _ (if ?b then _ else _) => destruct b
      end
    | apply frames_call; intros ?; reflexivity ].

(** A computation that raises nothing but [Exception]s. *)
Definition civil {A} (m : M Updater.t A) : Prop :=
  forall w ex, fst (m w) = Raise ex -> Py.is_Exception ex = true.

Lemma civil_ret {A} (a : A) : civil (@Py.ret Updater.t A a).
Proof. intros w ex. discriminate. Qed.

Lemma civil_raise {A} (e : exn) :
  Py.is_Exception e = true -> civil (@Py.raise Updater.t A e).
Proof. intros He w ex [= <-]. exact He. Qed.

Lemma civil_get : civil (@Py.get Updater.t).
Proof. intros w ex. discriminate. Qed.

Lemma civil_modify (f : Updater.t -> Updater.t) : civil (Py.modify f).
Proof. intros w ex. discriminate. Qed.

Lemma civil_bind {A B} (m : M Updater.t A) (k : A -> M Updater.t B) :
  civil m -> (forall a, civil (k a)) -> civil (Py.bind m k).
Proof.
  intros Hm Hk w ex. unfold Py.bind. specialize (Hm w).
  destruct (m w) as [[a | e] w1]; simpl in *.
  - apply Hk.
  - intros [= <-]. now apply Hm.
Qed.

Lemma civil_try_except {A} (m : M Updater.t A) (h : exn -> M Updater.t A) :
  civil m -> (forall e, civil (h e)) -> civil (Py.try_except m h).
Proof.
  intros Hm Hh w ex. unfold Py.try_except. specialize (Hm w).
  destruct (m w) as [[a | e] w1]; simpl in *; [discriminate |].
  rewrite (Hm e eq_refl). apply Hh.
Qed.

Lemma civil_try_finally {A} (m : M Updater.t A) (f : M Updater.t unit) :
  civil m -> civil f -> civil (Py.try_finally m f).
Proof.
  intros Hm Hf w ex. unfold Py.try_finally. specialize (Hm w).
  destruct (m w) as [r w1]. specialize (Hf w1).
  destruct (f w1) as [[[] | e] w2]; simpl in *.
  - destruct r; [discriminate |]. apply Hm.
  - intros [= <-]. now apply Hf.
Qed.

(** The backend client raises ordinary exceptions only. *)
Definition polite_reports (e : Updater.env) : Prop :=
  forall id status error ex,
    Updater.report_update_status e id status error = Raise ex ->
    Py.is_Exception ex = true.

Definition polite (e : Updater.env) : Prop :=
  (forall ex, Updater.check_updates e = Raise ex -> Py.is_Exception ex = true)
  /\ (forall u ex, Updater.download_update e u = Raise ex -> Py.is_Exception ex = true)
  /\ polite_reports e.

Lemma civil_check_updates e : polite e -> civil (Updater.call_check_updates e).
Proof. intros (H & _) w ex. apply H. Qed.

Lemma civil_download e u : polite e -> civil (Updater.call_download_update e u).
Proof. intros (_ & H & _) w ex. apply H. Qed.

Lemma civil_report e id status error :
  polite_reports e -> civil (Updater.call_report e id status error).
Proof. intros H w ex. apply H. Qed.

Lemma civil_create_backup e : civil (Updater._create_backup e).
Proof.
  intros w ex. unfold Updater._create_backup.
  destruct (Updater.app_dir w); [| discriminate].
  destruct (Updater.backup_write_fails e); discriminate.
Qed.

Lemma civil_extract e data u : civil (Updater._extract_update e data u).
Proof.
  intros w ex. unfold Updater._extract_update.
  destruct (_ || _); [| discriminate].
  destruct (Updater.unpack e _ data); discriminate.
Qed.

Create HintDb civil.
#[local] Hint Resolve civil_ret civil_get civil_modify civil_check_updates civil_download
  civil_report civil_create_backup civil_extract : civil.

Ltac civil :=
  repeat first
    [ progress auto with civil
    | apply civil_raise; reflexivity
    | apply civil_bind; [| intros ?]
    | apply civil_try_except; [| intros ?]
    | apply civil_try_finally
    | match goal with
      | |- civil (match ?x with _ => _ end) => destruct x
      | |- civil (if ?b then _ else _) => destruct b
      end ].

Lemma civil_apply e st : civil (Updater._apply_update e st).
Proof.
  unfold Updater._apply_update, Updater._run_script, Updater._copy_update_files,
    Updater._install_requirements.
  civil.
Qed.

Lemma civil_update_version e v : civil (Updater._update_version e v).
Proof. unfold Updater._update_version. civil. Qed.

Lemma civil_schedule_restart e : civil (Updater._schedule_restart e).
Proof. unfold Updater._schedule_restart. civil. Qed.

Lemma civil_restore e : civil (Updater._restore_backup e).
Proof. unfold Updater._restore_backup. civil. Qed.

#[local] Hint Resolve civil_apply civil_update_version civil_schedule_restart
  civil_restore : civil.

Lemma civil_perform_update e u : polite e -> civil (Updater._perform_update e u).
Proof.
  intros He. pose proof He as (_ & _ & Hr). unfold Updater._perform_update. civil.
Qed.

(** X14.  With a backend client that raises ordinary exceptions only,
    [check_and_update] returns normally whatever fails on the way: the
    check, the download, a status report, the backup, the installation or
    the restore. *)
Theorem check_and_update_never_raises (e : Updater.env) (w : Updater.t) :
  polite e -> fst (Updater.check_and_update e w) = Ok tt.
Proof.
  intros He. unfold Updater.check_and_update.
  destruct (Updater.updating w); [reflexivity |].
  unfold Py.try_except.
  match goal with
  | |- context [?m w] =>
      match type of m with
      | M Updater.t unit =>
          assert (Hc : civil m); [| specialize (Hc w); destruct (m w) as [[[] | ex] w1]]
      end
  end.
  - pose proof (civil_perform_update e) as Hp. civil.
  - reflexivity.
  - simpl in *. now rewrite (Hc ex eq_refl).
Qed.

Lemma check_and_update_never_raises_witness :
  fst (Updater.check_and_update older_offer_env newer_device) = Ok tt.
Proof.
  apply (check_and_update_never_raises older_offer_env newer_device).
  repeat split; intros; discriminate.
Defined.

(** ** All or nothing *)

Lemma bind_ok {S A B} (m : M S A) (k : A -> M S B) (s s' : S) (b : B) :
  Py.bind m k s = (Ok b, s') ->
  exists a s1, m s = (Ok a, s1) /\ k a s1 = (Ok b, s').
Proof.
  unfold Py.bind. destruct (m s) as [[a | e] s1]; [| discriminate].
  intros H. now exists a, s1.
Qed.

Lemma bind_raise {S A B} (m : M S A) (k : A -> M S B) (s s' : S) (ex : exn) :
  Py.bind m k s = (Raise ex, s') ->
  m s = (Raise ex, s') \/ exists a s1, m s = (Ok a, s1) /\ k a s1 = (Raise ex, s').
Proof.
  unfold Py.bind. destruct (m s) as [[a | e] s1]; [| intros [= -> ->]; now left].
  intros H. right. now exists a, s1.
Qed.

Lemma tree_get_set (path content : string) (t : Updater.tree) :
  Updater.tree_get path (Updater.tree_set path content t) = Some content.
Proof.
  induction t as [| [p c] t IH]; simpl.
  - now rewrite String.eqb_refl.
  - destruct (String.eqb p path) eqn:E; simpl; now rewrite ?E.
Qed.

Lemma tree_get_set_other (path path' content : string) (t : Updater.tree) :
  path' <> path ->
  Updater.tree_get path' (Updater.tree_set path content t) = Updater.tree_get path' t.
Proof.
  intros Hne. induction t as [| [p c] t IH]; simpl.
  - destruct (String.eqb_spec path path'); [congruence | reflexivity].
  - destruct (String.eqb_spec p path) as [-> | Hp]; simpl.
    + destruct (String.eqb_spec path path'); [congruence | reflexivity].
    + now rewrite IH.
Qed.

(** The archive [_create_backup] has just written is the one
    [_restore_backup] takes, when it is newer than every archive that was
    there. *)
Lemma new_backup_is_latest (w : Updater.t) (a : Updater.archive) :
  (forall b, b ∈ Updater.backup_dir w -> (Updater.a_ctime b < Updater.a_ctime a)%nat) ->
  let others := List.filter (fun b => negb (Updater.name_eqb a b)) (Updater.backup_dir w) in
  Updater.latest
    (Updater.backup_dir
       (Updater._cleanup_old_backups (Updater.set_backup_dir (others ++ [a]) w)))
  = Some a.
Proof.
  intros Hnew others. unfold Updater._cleanup_old_backups. simpl.
  set (L := others ++ [a]).
  set (sorted := Updater.sort_newest_first L).
  set (doomed := drop 5 sorted).
  pose proof (sort_newest_first_perm L) as Hperm. fold sorted in Hperm.
  pose proof (sort_newest_first_sorted L) as Hsorted. fold sorted in Hsorted.
  assert (Hothers : forall b, b ∈ others ->
            Updater.name_eqb a b = false
            /\ (Updater.a_ctime b < Updater.a_ctime a)%nat).
  { intros b Hb. apply elem_of_List_filter in Hb as [Hb Hn].
    split; [now apply negb_true_iff in Hn | now apply Hnew]. }
  assert (HL : forall b, b ∈ L -> b = a \/ (Updater.a_ctime b < Updater.a_ctime a)%nat).
  { intros b Hb. apply elem_of_app in Hb as [Hb | Hb].
    - right. now apply Hothers.
    - left. now apply list_elem_of_singleton in Hb. }
  assert (Hnot : a ∉ others).
  { intros Ha. destruct (Hothers a Ha) as [Hn _].
    unfold Updater.name_eqb in Hn. now rewrite String.eqb_refl in Hn. }
  assert (Hdoomed : a ∉ doomed).
  { intros Hd.
    assert (Hhead : a ∈ take 5 sorted).
    { destruct sorted as [| x sorted'] eqn:Es; [now apply elem_of_nil in Hd |].
      assert (Hx : x ∈ take 5 (x :: sorted')) by (simpl; left).
      pose proof (newest_first_take_drop 5 (x :: sorted') x a Hsorted Hx Hd) as Hle.
      assert (HxL : x ∈ L) by (rewrite <- Hperm; left).
      destruct (HL x HxL) as [-> | Hlt]; [exact Hx | lia]. }
    apply elem_of_Permutation in Hhead as [t Ht].
    apply elem_of_Permutation in Hd as [d Hd].
    assert (Hs : a :: (a :: t ++ d) ≡ₚ a :: others).
    { symmetry. etransitivity; [apply Permutation_cons_append |].
      fold L. rewrite <- Hperm.
      transitivity (take 5 sorted ++ doomed); [unfold doomed; now rewrite take_drop |].
      rewrite Ht, Hd. symmetry. apply (Permutation_middle (a :: t) d a). }
    apply Permutation_cons_inv in Hs.
    apply Hnot. rewrite <- Hs. left. }
  assert (Hkept : a ∈ List.filter (fun x => negb (existsb (Updater.name_eqb x) doomed)) L).
  { apply elem_of_List_filter. split; [apply elem_of_app; right; left |].
    apply negb_true_iff. apply not_true_is_false. intros Hex.
    apply existsb_exists in Hex as (b & Hb & Heq). apply list_elem_of_In in Hb.
    assert (HbL : b ∈ L).
    { rewrite <- Hperm. now apply (subseteq_drop 5 sorted). }
    apply elem_of_app in HbL as [HbL | HbL].
    - destruct (Hothers b HbL) as [Hn _]. congruence.
    - apply list_elem_of_singleton in HbL. subst b. contradiction. }
  pose proof (latest_spec
                (List.filter (fun x => negb (existsb (Updater.name_eqb x) doomed)) L)) as Hl.
  destruct (Updater.latest _) as [b |].
  - destruct Hl as [Hb Hmax]. specialize (Hmax a Hkept).
    apply elem_of_List_filter in Hb as [Hb _].
    destruct (HL b Hb) as [-> | Hlt]; [reflexivity | lia].
  - rewrite Hl in Hkept. now apply elem_of_nil in Hkept.
Qed.

(** The session up to the backup, and from there on. *)
Definition until_backup (e : Updater.env) (u : Updater.update_info)
    (tail : string -> M Updater.t unit) : M Updater.t unit :=
  (Py.modify (Updater.set_updating true) ;;;
   Updater.call_report e (Updater.ui_id u) "started" None ;;;
   update_data <- Updater.call_download_update e u ;;
   (if String.eqb update_data "" then
      Py.raise (Exception "Download aggiornamento fallito")
    else Py.ret tt) ;;;
   (if negb (Updater._verify_update e update_data u) then
      Py.raise (Exception "Verifica integrita aggiornamento fallita")
    else Py.ret tt) ;;;
   backup_path <- Updater._create_backup e ;;
   (match backup_path with
    | None => Py.raise (Exception "Creazione backup fallita")
    | Some _ => Py.ret tt
    end) ;;;
   tail update_data)%py.

Definition after_backup (e : Updater.env) (u : Updater.update_info)
    (update_data : string) : M Updater.t unit :=
  (extracted_path <- Updater._extract_update e update_data u ;;
   match extracted_path with
   | None => Py.raise (Exception "Estrazione aggiornamento fallita")
   | Some st =>
       Updater._apply_update e st ;;;
       Updater._update_version e (Updater.ui_version u) ;;;
       Updater.call_report e (Updater.ui_id u) "completed" None ;;;
       if default true (Updater.ui_requires_restart u) then Updater._schedule_restart e
       else Py.ret tt
   end)%py.

Definition on_failure (e : Updater.env) (u : Updater.update_info) (ex : exn)
    : M Updater.t unit :=
  (Updater.call_report e (Updater.ui_id u) "failed" (Some (Py.str ex)) ;;;
   Updater._restore_backup e)%py.

Lemma session_split (e : Updater.env) (u : Updater.update_info) :
  session e u = Py.try_except (until_backup e u (after_backup e u)) (on_failure e u).
Proof. reflexivity. Qed.

Lemma until_backup_eq (e : Updater.env) (u : Updater.update_info)
    (tail : string -> M Updater.t unit) (w : Updater.t)
    (files : Updater.tree) (data : string) :
  (forall id status error, Updater.report_update_status e id status error = Ok tt) ->
  Updater.download_update e u = Ok data ->
  data <> "" ->
  Updater._verify_update e data u = true ->
  Updater.app_dir w = Some files ->
  Updater.backup_write_fails e = false ->
  (forall b, b ∈ Updater.backup_dir w -> (Updater.a_ctime b < Updater.loop_time w)%nat) ->
  exists w1,
    until_backup e u tail w = tail data w1
    /\ Updater.app_dir w1 = Some files
    /\ (exists a, Updater.latest (Updater.backup_dir w1) = Some a
                  /\ Updater.a_tree a = files).
Proof.
  intros Hrep Hdl Hdata Hver Happ Hbw Hnew.
  unfold until_backup, Py.bind, Py.modify, Updater.call_report,
    Updater.call_download_update, Py.raise, Py.ret.
  rewrite !Hrep, Hdl.
  destruct (String.eqb_spec data "") as [-> | _]; [congruence |].
  rewrite Hver. cbn [negb].
  unfold Updater._create_backup, Updater.with_archive.
  cbn [Updater.app_dir Updater.add_request
                                       Updater.set_updating].
  rewrite Happ, Hbw.
  eexists. split; [reflexivity |]. split; [exact Happ |].
  match goal with
  | |- context [Updater.set_backup_dir (_ ++ [?a]) ?w0] =>
      exists a; split; [apply (new_backup_is_latest w0 a); exact Hnew | reflexivity]
  end.
Qed.

Lemma after_backup_frames_backups e u data :
  frames Updater.backup_dir (after_backup e u data).
Proof.
  unfold after_backup, Updater._extract_update, Updater._apply_update,
    Updater._run_script, Updater._copy_update_files, Updater._install_requirements,
    Updater._update_version, Updater._schedule_restart.
  frames.
Qed.

Lemma after_backup_civil e u data : polite_reports e -> civil (after_backup e u data).
Proof. intros He. unfold after_backup. civil. Qed.

Lemma schedule_restart_eq e w :
  exists w', Updater._schedule_restart e w = (Ok tt, w')
             /\ Updater.requests w' = Updater.requests w
             /\ Updater.app_dir w' = Updater.app_dir w.
Proof.
  unfold Updater._schedule_restart. destruct (Updater.restart_touch_fails e);
    eexists; repeat split.
Qed.

Lemma update_version_ok e ver w w' :
  Updater._update_version e ver w = (Ok tt, w') ->
  exists v, ver = Some v /\ Updater.get_current_version w' = Builtins.strip v.
Proof.
  unfold Updater._update_version, Py.bind, Py.get, Py.modify, Py.raise.
  destruct (Updater.app_dir w) as [files |]; [| discriminate].
  destruct (Updater.version_write_fails e); [discriminate |].
  destruct ver as [v |]; [| discriminate].
  intros [= <-]. exists v. split; [reflexivity |].
  unfold Updater.get_current_version. simpl. now rewrite tree_get_set.
Qed.

Lemma after_backup_ok e u data w1 w2 :
  after_backup e u data w1 = (Ok tt, w2) ->
  last (Updater.requests w2)
  = Some (Updater.ReportUpdateStatus (Updater.ui_id u) "completed" None)
  /\ exists v, Updater.ui_version u = Some v
               /\ Updater.get_current_version w2 = Builtins.strip v.
Proof.
  unfold after_backup. intros H.
  apply bind_ok in H as ([st |] & wa & _ & H); [| discriminate].
  apply bind_ok in H as ([] & wb & _ & H).
  apply bind_ok in H as ([] & wc & Hver & H).
  apply bind_ok in H as ([] & wd & Hrep & H).
  apply update_version_ok in Hver as (v & Hv & Hcur).
  unfold Updater.call_report in Hrep. injection Hrep as _ <-.
  assert (Hend : Updater.requests w2
                 = Updater.requests wc
                   ++ [Updater.ReportUpdateStatus (Updater.ui_id u) "completed" None]
                 /\ Updater.app_dir w2 = Updater.app_dir wc).
  { destruct (default true (Updater.ui_requires_restart u)).
    - destruct (schedule_restart_eq e
                  (Updater.add_request
                     (Updater.ReportUpdateStatus (Updater.ui_id u) "completed" None) wc))
        as (w' & Heq & Hr & Ha).
      rewrite Heq in H. injection H as <-. now rewrite Hr, Ha.
    - injection H as <-. split; reflexivity. }
  destruct Hend as [Hreq Happ]. split.
  - rewrite Hreq. apply last_snoc.
  - exists v. split; [exact Hv |].
    unfold Updater.get_current_version in *. now rewrite Happ.
Qed.

(** X15.  An update whose package passed verification either completes or
    leaves the application as it was.  Let the backend take the status
    reports, the backup succeed and be newer than the archives already
    there, and the extraction of a backup work.  Then [_perform_update]
    returns with the flag cleared, and either its last report is
    [completed] and the version marker reads the offered version, or its
    last report is [failed] and the application tree is the one the session
    started with. *)
Theorem perform_update_all_or_nothing (e : Updater.env) (u : Updater.update_info)
    (w : Updater.t) (files : Updater.tree) (data : string) :
  (forall id status error, Updater.report_update_status e id status error = Ok tt) ->
  Updater.download_update e u = Ok data ->
  data <> "" ->
  Updater._verify_update e data u = true ->
  Updater.app_dir w = Some files ->
  Updater.backup_write_fails e = false ->
  (forall b, b ∈ Updater.backup_dir w -> (Updater.a_ctime b < Updater.loop_time w)%nat) ->
  Updater.restore_extract_fails e = false ->
  let w' := snd (Updater._perform_update e u w) in
  fst (Updater._perform_update e u w) = Ok tt
  /\ Updater.updating w' = false
  /\ ((last (Updater.requests w')
       = Some (Updater.ReportUpdateStatus (Updater.ui_id u) "completed" None)
       /\ exists v, Updater.ui_version u = Some v
                    /\ Updater.get_current_version w' = Builtins.strip v)
      \/ ((exists msg,
             last (Updater.requests w')
             = Some (Updater.ReportUpdateStatus (Updater.ui_id u) "failed" (Some msg)))
          /\ Updater.app_dir w' = Some files)).
Proof.
  intros Hrep Hdl Hdata Hver Happ Hbw Hnew Hextract w'. subst w'.
  assert (Hpolite : polite_reports e).
  { intros id status error ex H. rewrite Hrep in H. discriminate. }
  rewrite perform_update_session, session_split.
  destruct (until_backup_eq e u (after_backup e u) w files data
              Hrep Hdl Hdata Hver Happ Hbw Hnew)
    as (w1 & Heq & Happ1 & a & Hlatest & Htree).
  unfold Py.try_finally, Py.try_except. rewrite Heq.
  pose proof (after_backup_frames_backups e u data w1) as Hframe.
  pose proof (after_backup_civil e u data Hpolite w1) as Hcivil.
  destruct (after_backup e u data w1) as [[[] | ex] w2] eqn:Htail; cbn [fst snd] in *.
  - unfold Py.modify. cbn [fst snd]. split; [reflexivity |]. split; [reflexivity |].
    left. apply after_backup_ok in Htail as [Hlast Hv]. split; [exact Hlast | exact Hv].
  - rewrite (Hcivil ex eq_refl).
    unfold on_failure, Py.bind, Updater.call_report. rewrite Hrep.
    unfold Updater._restore_backup, Py.bind, Py.get, Py.modify, Py.ret.
    cbn [Updater.backup_dir Updater.add_request]. rewrite Hframe, Hlatest, Hextract.
    cbn [fst snd]. split; [reflexivity |]. split; [reflexivity |].
    right. split.
    + exists (Py.str ex). cbn [Updater.requests Updater.set_updating Updater.set_app_dir
                             Updater.add_request]. apply last_snoc.
    + cbn [Updater.app_dir Updater.set_updating Updater.set_app_dir]. now rewrite Htree.
Qed.

(** A device with one archive, offered an update whose files cannot be
    copied into place: the copy creates the directory and fails on the
    file. *)
Definition unwritable_env : Updater.env :=
  Updater.mk_env (Ok None) (fun _ => Ok "PACKAGE") (fun _ _ _ => Ok tt) (fun _ => "")
    (fun _ _ => Ok (Updater.mk_staged (Some [("main.py", "v3")]) None None))
    0 false None true (Some []) false false false None.

Definition next_offer : Updater.update_info :=
  Updater.mk_info (Some "u8") (Some "1.2.0") None None None None (Some true).

Lemma perform_update_all_or_nothing_witness :
  let w' := snd (Updater._perform_update unwritable_env next_offer updated_device) in
  fst (Updater._perform_update unwritable_env next_offer updated_device) = Ok tt
  /\ Updater.updating w' = false
  /\ ((last (Updater.requests w')
       = Some (Updater.ReportUpdateStatus (Some "u8") "completed" None)
       /\ exists v, Some "1.2.0" = Some v
                    /\ Updater.get_current_version w' = Builtins.strip v)
      \/ ((exists msg,
             last (Updater.requests w')
             = Some (Updater.ReportUpdateStatus (Some "u8") "failed" (Some msg)))
          /\ Updater.app_dir w' = Some [("VERSION", "1.1.0"); ("main.py", "v2")])).
Proof.
  apply (perform_update_all_or_nothing unwritable_env next_offer updated_device
           [("VERSION", "1.1.0"); ("main.py", "v2")] "PACKAGE");
    try reflexivity; try discriminate.
  intros b Hb. apply list_elem_of_singleton in Hb. subst b. simpl. lia.
Defined.

(** The same session, evaluated: the copy fails with the old tree already
    removed, and the restore brings it back from the archive the session
    made. *)
Example failed_copy_is_rolled_back :
  let w' := snd (Updater._perform_update unwritable_env next_offer updated_device) in
  Updater.app_dir w' = Updater.app_dir updated_device
  /\ Updater.requests w'
     = [ Updater.ReportUpdateStatus (Some "u8") "started" None;
         Updater.DownloadUpdate next_offer;
         Updater.ReportUpdateStatus (Some "u8") "failed" (Some "OSError") ]
  /\ map Updater.a_name (Updater.backup_dir w')
     = ["backup_1.0.0_100.tar.gz"; "backup_1.1.0_200.tar.gz"].
Proof. vm_compute. repeat split. Qed.

(** ** A good package *)

Definition script_passes (code : option Z) : Prop := code = None \/ code = Some 0.

(** X16.  A verified package on a healthy device is installed: when the
    backend takes the reports, the backup can be written, the package
    unpacks, its scripts (if any) exit with 0, the copy and the dependency
    installation succeed and the version marker can be written, the
    application tree is the package's with the marker set to the offered
    version, and the backend has seen the report [started], the download
    and the report [completed], in this order. *)
Theorem perform_update_installs (e : Updater.env) (u : Updater.update_info)
    (w : Updater.t) (files new_files : Updater.tree) (data v : string)
    (st : Updater.staged) :
  (forall id status error, Updater.report_update_status e id status error = Ok tt) ->
  Updater.download_update e u = Ok data ->
  data <> "" ->
  Updater._verify_update e data u = true ->
  Updater.app_dir w = Some files ->
  Updater.backup_write_fails e = false ->
  In (default "tar.gz" (Updater.ui_format u)) ["tar.gz"; "tgz"; "zip"] ->
  Updater.unpack e (default "tar.gz" (Updater.ui_format u)) data = Ok st ->
  script_passes (Updater.st_pre_update st) ->
  script_passes (Updater.st_post_update st) ->
  Updater.st_app st = Some new_files ->
  Updater.copytree_fails e = false ->
  Updater.tree_get "requirements.txt" new_files = None \/ Updater.pip_exit_code e = 0 ->
  Updater.ui_version u = Some v ->
  Updater.version_write_fails e = false ->
  let w' := snd (Updater._perform_update e u w) in
  fst (Updater._perform_update e u w) = Ok tt
  /\ Updater.app_dir w' = Some (Updater.tree_set "VERSION" v new_files)
  /\ Updater.get_current_version w' = Builtins.strip v
  /\ Updater.requests w'
     = Updater.requests w
       ++ [ Updater.ReportUpdateStatus (Updater.ui_id u) "started" None;
            Updater.DownloadUpdate u;
            Updater.ReportUpdateStatus (Updater.ui_id u) "completed" None ]
  /\ Updater.updating w' = false
  /\ (default true (Updater.ui_requires_restart u) = true ->
      Updater.restart_touch_fails e = false -> Updater.restart_required w' = true).
Proof.
  intros Hrep Hdl Hdata Hver Happ Hbw Hfmt Hunpack Hpre Hpost Hstapp Hcopy Hreq Hv Hvw w'.
  subst w'.
  unfold Updater._perform_update, Py.try_finally, Py.try_except, Py.bind,
    Py.modify, Updater.call_report, Updater.call_download_update, Py.raise, Py.ret.
  rewrite !Hrep, Hdl.
  destruct (String.eqb_spec data "") as [-> | _]; [congruence |].
  rewrite Hver. cbn [negb].
  unfold Updater._create_backup, Updater.with_archive.
  cbn [Updater.app_dir Updater.add_request
                                       Updater.set_updating].
  rewrite Happ, Hbw.
  unfold Updater._extract_update.
  assert (Hsupported :
            String.eqb (default "tar.gz" (Updater.ui_format u)) "tar.gz"
            || String.eqb (default "tar.gz" (Updater.ui_format u)) "tgz"
            || String.eqb (default "tar.gz" (Updater.ui_format u)) "zip" = true).
  { destruct Hfmt as [<- | [<- | [<- | []]]]; reflexivity. }
  rewrite Hsupported, Hunpack. unfold Py.ret.
  unfold Updater._apply_update, Py.bind, Py.get, Py.ret.
  assert (Hscript : forall code (x : Updater.t), script_passes code ->
            match code with
            | Some c => Updater._run_script c
            | None => fun s => (Ok tt, s)
            end x = (Ok tt, x)).
  { intros code x [-> | ->]; reflexivity. }
  rewrite (Hscript _ _ Hpre). rewrite Hstapp.
  unfold Updater._copy_update_files, Py.bind, Py.modify. rewrite Hcopy.
  rewrite (Hscript _ _ Hpost).
  unfold Updater.has_file. cbn [Updater.app_dir Updater.set_app_dir].
  assert (Hpip : (match Updater.tree_get "requirements.txt" new_files with
                  | Some _ => true
                  | None => false
                  end = false) \/ Updater._install_requirements e = Py.ret tt).
  { destruct Hreq as [-> | Hz]; [now left |]. right.
    unfold Updater._install_requirements. now rewrite Hz. }
  assert (Hinst : forall x : Updater.t,
            (if match Updater.tree_get "requirements.txt" new_files with
                | Some _ => true
                | None => false
                end
             then Updater._install_requirements e else fun s => (Ok tt, s)) x = (Ok tt, x)).
  { intros x. destruct Hpip as [-> | ->]; [reflexivity |].
    now destruct (match _ with Some _ => true | None => false end). }
  rewrite Hinst.
  unfold Updater._update_version, Py.bind, Py.get, Py.modify.
  cbn [Updater.app_dir Updater.set_app_dir]. rewrite Hvw, Hv. rewrite ?Hrep.
  destruct (default true (Updater.ui_requires_restart u)) eqn:Hrr.
  - unfold Updater._schedule_restart, Py.modify, Py.ret.
    destruct (Updater.restart_touch_fails e) eqn:Htouch; cbn;
      rewrite ?tree_get_set; repeat split; try discriminate;
      now rewrite <- !app_assoc.
  - cbn. rewrite ?tree_get_set. repeat split; try discriminate.
    now rewrite <- !app_assoc.
Qed.

Lemma perform_update_installs_witness :
  let w' := snd (Updater._perform_update older_offer_env older_offer newer_device) in
  Updater.app_dir w' = Some [("main.py", "v1"); ("VERSION", "1.0.0")]
  /\ Updater.get_current_version w' = "1.0.0".
Proof.
  destruct (perform_update_installs older_offer_env older_offer newer_device
              [("VERSION", "2.0.0"); ("main.py", "v2")] [("main.py", "v1")]
              "PACKAGE" "1.0.0" (Updater.mk_staged (Some [("main.py", "v1")]) None None))
    as (_ & Happ & Hver & _);
    try reflexivity; try discriminate; try (left; reflexivity).
  split; [exact Happ | exact Hver].
Defined.

(** X17.  The handler of [_perform_update] restores the backup only after
    the backend has taken the report of the failure.  If the removal of the
    old tree or the copy of the new files fails and that report raises,
    then [_perform_update] raises the report's exception, the flag is
    cleared, and the application directory is exactly what the failed copy
    left ([Updater.copytree_leaves]: missing, or holding the part that was
    copied), not the tree the session started with, while the archive of
    that tree lies unused in the backup directory. *)
Theorem failed_report_skips_restore (e : Updater.env) (u : Updater.update_info)
    (w : Updater.t) (files new_files : Updater.tree) (data : string)
    (st : Updater.staged) (ex : exn) :
  Updater.report_update_status e (Updater.ui_id u) "started" None = Ok tt ->
  (forall msg, Updater.report_update_status e (Updater.ui_id u) "failed" msg = Raise ex) ->
  Updater.download_update e u = Ok data ->
  data <> "" ->
  Updater._verify_update e data u = true ->
  Updater.app_dir w = Some files ->
  Updater.backup_write_fails e = false ->
  In (default "tar.gz" (Updater.ui_format u)) ["tar.gz"; "tgz"; "zip"] ->
  Updater.unpack e (default "tar.gz" (Updater.ui_format u)) data = Ok st ->
  script_passes (Updater.st_pre_update st) ->
  Updater.st_app st = Some new_files ->
  Updater.copytree_fails e = true ->
  let w' := snd (Updater._perform_update e u w) in
  fst (Updater._perform_update e u w) = Raise ex
  /\ Updater.app_dir w' = Updater.copytree_leaves e
  /\ Updater.updating w' = false
  /\ ((forall b, b ∈ Updater.backup_dir w ->
         (Updater.a_ctime b < Updater.loop_time w)%nat) ->
      exists a, Updater.latest (Updater.backup_dir w') = Some a
                /\ Updater.a_tree a = files).
Proof.
  intros Hstart Hfailed Hdl Hdata Hver Happ Hbw Hfmt Hunpack Hpre Hstapp Hcopy w'.
  subst w'. destruct st as [app pre post]. cbn [Updater.st_app Updater.st_pre_update] in *.
  subst app.
  unfold Updater._perform_update, Py.try_finally, Py.try_except, Py.bind,
    Py.modify, Updater.call_report, Updater.call_download_update, Py.raise, Py.ret.
  rewrite Hstart, Hdl.
  destruct (String.eqb_spec data "") as [-> | _]; [congruence |].
  rewrite Hver. cbn [negb].
  unfold Updater._create_backup, Updater.with_archive.
  cbn [Updater.app_dir Updater.add_request
                                       Updater.set_updating].
  rewrite Happ, Hbw.
  unfold Updater._extract_update.
  assert (Hsupported :
            String.eqb (default "tar.gz" (Updater.ui_format u)) "tar.gz"
            || String.eqb (default "tar.gz" (Updater.ui_format u)) "tgz"
            || String.eqb (default "tar.gz" (Updater.ui_format u)) "zip" = true).
  { destruct Hfmt as [<- | [<- | [<- | []]]]; reflexivity. }
  rewrite Hsupported, Hunpack. unfold Py.ret.
  unfold Updater._apply_update, Py.bind, Py.get, Py.ret.
  cbn [Updater.st_app Updater.st_pre_update Updater.st_post_update].
  unfold Updater._copy_update_files, Py.bind, Py.modify, Py.raise. rewrite Hcopy.
  destruct Hpre as [-> | ->]; cbn [Updater._run_script Z.eqb negb Py.ret];
    cbn [Py.is_Exception Py.str]; rewrite Hfailed; cbn [fst snd];
    (split; [reflexivity |]); (split; [reflexivity |]); (split; [reflexivity |]);
    intros Hnew;
    match goal with
    | |- context [Updater.set_backup_dir (_ ++ [?a]) ?w0] =>
        exists a; split; [apply (new_backup_is_latest w0 a); exact Hnew | reflexivity]
    end.
Qed.

(** The backend cannot be told of a failure, and the copy of the package
    stops after the first of its two files. *)
Definition unreachable_env : Updater.env :=
  Updater.mk_env (Ok None) (fun _ => Ok "PACKAGE")
    (fun _ status _ => if String.eqb status "failed" then Raise TransportError else Ok tt)
    (fun _ => "")
    (fun _ _ => Ok (Updater.mk_staged
                      (Some [("main.py", "v3"); ("reader.py", "v3")]) None None))
    0 false None true (Some [("main.py", "v3")]) false false false None.

Lemma failed_report_skips_restore_witness :
  let w' := snd (Updater._perform_update unreachable_env next_offer updated_device) in
  fst (Updater._perform_update unreachable_env next_offer updated_device)
  = Raise TransportError
  /\ Updater.app_dir w' = Some [("main.py", "v3")].
Proof.
  destruct (failed_report_skips_restore unreachable_env next_offer updated_device
              [("VERSION", "1.1.0"); ("main.py", "v2")]
              [("main.py", "v3"); ("reader.py", "v3")]
              "PACKAGE"
              (Updater.mk_staged (Some [("main.py", "v3"); ("reader.py", "v3")])
                 None None)
              TransportError)
    as (Hres & Happ & _);
    try reflexivity; try discriminate; try (left; reflexivity).
  split; [exact Hres | exact Happ].
Defined.


(** ** Stopping the relays (src/relay_controller.py) *)

(** A task on one channel is on no other. *)
Lemma on_channel_one (s : Relay.t) (c ch : Z) (j : nat) :
  on_channel s c j -> on_channel s ch j -> c = ch.
Proof. intros (tk & H1 & <-) (tk' & H2 & <-). congruence. Qed.

(** Nothing queued or timed will switch channel [c] on. *)
Definition calm (s : Relay.t) (c : Z) : Prop :=
  no_timer s c /\ forall j, j ∈ Relay.ready s -> harmless s c j.

Lemma closing_calm (s : Relay.t) (c : Z) : closing s c -> calm s c.
Proof. intros [Ht Hr _]. now split. Qed.

Lemma calm_off_closing (s : Relay.t) (c : Z) :
  calm s c -> Relay.get_relay_state c s = false -> closing s c.
Proof.
  intros [Ht Hr] Hoff. split; [exact Ht | exact Hr |].
  intros Hon. unfold Relay.get_relay_state in Hoff. rewrite Hon in Hoff. discriminate.
Qed.

Lemma cancel_calm (tid : nat) (s : Relay.t) (c : Z) :
  calm s c -> calm (Relay.cancel tid s) c.
Proof.
  intros [Ht Hr].
  destruct (cancel_effect tid s) as (_ & Hsame & _ & Hnew & Hready & Hsub & _).
  cbv zeta in *. split.
  - intros dl j Hin Hc. apply (Ht dl j); [now apply Hsub |].
    now apply (on_channel_same tid s (Relay.cancel tid s)).
  - intros j Hj.
    assert (Hold : j ∈ Relay.ready s -> harmless (Relay.cancel tid s) c j).
    { intros H. apply (harmless_same tid s); [exact Hsame | now apply Hr]. }
    destruct Hready as [Heq | [Heq _]]; rewrite Heq in Hj; [now apply Hold |].
    apply elem_of_app in Hj as [Hj | Hj]; [now apply Hold |].
    apply list_elem_of_singleton in Hj. subst j.
    intros tk Htk _. destruct (Hnew tk Htk) as [[o Ho] | Hm]; [left | now right].
    rewrite Ho. discriminate.
Qed.

Lemma cancel_other_quiet (tid : nat) (s : Relay.t) (c : Z) :
  ~ on_channel s c tid -> quiet_for c s (Relay.cancel tid s).
Proof.
  intros Hoff.
  destruct (cancel_effect tid s)
    as ((_ & _ & Hcur & Hnow) & Hsame & Hst & _ & Hready & Hsub & Hkept & _).
  cbv zeta in *.
  assert (Hon : forall j, on_channel (Relay.cancel tid s) c j <-> on_channel s c j)
    by (intros j; now apply (on_channel_same tid s)).
  split.
  - exact Hon.
  - intros j Hj. destruct Hsame as (_ & Hother & _). apply Hother.
    intros ->. contradiction.
  - now rewrite Hst.
  - destruct Hready as [Heq | [Heq _]].
    + exists []. rewrite app_nil_r. split; [exact Heq | constructor].
    + exists [tid]. split; [exact Heq |]. constructor; [| constructor].
      now rewrite Hon.
  - exact Hsub.
  - intros dl j Hin Hj. apply Hkept; [exact Hin |]. intros ->. contradiction.
  - now rewrite Hcur.
  - exact Hnow.
Qed.

Lemma phase_quiet_for (c : Z) (s s' : Relay.t) :
  quiet_for c s s' -> phase s c -> phase s' c.
Proof.
  intros Hq [(T & d & H) | [(T & k & Hk & H) | H]].
  - left. exists T, d. now apply (pending_quiet_for c s).
  - right. left. exists T, k. split; [exact Hk | now apply (open_quiet_for c s)].
  - right. right. now apply (closing_quiet_for c s).
Qed.

Lemma cancel_pending_eq (tid : nat) (s : Relay.t) :
  Relay.cancel_pending tid s = Relay.cancel tid s.
Proof.
  unfold Relay.cancel_pending, Relay.cancel, Relay.is_done.
  destruct (Relay.tasks s !! tid) as [tk |]; [| reflexivity].
  now destruct (Relay.t_stage tk).
Qed.

(** The cancellations of [emergency_stop_all] (lines 128-130). *)
Definition cancel_all (tids : list nat) (s : Relay.t) : Relay.t :=
  fold_left (fun s tid => Relay.cancel_pending tid s) tids s.

Lemma cancel_all_cons (tid : nat) (tids : list nat) (s : Relay.t) :
  cancel_all (tid :: tids) s = cancel_all tids (Relay.cancel tid s).
Proof. unfold cancel_all. simpl. now rewrite cancel_pending_eq. Qed.

Lemma recorded_cancel (tid : nat) (s : Relay.t) : recorded s -> recorded (Relay.cancel tid s).
Proof.
  intros Hrec ch old Hcur.
  destruct (cancel_effect tid s) as ((_ & _ & Hc & _) & Hsame & _). cbv zeta in *.
  rewrite Hc in Hcur. apply (on_channel_same tid s); [exact Hsame |]. now apply Hrec.
Qed.

Lemma valid_cancel (tid : nat) (s : Relay.t) : valid s -> valid (Relay.cancel tid s).
Proof.
  intros [Hr Ht].
  destruct (cancel_effect tid s) as (_ & (Hlen & _) & _ & _ & Hready & Hsub & _).
  cbv zeta in *. split.
  - intros j Hj. rewrite Hlen.
    destruct Hready as [Heq | [Heq [tk Htk]]]; rewrite Heq in Hj; [now apply Hr |].
    apply elem_of_app in Hj as [Hj | Hj]; [now apply Hr |].
    apply list_elem_of_singleton in Hj. subst j. eapply lookup_lt_Some; eauto.
  - intros dl j Hj. rewrite Hlen. apply (Ht dl j). now apply Hsub.
Qed.

Lemma cancel_all_setup (tids : list nat) (s : Relay.t) :
  same_setup s (cancel_all tids s)
  /\ Relay.relay_states (cancel_all tids s) = Relay.relay_states s
  /\ Relay.gpio (cancel_all tids s) = Relay.gpio s
  /\ (sound s -> sound (cancel_all tids s)).
Proof.
  revert s. induction tids as [| tid tids IH]; intros s.
  - split; [repeat split |]. split; [reflexivity |]. split; [reflexivity | auto].
  - rewrite cancel_all_cons.
    destruct (IH (Relay.cancel tid s)) as (Hs & Hst & Hg & Hsound).
    destruct (cancel_effect tid s) as (Hs0 & _ & Hst0 & _). cbv zeta in *.
    split; [eapply same_setup_trans; eauto |].
    split; [congruence |].
    split.
    + rewrite Hg. unfold Relay.cancel.
      destruct (Relay.tasks s !! tid) as [tk |]; [| reflexivity].
      destruct (Relay.t_stage tk); try reflexivity.
      now destruct (Relay.has_timer tid s).
    + intros [Hv Hr]. apply Hsound. split; [now apply valid_cancel | now apply recorded_cancel].
Qed.

Lemma cancel_all_calm (tids : list nat) (s : Relay.t) (c : Z) :
  calm s c -> calm (cancel_all tids s) c.
Proof.
  revert s. induction tids as [| tid tids IH]; intros s H; [exact H |].
  rewrite cancel_all_cons. apply IH. now apply cancel_calm.
Qed.

(** Once the task on record for [c] is among the cancelled, the channel is
    calm. *)
Lemma cancel_all_settles (tids : list nat) (c : Z) :
  forall s,
    recorded s -> phase s c ->
    (forall tid, tid ∈ tids -> exists ch, Relay._relay_tasks s !! ch = Some tid) ->
    (forall T, Relay._relay_tasks s !! c = Some T -> T ∈ tids) ->
    calm (cancel_all tids s) c.
Proof.
  induction tids as [| tid tids IH]; intros s Hrec Hph Hvals Hcur.
  - destruct Hph as [(T & d & [HT _ _ _]) | [(T & k & _ & [HT _ _ _ _ _]) | H]].
    + apply Hcur in HT. now apply elem_of_nil in HT.
    + apply Hcur in HT. now apply elem_of_nil in HT.
    + now apply closing_calm.
  - rewrite cancel_all_cons.
    destruct (decide (Relay._relay_tasks s !! c = Some tid)) as [Hc | Hc].
    + apply cancel_all_calm.
      destruct (settled_after_cancel s c Hph) as [Ht Hr].
      unfold cancelled in Ht, Hr. rewrite Hc in Ht, Hr. now split.
    + destruct (Hvals tid ltac:(left)) as [ch Hch].
      assert (Hoff : ~ on_channel s c tid).
      { intros Hon. pose proof (on_channel_one s c ch tid Hon (Hrec ch tid Hch)).
        subst ch. contradiction. }
      destruct (cancel_effect tid s) as ((_ & _ & Hsame & _) & _). cbv zeta in *.
      apply IH.
      * now apply recorded_cancel.
      * apply (phase_quiet_for c s); [now apply cancel_other_quiet | exact Hph].
      * intros j Hj. rewrite Hsame. apply Hvals. now right.
      * intros T HT. rewrite Hsame in HT.
        pose proof (Hcur T HT) as Hin. apply elem_of_cons in Hin as [-> | Hin];
          [contradiction | exact Hin].
Qed.

(** *** A channel that is off and calm stays off *)

Lemma step_keeps_off (tid : nat) (s : Relay.t) (c : Z) :
  harmless s c tid -> Relay.get_relay_state c s = false ->
  Relay.get_relay_state c (Relay.step_task tid s) = false.
Proof.
  intros Hh Hoff. unfold Relay.get_relay_state in *.
  destruct (step_task_effect tid s) as (_ & _ & Heff).
  destruct Heff as [_ _ _ _ _ Hst | ch d Htk _ _ Hst _ | ch d _ _ _ _ _ Hst
                   | tk _ _ _ _ _ Hst]; rewrite Hst.
  - exact Hoff.
  - destruct (decide (ch = c)) as [-> | Hne].
    + destruct (Hh _ Htk eq_refl) as [H | H]; [now contradiction H | discriminate].
    + now rewrite lookup_insert_ne.
  - exact Hoff.
  - destruct (can_set s (Relay.t_channel tk)); [| exact Hoff].
    destruct (decide (Relay.t_channel tk = c)) as [-> | Hne].
    + now rewrite lookup_insert_eq.
    + now rewrite lookup_insert_ne.
Qed.

(** Channel [c] is off and nothing pending will switch it on. *)
Definition stopped (s : Relay.t) (c : Z) : Prop :=
  closing s c /\ Relay.get_relay_state c s = false.

Lemma stopped_drain (n : nat) (s : Relay.t) (c : Z) :
  can_set s c = true -> stopped s c -> stopped (Relay.drain n s) c.
Proof.
  revert s. induction n as [| n IH]; intros s Hcan [Hc Hoff]; [now split |].
  destruct (Relay.ready s) as [| tid r] eqn:Hr.
  - rewrite drain_nil by exact Hr. now split.
  - rewrite (drain_cons n s tid r Hr). apply IH.
    + destruct (step_task_effect tid (popped r s)) as (Hs & _).
      now rewrite (can_set_same _ _ c Hs).
    + split; [now apply closing_step |].
      apply step_keeps_off; [| exact Hoff].
      apply (closing_ready s c Hc). rewrite Hr. now left.
Qed.

Lemma stopped_event (e : Relay.event) (s : Relay.t) (c : Z) :
  sound s -> is_Some (Relay.relay_pins s !! c) -> Relay.activates c e = false ->
  stopped s c -> stopped (Relay.do_event e s) c.
Proof.
  intros Hs Hk He Hst. pose proof (known_can_set s c Hk) as Hcan.
  destruct e as [ch d | |]; simpl.
  - simpl in He. apply Z.eqb_neq in He. destruct Hst as [Hc Hoff].
    assert (Hq : quiet_for c s (snd (Relay.activate_relay ch d s))).
    { apply activate_other_quiet; [exact He |]. intros old. apply Hs. }
    split; [now apply (closing_quiet_for c s) |].
    unfold Relay.get_relay_state in *. now rewrite (quiet_state _ _ _ Hq).
  - rewrite step_drain. now apply stopped_drain.
  - unfold Relay.tick, Relay.run_ready.
    destruct (stopped_drain (Relay.weight s) s c Hcan Hst) as [Hc Hoff].
    split; [now apply closing_fired | exact Hoff].
Qed.

Lemma stopped_run (c : Z) (rest : list Relay.event) :
  forall s,
    sound s -> is_Some (Relay.relay_pins s !! c) ->
    existsb (Relay.activates c) rest = false ->
    stopped s c -> stopped (Relay.run rest s) c.
Proof.
  induction rest as [| e rest IH]; intros s Hs Hk Hno Hst; [exact Hst |].
  simpl in Hno. apply orb_false_iff in Hno as [He Hno]. simpl.
  apply IH; [now apply sound_event | | exact Hno | now apply stopped_event].
  destruct (do_event_setup e s) as [_ ->]. exact Hk.
Qed.

(** *** Switching every channel off *)

(** What one call of [_set_relay_state] leaves alone. *)
Definition same_loop (s s' : Relay.t) : Prop :=
  same_setup s s'
  /\ Relay.tasks s' = Relay.tasks s
  /\ Relay.ready s' = Relay.ready s
  /\ Relay.timers s' = Relay.timers s.

Lemma same_loop_refl (s : Relay.t) : same_loop s s.
Proof. repeat split. Qed.

Lemma same_loop_trans (s1 s2 s3 : Relay.t) :
  same_loop s1 s2 -> same_loop s2 s3 -> same_loop s1 s3.
Proof.
  intros (H1 & T1 & R1 & M1) (H2 & T2 & R2 & M2).
  split; [eapply same_setup_trans; eauto |]. repeat split; congruence.
Qed.

Lemma switch_off_eq (channels : list Z) :
  forall s,
    (forall c, c ∈ channels -> is_Some (Relay.relay_pins s !! c)) ->
    exists s',
      Relay.switch_off channels s = (Ok tt, s')
      /\ same_loop s s'
      /\ (forall c, c ∈ channels -> Relay.relay_states s' !! c = Some false)
      /\ (forall c, c ∉ channels -> Relay.relay_states s' !! c = Relay.relay_states s !! c).
Proof.
  induction channels as [| ch channels IH]; intros s Hk.
  - exists s. split; [reflexivity |]. split; [apply same_loop_refl |].
    split; [intros c Hc; now apply elem_of_nil in Hc | reflexivity].
  - cbn [Relay.switch_off]. unfold Py.bind.
    destruct (set_relay_state_ok ch false s) as [g ->].
    { apply known_can_set, Hk. now left. }
    set (s1 := Relay.set_relay_states _ (Relay.set_gpio g s)).
    destruct (IH s1) as (s' & -> & Hloop & Hin & Hout).
    { intros c Hc. apply Hk. now right. }
    exists s'. split; [reflexivity |].
    split; [eapply same_loop_trans; [| exact Hloop]; repeat split |].
    split.
    + intros c Hc. destruct (decide (c ∈ channels)) as [Hc' | Hc']; [now apply Hin |].
      rewrite Hout by exact Hc'. apply elem_of_cons in Hc as [-> | Hc]; [| contradiction].
      subst s1. simpl. now rewrite lookup_insert_eq.
    + intros c Hc. apply not_elem_of_cons in Hc as [Hne Hc].
      rewrite Hout by exact Hc. subst s1. simpl. now rewrite lookup_insert_ne.
Qed.

Lemma calm_same_loop (s s' : Relay.t) (c : Z) :
  same_loop s s' -> calm s c -> calm s' c.
Proof.
  intros (_ & Ht & Hr & Hm) [Hnt Hh].
  assert (Hon : forall j, on_channel s' c j <-> on_channel s c j)
    by (intros j; unfold on_channel; now rewrite Ht).
  split.
  - intros dl j Hin. rewrite Hm in Hin. rewrite Hon. now apply (Hnt dl j).
  - intros j Hj. rewrite Hr in Hj. unfold harmless. rewrite Ht. now apply Hh.
Qed.

Lemma sound_same_loop (s s' : Relay.t) : same_loop s s' -> sound s -> sound s'.
Proof.
  intros ((_ & _ & Hcur & _) & Ht & Hr & Hm) [[Hvr Hvt] Hrec].
  split; [split |].
  - intros j. rewrite Hr, Ht. apply Hvr.
  - intros dl j. rewrite Hm, Ht. apply Hvt.
  - intros ch old. rewrite Hcur. unfold on_channel. rewrite Ht. apply Hrec.
Qed.

(** The tasks on record and the channels, in the order of a traversal. *)
Definition recorded_tasks (s : Relay.t) : list nat := (map_to_list (Relay._relay_tasks s)).*2.
Definition known_channels (s : Relay.t) : list Z := (map_to_list (Relay.relay_pins s)).*1.

Lemma elem_of_recorded_tasks (s : Relay.t) (tid : nat) :
  tid ∈ recorded_tasks s <-> exists ch, Relay._relay_tasks s !! ch = Some tid.
Proof.
  unfold recorded_tasks. rewrite list_elem_of_fmap. split.
  - intros ([ch t] & -> & Hin). exists ch. now apply elem_of_map_to_list in Hin.
  - intros [ch Hch]. exists (ch, tid). split; [reflexivity |].
    now apply elem_of_map_to_list.
Qed.

Lemma elem_of_known_channels (s : Relay.t) (c : Z) :
  c ∈ known_channels s <-> is_Some (Relay.relay_pins s !! c).
Proof.
  unfold known_channels. rewrite list_elem_of_fmap. split.
  - intros ([ch p] & -> & Hin). exists p. now apply elem_of_map_to_list in Hin.
  - intros [p Hp]. exists (c, p). split; [reflexivity |].
    now apply elem_of_map_to_list.
Qed.

(** The state [emergency_stop_all] leaves. *)
Lemma emergency_stop_all_eq (tids : list nat) (channels : list Z) (s : Relay.t) :
  inv s ->
  tids ≡ₚ recorded_tasks s ->
  channels ≡ₚ known_channels s ->
  exists s',
    Relay.emergency_stop_all tids channels s = (Ok tt, s')
    /\ same_loop (cancel_all tids s) s'
    /\ sound s'
    /\ forall c, is_Some (Relay.relay_pins s !! c) -> stopped s' c.
Proof.
  intros [Hs Hph] Htids Hch.
  unfold Relay.emergency_stop_all. fold (cancel_all tids s).
  destruct (cancel_all_setup tids s) as (Hsetup & Hst & _ & Hsound).
  destruct (switch_off_eq channels (cancel_all tids s)) as (s' & -> & Hloop & Hin & _).
  { intros c Hc. destruct Hsetup as (_ & -> & _). apply elem_of_known_channels.
    now rewrite <- Hch. }
  exists s'. split; [reflexivity |]. split; [exact Hloop |].
  split; [apply (sound_same_loop _ _ Hloop); now apply Hsound |].
  intros c Hk.
  assert (Hoff : Relay.get_relay_state c s' = false).
  { unfold Relay.get_relay_state. rewrite Hin; [reflexivity |].
    rewrite Hch. now apply elem_of_known_channels. }
  split; [| exact Hoff].
  apply calm_off_closing; [| exact Hoff].
  apply (calm_same_loop _ _ c Hloop).
  apply cancel_all_settles; [apply Hs | now apply Hph | |].
  - intros tid Hin'. apply elem_of_recorded_tasks. now rewrite <- Htids.
  - intros T HT. rewrite Htids. apply elem_of_recorded_tasks. now exists c.
Qed.

(** X18.  [emergency_stop_all] returns without an error, with every channel
    of the controller off, in whatever order it goes through the tasks and
    the channels.  The channels stay off afterwards: no step of a cancelled
    task and no tick of the clock switches a channel on again, until
    [activate_relay] is called for that channel. *)
Theorem emergency_stop_all_stops (cfg : Config.t) (es : list Relay.event)
    (tids : list nat) (channels : list Z) :
  let s := Relay.run es (Relay.initialize (Relay.init cfg)) in
  tids ≡ₚ recorded_tasks s ->
  channels ≡ₚ known_channels s ->
  exists s',
    Relay.emergency_stop_all tids channels s = (Ok tt, s')
    /\ forall c rest,
         is_Some (Relay.relay_pins s !! c) ->
         existsb (Relay.activates c) rest = false ->
         Relay.get_relay_state c (Relay.run rest s') = false.
Proof.
  intros s Htids Hch.
  assert (Hinv : inv s) by (apply inv_run, inv_start).
  destruct (emergency_stop_all_eq tids channels s Hinv Htids Hch)
    as (s' & Hrun & Hloop & Hsound & Hstop).
  exists s'. split; [exact Hrun |].
  intros c rest Hk Hno.
  apply (stopped_run c rest s'); [exact Hsound | | exact Hno | now apply Hstop].
  destruct Hloop as ((_ & -> & _) & _).
  destruct (cancel_all_setup tids s) as ((_ & -> & _) & _). exact Hk.
Qed.

(** A turnstile on real pins with both channels opened, one tick apart. *)
Definition stop_config : Config.t :=
  Config.init "turnstile_001" Config.Turnstile Config.Production 18 19 3 true 1000 true.

Definition both_open : list Relay.event :=
  [Relay.Activate 1 (Some 5%nat); Relay.Tick; Relay.Activate 2 None; Relay.Tick].

Lemma emergency_stop_all_stops_witness :
  let s := Relay.run both_open (Relay.initialize (Relay.init stop_config)) in
  exists s',
    Relay.emergency_stop_all (recorded_tasks s) (known_channels s) s = (Ok tt, s')
    /\ forall c rest,
         is_Some (Relay.relay_pins s !! c) ->
         existsb (Relay.activates c) rest = false ->
         Relay.get_relay_state c (Relay.run rest s') = false.
Proof.
  apply (emergency_stop_all_stops stop_config both_open); reflexivity.
Defined.

(** The same stop, evaluated: both channels are on before it and off after
    it, and still off three ticks later. *)
Example emergency_stop_all_example :
  let s := Relay.run both_open (Relay.initialize (Relay.init stop_config)) in
  let s' := snd (Relay.emergency_stop_all (recorded_tasks s) (known_channels s) s) in
  (Relay.get_relay_state 1 s, Relay.get_relay_state 2 s) = (true, true)
  /\ (Relay.get_relay_state 1 s', Relay.get_relay_state 2 s') = (false, false)
  /\ Relay.gpio s' !! 18 = Some false /\ Relay.gpio s' !! 19 = Some false
  /\ Relay.get_relay_state 1 (Relay.run [Relay.Tick; Relay.Tick; Relay.Tick] s') = false.
Proof. vm_compute. repeat split. Qed.

(** *** Where a task that has not ended waits *)

(** Every task that has not ended is waited for somewhere: a task that has
    not begun has its first step queued; a sleeping task has its wake-up
    queued or, if it is not cancelled, a timer set. *)
Definition placed (s : Relay.t) : Prop :=
  forall tid tk,
    Relay.tasks s !! tid = Some tk ->
    match Relay.t_stage tk with
    | Relay.Finished _ => True
    | Relay.NotStarted => tid ∈ Relay.ready s
    | Relay.AtSleep =>
        tid ∈ Relay.ready s
        \/ (Relay.t_must_cancel tk = false /\ exists dl, (dl, tid) ∈ Relay.timers s)
    end.

Lemma ended_stage (tk : Relay.task) :
  ended tk ->
  match Relay.t_stage tk with
  | Relay.Finished _ => True
  | Relay.NotStarted => False
  | Relay.AtSleep => False
  end.
Proof. intros [o ->]. exact I. Qed.

Lemma placed_step (s : Relay.t) (tid : nat) (r : list nat) :
  Relay.ready s = tid :: r -> placed s -> placed (Relay.step_task tid (popped r s)).
Proof.
  intros Hr Hp.
  destruct (step_task_effect tid (popped r s)) as (_ & Hsame & Heff).
  set (s' := Relay.step_task tid (popped r s)) in *.
  destruct Hsame as (_ & Hother & _). unpop.
  assert (Hready : forall j, j ∈ r -> j ∈ Relay.ready s').
  { intros j Hj.
    destruct Heff as [_ _ _ H _ _ | ch d _ _ _ _ [(_ & H & _) | (_ & H & _)]
                     | ch d _ _ _ H _ _ | tk _ _ _ H _ _]; rewrite H; unpop;
      try exact Hj; try (apply elem_of_app; now left). }
  assert (Htimers : forall p, p ∈ Relay.timers s -> p ∈ Relay.timers s').
  { intros p Hp'.
    destruct Heff as [_ _ _ _ H _ | ch d _ _ _ _ [(_ & _ & H) | (_ & _ & H)]
                     | ch d _ _ _ _ H _ | tk _ _ _ _ H _]; rewrite H; unpop;
      try exact Hp'; try (apply elem_of_app; now left). }
  intros j tk Htk.
  destruct (decide (j = tid)) as [-> | Hne].
  - destruct Heff as [_ Hend _ _ _ _ | ch d _ _ Hnew _ Hwhere
                     | ch d _ _ Hend _ _ _ | tk0 _ _ Hend _ _ _].
    + specialize (Hend tk Htk). destruct Hend as [o ->]. exact I.
    + rewrite Hnew in Htk. injection Htk as <-. cbn.
      destruct Hwhere as [(_ & H & _) | (_ & _ & H)].
      * left. rewrite H. apply elem_of_app. right. now left.
      * right. split; [reflexivity |]. eexists. rewrite H. apply elem_of_app. right. now left.
    + specialize (Hend tk Htk). destruct Hend as [o ->]. exact I.
    + specialize (Hend tk Htk). destruct Hend as [o ->]. exact I.
  - rewrite (Hother j Hne) in Htk. unpop. specialize (Hp j tk Htk).
    assert (Hin : j ∈ Relay.ready s -> j ∈ Relay.ready s').
    { rewrite Hr. intros H. apply elem_of_cons in H as [-> | H]; [contradiction |].
      now apply Hready. }
    destruct (Relay.t_stage tk); [now apply Hin | | exact I].
    destruct Hp as [H | (Hm & dl & H)]; [left; now apply Hin |].
    right. split; [exact Hm |]. exists dl. now apply Htimers.
Qed.

Lemma placed_drain (n : nat) (s : Relay.t) : placed s -> placed (Relay.drain n s).
Proof.
  revert s. induction n as [| n IH]; intros s Hp; [exact Hp |].
  destruct (Relay.ready s) as [| tid r] eqn:Hr.
  - now rewrite drain_nil.
  - rewrite (drain_cons n s tid r Hr). apply IH. now apply placed_step.
Qed.

Lemma placed_fired (s : Relay.t) : placed s -> placed (Relay.fire_timers s).
Proof.
  intros Hp j tk Htk. specialize (Hp j tk Htk). simpl.
  destruct (Relay.t_stage tk); [apply elem_of_app; now left | | exact I].
  destruct Hp as [H | (Hm & dl & H)]; [left; apply elem_of_app; now left |].
  destruct (Nat.leb dl (S (Relay.now s))) eqn:Hdue.
  - left. apply elem_of_app. right. apply list_elem_of_fmap. exists (dl, j).
    split; [reflexivity |]. apply elem_of_List_filter. now split.
  - right. split; [exact Hm |]. exists dl. apply elem_of_List_filter.
    split; [exact H |]. simpl. now rewrite Hdue.
Qed.

Lemma placed_cancel (tid : nat) (s : Relay.t) : placed s -> placed (Relay.cancel tid s).
Proof.
  intros Hp.
  destruct (cancel_effect tid s)
    as (_ & (_ & Hother & Hself) & _ & Hnew & Hready & _ & Hkept & Hgone).
  cbv zeta in *.
  assert (Hin : forall j, j ∈ Relay.ready s -> j ∈ Relay.ready (Relay.cancel tid s)).
  { intros j Hj. destruct Hready as [-> | [-> _]]; [exact Hj |].
    apply elem_of_app. now left. }
  intros j tk' Htk'.
  destruct (decide (j = tid)) as [-> | Hne].
  - destruct (Relay.tasks s !! tid) as [tk |] eqn:Htk.
    2: { unfold Relay.cancel in Htk'. rewrite Htk in Htk'. congruence. }
    specialize (Hp tid tk Htk).
    destruct (Relay.t_stage tk) as [| | o] eqn:Hst.
    + (* not begun: the request is recorded, the queue is as before *)
      unfold Relay.cancel in Htk' |- *. rewrite Htk, Hst in Htk' |- *.
      simpl in Htk'. rewrite list_lookup_insert_eq in Htk'
        by (eapply lookup_lt_Some; eauto).
      injection Htk' as <-. cbn. rewrite Hst. exact Hp.
    + destruct (Hself tk eq_refl) as (tk2 & Htk2 & _ & _ & _ & Hns).
      rewrite Htk' in Htk2. injection Htk2 as <-.
      destruct (Relay.t_stage tk') eqn:Hst'; [| | exact I].
      * exfalso. apply Hns; [rewrite Hst; discriminate | reflexivity].
      * left. destruct Hp as [H | (_ & dl & H)]; [now apply Hin |].
        unfold Relay.cancel. rewrite Htk, Hst.
        assert (Hhas : Relay.has_timer tid s = true).
        { unfold Relay.has_timer. apply existsb_exists. exists (dl, tid).
          split; [now apply list_elem_of_In | simpl; apply Nat.eqb_refl]. }
        rewrite Hhas. simpl. apply elem_of_app. right. now left.
    + unfold Relay.cancel in Htk'. rewrite Htk, Hst in Htk'.
      rewrite Htk in Htk'. injection Htk' as <-. now rewrite Hst.
  - rewrite (Hother j Hne) in Htk'. specialize (Hp j tk' Htk').
    destruct (Relay.t_stage tk'); [now apply Hin | | exact I].
    destruct Hp as [H | (Hm & dl & H)]; [left; now apply Hin |].
    right. split; [exact Hm |]. exists dl. now apply Hkept.
Qed.

Lemma placed_activate (ch : Z) (duration : option nat) (s : Relay.t) :
  placed s -> placed (snd (Relay.activate_relay ch duration s)).
Proof.
  intros Hp.
  destruct (Relay.relay_pins s !! ch) as [pin |] eqn:Hpin.
  2: { now rewrite activate_relay_unknown by exact Hpin. }
  rewrite (activate_relay_eq ch duration s pin Hpin). cbv zeta. cbn [snd].
  assert (Hp1 : placed (cancelled ch s)).
  { unfold cancelled. destruct (Relay._relay_tasks s !! ch); [| exact Hp].
    now apply placed_cancel. }
  set (s1 := cancelled ch s) in *.
  intros j tk Htk. simpl in Htk |- *.
  apply lookup_app_Some in Htk as [Htk | [Hge Htk]].
  - specialize (Hp1 j tk Htk).
    destruct (Relay.t_stage tk); [apply elem_of_app; now left | | exact I].
    destruct Hp1 as [H | H]; [left; apply elem_of_app; now left | now right].
  - destruct (j - length (Relay.tasks s1))%nat as [| k] eqn:Hk; [| now destruct k].
    simpl in Htk. injection Htk as <-. cbn.
    apply elem_of_app. right. assert (j = length (Relay.tasks s1)) as -> by lia. now left.
Qed.

Lemma placed_event (e : Relay.event) (s : Relay.t) : placed s -> placed (Relay.do_event e s).
Proof.
  intros Hp. destruct e as [ch d | |]; simpl.
  - now apply placed_activate.
  - rewrite step_drain. now apply placed_drain.
  - unfold Relay.tick, Relay.run_ready. now apply placed_fired, placed_drain.
Qed.

Lemma placed_run (es : list Relay.event) (s : Relay.t) : placed s -> placed (Relay.run es s).
Proof.
  revert s. induction es as [| e es IH]; intros s H; [exact H |].
  simpl. apply IH. now apply placed_event.
Qed.

Lemma placed_start (cfg : Config.t) : placed (Relay.initialize (Relay.init cfg)).
Proof. intros j tk H. simpl in H. now rewrite lookup_nil in H. Qed.

(** *** Waiting for the cancelled tasks *)

(** A task on which [cancel] was called, or that had ended. *)
Definition marked (s : Relay.t) (tid : nat) : Prop :=
  exists tk, Relay.tasks s !! tid = Some tk
             /\ (Relay.is_done tk = true \/ Relay.t_must_cancel tk = true).

Lemma ended_is_done (tk : Relay.task) : ended tk <-> Relay.is_done tk = true.
Proof.
  unfold ended, Relay.is_done. destruct (Relay.t_stage tk); split;
    try discriminate; try (intros [o H]; discriminate); eauto.
Qed.

Lemma step_task_done_same (tid j : nat) (s : Relay.t) (tk : Relay.task) :
  Relay.tasks s !! j = Some tk -> Relay.is_done tk = true ->
  Relay.tasks (Relay.step_task tid s) !! j = Some tk.
Proof.
  intros Htk Hdone. destruct (decide (j = tid)) as [-> | Hne].
  - unfold Relay.step_task. rewrite Htk. unfold Relay.is_done in Hdone.
    destruct (Relay.t_stage tk); try discriminate. exact Htk.
  - destruct (step_task_effect tid s) as (_ & (_ & Hother & _) & _).
    now rewrite (Hother j Hne).
Qed.

Lemma marked_step (tid j : nat) (s : Relay.t) :
  marked s j -> marked (Relay.step_task tid s) j.
Proof.
  intros (tk & Htk & [Hdone | Hm]).
  - exists tk. split; [now apply step_task_done_same | now left].
  - destruct (step_task_effect tid s) as (_ & (_ & Hother & Hself) & _).
    destruct (decide (j = tid)) as [-> | Hne].
    + destruct (Hself tk Htk) as (tk' & Htk' & _ & _ & Hmono & _).
      exists tk'. split; [exact Htk' | right; now apply Hmono].
    + exists tk. split; [now rewrite (Hother j Hne) | now right].
Qed.

Lemma marked_drain (n : nat) (s : Relay.t) (j : nat) :
  marked s j -> marked (Relay.drain n s) j.
Proof.
  revert s. induction n as [| n IH]; intros s H; [exact H |].
  destruct (Relay.ready s) as [| tid r] eqn:Hr.
  - now rewrite drain_nil.
  - rewrite (drain_cons n s tid r Hr). apply IH. now apply marked_step.
Qed.

Lemma marked_cancel (tid j : nat) (s : Relay.t) :
  marked s j -> marked (Relay.cancel tid s) j.
Proof.
  intros (tk & Htk & Hmark).
  destruct (cancel_effect tid s) as (_ & (_ & Hother & Hself) & _ & Hnew & _).
  cbv zeta in *.
  destruct (decide (j = tid)) as [-> | Hne].
  - destruct (Hself tk Htk) as (tk' & Htk' & _).
    exists tk'. split; [exact Htk' |].
    destruct (Hnew tk' Htk') as [H | H]; [left; now apply ended_is_done | now right].
  - exists tk. split; [now rewrite (Hother j Hne) | exact Hmark].
Qed.

Lemma cancel_marks (tid : nat) (s : Relay.t) :
  is_Some (Relay.tasks s !! tid) -> marked (Relay.cancel tid s) tid.
Proof.
  intros [tk Htk].
  destruct (cancel_effect tid s) as (_ & (_ & _ & Hself) & _ & Hnew & _).
  cbv zeta in *.
  destruct (Hself tk Htk) as (tk' & Htk' & _).
  exists tk'. split; [exact Htk' |].
  destruct (Hnew tk' Htk') as [H | H]; [left; now apply ended_is_done | now right].
Qed.

Lemma cancel_all_marked (tids : list nat) (j : nat) :
  forall s, marked s j -> marked (cancel_all tids s) j.
Proof.
  induction tids as [| tid tids IH]; intros s H; [exact H |].
  rewrite cancel_all_cons. apply IH. now apply marked_cancel.
Qed.

Lemma cancel_all_marks (tids : list nat) (j : nat) :
  forall s, j ∈ tids -> is_Some (Relay.tasks s !! j) -> marked (cancel_all tids s) j.
Proof.
  induction tids as [| tid tids IH]; intros s Hin Hj; [now apply elem_of_nil in Hin |].
  rewrite cancel_all_cons.
  apply elem_of_cons in Hin as [-> | Hin].
  - apply cancel_all_marked. now apply cancel_marks.
  - apply IH; [exact Hin |].
    destruct (cancel_effect tid s) as (_ & (Hlen & _) & _). cbv zeta in *.
    apply lookup_lt_is_Some. rewrite Hlen. now apply lookup_lt_is_Some.
Qed.

(** Once the queue has run, a marked task has ended. *)
Lemma marked_done (s : Relay.t) (j : nat) :
  placed s -> marked s j ->
  exists tk, Relay.tasks (Relay.run_ready s) !! j = Some tk /\ Relay.is_done tk = true.
Proof.
  intros Hp Hm.
  pose proof (placed_drain (Relay.weight s) s Hp) as Hp'.
  pose proof (marked_drain (Relay.weight s) s j Hm) as (tk & Htk & Hmark).
  fold (Relay.run_ready s) in *.
  exists tk. split; [exact Htk |].
  destruct Hmark as [Hdone | Hmc]; [exact Hdone |].
  specialize (Hp' j tk Htk). rewrite run_ready_empties in Hp'.
  unfold Relay.is_done.
  destruct (Relay.t_stage tk); [now apply elem_of_nil in Hp' | | reflexivity].
  destruct Hp' as [H | (Hf & _)]; [now apply elem_of_nil in H | congruence].
Qed.

Lemma placed_same_loop (s s' : Relay.t) : same_loop s s' -> placed s -> placed s'.
Proof.
  intros (_ & Ht & Hr & Hm) Hp j tk. rewrite Ht, Hr, Hm. apply Hp.
Qed.

Lemma marked_same_loop (s s' : Relay.t) (j : nat) :
  same_loop s s' -> marked s j -> marked s' j.
Proof. intros (_ & Ht & _) H. unfold marked. now rewrite Ht. Qed.

Lemma cancel_all_placed (tids : list nat) (s : Relay.t) :
  placed s -> placed (cancel_all tids s).
Proof.
  revert s. induction tids as [| tid tids IH]; intros s H; [exact H |].
  rewrite cancel_all_cons. apply IH. now apply placed_cancel.
Qed.

(** The pins [release_pins] has gone through are outputs no more. *)
Lemma release_pins_released (channels : list Z) (s : Relay.t) (c pin : Z) :
  c ∈ channels -> Relay.relay_pins s !! c = Some pin ->
  Relay.gpio (Relay.release_pins channels s) !! pin = None.
Proof.
  intros Hin Hpin. unfold Relay.release_pins. simpl.
  generalize (Relay.gpio s). revert Hin.
  assert (Hkeep : forall (l : list Z) (g : gmap Z bool), g !! pin = None ->
            fold_left (fun g channel => match Relay.relay_pins s !! channel with
                                        | Some pin => delete pin g
                                        | None => g
                                        end) l g !! pin = None).
  { induction l as [| ch l IH]; intros g Hg; [exact Hg |].
    simpl. apply IH. destruct (Relay.relay_pins s !! ch) as [p |]; [| exact Hg].
    destruct (decide (p = pin)) as [-> | Hne];
      [apply lookup_delete_eq | now rewrite lookup_delete_ne]. }
  induction channels as [| ch channels IH]; intros Hin g;
    [now apply elem_of_nil in Hin |].
  simpl. apply elem_of_cons in Hin as [<- | Hin].
  - apply Hkeep. rewrite Hpin. apply lookup_delete_eq.
  - now apply IH.
Qed.

(** X19.  [cleanup] returns: the wait for the relay tasks ends once the loop
    has run its queue, because every task on record has ended or was
    cancelled by the stop before.  It raises nothing, and when it returns
    every task on record has ended, every channel is off, and outside test
    mode the pin of every channel has been released. *)
Theorem cleanup_returns (cfg : Config.t) (es : list Relay.event)
    (tids : list nat) (channels : list Z) :
  let s := Relay.run es (Relay.initialize (Relay.init cfg)) in
  tids ≡ₚ recorded_tasks s ->
  channels ≡ₚ known_channels s ->
  exists s',
    Relay.cleanup tids channels s = Some (Ok tt, s')
    /\ (forall c T, Relay._relay_tasks s !! c = Some T ->
          exists tk, Relay.tasks s' !! T = Some tk /\ Relay.is_done tk = true)
    /\ (forall c pin, Relay.relay_pins s !! c = Some pin ->
          Relay.get_relay_state c s' = false
          /\ (Config.is_test_mode cfg = false -> Relay.gpio s' !! pin = None)).
Proof.
  intros s Htids Hch.
  assert (Hinv : inv s) by (apply inv_run, inv_start).
  assert (Hpl : placed s) by (apply placed_run, placed_start).
  assert (Hcfg : Relay.config s = cfg /\ Relay.relay_pins s = Relay.init_pins cfg).
  { destruct (run_setup es (Relay.initialize (Relay.init cfg))) as [H1 H2].
    split; [exact H1 | exact H2]. }
  destruct (emergency_stop_all_eq tids channels s Hinv Htids Hch)
    as (s1 & Hrun & Hloop & Hsound & Hstop).
  unfold Relay.cleanup. rewrite Hrun.
  assert (Hsetup1 : same_setup s s1).
  { eapply same_setup_trans; [apply cancel_all_setup | apply Hloop]. }
  assert (Hpl1 : placed s1).
  { apply (placed_same_loop _ _ Hloop). now apply cancel_all_placed. }
  assert (Hmark1 : forall j, j ∈ tids -> marked s1 j).
  { intros j Hj. apply (marked_same_loop _ _ j Hloop). apply cancel_all_marks; [exact Hj |].
    rewrite Htids in Hj. apply elem_of_recorded_tasks in Hj as [ch Hj].
    destruct Hinv as [[_ Hrec] _]. destruct (Hrec ch j Hj) as (tk & Htk & _). now exists tk. }
  set (s2 := match tids with [] => s1 | _ :: _ => Relay.run_ready s1 end).
  assert (Hsetup2 : same_setup s1 s2).
  { subst s2. destruct tids; [repeat split | apply drain_same_setup]. }
  assert (Hdone : forall j, j ∈ tids ->
            exists tk, Relay.tasks s2 !! j = Some tk /\ Relay.is_done tk = true).
  { intros j Hj. subst s2. destruct tids as [| t0 tids']; [now apply elem_of_nil in Hj |].
    apply marked_done; [exact Hpl1 | now apply Hmark1]. }
  assert (Hstop2 : forall c, is_Some (Relay.relay_pins s !! c) -> stopped s2 c).
  { intros c Hk. subst s2. destruct tids; [now apply Hstop |].
    apply stopped_drain; [| now apply Hstop].
    apply known_can_set. destruct Hsetup1 as (_ & -> & _). exact Hk. }
  assert (Hall : Relay.all_done tids s2 = true).
  { unfold Relay.all_done. apply forallb_forall. intros j Hj.
    apply list_elem_of_In in Hj. destruct (Hdone j Hj) as (tk & -> & Hd). exact Hd. }
  rewrite Hall.
  assert (Hcfg2 : Relay.config s2 = cfg /\ Relay.relay_pins s2 = Relay.relay_pins s).
  { destruct Hsetup1 as (C1 & P1 & _), Hsetup2 as (C2 & P2 & _), Hcfg as [C0 _].
    split; congruence. }
  destruct Hcfg2 as [Hc2 Hp2]. rewrite Hc2.
  eexists. split; [reflexivity |].
  split.
  - intros c T HT.
    assert (HTin : T ∈ tids).
    { rewrite Htids. apply elem_of_recorded_tasks. now exists c. }
    destruct (Hdone T HTin) as (tk & Htk & Hd). exists tk.
    split; [| exact Hd]. now destruct (Config.is_test_mode cfg).
  - intros c pin Hpin.
    assert (Hk : is_Some (Relay.relay_pins s !! c)) by now exists pin.
    destruct (Hstop2 c Hk) as [_ Hoff].
    split; [now destruct (Config.is_test_mode cfg) |].
    intros ->. apply (release_pins_released channels s2 c pin).
    + rewrite Hch. now apply elem_of_known_channels.
    + now rewrite Hp2.
Qed.

Lemma cleanup_returns_witness :
  let s := Relay.run both_open (Relay.initialize (Relay.init stop_config)) in
  exists s',
    Relay.cleanup (recorded_tasks s) (known_channels s) s = Some (Ok tt, s')
    /\ (forall c T, Relay._relay_tasks s !! c = Some T ->
          exists tk, Relay.tasks s' !! T = Some tk /\ Relay.is_done tk = true)
    /\ (forall c pin, Relay.relay_pins s !! c = Some pin ->
          Relay.get_relay_state c s' = false
          /\ (Config.is_test_mode stop_config = false -> Relay.gpio s' !! pin = None)).
Proof.
  apply (cleanup_returns stop_config both_open); reflexivity.
Defined.

(** *** What the caller of [activate_relay] gets *)

(** What the caller that awaits task [T] has in hand: nothing while the
    task runs, then the value returned or the exception raised at its
    [await] (lines 70-75). *)
Definition awaited (T : nat) (s : Relay.t) : option (res bool) :=
  match Relay.tasks s !! T with
  | Some tk =>
      match Relay.t_stage tk with
      | Relay.Finished o => Some (Relay.activate_relay_result o)
      | _ => None
      end
  | None => None
  end.

Lemma step_task_wakes (tid : nat) (s : Relay.t) (tk : Relay.task) :
  Relay.tasks s !! tid = Some tk ->
  Relay.t_stage tk = Relay.AtSleep ->
  can_set s (Relay.t_channel tk) = true ->
  Relay.tasks (Relay.step_task tid s) !! tid
  = Some (Relay.with_stage
            (Relay.Finished (if Relay.t_must_cancel tk then Relay.Cancelled
                             else Relay.Completed)) tk).
Proof.
  intros Htk Hst Hcan. unfold Relay.step_task. rewrite Htk, Hst.
  destruct (set_relay_state_ok (Relay.t_channel tk) false s Hcan) as [g ->].
  simpl. apply list_lookup_insert_eq. eapply lookup_lt_Some; eauto.
Qed.

Lemma step_task_never_begins (tid : nat) (s : Relay.t) (tk : Relay.task) :
  Relay.tasks s !! tid = Some tk ->
  Relay.t_stage tk = Relay.NotStarted ->
  Relay.t_must_cancel tk = true ->
  Relay.tasks (Relay.step_task tid s) !! tid
  = Some (Relay.with_stage (Relay.Finished Relay.Cancelled) tk).
Proof.
  intros Htk Hst Hmc. unfold Relay.step_task. rewrite Htk, Hst, Hmc.
  simpl. apply list_lookup_insert_eq. eapply lookup_lt_Some; eauto.
Qed.

Lemma cancel_done_same (tid j : nat) (s : Relay.t) (tk : Relay.task) :
  Relay.tasks s !! j = Some tk -> Relay.is_done tk = true ->
  Relay.tasks (Relay.cancel tid s) !! j = Some tk.
Proof.
  intros Htk Hdone. destruct (decide (j = tid)) as [-> | Hne].
  - unfold Relay.cancel. rewrite Htk. unfold Relay.is_done in Hdone.
    destruct (Relay.t_stage tk); try discriminate. exact Htk.
  - destruct (cancel_effect tid s) as (_ & (_ & Hother & _) & _). cbv zeta in *.
    now rewrite (Hother j Hne).
Qed.

(** Task [T] is cancelled: it has ended so, or will at its next step. *)
Definition doomed (s : Relay.t) (T : nat) : Prop :=
  exists tk,
    Relay.tasks s !! T = Some tk
    /\ can_set s (Relay.t_channel tk) = true
    /\ (Relay.t_stage tk = Relay.Finished Relay.Cancelled
        \/ (Relay.is_done tk = false /\ Relay.t_must_cancel tk = true)).

Lemma doomed_step (tid T : nat) (s : Relay.t) : doomed s T -> doomed (Relay.step_task tid s) T.
Proof.
  intros (tk & Htk & Hcan & Hcase).
  destruct (step_task_effect tid s) as (Hsetup & (_ & Hother & _) & _).
  assert (Hcan' : forall ch, can_set (Relay.step_task tid s) ch = can_set s ch)
    by (intros ch; now apply can_set_same).
  destruct (decide (T = tid)) as [-> | Hne].
  2: { exists tk. rewrite Hcan'. now rewrite (Hother T Hne). }
  destruct Hcase as [Hfin | [Hnd Hmc]].
  - exists tk. rewrite Hcan'. split; [| split; [exact Hcan | now left]].
    apply step_task_done_same; [exact Htk |]. unfold Relay.is_done. now rewrite Hfin.
  - unfold Relay.is_done in Hnd.
    destruct (Relay.t_stage tk) eqn:Hst; [| | discriminate].
    + eexists. split; [exact (step_task_never_begins tid s tk Htk Hst Hmc) |].
      rewrite Hcan'. split; [exact Hcan | now left].
    + eexists. split; [exact (step_task_wakes tid s tk Htk Hst Hcan) |].
      rewrite Hcan', Hmc. split; [exact Hcan | now left].
Qed.

Lemma doomed_drain (n : nat) (s : Relay.t) (T : nat) :
  doomed s T -> doomed (Relay.drain n s) T.
Proof.
  revert s. induction n as [| n IH]; intros s H; [exact H |].
  destruct (Relay.ready s) as [| tid r] eqn:Hr.
  - now rewrite drain_nil.
  - rewrite (drain_cons n s tid r Hr). apply IH. now apply (doomed_step tid T (popped r s)).
Qed.

Lemma doomed_cancel (tid T : nat) (s : Relay.t) : doomed s T -> doomed (Relay.cancel tid s) T.
Proof.
  intros (tk & Htk & Hcan & Hcase).
  destruct (cancel_effect tid s) as (Hsetup & (_ & Hother & Hself) & _). cbv zeta in *.
  assert (Hcan' : forall ch, can_set (Relay.cancel tid s) ch = can_set s ch)
    by (intros ch; now apply can_set_same).
  destruct (decide (T = tid)) as [-> | Hne].
  2: { exists tk. rewrite Hcan'. now rewrite (Hother T Hne). }
  destruct Hcase as [Hfin | [Hnd Hmc]].
  - exists tk. rewrite Hcan'. split; [| split; [exact Hcan | now left]].
    apply cancel_done_same; [exact Htk |]. unfold Relay.is_done. now rewrite Hfin.
  - assert (Hnew : Relay.tasks (Relay.cancel tid s) !! tid = Some (Relay.with_must_cancel tk)).
    { assert (Hlt : (tid < length (Relay.tasks s))%nat) by (eapply lookup_lt_Some; eauto).
      unfold Relay.cancel. rewrite Htk. unfold Relay.is_done in Hnd.
      destruct (Relay.t_stage tk); [| | discriminate].
      - simpl. now apply list_lookup_insert_eq.
      - destruct (Relay.has_timer tid s); simpl; now apply list_lookup_insert_eq. }
    exists (Relay.with_must_cancel tk). split; [exact Hnew |].
    rewrite Hcan'. split; [exact Hcan |]. right. split; [exact Hnd | reflexivity].
Qed.

Lemma doomed_activate (ch : Z) (duration : option nat) (s : Relay.t) (T : nat) :
  doomed s T -> doomed (snd (Relay.activate_relay ch duration s)) T.
Proof.
  intros Hd.
  destruct (Relay.relay_pins s !! ch) as [pin |] eqn:Hpin.
  2: { now rewrite activate_relay_unknown by exact Hpin. }
  rewrite (activate_relay_eq ch duration s pin Hpin). cbv zeta. cbn [snd].
  assert (Hd1 : doomed (cancelled ch s) T).
  { unfold cancelled. destruct (Relay._relay_tasks s !! ch); [| exact Hd].
    now apply doomed_cancel. }
  destruct Hd1 as (tk & Htk & Hcan & Hcase).
  exists tk. split; [simpl; now apply lookup_app_l_Some |].
  split; [exact Hcan | exact Hcase].
Qed.

Lemma doomed_event (e : Relay.event) (s : Relay.t) (T : nat) :
  doomed s T -> doomed (Relay.do_event e s) T.
Proof.
  intros Hd. destruct e as [ch d | |]; simpl.
  - now apply doomed_activate.
  - rewrite step_drain. now apply doomed_drain.
  - unfold Relay.tick, Relay.run_ready.
    destruct (doomed_drain (Relay.weight s) s T Hd) as (tk & Htk & Hcan & Hcase).
    exists tk. split; [exact Htk | split; [exact Hcan | exact Hcase]].
Qed.

(** Once the queue has run, a cancelled task has ended, as cancelled. *)
Lemma doomed_settled (s : Relay.t) (T : nat) :
  placed s -> Relay.ready s = [] -> doomed s T ->
  awaited T s = Some (Raise CancelledError).
Proof.
  intros Hp Hr (tk & Htk & _ & Hcase). unfold awaited. rewrite Htk.
  destruct Hcase as [-> | [Hnd Hmc]]; [reflexivity |].
  specialize (Hp T tk Htk). rewrite Hr in Hp. unfold Relay.is_done in Hnd.
  destruct (Relay.t_stage tk); [now apply elem_of_nil in Hp | | discriminate].
  destruct Hp as [H | (Hf & _)]; [now apply elem_of_nil in H | congruence].
Qed.

(** A task that has ended stays as it is. *)
Lemma awaited_event (e : Relay.event) (s : Relay.t) (T : nat) (r : res bool) :
  awaited T s = Some r -> awaited T (Relay.do_event e s) = Some r.
Proof.
  unfold awaited. destruct (Relay.tasks s !! T) as [tk |] eqn:Htk; [| discriminate].
  destruct (Relay.t_stage tk) as [| | o] eqn:Hst; try discriminate.
  intros Hr.
  assert (Hdone : Relay.is_done tk = true) by (unfold Relay.is_done; now rewrite Hst).
  assert (Hdrain : forall n s0, Relay.tasks s0 !! T = Some tk ->
                                Relay.tasks (Relay.drain n s0) !! T = Some tk).
  { induction n as [| n IH]; intros s0 H0; [exact H0 |].
    destruct (Relay.ready s0) as [| tid r0] eqn:Hr0.
    - now rewrite drain_nil.
    - rewrite (drain_cons n s0 tid r0 Hr0). apply IH.
      now apply (step_task_done_same tid T (popped r0 s0)). }
  assert (Hsame : Relay.tasks (Relay.do_event e s) !! T = Some tk).
  { destruct e as [ch d | |]; simpl.
    - destruct (Relay.relay_pins s !! ch) as [pin |] eqn:Hpin.
      2: { now rewrite activate_relay_unknown by exact Hpin. }
      rewrite (activate_relay_eq ch d s pin Hpin). cbv zeta. cbn [snd]. simpl.
      apply lookup_app_l_Some. unfold cancelled.
      destruct (Relay._relay_tasks s !! ch); [| exact Htk]. now apply cancel_done_same.
    - rewrite step_drain. now apply Hdrain.
    - unfold Relay.tick, Relay.run_ready. simpl. now apply Hdrain. }
  rewrite Hsame, Hst. exact Hr.
Qed.

Lemma awaited_run (es : list Relay.event) (T : nat) (r : res bool) :
  forall s, awaited T s = Some r -> awaited T (Relay.run es s) = Some r.
Proof.
  induction es as [| e es IH]; intros s H; [exact H |].
  simpl. apply IH. now apply awaited_event.
Qed.

Lemma doomed_run (rest : list Relay.event) (T : nat) :
  forall s,
    placed s -> doomed s T -> (1 <= Relay.elapsed rest)%nat ->
    awaited T (Relay.run rest s) = Some (Raise CancelledError).
Proof.
  induction rest as [| e rest IH]; intros s Hp Hd Hel; [cbv in Hel; lia |].
  simpl. rewrite elapsed_cons in Hel.
  destruct e as [ch d | |].
  - apply IH; [now apply (placed_event (Relay.Activate ch d))
              | now apply (doomed_event (Relay.Activate ch d)) | exact Hel].
  - apply IH; [now apply (placed_event Relay.Step)
              | now apply (doomed_event Relay.Step) | exact Hel].
  - apply awaited_run. simpl. unfold Relay.tick.
    assert (H : awaited T (Relay.run_ready s) = Some (Raise CancelledError)).
    { apply doomed_settled; [now apply placed_drain | apply run_ready_empties
                            | now apply doomed_drain]. }
    exact H.
Qed.

(** X20.  A call of [activate_relay] that finds the task of an earlier call
    on the same channel still running cancels that task, and the earlier
    caller, which awaits it, gets [CancelledError] raised at its [await] as
    soon as the loop has run its queue and the clock has moved on: not
    [True], and not the [False] of the [except Exception] branch, which a
    [CancelledError] passes.  The new call awaits a task of its own. *)
Theorem superseded_call_is_cancelled (cfg : Config.t) (es : list Relay.event)
    (c pin : Z) (T : nat) (duration : option nat) :
  let s := Relay.run es (Relay.initialize (Relay.init cfg)) in
  Relay.relay_pins s !! c = Some pin ->
  Relay._relay_tasks s !! c = Some T ->
  awaited T s = None ->
  let s' := snd (Relay.activate_relay c duration s) in
  (exists T', fst (Relay.activate_relay c duration s) = Relay.Awaiting T' /\ T' <> T)
  /\ forall rest,
       (1 <= Relay.elapsed rest)%nat ->
       awaited T (Relay.run rest s') = Some (Raise CancelledError).
Proof.
  intros s Hpin Hcur Hwait s'.
  assert (Hinv : inv s) by (apply inv_run, inv_start).
  assert (Hpl : placed s) by (apply placed_run, placed_start).
  destruct Hinv as [[Hvalid Hrec] _].
  destruct (Hrec c T Hcur) as (tk & Htk & Hch).
  assert (Hnd : Relay.is_done tk = false).
  { unfold awaited in Hwait. rewrite Htk in Hwait. unfold Relay.is_done.
    now destruct (Relay.t_stage tk). }
  split.
  - rewrite (activate_relay_eq c duration s pin Hpin). cbv zeta. cbn [fst].
    eexists. split; [reflexivity |].
    destruct (cancelled_effect c s) as (_ & _ & Hlen & _). cbv zeta in Hlen.
    rewrite Hlen. apply lookup_lt_Some in Htk. lia.
  - intros rest Hel. apply doomed_run; [now apply placed_activate | | exact Hel].
    subst s'. rewrite (activate_relay_eq c duration s pin Hpin). cbv zeta. cbn [snd].
    assert (Hd : doomed (cancelled c s) T).
    { unfold cancelled. rewrite Hcur.
      destruct (cancel_marks T s) as (tk' & Htk' & Hmark); [now exists tk |].
      destruct (cancel_effect T s) as (Hsetup & (_ & _ & Hself) & _). cbv zeta in *.
      destruct (Hself tk Htk) as (tk2 & Htk2 & Hc2 & _).
      rewrite Htk' in Htk2. injection Htk2 as <-.
      exists tk'. split; [exact Htk' |].
      split.
      { rewrite (can_set_same _ _ _ Hsetup), Hc2, Hch. apply known_can_set. now exists pin. }
      destruct (Relay.is_done tk') eqn:Hd'; [| right; split; [reflexivity |]].
      - exfalso. unfold Relay.cancel in Htk'. rewrite Htk in Htk'.
        assert (Hlt : (T < length (Relay.tasks s))%nat) by (eapply lookup_lt_Some; eauto).
        unfold Relay.is_done in Hnd, Hd'.
        destruct (Relay.t_stage tk) eqn:Hst; [| | discriminate].
        + simpl in Htk'. rewrite list_lookup_insert_eq in Htk' by exact Hlt.
          injection Htk' as <-. simpl in Hd'. rewrite Hst in Hd'. discriminate.
        + destruct (Relay.has_timer T s); simpl in Htk';
            rewrite list_lookup_insert_eq in Htk' by exact Hlt;
            injection Htk' as <-; simpl in Hd'; rewrite Hst in Hd'; discriminate.
      - destruct Hmark as [H | H]; [congruence | exact H]. }
    destruct Hd as (tk' & Htk' & Hcan & Hcase).
    exists tk'. split; [simpl; now apply lookup_app_l_Some |].
    split; [exact Hcan | exact Hcase].
Qed.

Lemma superseded_call_is_cancelled_witness :
  let s := Relay.run [Relay.Activate 1 (Some 5%nat); Relay.Tick]
             (Relay.initialize (Relay.init stop_config)) in
  let s' := snd (Relay.activate_relay 1 None s) in
  (exists T', fst (Relay.activate_relay 1 None s) = Relay.Awaiting T' /\ T' <> 0%nat)
  /\ forall rest,
       (1 <= Relay.elapsed rest)%nat ->
       awaited 0 (Relay.run rest s') = Some (Raise CancelledError).
Proof.
  apply (superseded_call_is_cancelled stop_config
           [Relay.Activate 1 (Some 5%nat); Relay.Tick] 1 18 0 None); reflexivity.
Defined.

(** *** A call that is not superseded *)












(** Two calls on channel 1 and one on channel 2, evaluated: the first
    caller is cancelled, the second and the third get [True]. *)
Example callers_example :
  let s := Relay.run [Relay.Activate 1 (Some 5%nat); Relay.Tick; Relay.Activate 1 None;
                      Relay.Activate 2 (Some 1%nat); Relay.Tick; Relay.Tick; Relay.Tick;
                      Relay.Tick]
             (Relay.initialize (Relay.init stop_config)) in
  (awaited 0 s, awaited 1 s, awaited 2 s)
  = (Some (Raise CancelledError), Some (Ok true), Some (Ok true)).
Proof. vm_compute. reflexivity. Qed.

(** ** The manual opening (src/turnstile_controller.py) *)

Definition is_open_command (command : Json.dict) : bool :=
  match Builtins.dict_get "action" command with
  | Some (Json.Str action) => String.eqb action "open_turnstile"
  | _ => false
  end.

Lemma handle_websocket_command_eq (command : Json.dict) (w : Turnstile.t) :
  Turnstile._handle_websocket_command command w
  = if is_open_command command then
      let direction :=
        default (Json.Str "in") (Builtins.dict_get "direction" command) in
      let logged :=
        Turnstile.set_access_logger
          (snd (AccessLogger.log_access (Config.MAX_OFFLINE_LOGS (Turnstile.config w))
                  (Turnstile.clock w)
                  (Turnstile.access_log w "MANUAL_OPEN" direction (Json.Bool true))
                  (Turnstile.access_logger w))) w in
      (Ok tt, Turnstile.set_relay_controller
                (opened (Turnstile.config w) direction (Turnstile.relay_controller w))
                logged)
    else (Ok tt, w).
Proof.
  unfold Turnstile._handle_websocket_command, is_open_command, Py.try_except.
  destruct (Builtins.dict_get "action" command) as [[| b | action] |]; try reflexivity.
  destruct (String.eqb_spec action "open_turnstile") as [-> | Hne].
  - unfold Py.bind at 1. unfold Py.get at 1.
    unfold Py.bind at 1. rewrite call_log_access_eq.
    rewrite open_turnstile_eq. reflexivity.
  - revert Hne.
    do 14 (destruct action as [| [[] [] [] [] [] [] [] []] action];
           try (intros _; reflexivity)).
    destruct action; [intros Hne; now contradiction Hne | intros _; reflexivity].
Qed.

(** X22.  A command whose action is not 'open_turnstile' makes
    [_handle_websocket_command] return having changed nothing.  A manual
    opening is first logged, once, as an authorized access of the card
    'MANUAL_OPEN' in the requested direction ('in' when none is given), and
    queued offline exactly when the device is offline; then the turnstile
    is opened for that direction, which is where the handler awaits the
    relay task: how it ends from there is the relay task's affair, and a
    task that is cancelled raises [CancelledError] through the handler.
    The access is logged as authorized also when the direction names no
    channel of the device; nothing is opened then, no task is awaited and
    the handler returns. *)
Theorem manual_open_is_logged_then_opened (command : Json.dict) (w : Turnstile.t) :
  let out := Turnstile._handle_websocket_command command w in
  let w' := snd out in
  let direction := default (Json.Str "in") (Builtins.dict_get "direction" command) in
  let event := Turnstile.access_log w "MANUAL_OPEN" direction (Json.Bool true) in
  (is_open_command command = false -> out = (Ok tt, w))
  /\ (is_open_command command = true ->
      (exists extra,
         no_access_line extra
         /\ AccessLogger.records (Turnstile.access_logger w')
            = AccessLogger.records (Turnstile.access_logger w)
              ++ (AccessLogger.INFO,
                  AccessLogger.MsgAccess "MANUAL_O" direction (Json.Bool true)
                    (Json.Bool (negb (Turnstile.connection_online w)))) :: extra)
      /\ AccessLogger._offline_logs_cache (Turnstile.access_logger w')
         = (if Turnstile.connection_online w
            then AccessLogger._offline_logs_cache (Turnstile.access_logger w)
            else saved_cache (Config.MAX_OFFLINE_LOGS (Turnstile.config w)) event
                   (AccessLogger._offline_logs_cache (Turnstile.access_logger w)))
      /\ Turnstile.relay_controller w'
         = opened (Turnstile.config w) direction (Turnstile.relay_controller w)
      /\ (direction <> Json.Str "in" ->
          (direction <> Json.Str "out" \/ Config.is_turnstile (Turnstile.config w) = false) ->
          Turnstile.relay_controller w' = Turnstile.relay_controller w
          /\ fst out = Ok tt)).
Proof.
  intros out w' direction event. subst out w'.
  rewrite handle_websocket_command_eq. cbv zeta. fold direction. fold event.
  destruct (is_open_command command).
  2: { cbn [fst snd]. split; [reflexivity | discriminate]. }
  cbn [fst snd]. split; [discriminate |]. intros _.
  destruct (log_access_eq (Config.MAX_OFFLINE_LOGS (Turnstile.config w)) (Turnstile.clock w)
              event (Turnstile.access_logger w))
    as (l' & extra & Heq & _ & Hno & Hcase).
  rewrite Heq. cbn [snd Turnstile.access_logger Turnstile.set_relay_controller
                    Turnstile.set_access_logger Turnstile.relay_controller].
  cbv zeta in Hcase.
  assert (Hts : AccessLogger.with_timestamp (Turnstile.clock w) event = event) by reflexivity.
  rewrite Hts in Hcase.
  assert (Hfields : log_line_fields event
                    = Some ("MANUAL_O", direction, Json.Bool true)) by reflexivity.
  rewrite Hfields in Hcase.
  assert (Hflag : AccessLogger.offline_flag event
                  = Json.Bool (negb (Turnstile.connection_online w))) by reflexivity.
  rewrite Hflag in Hcase. destruct Hcase as [Hrec Hcache].
  split; [exists extra; now split |].
  split.
  { rewrite Hcache. cbn [Builtins.truthy]. now destruct (Turnstile.connection_online w). }
  split; [reflexivity |].
  intros Hin Hout. unfold opened.
  assert (E1 : Turnstile.value_eqb direction (Json.Str "in") = false).
  { destruct direction as [| b | d]; try reflexivity. simpl.
    apply String.eqb_neq. congruence. }
  rewrite E1.
  destruct Hout as [Hout | Hdoor].
  - assert (E2 : Turnstile.value_eqb direction (Json.Str "out") = false).
    { destruct direction as [| b | d]; try reflexivity. simpl.
      apply String.eqb_neq. congruence. }
    now rewrite E2.
  - rewrite Hdoor. now rewrite andb_false_r.
Qed.
